(** * icsmap: an open-addressing hash map over fixed-size byte records

    A shallow embedding of [icsmap.c] and the properties of its probe
    engine, growth rule and export routines.

    Conventions of the embedding.
    - [uint32_t] values are integers of [Z]; every C operation that can
      leave the range is wrapped with [u32].
    - A pointer that the map handles is either [NULL], the [tombstone]
      sentinel [(map_entry)0xffffffff], or a pointer [Ptr bs] to a buffer
      whose readable bytes are [bs].  Each record buffer is owned by one
      slot, so the slot array carries the buffers themselves.
    - A C call either returns ([Ret]) or stops ([Stop]): on a read or write
      through an invalid pointer or outside a buffer, on a failed [assert]
      (the source defines no [NDEBUG]), on a division by zero, or because a
      loop never exits.
    - [malloc] succeeds or fails as an explicit boolean argument of the
      operation that calls it.
    - A slot of the array is a pointer of [sizeof_map_entry] = 8 bytes; the
      slot array is the list of the slots that were allocated.
    - The [log]/[logkey]/[logentry] macros only print and are left out. *)

From Stdlib Require Import ZArith List Lia Bool Znumtheory.
From Stdlib Require Import Strings.Byte.
From stdpp Require Import base tactics option list.

Local Open Scope Z_scope.

(** ** Outcomes of a call *)

Inductive failure : Type :=
| InvalidRead
| InvalidWrite
| AssertionFailed
| DivideByZero
| NoExit.

Inductive outcome (A : Type) : Type :=
| Ret (a : A)
| Stop (f : failure).

Arguments Ret {A} a.
Arguments Stop {A} f.

Definition bind {A B : Type} (m : outcome A) (k : A -> outcome B) : outcome B :=
  match m with
  | Ret a => k a
  | Stop f => Stop f
  end.

Notation "'let*' p := m 'in' k" := (bind m (fun p => k))
  (at level 10, p pattern, m at level 200, k at level 200, only parsing).

Definition assert (b : bool) : outcome unit :=
  if b then Ret tt else Stop AssertionFailed.

(** ** Machine integers *)

Definition u32 (x : Z) : Z := x mod 2 ^ 32.

(** ** icsmap.h *)

Inductive ics_status : Type :=
| ICS_OK
| ICS_FAILURE
| ICS_NO_MEMORY
| ICS_NOT_FOUND
| ICS_EXISTS.

Definition ics_status_eqb (a b : ics_status) : bool :=
  match a, b with
  | ICS_OK, ICS_OK
  | ICS_FAILURE, ICS_FAILURE
  | ICS_NO_MEMORY, ICS_NO_MEMORY
  | ICS_NOT_FOUND, ICS_NOT_FOUND
  | ICS_EXISTS, ICS_EXISTS => true
  | _, _ => false
  end.

(** ** Pointers and records *)

(** [typedef uint8_t *map_entry]: a slot of the array. *)
Inductive map_entry : Type :=
| NULL
| tombstone
| Ptr (bytes : list byte).

(** [map_key] and [map_val] are the same pointer type in C. *)
Definition map_key : Type := map_entry.
Definition map_val : Type := map_entry.

Definition INITIAL_SIZE : Z := 13.
Definition LOAD_FACTOR : Z := 33.

(** [get_key_fn]: the caller's resolver receives a key pointer and returns
    the pointer to the bytes to hash and compare, with their number. *)
Definition get_key_fn : Type := map_key -> outcome (map_key * Z).

Record icsmap : Type := mk_icsmap {
  size : Z;
  capacity : Z;
  keysize : Z;
  valsize : Z;
  map_get_key : option get_key_fn;
  arr : list map_entry
}.

Record icsmap_cfg : Type := mk_icsmap_cfg {
  cfg_keysize : Z;
  cfg_valsize : Z;
  cfg_get_key : option get_key_fn
}.

Definition set_size (map : icsmap) (n : Z) : icsmap :=
  mk_icsmap n (capacity map) (keysize map) (valsize map) (map_get_key map) (arr map).

Definition set_capacity (map : icsmap) (c : Z) : icsmap :=
  mk_icsmap (size map) c (keysize map) (valsize map) (map_get_key map) (arr map).

Definition set_arr (map : icsmap) (a : list map_entry) : icsmap :=
  mk_icsmap (size map) (capacity map) (keysize map) (valsize map) (map_get_key map) a.

(** [p[i]] as an rvalue. *)
Definition load (p : map_entry) (i : nat) : outcome byte :=
  match p with
  | Ptr bs => match bs !! i with
              | Some b => Ret b
              | None => Stop InvalidRead
              end
  | _ => Stop InvalidRead
  end.

(** [d[i] = b] on a buffer. *)
Definition store (d : list byte) (i : nat) (b : byte) : outcome (list byte) :=
  if (i <? length d)%nat then Ret (<[i := b]> d) else Stop InvalidWrite.

(** [p + n] *)
Definition ptr_add (p : map_entry) (n : Z) : map_entry :=
  match p with
  | Ptr bs => Ptr (drop (Z.to_nat n) bs)
  | _ => p
  end.

(** ** General functions *)

Definition ics_percent (x y : Z) : outcome Z :=
  if y =? 0 then Stop DivideByZero else Ret (u32 (x * 100) / y).

(** [ics_memcpy(dest + off, src, len)]; the loop runs [i] from its current
    value for [n] more rounds. *)
Fixpoint ics_memcpy_from (d : list byte) (off : nat) (s : map_entry)
    (i n : nat) : outcome (list byte) :=
  match n with
  | O => Ret d
  | S n' =>
      let* b := load s i in
      let* d' := store d (off + i) b in
      ics_memcpy_from d' off s (S i) n'
  end.

Definition ics_memcpy (d : list byte) (off : nat) (s : map_entry) (len : Z)
    : outcome (list byte) :=
  ics_memcpy_from d off s 0 (Z.to_nat len).

Fixpoint ics_equal_from (aa bb : map_entry) (i n : nat) : outcome bool :=
  match n with
  | O => Ret true
  | S n' =>
      let* a := load aa i in
      let* b := load bb i in
      if Byte.eqb a b then ics_equal_from aa bb (S i) n' else Ret false
  end.

Definition ics_equal (a b : map_entry) (len : Z) : outcome bool :=
  ics_equal_from a b 0 (Z.to_nat len).

(** A loop that runs [body] until it exits with a result, at most [fuel]
    times; the fuel is binary so that a bound of [2^32] rounds costs
    nothing when the loop exits early. *)
Fixpoint loop_until {S R : Type} (fuel : positive) (body : S -> S + R) (s : S)
    : S + R :=
  match fuel with
  | xH => body s
  | xO p =>
      match loop_until p body s with
      | inl s' => loop_until p body s'
      | inr r => inr r
      end
  | xI p =>
      match body s with
      | inl s' =>
          match loop_until p body s' with
          | inl s'' => loop_until p body s''
          | inr r => inr r
          end
      | inr r => inr r
      end
  end.

(** One round of [for (i = 5; i*i <= n; i += 6)]; [i] stays odd, so neither
    divisor is zero. *)
Definition ics_is_prime_body (n i : Z) : Z + bool :=
  if u32 (i * i) <=? n then
    if (n mod i =? 0) || (n mod u32 (i + 2) =? 0) then inr false
    else inl (u32 (i + 6))
  else inr true.

Definition ics_is_prime (n : Z) : outcome bool :=
  if n <=? 1 then Ret false
  else if n =? 3 then Ret true
  else if (n mod 2 =? 0) || (n mod 3 =? 0) then Ret false
  else match loop_until (2 ^ 32) (ics_is_prime_body n) 5 with
       | inr b => Ret b
       | inl _ => Stop NoExit
       end.

(** One round of [do { ++prime; } while (!ics_is_prime(prime))]. *)
Definition ics_next_prime_body (prime : Z) : Z + outcome Z :=
  let prime' := u32 (prime + 1) in
  match ics_is_prime prime' with
  | Ret true => inr (Ret prime')
  | Ret false => inl prime'
  | Stop f => inr (Stop f)
  end.

Definition ics_next_prime (start : Z) : outcome Z :=
  if start <=? 1 then Ret 2
  else match loop_until (2 ^ 32) ics_next_prime_body start with
       | inr r => r
       | inl _ => Stop NoExit
       end.

(** ** Hashing *)

Definition hash_fn_step (hash : Z) (b : byte) : Z :=
  let hash := u32 (u32 (Z.shiftl hash 4) + Z.of_N (Byte.to_N b)) in
  let x := Z.land hash 4026531840 in
  let hash := if x =? 0 then hash else Z.lxor hash (Z.shiftr x 24) in
  Z.land hash (Z.lxor x 4294967295).

Fixpoint hash_fn_from (key : map_key) (i n : nat) (hash : Z) : outcome Z :=
  match n with
  | O => Ret hash
  | S n' =>
      let* b := load key i in
      hash_fn_from key (S i) n' (hash_fn_step hash b)
  end.

Definition hash_fn (key : map_key) (len : Z) : outcome Z :=
  hash_fn_from key 0 (Z.to_nat len) 0.

Definition hash (map : icsmap) (key : map_key) (keysize : Z) : outcome Z :=
  let* res := hash_fn key keysize in
  if capacity map =? 0 then Stop DivideByZero else Ret (res mod capacity map).

(** ** Slots *)

Definition entry_size (map : icsmap) : Z := u32 (keysize map + valsize map).

Definition map_entry_key (map : icsmap) (entry : map_entry) : map_key := entry.

Definition map_entry_val (map : icsmap) (entry : map_entry) : map_val :=
  ptr_add entry (keysize map).

Definition is_deleted (entry : map_entry) : bool :=
  match entry with tombstone => true | _ => false end.

Definition is_empty (entry : map_entry) : bool :=
  match entry with NULL => true | _ => false end.

Definition get_key (map : icsmap) (key : map_key) : outcome (map_key * Z) :=
  match map_get_key map with
  | None => Ret (key, keysize map)
  | Some f => f key
  end.

Definition is_overloaded (map : icsmap) : outcome bool :=
  let* p := ics_percent (size map) (capacity map) in
  Ret (LOAD_FACTOR <? p).

(** [map->arr[i]] as an rvalue. *)
Definition arr_at (map : icsmap) (i : Z) : outcome map_entry :=
  match arr map !! Z.to_nat i with
  | Some e => Ret e
  | None => Stop InvalidRead
  end.

(** [map->arr[i] = e] *)
Definition arr_set (map : icsmap) (i : Z) (e : map_entry) : icsmap :=
  set_arr map (<[Z.to_nat i := e]> (arr map)).

(** The [while] loop of [find_key], entered with the slot index [i]; the
    index component of the result is what [*index] receives, and is
    meaningless with [ICS_NOT_FOUND], where nothing is written. *)
Fixpoint find_key_loop (fuel : nat) (map : icsmap) (k : map_key) (keysize : Z)
    (hash_index i : Z) : outcome (ics_status * Z) :=
  match fuel with
  | O => Stop NoExit
  | S fuel' =>
      let* e := arr_at map i in
      if is_empty e then Ret (ICS_NOT_FOUND, 0)
      else
        let* (candidate, candidate_size) := get_key map (map_entry_key map e) in
        let* _ := assert (candidate_size =? keysize) in
        let* same := ics_equal candidate k keysize in
        if same then Ret (ICS_OK, i)
        else
          let i' := u32 (i + 1) mod capacity map in
          if i' =? hash_index then Ret (ICS_NOT_FOUND, 0)
          else find_key_loop fuel' map k keysize hash_index i'
  end.

(** The loop gives up after [capacity] rounds at the latest ([i] is back at
    [hash_index] by then), which is the fuel it gets; more fuel changes
    nothing (lemma [find_key_loop_enough]). *)
Definition find_key (map : icsmap) (key : map_key) : outcome (ics_status * Z) :=
  let* (k, keysize) := get_key map key in
  let* hash_index := hash map k keysize in
  find_key_loop (Z.to_nat (capacity map)) map k keysize hash_index hash_index.

Fixpoint find_hole_loop (fuel : nat) (map : icsmap) (k : map_key) (keysize : Z)
    (i : Z) : outcome (ics_status * Z) :=
  match fuel with
  | O => Stop NoExit
  | S fuel' =>
      let* e := arr_at map i in
      if is_empty e then Ret (ICS_OK, i)
      else
        let* (candidate, candidate_size) := get_key map (map_entry_key map e) in
        let* _ := assert (candidate_size =? keysize) in
        if is_deleted e then Ret (ICS_OK, i)
        else
          let* same := ics_equal candidate k keysize in
          if same then Ret (ICS_EXISTS, i)
          else find_hole_loop fuel' map k keysize (u32 (i + 1) mod capacity map)
  end.

(** The slots do not change while the loop runs and [i] cycles with period
    [capacity]: a loop that has not exited after [capacity] rounds never
    does (lemma [find_hole_loop_stuck]), which [Stop NoExit] records. *)
Definition find_hole (map : icsmap) (key : map_key) : outcome (ics_status * Z) :=
  let* (k, keysize) := get_key map key in
  let* hash_index := hash map k keysize in
  let* _ := assert (hash_index <? capacity map) in
  find_hole_loop (Z.to_nat (capacity map)) map k keysize hash_index.

(** ** The public operations *)

(** [icsmap_init]: the two booleans are the outcomes of the two [malloc]
    calls; the handle is written only on success. *)
Definition icsmap_init (map_ok arr_ok : bool) (cfg : icsmap_cfg)
    : ics_status * option icsmap :=
  if negb map_ok then (ICS_NO_MEMORY, None)
  else if negb arr_ok then (ICS_NO_MEMORY, None)
  else (ICS_OK,
        Some (mk_icsmap 0 INITIAL_SIZE (cfg_keysize cfg) (cfg_valsize cfg)
                (cfg_get_key cfg) (replicate (Z.to_nat INITIAL_SIZE) NULL))).

(** [!is_empty(e) && !is_deleted(e)], as [resize], [icsmap_foreach],
    [icsmap_all] and the assertions of [icsmap_get] and [icsmap_remove]
    spell it out. *)
Definition is_live (entry : map_entry) : bool :=
  negb (is_empty entry) && negb (is_deleted entry).

(** The [for] loop of [resize], with [n] rounds to go from index [i] of the
    old array; [i < old_cap], so [++i] does not wrap. *)
Fixpoint resize_loop (n : nat) (old_arr : list map_entry) (i : Z) (map : icsmap)
    : outcome (ics_status * icsmap) :=
  match n with
  | O => Ret (ICS_OK, map)
  | S n' =>
      match old_arr !! Z.to_nat i with
      | None => Stop InvalidRead
      | Some e =>
          if is_live e then
            let* (status, hash_index) := find_hole map (map_entry_key map e) in
            if negb (ics_status_eqb status ICS_OK) then Ret (status, map)
            else resize_loop n' old_arr (i + 1) (arr_set map hash_index e)
          else resize_loop n' old_arr (i + 1) map
      end
  end.

(** [sizeof(map_entry)]: a slot holds a pointer, of 8 bytes on a 64-bit
    target. *)
Definition sizeof_map_entry : Z := 8.

(** [resize]: [arr_ok] is the outcome of the [malloc] of the new array,
    which [ics_memset] fills with null pointers.  The capacity is
    overwritten before the allocation is attempted.  The byte count
    [arr_size = sizeof(map_entry) * capacity] is held in a [uint32_t] and
    wraps from [2^29] slots on: the new array has the
    [arr_size / sizeof(map_entry)] slots that were allocated, which are the
    [capacity] slots whenever the product fits (lemma [resize_slots]), as
    it does in every resize of an overloaded map (lemma
    [resize_array_fits]). *)
Definition resize (arr_ok : bool) (map : icsmap) : outcome (ics_status * icsmap) :=
  let old_cap := capacity map in
  let* new_cap := ics_next_prime (u32 (capacity map * 2)) in
  let map := set_capacity map new_cap in
  let old_arr := arr map in
  let arr_size := u32 (sizeof_map_entry * capacity map) in
  if negb arr_ok then Ret (ICS_NO_MEMORY, set_arr map old_arr)
  else
    let map :=
      set_arr map (replicate (Z.to_nat (arr_size / sizeof_map_entry)) NULL) in
    resize_loop (Z.to_nat old_cap) old_arr 0 map.

(** [init_map_entry] writes through [entry], which must point to a record
    buffer. *)
Definition init_map_entry (map : icsmap) (entry : map_entry) (key val : map_entry)
    : outcome map_entry :=
  match entry with
  | Ptr d =>
      let* d := ics_memcpy d 0 key (keysize map) in
      let* d := ics_memcpy d (Z.to_nat (keysize map)) val (valsize map) in
      Ret (Ptr d)
  | _ => Stop InvalidWrite
  end.

(** [malloc(n)]: a fresh buffer of [n] bytes, or [NULL]. *)
Definition malloc (ok : bool) (n : Z) : map_entry :=
  if ok then Ptr (replicate (Z.to_nat n) x00) else NULL.

(** [icsmap_put]: [arr_ok] is the outcome of the allocation inside [resize]
    (when it is called), [entry_ok] that of the record allocation. *)
Definition icsmap_put (arr_ok entry_ok : bool) (map : icsmap) (key val : map_entry)
    : outcome (ics_status * icsmap) :=
  let* overloaded := is_overloaded map in
  let* (status, map) :=
    (if overloaded then resize arr_ok map else Ret (ICS_OK, map)) in
  if negb (ics_status_eqb status ICS_OK) then Ret (status, map)
  else
    let* (status, index) := find_hole map key in
    if ics_status_eqb status ICS_EXISTS then
      let* e := arr_at map index in
      let* e := init_map_entry map e key val in
      Ret (ICS_OK, arr_set map index e)
    else
      let entry := malloc entry_ok (entry_size map) in
      if is_empty entry then Ret (ICS_NO_MEMORY, map)
      else
        let* entry := init_map_entry map entry key val in
        Ret (ICS_OK, set_size (arr_set map index entry) (u32 (size map + 1))).

(** [icsmap_get]: [out] is the caller's buffer, returned as it is after the
    call. *)
Definition icsmap_get (map : icsmap) (key : map_entry) (out : list byte)
    : outcome (ics_status * list byte) :=
  let* (status, index) := find_key map key in
  if negb (ics_status_eqb status ICS_OK) then Ret (status, out)
  else
    let* e := arr_at map index in
    let* _ := assert (is_live e) in
    let* out := ics_memcpy out 0 (map_entry_val map e) (valsize map) in
    Ret (ICS_OK, out).

Definition icsmap_remove (map : icsmap) (key : map_entry)
    : outcome (ics_status * icsmap) :=
  let* (status, index) := find_key map key in
  if negb (ics_status_eqb status ICS_OK) then Ret (status, map)
  else
    let* e := arr_at map index in
    let* _ := assert (is_live e) in
    Ret (ICS_OK, set_size (arr_set map index tombstone) (u32 (size map - 1))).

Definition icsmap_contains (map : icsmap) (key : map_entry) : outcome ics_status :=
  let* (status, index) := find_key map key in
  Ret (if ics_status_eqb status ICS_NOT_FOUND then ICS_NOT_FOUND else ICS_EXISTS).

(** [icsmap_foreach]: the visitor receives the key pointer, the value
    pointer and the caller's data, which it may update. *)
Fixpoint icsmap_foreach_loop {D : Type} (n : nat) (map : icsmap)
    (fn : map_key -> map_val -> D -> D) (i : Z) (data : D) : outcome D :=
  match n with
  | O => Ret data
  | S n' =>
      let* entry := arr_at map i in
      if is_live entry then
        icsmap_foreach_loop n' map fn (i + 1)
          (fn (map_entry_key map entry) (map_entry_val map entry) data)
      else icsmap_foreach_loop n' map fn (i + 1) data
  end.

Definition icsmap_foreach {D : Type} (map : icsmap)
    (fn : map_key -> map_val -> D -> D) (data : D) : outcome D :=
  icsmap_foreach_loop (Z.to_nat (capacity map)) map fn 0 data.

Definition icsmap_count (map : icsmap) : Z := size map.

(** [icsmap_all]: [keys] and [vals] are the caller's output buffers;
    [index <= i], so [index++] does not wrap. *)
Fixpoint icsmap_all_loop (n : nat) (map : icsmap) (i index : Z)
    (keys vals : list byte) : outcome (Z * (list byte * list byte)) :=
  match n with
  | O => Ret (index, (keys, vals))
  | S n' =>
      let* entry := arr_at map i in
      if is_live entry then
        let* keys := ics_memcpy keys (Z.to_nat (u32 (index * keysize map)))
                       (map_entry_key map entry) (keysize map) in
        let* vals := ics_memcpy vals (Z.to_nat (u32 (index * valsize map)))
                       (map_entry_val map entry) (valsize map) in
        icsmap_all_loop n' map (i + 1) (index + 1) keys vals
      else icsmap_all_loop n' map (i + 1) index keys vals
  end.

Definition icsmap_all (map : icsmap) (keys vals : list byte)
    : outcome (list byte * list byte) :=
  let* (index, bufs) :=
    icsmap_all_loop (Z.to_nat (capacity map)) map 0 0 keys vals in
  let* _ := assert (index =? size map) in
  Ret bufs.

(** ** Fixtures: the maps and keys of the worked scenarios *)

(** [char -> int], as examples/ex_basic_ops.c configures it. *)
Definition cfg_char_int : icsmap_cfg := mk_icsmap_cfg 1 4 None.

(** The four bytes of an [int], little endian. *)
Definition int_le (n : Z) : list byte :=
  List.map (fun k => match Byte.of_N (Z.to_N (Z.shiftr n (8 * k) mod 256)) with
                     | Some b => b
                     | None => x00
                     end) [0; 1; 2; 3].

Definition fresh_map (cfg : icsmap_cfg) : icsmap :=
  mk_icsmap 0 INITIAL_SIZE (cfg_keysize cfg) (cfg_valsize cfg) (cfg_get_key cfg)
    (replicate (Z.to_nat INITIAL_SIZE) NULL).

(** A run of [icsmap_put] calls whose allocations all succeed; it stops at
    the first call that does not return [ICS_OK]. *)
Fixpoint put_all (map : icsmap) (kvs : list (list byte * list byte))
    : outcome (ics_status * icsmap) :=
  match kvs with
  | [] => Ret (ICS_OK, map)
  | (k, v) :: kvs' =>
      let* (status, map') := icsmap_put true true map (Ptr k) (Ptr v) in
      if ics_status_eqb status ICS_OK then put_all map' kvs'
      else Ret (status, map')
  end.

Definition key_a : list byte := [x61].
Definition key_b : list byte := [x62].
Definition key_c : list byte := [x63].
Definition key_d : list byte := [x64].
Definition key_e : list byte := [x65].
Definition key_n : list byte := [x6e].

(** Five letters in a fresh map: 5 of 13 slots, the first overloaded state. *)
Definition map_5_of_13 : icsmap :=
  mk_icsmap 5 13 1 4 None
    [NULL; NULL; NULL; NULL; NULL; NULL;
     Ptr (key_a ++ int_le 1); Ptr (key_b ++ int_le 2); Ptr (key_c ++ int_le 3);
     Ptr (key_d ++ int_le 4); Ptr (key_e ++ int_le 5); NULL; NULL].

(** One letter in a fresh map. *)
Definition map_1_of_13 : icsmap :=
  mk_icsmap 1 13 1 4 None
    [NULL; NULL; NULL; NULL; NULL; NULL;
     Ptr (key_a ++ int_le 1); NULL; NULL; NULL; NULL; NULL; NULL].

(** The map of the three-put scenario: 'a' -> 3 and 'b' -> 2. *)
Definition map_2_of_13 : icsmap :=
  mk_icsmap 2 13 1 4 None
    [NULL; NULL; NULL; NULL; NULL; NULL;
     Ptr (key_a ++ int_le 3); Ptr (key_b ++ int_le 2);
     NULL; NULL; NULL; NULL; NULL].

(** A resolver in the manner of examples/ex_struct_keys.c, with toy widths:
    the key record is one length byte followed by one address byte, and the
    addressed bytes live in the caller's memory [names]. *)
Definition names (addr : byte) : list byte :=
  match addr with
  | x10 => [x42; x72; x69; x61; x6e; x00]
  | x20 => [x42; x72; x69; x61; x6e; x00]
  | x30 => [x42; x72; x75; x6e; x6f; x00]
  | _ => []
  end.

Definition name_get_key : get_key_fn := fun key =>
  match key with
  | Ptr (len :: addr :: _) => Ret (Ptr (names addr), Z.of_N (Byte.to_N len))
  | _ => Stop InvalidRead
  end.

Definition cfg_name_int : icsmap_cfg := mk_icsmap_cfg 2 4 (Some name_get_key).

Definition name1 : list byte := [x06; x10].
Definition name2 : list byte := [x06; x20].

(** The map after put through [name1] with value 42. *)
Definition map_name1 : icsmap :=
  mk_icsmap 1 13 2 4 (Some name_get_key)
    [NULL; NULL; NULL; NULL; NULL; NULL; NULL; NULL;
     Ptr (name1 ++ int_le 42); NULL; NULL; NULL; NULL].

Definition abc_puts : list (list byte * list byte) :=
  [(key_a, int_le 1); (key_b, int_le 2); (key_a, int_le 3)].

Definition abcd_puts : list (list byte * list byte) :=
  [(key_a, int_le 1); (key_b, int_le 2); (key_c, int_le 3); (key_d, int_le 4)].

Definition abcde_puts : list (list byte * list byte) :=
  abcd_puts ++ [(key_e, int_le 5)].

(** ** Notions used by the statements *)

(** What a round of a probe loop learns at a non-empty slot: the resolved
    candidate passes the length assertion and is compared with the search
    key. *)
Definition probe_test (map : icsmap) (k : map_key) (keysize : Z) (e : map_entry)
    : outcome bool :=
  let* (candidate, candidate_size) := get_key map (map_entry_key map e) in
  let* _ := assert (candidate_size =? keysize) in
  ics_equal candidate k keysize.

(** [i = (i + 1) % map->capacity] *)
Definition probe_next (map : icsmap) (i : Z) : Z := u32 (i + 1) mod capacity map.

(** [probe_run map k keysize i t j]: from slot [i] the probe walks over [t]
    live slots whose keys differ from [k] and stands on slot [j]. *)
Inductive probe_run (map : icsmap) (k : map_key) (keysize : Z) : Z -> nat -> Z -> Prop :=
| probe_here (i : Z) : probe_run map k keysize i 0 i
| probe_step (i : Z) (t : nat) (j : Z) (e : map_entry) :
    arr map !! Z.to_nat i = Some e ->
    is_live e = true ->
    probe_test map k keysize e = Ret false ->
    probe_run map k keysize (probe_next map i) t j ->
    probe_run map k keysize i (S t) j.

(** The configuration of a map: what no operation but [resize] changes. *)
Definition same_config (m m' : icsmap) : Prop :=
  capacity m' = capacity m /\ keysize m' = keysize m /\
  valsize m' = valsize m /\ map_get_key m' = map_get_key m.

Definition cap_ok (m : icsmap) : Prop := 0 < capacity m < 2 ^ 32.

(** The visitor that records the pointers it receives, in order. *)
Definition collect (key : map_key) (val : map_val)
    (seen : list (map_key * map_val)) : list (map_key * map_val) :=
  seen ++ [(key, val)].

(** The [len] bytes at a pointer. *)
Definition bytes_at (p : map_entry) (len : Z) : list byte :=
  match p with
  | Ptr bs => take (Z.to_nat len) bs
  | _ => []
  end.

(** The number of Occupied slots. *)
Definition live_count (m : icsmap) : Z :=
  Z.of_nat (length (List.filter is_live (arr m))).

(** The representation invariant of a map between two calls. *)
Record well_formed (m : icsmap) : Prop := mk_well_formed {
  wf_cap : cap_ok m;
  wf_arr : length (arr m) = Z.to_nat (capacity m);
  wf_size : size m = live_count m;
  wf_keysize : 0 <= keysize m;
  wf_valsize : 0 <= valsize m;
  wf_rec : forall x d, arr m !! x = Some (Ptr d) ->
             length d = (Z.to_nat (keysize m) + Z.to_nat (valsize m))%nat
}.

(** [loop_until] with its rounds counted in unary, for the proofs. *)
Fixpoint loop_nat {S R : Type} (n : nat) (body : S -> S + R) (s : S) : S + R :=
  match n with
  | O => inl s
  | Datatypes.S n' =>
      match body s with
      | inl s' => loop_nat n' body s'
      | inr r => inr r
      end
  end.

(** The states reachable from initialisation through the operations that
    change the map; [icsmap_get], [icsmap_contains], [icsmap_count],
    [icsmap_foreach] and [icsmap_all] leave it as it is. *)
Inductive reachable : icsmap -> Prop :=
| reach_init (map_ok arr_ok : bool) (cfg : icsmap_cfg) (m : icsmap) :
    icsmap_init map_ok arr_ok cfg = (ICS_OK, Some m) -> reachable m
| reach_put (arr_ok entry_ok : bool) (m : icsmap) (key val : map_entry)
    (status : ics_status) (m' : icsmap) :
    reachable m ->
    icsmap_put arr_ok entry_ok m key val = Ret (status, m') ->
    reachable m'
| reach_remove (m : icsmap) (key : map_entry) (status : ics_status) (m' : icsmap) :
    reachable m ->
    icsmap_remove m key = Ret (status, m') ->
    reachable m'.

(** No number from 2 up to [i], excluded, divides [n]. *)
Definition no_divisor_below (n i : Z) : Prop :=
  forall d, 2 <= d < i -> ~ (d | n).

(** The same test, run on [k] candidates from [d] on. *)
Fixpoint no_divisor_from (k : nat) (n d : Z) : bool :=
  match k with
  | O => true
  | S k => negb (n mod d =? 0) && no_divisor_from k n (d + 1)
  end.

(** Two key pointers show the same first [n] bytes (or fail alike). *)
Definition same_view (k k' : map_key) (n : Z) : Prop :=
  forall j : nat, (j < Z.to_nat n)%nat -> load k j = load k' j.

(** The key view [k] of length [ks] is stored in a live slot that both
    probes reach from its hash index. *)
Definition findable (m : icsmap) (k : map_key) (ks : Z) (j : Z) : Prop :=
  exists (h : Z) (t : nat) (e : map_entry),
    hash m k ks = Ret h /\ 0 <= h < capacity m /\
    probe_run m k ks h t j /\ (t < Z.to_nat (capacity m))%nat /\
    arr m !! Z.to_nat j = Some e /\ is_live e = true /\
    probe_test m k ks e = Ret true.

(** The record [e] sits where the probe for its own key arrives. *)
Definition placed (m : icsmap) (e : map_entry) : Prop :=
  exists (k : map_key) (ks h : Z) (t : nat) (j : Z),
    get_key m (map_entry_key m e) = Ret (k, ks) /\
    hash m k ks = Ret h /\ 0 <= h < capacity m /\
    probe_run m k ks h t j /\ (t < Z.to_nat (capacity m))%nat /\
    arr m !! Z.to_nat j = Some e.

(** A resolver that reads nothing but the key record it is handed. *)
Definition reads_key_record (f : get_key_fn) (keysize : Z) : Prop :=
  forall bs bs' : list byte,
    take (Z.to_nat keysize) bs = take (Z.to_nat keysize) bs' ->
    f (Ptr bs) = f (Ptr bs').

(** The integer that four little-endian bytes stand for. *)
Definition le_int (bs : list byte) : Z :=
  fold_right (fun b acc => Z.of_N (Byte.to_N b) + 256 * acc) 0 bs.

(** [int -> int], the keys of examples/ex_iterating.c. *)
Definition cfg_int_int : icsmap_cfg := mk_icsmap_cfg 4 4 None.

(** The record that put stores for the key [j] and the value 0. *)
Definition record_of (j : Z) : map_entry := Ptr (int_le j ++ int_le 0).

Definition is_record (e : map_entry) : Prop :=
  exists j : Z, 0 <= j < 2 ^ 32 /\ e = record_of j.

(** [dense m c s]: the map has capacity [c] and holds exactly the keys
    [0 .. s-1], with no tombstone. *)
Definition dense (m : icsmap) (c s : Z) : Prop :=
  capacity m = c /\ size m = s /\ 0 <= s /\
  keysize m = 4 /\ valsize m = 4 /\ map_get_key m = None /\
  0 < c < 2 ^ 32 /\
  length (arr m) = Z.to_nat c /\
  Permutation (List.filter is_live (arr m)) (record_of <$> seqZ 0 s) /\
  (forall x, arr m !! x <> Some tombstone).

Definition reach_dense (c s : Z) : Prop :=
  exists m : icsmap, reachable m /\ dense m c s.

(** The capacities and counts at which a run of puts of fresh keys is
    resized, from count [s] at capacity [c]: the count [t] is the first one
    with [34 * c <= 100 * t], and the put at that count moves the map to the
    next prime above [2 * c].  It stops where the 32-bit product
    [size * 100] can no longer reach [34 * c]. *)
Fixpoint grow (fuel : nat) (c s : Z) : Z * Z :=
  match fuel with
  | O => (c, s)
  | S fuel' =>
      let t := (34 * c + 99) / 100 in
      if (s <=? t) && (t <? c) && (100 * t <? 2 ^ 32) then
        match ics_next_prime (u32 (c * 2)) with
        | Ret c' => if c <? c' then grow fuel' c' (t + 1) else (c, s)
        | Stop _ => (c, s)
        end
      else (c, s)
  end.

(** ** Freeing and filling *)

(** [ics_memset(target, val, len)] on a byte buffer; the loop runs [i] from
    its current value for [n] more rounds. *)
Fixpoint ics_memset_from (target : list byte) (val : byte) (i n : nat)
    : outcome (list byte) :=
  match n with
  | O => Ret target
  | S n' =>
      let* target' := store target i val in
      ics_memset_from target' val (S i) n'
  end.

Definition ics_memset (target : list byte) (val : byte) (len : Z)
    : outcome (list byte) :=
  ics_memset_from target val 0 (Z.to_nat len).

(** What [icsmap_deinit] hands to [free], call by call. *)
Inductive freed : Type :=
| free_entry (e : map_entry)
| free_arr (a : list map_entry)
| free_map.

(** The [for] loop of [icsmap_deinit], with [n] rounds to go from index
    [i]; [done] lists the calls of [free] so far. *)
Fixpoint icsmap_deinit_loop (n : nat) (map : icsmap) (i : Z) (done : list freed)
    : outcome (list freed) :=
  match n with
  | O => Ret done
  | S n' =>
      let* e := arr_at map i in
      if is_live e then icsmap_deinit_loop n' map (i + 1) (done ++ [free_entry e])
      else icsmap_deinit_loop n' map (i + 1) done
  end.

(** [icsmap_deinit]: the handle is a null pointer or points to a map. *)
Definition icsmap_deinit (handle : option icsmap) : outcome (list freed) :=
  match handle with
  | None => Stop AssertionFailed
  | Some map =>
      let* done := icsmap_deinit_loop (Z.to_nat (capacity map)) map 0 [] in
      Ret (done ++ [free_arr (arr map); free_map])
  end.

(** Six letters after the first resize: 6 of 29 slots. *)
Definition map_6_of_29 : icsmap :=
  mk_icsmap 6 29 1 4 None
    (replicate 10 NULL
       ++ [Ptr (key_a ++ int_le 1); Ptr (key_b ++ int_le 2); Ptr (key_c ++ int_le 3);
           Ptr (key_d ++ int_le 4); Ptr (key_e ++ int_le 5); Ptr ([x66] ++ int_le 6)]
       ++ replicate 13 NULL).

(** ** Runs of successful operations *)

(** The states reached from initialisation through puts that return
    [ICS_OK] and removes; the configuration holds 32-bit sizes. *)
Inductive reachable_OK : icsmap -> Prop :=
| reach_OK_init (cfg : icsmap_cfg) (m : icsmap) :
    0 <= cfg_keysize cfg < 2 ^ 32 ->
    0 <= cfg_valsize cfg < 2 ^ 32 ->
    icsmap_init true true cfg = (ICS_OK, Some m) -> reachable_OK m
| reach_OK_put (arr_ok entry_ok : bool) (m : icsmap) (key val : map_entry)
    (m' : icsmap) :
    reachable_OK m ->
    icsmap_put arr_ok entry_ok m key val = Ret (ICS_OK, m') ->
    reachable_OK m'
| reach_OK_remove (m : icsmap) (key : map_entry) (status : ics_status) (m' : icsmap) :
    reachable_OK m ->
    icsmap_remove m key = Ret (status, m') ->
    reachable_OK m'.

(** ** Maps that have seen no removal *)

Fixpoint bytes_eqb (a b : list byte) : bool :=
  match a, b with
  | [], [] => true
  | x :: a', y :: b' => Byte.eqb x y && bytes_eqb a' b'
  | _, _ => false
  end.

(** The key bytes and the value bytes of a record. *)
Definition key_of (m : icsmap) (e : map_entry) : list byte :=
  bytes_at (map_entry_key m e) (keysize m).

Definition val_of (m : icsmap) (e : map_entry) : list byte :=
  bytes_at (map_entry_val m e) (valsize m).

(** The value stored under the key bytes [kb]: the value bytes of the first
    Occupied slot whose record starts with [kb]. *)
Definition stored (m : icsmap) (kb : list byte) : option (list byte) :=
  match List.find (fun e => is_live e && bytes_eqb (key_of m e) kb) (arr m) with
  | Some e => Some (val_of m e)
  | None => None
  end.

(** The record [e] of slot [x] is where the probe for its own key
    arrives. *)
Definition homed (m : icsmap) (x : nat) (e : map_entry) : Prop :=
  exists (h : Z) (t : nat),
    hash m (map_entry_key m e) (keysize m) = Ret h /\ 0 <= h < capacity m /\
    probe_run m (map_entry_key m e) (keysize m) h t (Z.of_nat x) /\
    (t < Z.to_nat (capacity m))%nat.

(** A map as puts alone leave it: well-formed, without a resolver and
    without a tombstone, every record where its own probe arrives. *)
Record tidy (m : icsmap) : Prop := mk_tidy {
  tidy_wf : well_formed m;
  tidy_default : map_get_key m = None;
  tidy_sizes : keysize m + valsize m < 2 ^ 32;
  tidy_clean : forall x, arr m !! x <> Some tombstone;
  tidy_homed : forall x e, arr m !! x = Some e -> is_live e = true -> homed m x e
}.

(** What the array of a tidy map keeps while [resize] fills it: count lags
    behind the Occupied slots there. *)
Definition settled (m : icsmap) : Prop :=
  cap_ok m /\ length (arr m) = Z.to_nat (capacity m) /\
  map_get_key m = None /\
  (forall x, arr m !! x <> Some tombstone) /\
  (forall x e, arr m !! x = Some e -> is_live e = true -> homed m x e).

(** The bindings that a run of puts leaves behind the bindings [f]: a
    later put of a key overrides an earlier one. *)
Fixpoint bindings (ks vs : Z) (kvs : list (list byte * list byte))
    (f : list byte -> option (list byte)) (kb : list byte) : option (list byte) :=
  match kvs with
  | [] => f kb
  | (k, v) :: kvs' =>
      bindings ks vs kvs'
        (fun kb' => if bytes_eqb kb' (take (Z.to_nat ks) k)
                    then Some (take (Z.to_nat vs) v) else f kb')
        kb
  end.

(** ** examples/ex_basic_ops.c *)

(** [val++] on the four bytes of the [int]; the counts of the proofs stay
    below [2^31], where the increment of C is defined. *)
Definition int_incr (val : list byte) : list byte := int_le (le_int val + 1).

(** The [switch] on the status of the get: the new [val], or no value
    where [main] returns 2. *)
Definition count_letters_val (status : ics_status) (val : list byte)
    : option (list byte) :=
  match status with
  | ICS_NOT_FOUND => Some (int_le 1)
  | ICS_OK => Some (int_incr val)
  | _ => None
  end.

(** The first [while] loop of [main], which counts the letters of the
    string [countme] in a [char -> int] map; [val] holds the bytes of the
    local [int], and every allocation of the puts succeeds.  The result
    carries 0 where the loop is left at the end of the string and 2 where
    [main] returns 2. *)
Fixpoint count_letters (countme : list byte) (map : icsmap) (val : list byte)
    : outcome (Z * (icsmap * list byte)) :=
  match countme with
  | [] => Stop InvalidRead
  | key :: rest =>
      if Byte.eqb key x00 then Ret (0, (map, val))
      else
        let* (status, val) := icsmap_get map (Ptr [key]) val in
        match count_letters_val status val with
        | None => Ret (2, (map, val))
        | Some val =>
            let* (status, map) := icsmap_put true true map (Ptr [key]) (Ptr val) in
            if negb (ics_status_eqb status ICS_OK) then Ret (2, (map, val))
            else count_letters rest map val
        end
  end.

(** The entry that the loop keeps for a letter seen [n] times. *)
Definition letter_count (n : nat) : option (list byte) :=
  if (n =? 0)%nat then None else Some (int_le (Z.of_nat n)).

(** "There are many letters in this string. We will count them using a
    map, even though it would be much simpler to use an array!" *)
Definition countme : list byte :=
  [x54; x68; x65; x72; x65; x20; x61; x72; x65; x20; x6d; x61; x6e; x79; x20;
   x6c; x65; x74; x74; x65; x72; x73; x20; x69; x6e; x20; x74; x68; x69; x73;
   x20; x73; x74; x72; x69; x6e; x67; x2e; x20; x57; x65; x20; x77; x69; x6c;
   x6c; x20; x63; x6f; x75; x6e; x74; x20; x74; x68; x65; x6d; x20; x75; x73;
   x69; x6e; x67; x20; x61; x20; x6d; x61; x70; x2c; x20; x65; x76; x65; x6e;
   x20; x74; x68; x6f; x75; x67; x68; x20; x69; x74; x20; x77; x6f; x75; x6c;
   x64; x20; x62; x65; x20; x6d; x75; x63; x68; x20; x73; x69; x6d; x70; x6c;
   x65; x72; x20; x74; x6f; x20; x75; x73; x65; x20; x61; x6e; x20; x61; x72;
   x72; x61; x79; x21].

(** * Properties *)

(** ** The outcome monad *)

Lemma bind_Ret_inv {A B : Type} (m : outcome A) (k : A -> outcome B) (r : B) :
  bind m k = Ret r -> exists a, m = Ret a /\ k a = Ret r.
Proof. destruct m as [a|f]; simpl; [eauto | discriminate]. Qed.

Lemma assert_Ret_inv (b : bool) (u : unit) : assert b = Ret u -> b = true.
Proof. destruct b; [reflexivity | discriminate]. Qed.

Lemma ics_status_eqb_eq (a b : ics_status) : ics_status_eqb a b = true <-> a = b.
Proof. destruct a, b; simpl; split; congruence. Qed.

(** Splits a hypothesis [bind m k = Ret r] into the two calls. *)
Ltac bind_inv H :=
  let a := fresh "a" in
  let Ha := fresh "Hcall" in
  apply bind_Ret_inv in H; destruct H as (a & Ha & H).

(** ** C10: the three-put scenario *)

(** C10. On a freshly initialised map with keysize 1 and valsize 4, the
    calls put('a',1), put('b',2), put('a',3) leave count = 2; get('a')
    copies out 3, get('b') copies out 2 and get('c') returns NotFound,
    leaving the caller's buffer as it was. *)
Theorem C10_three_puts (b0 b1 b2 b3 : byte) :
  exists m : icsmap,
    icsmap_init true true cfg_char_int = (ICS_OK, Some (fresh_map cfg_char_int)) /\
    put_all (fresh_map cfg_char_int) abc_puts = Ret (ICS_OK, m) /\
    icsmap_count m = 2 /\
    icsmap_get m (Ptr key_a) [b0; b1; b2; b3] = Ret (ICS_OK, int_le 3) /\
    icsmap_get m (Ptr key_b) [b0; b1; b2; b3] = Ret (ICS_OK, int_le 2) /\
    icsmap_get m (Ptr key_c) [b0; b1; b2; b3] = Ret (ICS_NOT_FOUND, [b0; b1; b2; b3]).
Proof.
  eexists. split; [reflexivity|]. split; [vm_compute; reflexivity|].
  repeat split; vm_compute; reflexivity.
Qed.

(** ** C1: a tombstone ahead of a live key *)

(** C1. With keysize 1, 'a' and 'n' both start their probe at slot 6.
    After put('a'), put('n'), remove('a') the slot 6 is a tombstone and
    'n' lives in slot 7; [find_hole] for 'n' stops at the tombstone, and
    put('n', 3) stores a second record for 'n' there and counts it. *)
Theorem C1_put_stops_at_tombstone :
  exists m1 m2 m3 : icsmap,
    put_all (fresh_map cfg_char_int) [(key_a, int_le 1); (key_n, int_le 2)]
      = Ret (ICS_OK, m1) /\
    icsmap_remove m1 (Ptr key_a) = Ret (ICS_OK, m2) /\
    size m2 = 1 /\
    arr m2 !! 6%nat = Some tombstone /\
    arr m2 !! 7%nat = Some (Ptr (key_n ++ int_le 2)) /\
    find_hole m2 (Ptr key_n) = Ret (ICS_OK, 6) /\
    icsmap_put true true m2 (Ptr key_n) (Ptr (int_le 3)) = Ret (ICS_OK, m3) /\
    size m3 = 2 /\
    arr m3 !! 6%nat = Some (Ptr (key_n ++ int_le 3)) /\
    arr m3 !! 7%nat = Some (Ptr (key_n ++ int_le 2)).
Proof.
  do 3 eexists. split; [vm_compute; reflexivity|].
  split; [vm_compute; reflexivity|].
  repeat split; vm_compute; reflexivity.
Qed.

(** ** C2: the key probe at a tombstone *)

(** With no resolver and a key of at least one byte, a round of the
    [find_key] loop that stands on a tombstone compares the key with the
    bytes at the sentinel address. *)
Lemma find_key_loop_at_tombstone (fuel : nat) (m : icsmap) (k : map_key)
    (hash_index i : Z) :
  map_get_key m = None ->
  0 < keysize m ->
  arr m !! Z.to_nat i = Some tombstone ->
  find_key_loop (S fuel) m k (keysize m) hash_index i = Stop InvalidRead.
Proof.
  intros Hres Hks Hi. simpl. unfold arr_at. rewrite Hi. simpl.
  unfold get_key. rewrite Hres. simpl. rewrite Z.eqb_refl. simpl.
  unfold ics_equal. destruct (Z.to_nat (keysize m)) eqn:E; [lia|].
  reflexivity.
Qed.

(** C2. After put('a',1) and remove('a') the probe of 'a' starts on the
    tombstone left in slot 6: get, contains and remove of 'a' read through
    the sentinel pointer instead of returning NotFound. *)
Theorem C2_get_after_remove_reads_tombstone :
  exists m1 m2 : icsmap,
    put_all (fresh_map cfg_char_int) [(key_a, int_le 1)] = Ret (ICS_OK, m1) /\
    icsmap_remove m1 (Ptr key_a) = Ret (ICS_OK, m2) /\
    size m2 = 0 /\
    arr m2 !! 6%nat = Some tombstone /\
    find_key m2 (Ptr key_a) = Stop InvalidRead /\
    (forall out, icsmap_get m2 (Ptr key_a) out = Stop InvalidRead) /\
    icsmap_contains m2 (Ptr key_a) = Stop InvalidRead /\
    icsmap_remove m2 (Ptr key_a) = Stop InvalidRead.
Proof.
  do 2 eexists. split; [vm_compute; reflexivity|].
  split; [vm_compute; reflexivity|].
  repeat split; try (vm_compute; reflexivity).
Qed.

(** ** C3: allocation failures inside put *)

(** C3. Five letters overload the 13-slot map.  The next put resizes
    first; when the allocation of the new array fails, put returns
    OutOfMemory with the capacity already set to 29 over the old array of
    13 slots, and when only the record allocation fails, it returns
    OutOfMemory after the map has been rebuilt at capacity 29. *)
Theorem C3_out_of_memory_changes_the_map :
  put_all (fresh_map cfg_char_int) abcde_puts = Ret (ICS_OK, map_5_of_13) /\
  (forall entry_ok,
     icsmap_put false entry_ok map_5_of_13 (Ptr [x66]) (Ptr (int_le 6))
       = Ret (ICS_NO_MEMORY, set_capacity map_5_of_13 29)) /\
  capacity (set_capacity map_5_of_13 29) <> capacity map_5_of_13 /\
  Z.of_nat (length (arr (set_capacity map_5_of_13 29))) = 13 /\
  (exists m' : icsmap,
     icsmap_put true false map_5_of_13 (Ptr [x66]) (Ptr (int_le 6))
       = Ret (ICS_NO_MEMORY, m') /\
     capacity m' = 29 /\
     arr m' <> arr map_5_of_13).
Proof.
  split; [vm_compute; reflexivity|].
  split; [intros []; vm_compute; reflexivity|].
  split; [vm_compute; discriminate|].
  split; [reflexivity|].
  eexists. split; [vm_compute; reflexivity|].
  split; [reflexivity|]. vm_compute. discriminate.
Qed.

(** ** C5: the load after a put *)

Lemma is_overloaded_false_inv (m : icsmap) :
  is_overloaded m = Ret false ->
  capacity m <> 0 /\ u32 (size m * 100) / capacity m <= 33.
Proof.
  unfold is_overloaded, ics_percent, LOAD_FACTOR.
  destruct (Z.eqb_spec (capacity m) 0) as [E|E]; simpl; [discriminate|].
  intros H. injection H as H. apply Z.ltb_ge in H. auto.
Qed.

(** C5 (counterexample). The fifth put into a fresh map: no resize is
    performed (the load before it is 4 of 13), it returns success, and the
    load after it is 500 / 13 = 38 > 33. *)
Lemma C5_counterexample :
  exists m m' : icsmap,
    put_all (fresh_map cfg_char_int) abcd_puts = Ret (ICS_OK, m) /\
    icsmap_put true true m (Ptr key_e) (Ptr (int_le 5)) = Ret (ICS_OK, m') /\
    is_overloaded m = Ret false /\
    ~ (size m' * 100 / capacity m' <= 33).
Proof.
  do 2 eexists. split; [vm_compute; reflexivity|].
  split; [vm_compute; reflexivity|].
  split; [vm_compute; reflexivity|].
  vm_compute. intros H. apply H. reflexivity.
Qed.

(** ** Copies and comparisons of byte ranges *)

Lemma ics_memcpy_from_Ptr (d s : list byte) (off i n : nat) :
  (i + n <= length s)%nat ->
  (off + i + n <= length d)%nat ->
  ics_memcpy_from d off (Ptr s) i n
    = Ret (take (off + i) d ++ take n (drop i s) ++ drop (off + i + n) d).
Proof.
  revert d i. induction n as [|n IH]; intros d i Hs Hd; simpl.
  - rewrite Nat.add_0_r, take_drop. reflexivity.
  - destruct (lookup_lt_is_Some_2 s i) as [b Hb]; [lia|].
    rewrite Hb. simpl. unfold store.
    destruct (Nat.ltb_spec (off + i) (length d)) as [Hlt|Hge]; [|lia].
    simpl. rewrite IH by (rewrite ?length_insert; lia).
    f_equal.
    replace (off + S i)%nat with (S (off + i)) by lia.
    rewrite (take_S_r _ _ b) by (apply list_lookup_insert_eq; lia).
    rewrite take_insert_ge by lia.
    rewrite drop_insert_lt by lia.
    rewrite (drop_S s b i Hb). simpl.
    rewrite <- app_assoc. simpl.
    replace (off + i + S n)%nat with (S (off + i) + n)%nat by lia.
    reflexivity.
Qed.

Lemma ics_memcpy_Ptr (d s : list byte) (off : nat) (len : Z) :
  (Z.to_nat len <= length s)%nat ->
  (off + Z.to_nat len <= length d)%nat ->
  ics_memcpy d off (Ptr s) len
    = Ret (take off d ++ take (Z.to_nat len) s ++ drop (off + Z.to_nat len) d).
Proof.
  intros Hs Hd. unfold ics_memcpy.
  rewrite ics_memcpy_from_Ptr by lia.
  rewrite Nat.add_0_r, drop_0. reflexivity.
Qed.

Lemma ics_equal_from_true (a b : list byte) (i n : nat) :
  ics_equal_from (Ptr a) (Ptr b) i n = Ret true ->
  take n (drop i a) = take n (drop i b).
Proof.
  revert i. induction n as [|n IH]; intros i H; simpl in H.
  - reflexivity.
  - destruct (a !! i) as [x|] eqn:Ex; simpl in H; [|discriminate].
    destruct (b !! i) as [y|] eqn:Ey; simpl in H; [|discriminate].
    destruct (Byte.eqb x y) eqn:E; [|discriminate].
    apply Byte.byte_dec_bl in E. subst y.
    rewrite (drop_S a x i Ex), (drop_S b x i Ey). simpl.
    f_equal. apply IH, H.
Qed.

Lemma ics_equal_true (a b : list byte) (len : Z) :
  ics_equal (Ptr a) (Ptr b) len = Ret true ->
  take (Z.to_nat len) a = take (Z.to_nat len) b.
Proof. intros H. apply ics_equal_from_true in H. exact H. Qed.

Lemma ics_equal_from_Ptr (a b : list byte) (i n : nat) :
  (i + n <= length a)%nat ->
  (i + n <= length b)%nat ->
  exists r : bool,
    ics_equal_from (Ptr a) (Ptr b) i n = Ret r /\
    (r = true <-> take n (drop i a) = take n (drop i b)).
Proof.
  revert i. induction n as [|n IH]; intros i Ha Hb; simpl.
  - exists true. split; [reflexivity|]. split; reflexivity.
  - destruct (lookup_lt_is_Some_2 a i) as [x Ex]; [lia|].
    destruct (lookup_lt_is_Some_2 b i) as [y Ey]; [lia|].
    rewrite Ex, Ey. simpl.
    rewrite (drop_S a x i Ex), (drop_S b y i Ey). simpl.
    destruct (Byte.eqb x y) eqn:E.
    + apply Byte.byte_dec_bl in E. subst y.
      destruct (IH (S i)) as (r & Hr & Hiff); [lia|lia|].
      exists r. split; [exact Hr|]. rewrite Hiff. split; intros H.
      * f_equal. exact H.
      * injection H as H. exact H.
    + exists false. split; [reflexivity|]. split; [discriminate|].
      intros H. injection H as H _. subst y.
      rewrite (Byte.byte_dec_lb eq_refl) in E. discriminate.
Qed.

Lemma ics_equal_Ptr (a b : list byte) (len : Z) :
  (Z.to_nat len <= length a)%nat ->
  (Z.to_nat len <= length b)%nat ->
  exists r : bool,
    ics_equal (Ptr a) (Ptr b) len = Ret r /\
    (r = true <-> take (Z.to_nat len) a = take (Z.to_nat len) b).
Proof. intros Ha Hb. apply (ics_equal_from_Ptr a b 0); simpl; lia. Qed.

(** ** The probe loops, one round at a time *)

Lemma is_live_Ptr (e : map_entry) : is_live e = true -> exists d, e = Ptr d.
Proof. destruct e; simpl; try discriminate. eauto. Qed.

Lemma find_hole_loop_S (fuel : nat) (m : icsmap) (k : map_key) (ks i : Z)
    (e : map_entry) :
  arr m !! Z.to_nat i = Some e ->
  is_live e = true ->
  find_hole_loop (S fuel) m k ks i
    = let* same := probe_test m k ks e in
      if same then Ret (ICS_EXISTS, i)
      else find_hole_loop fuel m k ks (probe_next m i).
Proof.
  intros He Hl. apply is_live_Ptr in Hl as [d ->].
  simpl. unfold arr_at. rewrite He. simpl. unfold probe_test.
  destruct (get_key m (map_entry_key m (Ptr d))) as [[c cs]|]; simpl; [|reflexivity].
  destruct (cs =? ks); simpl; reflexivity.
Qed.

Lemma find_key_loop_S (fuel : nat) (m : icsmap) (k : map_key) (ks h i : Z)
    (e : map_entry) :
  arr m !! Z.to_nat i = Some e ->
  is_empty e = false ->
  find_key_loop (S fuel) m k ks h i
    = let* same := probe_test m k ks e in
      if same then Ret (ICS_OK, i)
      else if probe_next m i =? h then Ret (ICS_NOT_FOUND, 0)
           else find_key_loop fuel m k ks h (probe_next m i).
Proof.
  intros He Hl. simpl. unfold arr_at. rewrite He. simpl. rewrite Hl.
  unfold probe_test.
  destruct (get_key m (map_entry_key m e)) as [[c cs]|]; simpl; [|reflexivity].
  destruct (cs =? ks); simpl; reflexivity.
Qed.

Lemma probe_test_config (m m' : icsmap) (k : map_key) (ks : Z) (e : map_entry) :
  same_config m m' -> probe_test m' k ks e = probe_test m k ks e.
Proof.
  intros (_ & Hk & _ & Hg). unfold probe_test, get_key, map_entry_key.
  rewrite Hk, Hg. reflexivity.
Qed.

Lemma probe_next_config (m m' : icsmap) (i : Z) :
  same_config m m' -> probe_next m' i = probe_next m i.
Proof. intros (Hc & _). unfold probe_next. rewrite Hc. reflexivity. Qed.

(** What [find_hole_loop] has seen when it returns. *)
Lemma find_hole_loop_inv (fuel : nat) (m : icsmap) (k : map_key) (ks i : Z)
    (st : ics_status) (j : Z) :
  find_hole_loop fuel m k ks i = Ret (st, j) ->
  exists (t : nat) (e : map_entry),
    (t < fuel)%nat /\ probe_run m k ks i t j /\
    arr m !! Z.to_nat j = Some e /\
    ((st = ICS_OK /\ is_live e = false) \/
     (st = ICS_EXISTS /\ is_live e = true /\ probe_test m k ks e = Ret true)).
Proof.
  revert i. induction fuel as [|fuel IH]; intros i H; [discriminate|].
  destruct (arr m !! Z.to_nat i) as [e|] eqn:He;
    [|simpl in H; unfold arr_at in H; rewrite He in H; discriminate].
  destruct (is_live e) eqn:Hl.
  - rewrite (find_hole_loop_S _ _ _ _ _ _ He Hl) in H.
    bind_inv H. destruct a.
    + injection H as <- <-. exists 0%nat, e.
      split; [lia|]. split; [constructor|]. split; [exact He|]. right. auto.
    + apply IH in H. destruct H as (t & e' & Ht & Hrun & He' & Hend).
      exists (S t), e'. split; [lia|]. split; [|auto].
      econstructor; eauto.
  - simpl in H. unfold arr_at in H. rewrite He in H. simpl in H.
    exists 0%nat, e.
    assert (st = ICS_OK /\ j = i) as [-> ->].
    { destruct e as [| |d]; simpl in *; try discriminate.
      - injection H as <- <-. auto.
      - bind_inv H. destruct a as [c cs]. bind_inv H.
        injection H as <- <-. auto. }
    split; [lia|]. split; [constructor|]. split; [exact He|]. left. auto.
Qed.

(** Conversely, a walk that ends on an empty slot or on a matching live
    slot is what the loop does. *)
Lemma find_hole_loop_run (m : icsmap) (k : map_key) (ks i : Z) (t : nat) (j : Z) :
  probe_run m k ks i t j ->
  forall (fuel : nat) (e : map_entry),
    (t < fuel)%nat ->
    arr m !! Z.to_nat j = Some e ->
    (e = NULL -> find_hole_loop fuel m k ks i = Ret (ICS_OK, j)) /\
    (is_live e = true -> probe_test m k ks e = Ret true ->
     find_hole_loop fuel m k ks i = Ret (ICS_EXISTS, j)).
Proof.
  induction 1 as [i|i t j e0 He0 Hl0 Ht0 Hrun IH]; intros fuel e Hfuel He.
  - destruct fuel as [|fuel]; [lia|]. split.
    + intros ->. simpl. unfold arr_at. rewrite He. reflexivity.
    + intros Hl Ht. rewrite (find_hole_loop_S _ _ _ _ _ _ He Hl), Ht. reflexivity.
  - destruct fuel as [|fuel]; [lia|].
    rewrite (find_hole_loop_S _ _ _ _ _ _ He0 Hl0), Ht0. simpl.
    apply IH; [lia|exact He].
Qed.

(** ** Index arithmetic of the probe *)

Lemma probe_next_small (m : icsmap) (i : Z) :
  cap_ok m -> 0 <= i < capacity m ->
  probe_next m i = (i + 1) mod capacity m.
Proof.
  intros Hc Hi. unfold probe_next, u32, cap_ok in *.
  rewrite (Z.mod_small (i + 1)) by lia. reflexivity.
Qed.

Lemma probe_next_range (m : icsmap) (i : Z) :
  cap_ok m -> 0 <= probe_next m i < capacity m.
Proof. intros Hc. unfold probe_next. apply Z.mod_pos_bound. apply Hc. Qed.

Lemma mod_add_ne (c h d : Z) :
  0 <= h < c -> 0 < d < c -> (h + d) mod c <> h.
Proof.
  intros Hh Hd E.
  destruct (Z_lt_le_dec (h + d) c) as [Hlt|Hge].
  - rewrite Z.mod_small in E by lia. lia.
  - assert ((h + d) mod c = h + d - c) as E'.
    { symmetry. apply (Z.mod_unique _ _ 1); lia. }
    lia.
Qed.

Lemma probe_run_index (m : icsmap) (k : map_key) (ks i : Z) (t : nat) (j : Z) :
  cap_ok m -> 0 <= i < capacity m ->
  probe_run m k ks i t j ->
  j = (i + Z.of_nat t) mod capacity m.
Proof.
  intros Hc Hi Hrun. induction Hrun as [i|i t j e He Hl Ht Hrun IH].
  - rewrite Z.add_0_r, Z.mod_small; auto.
  - rewrite IH by (apply probe_next_range; exact Hc).
    rewrite probe_next_small by auto.
    rewrite Zplus_mod_idemp_l. f_equal. lia.
Qed.

Lemma probe_run_end_range (m : icsmap) (k : map_key) (ks i : Z) (t : nat) (j : Z) :
  cap_ok m -> 0 <= i < capacity m ->
  probe_run m k ks i t j -> 0 <= j < capacity m.
Proof.
  intros Hc Hi Hrun. rewrite (probe_run_index _ _ _ _ _ _ Hc Hi Hrun).
  apply Z.mod_pos_bound. apply Hc.
Qed.

(** ** Frame properties of a walk *)

(** A walk only depends on the live slots it passes. *)
Lemma probe_run_frame (m m' : icsmap) (k : map_key) (ks i : Z) (t : nat) (j : Z) :
  same_config m m' ->
  (forall x e, arr m !! x = Some e -> is_live e = true -> arr m' !! x = Some e) ->
  probe_run m k ks i t j ->
  probe_run m' k ks i t j.
Proof.
  intros Hcfg Hkeep Hrun. induction Hrun as [i|i t j e He Hl Ht Hrun IH].
  - constructor.
  - econstructor; eauto.
    + rewrite (probe_test_config m m') by exact Hcfg. exact Ht.
    + rewrite (probe_next_config m m') by exact Hcfg. exact IH.
Qed.

(** A walk of less than a full cycle does not pass its own end. *)
Lemma probe_run_frame_end (m m' : icsmap) (k : map_key) (ks i : Z) (t : nat) (j : Z) :
  cap_ok m -> 0 <= i < capacity m -> (t < Z.to_nat (capacity m))%nat ->
  same_config m m' ->
  (forall x, x <> Z.to_nat j -> arr m' !! x = arr m !! x) ->
  probe_run m k ks i t j ->
  probe_run m' k ks i t j.
Proof.
  intros Hc Hi Ht Hcfg Hkeep Hrun.
  induction Hrun as [i|i t j e He Hl Htest Hrun IH].
  - constructor.
  - assert (j = (i + Z.of_nat (S t)) mod capacity m) as Hj.
    { eapply probe_run_index; eauto. econstructor; eauto. }
    assert (j <> i) as Hne.
    { rewrite Hj. apply mod_add_ne; [lia|]. unfold cap_ok in Hc. lia. }
    econstructor.
    + rewrite Hkeep; [exact He|].
      assert (0 <= j) by (rewrite Hj; apply Z.mod_pos_bound; apply Hc). lia.
    + exact Hl.
    + rewrite (probe_test_config m m') by exact Hcfg. exact Htest.
    + rewrite (probe_next_config m m') by exact Hcfg.
      apply IH; [apply probe_next_range; exact Hc|lia|exact Hkeep].
Qed.

(** The walk of [find_key] over the same slots. *)
Lemma find_key_loop_run (m : icsmap) (k : map_key) (ks h i : Z) (t : nat) (j : Z) :
  cap_ok m -> 0 <= h < capacity m ->
  probe_run m k ks i t j ->
  forall (s fuel : nat) (e : map_entry),
    i = (h + Z.of_nat s) mod capacity m ->
    (s + t < Z.to_nat (capacity m))%nat ->
    (t < fuel)%nat ->
    arr m !! Z.to_nat j = Some e ->
    is_empty e = false ->
    probe_test m k ks e = Ret true ->
    find_key_loop fuel m k ks h i = Ret (ICS_OK, j).
Proof.
  intros Hc Hh Hrun.
  induction Hrun as [i|i t j e0 He0 Hl0 Ht0 Hrun IH];
    intros s fuel e Hi Hs Hfuel He Hne Htest.
  - destruct fuel as [|fuel]; [lia|].
    rewrite (find_key_loop_S _ _ _ _ _ _ _ He Hne), Htest. reflexivity.
  - destruct fuel as [|fuel]; [lia|].
    assert (is_empty e0 = false) as Hne0.
    { apply is_live_Ptr in Hl0 as [d ->]. reflexivity. }
    rewrite (find_key_loop_S _ _ _ _ _ _ _ He0 Hne0), Ht0. simpl.
    assert (0 <= i < capacity m) as Hir.
    { rewrite Hi. apply Z.mod_pos_bound. apply Hc. }
    assert (probe_next m i = (h + Z.of_nat (S s)) mod capacity m) as Hn.
    { rewrite probe_next_small by auto. rewrite Hi, Zplus_mod_idemp_l.
      f_equal. lia. }
    destruct (Z.eqb_spec (probe_next m i) h) as [E|E].
    + exfalso. rewrite Hn in E. revert E. apply mod_add_ne; [exact Hh|].
      unfold cap_ok in Hc. lia.
    + apply (IH (S s) fuel e); auto; lia.
Qed.

(** ** C4: put on a key that exists *)

Lemma find_hole_inv (m : icsmap) (key : map_key) (st : ics_status) (j : Z) :
  find_hole m key = Ret (st, j) ->
  exists (k : map_key) (ks h : Z),
    get_key m key = Ret (k, ks) /\
    hash m k ks = Ret h /\
    h < capacity m /\
    find_hole_loop (Z.to_nat (capacity m)) m k ks h = Ret (st, j).
Proof.
  unfold find_hole. intros H. bind_inv H. destruct a as [k ks].
  bind_inv H. bind_inv H. apply assert_Ret_inv in Hcall1.
  apply Z.ltb_lt in Hcall1. eauto 10.
Qed.

Lemma init_map_entry_Ptr (m : icsmap) (d k v : list byte) :
  (Z.to_nat (keysize m) <= length k)%nat ->
  (Z.to_nat (valsize m) <= length v)%nat ->
  (Z.to_nat (keysize m) + Z.to_nat (valsize m) <= length d)%nat ->
  init_map_entry m (Ptr d) (Ptr k) (Ptr v)
    = Ret (Ptr (take (Z.to_nat (keysize m)) k ++ take (Z.to_nat (valsize m)) v
                ++ drop (Z.to_nat (keysize m) + Z.to_nat (valsize m)) d)).
Proof.
  intros Hk Hv Hd. unfold init_map_entry.
  rewrite ics_memcpy_Ptr by (simpl; lia). simpl.
  rewrite ics_memcpy_Ptr
    by (rewrite ?length_app, ?length_take, ?length_drop; lia).
  simpl. do 2 f_equal.
  rewrite take_app_length' by (rewrite length_take; lia).
  do 2 f_equal.
  rewrite drop_app_ge by (rewrite length_take; lia).
  rewrite length_take, drop_drop. f_equal. lia.
Qed.


(** C4 (counterexample). Two puts whose key is found to exist and which
    change more than the value bytes: with a resolver, put through [name2]
    on the entry stored through [name1] replaces the stored key bytes; in
    an overloaded map, put('a') first rebuilds the slot array at capacity
    29 and finds 'a' in its new slot. *)
Lemma C4_counterexample :
  (put_all (fresh_map cfg_name_int) [(name1, int_le 42)] = Ret (ICS_OK, map_name1) /\
   find_hole map_name1 (Ptr name2) = Ret (ICS_EXISTS, 8) /\
   icsmap_put true true map_name1 (Ptr name2) (Ptr (int_le 7))
     = Ret (ICS_OK, arr_set map_name1 8 (Ptr (name2 ++ int_le 7))) /\
   arr map_name1 !! 8%nat = Some (Ptr (name1 ++ int_le 42)) /\
   name1 <> name2) /\
  (exists mr m' : icsmap,
     resize true map_5_of_13 = Ret (ICS_OK, mr) /\
     find_hole mr (Ptr key_a) = Ret (ICS_EXISTS, 10) /\
     icsmap_put true true map_5_of_13 (Ptr key_a) (Ptr (int_le 9)) = Ret (ICS_OK, m') /\
     capacity m' <> capacity map_5_of_13 /\
     arr map_5_of_13 !! 6%nat = Some (Ptr (key_a ++ int_le 1)) /\
     arr m' !! 6%nat = Some NULL /\
     arr m' !! 10%nat = Some (Ptr (key_a ++ int_le 9))).
Proof.
  split.
  - split; [reflexivity|]. split; [reflexivity|]. split; [reflexivity|].
    split; [reflexivity|discriminate].
  - do 2 eexists. split; [vm_compute; reflexivity|].
    split; [vm_compute; reflexivity|].
    split; [vm_compute; reflexivity|].
    split; [vm_compute; discriminate|].
    repeat split; reflexivity.
Qed.

(** Decides a statement about every slot of a literal array. *)
Ltac each_slot x H :=
  repeat (first
    [ solve [simpl in H; discriminate]
    | destruct x as [|x];
      [simpl in H; try discriminate; try (injection H as <-); try reflexivity|] ]).

(** ** C9: export and iteration *)

Lemma slot_split (l : list map_entry) (i n : nat) :
  (i + S n <= length l)%nat ->
  exists e, l !! i = Some e /\ take (S n) (drop i l) = e :: take n (drop (S i) l).
Proof.
  intros H. destruct (lookup_lt_is_Some_2 l i) as [e He]; [lia|].
  exists e. split; [exact He|]. rewrite (drop_S l e i He). reflexivity.
Qed.

Lemma icsmap_foreach_loop_spec {D : Type} (m : icsmap)
    (fn : map_key -> map_val -> D -> D) (n : nat) :
  forall (i : Z) (data : D),
    0 <= i ->
    (Z.to_nat i + n <= length (arr m))%nat ->
    icsmap_foreach_loop n m fn i data
      = Ret (fold_left (fun acc e => fn (map_entry_key m e) (map_entry_val m e) acc)
               (List.filter is_live (take n (drop (Z.to_nat i) (arr m)))) data).
Proof.
  induction n as [|n IH]; intros i data Hi Hlen.
  - reflexivity.
  - destruct (slot_split (arr m) (Z.to_nat i) n Hlen) as (e & He & ->).
    simpl. unfold arr_at. rewrite He. simpl.
    replace (S (Z.to_nat i)) with (Z.to_nat (i + 1)) by lia.
    destruct (is_live e); simpl; apply IH; lia.
Qed.

Lemma fold_left_collect (f g : map_entry -> map_entry) (l : list map_entry)
    (seen : list (map_key * map_val)) :
  fold_left (fun acc e => collect (f e) (g e) acc) l seen
    = seen ++ List.map (fun e => (f e, g e)) l.
Proof.
  revert seen. induction l as [|e l IH]; intros seen; simpl.
  - rewrite app_nil_r. reflexivity.
  - rewrite IH. unfold collect. rewrite <- app_assoc. reflexivity.
Qed.

Lemma icsmap_foreach_collect (m : icsmap) :
  0 <= capacity m ->
  length (arr m) = Z.to_nat (capacity m) ->
  icsmap_foreach m collect []
    = Ret (List.map (fun e => (map_entry_key m e, map_entry_val m e))
             (List.filter is_live (arr m))).
Proof.
  intros Hc Hlen. unfold icsmap_foreach.
  rewrite icsmap_foreach_loop_spec by (simpl; lia).
  rewrite fold_left_collect. simpl. rewrite drop_0, <- Hlen, firstn_all.
  reflexivity.
Qed.

Lemma splice_take_drop (buf a : list byte) (off x : nat) :
  (off + length a + x <= length buf)%nat ->
  take (off + length a) (take off buf ++ a ++ drop (off + length a) buf)
    = take off buf ++ a /\
  drop (off + length a + x) (take off buf ++ a ++ drop (off + length a) buf)
    = drop (off + length a + x) buf /\
  length (take off buf ++ a ++ drop (off + length a) buf) = length buf.
Proof.
  intros H.
  assert (length (take off buf) = off) as Ht by (rewrite length_take; lia).
  repeat split.
  - rewrite app_assoc. apply take_app_length'.
    rewrite length_app, Ht. reflexivity.
  - rewrite app_assoc, drop_app_ge by (rewrite length_app, Ht; lia).
    rewrite length_app, Ht, drop_drop. f_equal. lia.
  - rewrite !length_app, Ht, length_drop. lia.
Qed.

Lemma u32_offset (idx : nat) (w : Z) :
  0 <= w -> Z.of_nat idx * w < 2 ^ 32 ->
  Z.to_nat (u32 (Z.of_nat idx * w)) = (idx * Z.to_nat w)%nat.
Proof.
  intros Hw Hlt. unfold u32. rewrite Z.mod_small by lia.
  rewrite Z2Nat.inj_mul by lia. rewrite Nat2Z.id. reflexivity.
Qed.

Lemma icsmap_all_loop_spec (m : icsmap) :
  0 <= keysize m -> 0 <= valsize m ->
  (forall x d, arr m !! x = Some (Ptr d) ->
     length d = (Z.to_nat (keysize m) + Z.to_nat (valsize m))%nat) ->
  forall (n : nat) (i : Z) (idx : nat) (keys vals : list byte),
    0 <= i ->
    (Z.to_nat i + n <= length (arr m))%nat ->
    let live := List.filter is_live (take n (drop (Z.to_nat i) (arr m))) in
    let ks := Z.to_nat (keysize m) in
    let vs := Z.to_nat (valsize m) in
    ((idx + length live) * ks <= length keys)%nat ->
    ((idx + length live) * vs <= length vals)%nat ->
    Z.of_nat (idx + length live) * keysize m < 2 ^ 32 ->
    Z.of_nat (idx + length live) * valsize m < 2 ^ 32 ->
    icsmap_all_loop n m i (Z.of_nat idx) keys vals
      = Ret (Z.of_nat (idx + length live),
             (take (idx * ks) keys
                ++ concat (List.map (fun e => bytes_at (map_entry_key m e) (keysize m)) live)
                ++ drop ((idx + length live) * ks) keys,
              take (idx * vs) vals
                ++ concat (List.map (fun e => bytes_at (map_entry_val m e) (valsize m)) live)
                ++ drop ((idx + length live) * vs) vals)).
Proof.
  intros Hks Hvs Hrec.
  induction n as [|n IH]; intros i idx keys vals Hi Hlen live ks vs Hk Hv Hk32 Hv32.
  - subst live. simpl. rewrite !Nat.add_0_r, !take_drop. reflexivity.
  - destruct (slot_split (arr m) (Z.to_nat i) n Hlen) as (e & He & Esplit).
    subst live. rewrite Esplit in *. clear Esplit.
    cbn [icsmap_all_loop]. unfold arr_at. rewrite He. cbn [bind].
    cbn [List.filter] in *.
    replace (S (Z.to_nat i)) with (Z.to_nat (i + 1)) in * by lia.
    set (live := List.filter is_live (take n (drop (Z.to_nat (i + 1)) (arr m)))) in *.
    destruct (is_live e) eqn:Hl.
    + apply is_live_Ptr in Hl as [d ->].
      pose proof (Hrec _ _ He) as Hd. fold ks vs in Hd.
      cbn [length List.map concat] in *.
      assert (length (take ks d) = ks) as Lk by (rewrite length_take; lia).
      assert (length (take vs (drop ks d)) = vs) as Lv
        by (rewrite length_take, length_drop; lia).
      rewrite u32_offset by nia.
      unfold map_entry_key, map_entry_val, ptr_add. fold ks.
      rewrite ics_memcpy_Ptr by (fold ks; nia). fold ks. cbn [bind].
      rewrite u32_offset by nia.
      rewrite ics_memcpy_Ptr by (fold vs; rewrite ?length_drop; nia).
      fold vs. cbn [bind].
      destruct (splice_take_drop keys (take ks d) (idx * ks) (length live * ks))
        as (Tk & Dk & Lenk); [rewrite Lk; nia|].
      destruct (splice_take_drop vals (take vs (drop ks d)) (idx * vs) (length live * vs))
        as (Tv & Dv & Lenv); [rewrite Lv; nia|].
      rewrite Lk in *. rewrite Lv in *.
      replace (Z.of_nat idx + 1) with (Z.of_nat (S idx)) by lia.
      rewrite IH; fold live; fold ks; fold vs; try lia; try nia.
      replace (S idx + length live)%nat with (idx + S (length live))%nat by lia.
        replace (S idx * ks)%nat with (idx * ks + ks)%nat by lia.
        replace (S idx * vs)%nat with (idx * vs + vs)%nat by lia.
        replace ((idx + S (length live)) * ks)%nat
          with (idx * ks + ks + length live * ks)%nat by lia.
        replace ((idx + S (length live)) * vs)%nat
          with (idx * vs + vs + length live * vs)%nat by lia.
        rewrite Tk, Dk, Tv, Dv. unfold bytes_at. fold ks vs.
        rewrite <- !app_assoc. reflexivity.
    + apply IH; fold live; auto; lia.
Qed.

(** A list of pointers to records is the list of its records. *)
Lemma record_list (l : list map_entry) (P : list byte -> Prop) :
  (forall e, In e l -> exists d, e = Ptr d /\ P d) ->
  exists recs : list (list byte), l = List.map Ptr recs /\ Forall P recs.
Proof.
  induction l as [|e l IH]; intros Hall.
  - exists []. split; [reflexivity|constructor].
  - destruct IH as (recs & -> & Hf); [intros e' He'; apply Hall; right; exact He'|].
    destruct (Hall e (or_introl eq_refl)) as (d & -> & Hd).
    exists (d :: recs). split; [reflexivity|constructor; auto].
Qed.

(** On a well-formed map, with output buffers of count * keysize and
    count * valsize bytes (sizes that fit 32 bits), export and iteration
    both range over the records of the Occupied slots in slot order,
    skipping empty slots and tombstones: there are count of them, foreach
    hands each record and its value part to the visitor, and export-all
    returns the buffers filled with their [keysize]-byte keys and their
    [valsize]-byte values, one after the other with no gap. *)
Lemma icsmap_all_exports_live_slots (m : icsmap) (keys vals : list byte) :
  well_formed m ->
  size m * keysize m < 2 ^ 32 ->
  size m * valsize m < 2 ^ 32 ->
  Z.of_nat (length keys) = size m * keysize m ->
  Z.of_nat (length vals) = size m * valsize m ->
  exists recs : list (list byte),
    List.filter is_live (arr m) = List.map Ptr recs /\
    Z.of_nat (length recs) = icsmap_count m /\
    Forall (fun d => length d = (Z.to_nat (keysize m) + Z.to_nat (valsize m))%nat)
      recs /\
    icsmap_foreach m collect []
      = Ret (List.map (fun d => (Ptr d, Ptr (drop (Z.to_nat (keysize m)) d))) recs) /\
    icsmap_all m keys vals
      = Ret (concat (List.map (take (Z.to_nat (keysize m))) recs),
             concat (List.map (fun d => take (Z.to_nat (valsize m))
                                          (drop (Z.to_nat (keysize m)) d)) recs)).
Proof.
  intros [Hcap Harr Hsize Hks Hvs Hrec] Hk32 Hv32 Hkeys Hvals.
  unfold cap_ok in Hcap. unfold live_count in Hsize.
  assert (exists recs, List.filter is_live (arr m) = List.map Ptr recs /\
            Forall (fun d => length d
                      = (Z.to_nat (keysize m) + Z.to_nat (valsize m))%nat) recs)
    as (recs & Hrecs & Hlens).
  { assert (forall e, In e (List.filter is_live (arr m)) ->
              exists d, e = Ptr d /\
                length d = (Z.to_nat (keysize m) + Z.to_nat (valsize m))%nat) as Hall.
    { intros e He. apply filter_In in He. destruct He as [He Hl].
      apply is_live_Ptr in Hl as [d ->]. exists d. split; [reflexivity|].
      apply list_elem_of_In, list_elem_of_lookup in He. destruct He as [x Hx].
      apply (Hrec _ _ Hx). }
    apply record_list. exact Hall. }
  exists recs. split; [exact Hrecs|].
  assert (length (List.filter is_live (arr m)) = length recs) as Hn
    by (rewrite Hrecs; apply length_map).
  split; [unfold icsmap_count; lia|]. split; [exact Hlens|]. split.
  { rewrite icsmap_foreach_collect by lia. rewrite Hrecs, List.map_map.
    reflexivity. }
  unfold icsmap_all. rewrite <- Harr.
  change (icsmap_all_loop (length (arr m)) m 0 0 keys vals)
    with (icsmap_all_loop (length (arr m)) m 0 (Z.of_nat 0) keys vals).
  assert (take (length (arr m)) (drop (Z.to_nat 0) (arr m)) = arr m) as Eall
    by (simpl; rewrite drop_0; apply firstn_all).
  rewrite icsmap_all_loop_spec; rewrite ?Eall;
    try (simpl; lia); try (simpl; nia); auto.
  cbn [bind]. simpl (0 + _)%nat.
  rewrite <- Hsize, Z.eqb_refl. cbn [assert bind].
  rewrite Hn, Hrecs, !List.map_map. simpl.
  rewrite !drop_ge, !app_nil_r by nia.
  reflexivity.
Qed.

(** C9. Two reachable states in which export-all does not write count
    records.  After put('a'), put('n'), remove('a'), put('n'), put('b'),
    put('c'), put('d') count is 5; put('e') finds the map overloaded, its
    resize meets the second record of 'n' and gives up with [ICS_EXISTS],
    leaving count 5 over a rebuilt array that holds one record: foreach
    visits that one pair, and export-all into buffers for 5 entries stops
    at its assertion [index == map->size].  After the put that fails to
    allocate the new array of its resize, capacity is 29 over an array of
    13 slots: export-all and foreach read behind the array. *)
Theorem C9_export_after_failed_resize :
  (exists m1 m2 m3 m4 : icsmap,
     icsmap_init true true cfg_char_int = (ICS_OK, Some (fresh_map cfg_char_int)) /\
     put_all (fresh_map cfg_char_int) [(key_a, int_le 1); (key_n, int_le 2)]
       = Ret (ICS_OK, m1) /\
     icsmap_remove m1 (Ptr key_a) = Ret (ICS_OK, m2) /\
     put_all m2 [(key_n, int_le 3); (key_b, int_le 4); (key_c, int_le 5);
                 (key_d, int_le 6)]
       = Ret (ICS_OK, m3) /\
     icsmap_put true true m3 (Ptr key_e) (Ptr (int_le 7)) = Ret (ICS_EXISTS, m4) /\
     icsmap_count m4 = 5 /\
     icsmap_foreach m4 collect []
       = Ret [(Ptr (key_n ++ int_le 3), Ptr (int_le 3))] /\
     icsmap_all m4 (replicate 5 x00) (replicate 20 x00) = Stop AssertionFailed) /\
  (exists m5 : icsmap,
     put_all (fresh_map cfg_char_int) abcde_puts = Ret (ICS_OK, map_5_of_13) /\
     icsmap_put false true map_5_of_13 (Ptr [x66]) (Ptr (int_le 6))
       = Ret (ICS_NO_MEMORY, m5) /\
     icsmap_count m5 = 5 /\
     icsmap_foreach m5 collect [] = Stop InvalidRead /\
     icsmap_all m5 (replicate 5 x00) (replicate 20 x00) = Stop InvalidRead).
Proof.
  split.
  - do 4 eexists. split; [reflexivity|].
    split; [vm_compute; reflexivity|].
    split; [vm_compute; reflexivity|].
    split; [vm_compute; reflexivity|].
    split; [vm_compute; reflexivity|].
    repeat split; vm_compute; reflexivity.
  - eexists. split; [vm_compute; reflexivity|].
    split; [vm_compute; reflexivity|].
    repeat split; vm_compute; reflexivity.
Qed.

(** ** Bounded loops *)

Lemma loop_nat_add {S R : Type} (body : S -> S + R) (a b : nat) (s : S) :
  loop_nat (a + b) body s
    = match loop_nat a body s with
      | inl s' => loop_nat b body s'
      | inr r => inr r
      end.
Proof.
  revert s. induction a as [|a IH]; intros s; simpl; [reflexivity|].
  destruct (body s); [apply IH|reflexivity].
Qed.

Lemma loop_until_nat {S R : Type} (body : S -> S + R) (p : positive) (s : S) :
  loop_until p body s = loop_nat (Pos.to_nat p) body s.
Proof.
  revert s. induction p as [p IH|p IH|]; intros s; cbn [loop_until].
  - rewrite Pos2Nat.inj_xI. cbn [loop_nat].
    destruct (body s) as [s'|r]; [|reflexivity].
    replace (2 * Pos.to_nat p)%nat with (Pos.to_nat p + Pos.to_nat p)%nat by lia.
    rewrite loop_nat_add, IH.
    destruct (loop_nat (Pos.to_nat p) body s'); [apply IH|reflexivity].
  - rewrite Pos2Nat.inj_xO.
    replace (2 * Pos.to_nat p)%nat with (Pos.to_nat p + Pos.to_nat p)%nat by lia.
    rewrite loop_nat_add, IH.
    destruct (loop_nat (Pos.to_nat p) body s); [apply IH|reflexivity].
  - change (Pos.to_nat 1) with 1%nat. cbn [loop_nat].
    destruct (body s); reflexivity.
Qed.

(** A loop that exits within [n] rounds exits the same way with more. *)
Lemma loop_nat_more {S R : Type} (body : S -> S + R) (n n' : nat) (s : S) (r : R) :
  loop_nat n body s = inr r -> (n <= n')%nat -> loop_nat n' body s = inr r.
Proof.
  intros H Hle. replace n' with (n + (n' - n))%nat by lia.
  rewrite loop_nat_add, H. reflexivity.
Qed.

(** ** C7: trial division and the next prime *)

Lemma prime_of_no_small_divisor (n i : Z) :
  1 < n -> 0 < i -> n < i * i -> no_divisor_below n i -> Z.prime n.
Proof.
  intros Hn Hi Hsq Hno. split; [exact Hn|].
  intros d Hd [q Hq].
  destruct (Z_lt_le_dec d i) as [Hlt|Hge].
  - apply (Hno d); [lia|]. exists q. exact Hq.
  - assert (0 < q) by nia.
    assert (q < i) by nia.
    assert (2 <= q) by nia.
    apply (Hno q); [lia|]. exists d. lia.
Qed.

Lemma not_prime_divisor (n d : Z) : 1 < d < n -> (d | n) -> ~ Z.prime n.
Proof.
  intros Hd Hdiv [_ Hp]. exact (Hp d Hd Hdiv).
Qed.

Lemma divide_mod_0 (n d : Z) : d <> 0 -> (n mod d =? 0) = true <-> (d | n).
Proof.
  intros Hd. rewrite Z.eqb_eq. apply Z.mod_divide. exact Hd.
Qed.

(** The trial-division loop below [65531 * 65531]: no product wraps, and
    the divisors that the loop skips are multiples of 2 or 3. *)
Lemma ics_is_prime_loop (n : Z) :
  1 < n -> n < 65531 * 65531 ->
  ~ (2 | n) -> ~ (3 | n) ->
  forall (k : nat) (q : Z),
    0 <= q -> 6 * q + 5 <= 65531 ->
    65531 - (6 * q + 5) < 6 * Z.of_nat k ->
    no_divisor_below n (6 * q + 5) ->
    exists b : bool,
      loop_nat k (ics_is_prime_body n) (6 * q + 5) = inr b /\
      (b = true <-> Z.prime n).
Proof.
  intros Hn Hbound H2 H3.
  induction k as [|k IH]; intros q Hq Hi Hfuel Hno; [lia|].
  cbn [loop_nat]. unfold ics_is_prime_body.
  set (i := 6 * q + 5) in *.
  assert (u32 (i * i) = i * i) as -> by (unfold u32; apply Z.mod_small; nia).
  destruct (Z.leb_spec (i * i) n) as [Hle|Hgt].
  - assert (i < 65531) by nia.
    assert (u32 (i + 2) = i + 2) as -> by (unfold u32; apply Z.mod_small; lia).
    assert (u32 (i + 6) = i + 6) as -> by (unfold u32; apply Z.mod_small; lia).
    destruct ((n mod i =? 0) || (n mod (i + 2) =? 0)) eqn:E.
    + exists false. split; [reflexivity|]. split; [discriminate|].
      intros Hp. exfalso. apply orb_true_iff in E. destruct E as [E|E].
      * apply divide_mod_0 in E; [|lia].
        apply (not_prime_divisor n i); [nia|exact E|exact Hp].
      * apply divide_mod_0 in E; [|lia].
        apply (not_prime_divisor n (i + 2)); [nia|exact E|exact Hp].
    + apply orb_false_iff in E. destruct E as [E1 E2].
      replace (i + 6) with (6 * (q + 1) + 5) by (subst i; lia).
      apply IH; try (subst i; lia).
      intros d Hd Hdiv.
      assert (d < i \/ d = i \/ d = i + 1 \/ d = i + 2 \/ d = i + 3 \/
              d = i + 4 \/ d = i + 5) as Hcase by (subst i; lia).
      destruct Hcase as [C|[C|[C|[C|[C|[C|C]]]]]].
      * apply (Hno d); [lia|exact Hdiv].
      * subst d. apply divide_mod_0 in Hdiv; [congruence|lia].
      * apply H2. apply Z.divide_trans with d; [|exact Hdiv].
        exists (3 * q + 3). subst d i. lia.
      * subst d. apply divide_mod_0 in Hdiv; [congruence|lia].
      * apply H2. apply Z.divide_trans with d; [|exact Hdiv].
        exists (3 * q + 4). subst d i. lia.
      * apply H3. apply Z.divide_trans with d; [|exact Hdiv].
        exists (2 * q + 3). subst d i. lia.
      * apply H2. apply Z.divide_trans with d; [|exact Hdiv].
        exists (3 * q + 5). subst d i. lia.
  - exists true. split; [reflexivity|]. split; [|reflexivity].
    intros _. apply (prime_of_no_small_divisor n i); auto. lia.
Qed.

Lemma fuel_2_32 : Z.of_nat (Pos.to_nat (2 ^ 32)) = 4294967296.
Proof. rewrite positive_nat_Z. reflexivity. Qed.

(** [ics_is_prime] decides primality below [65531 * 65531], except at 2,
    which it takes for composite. *)
Lemma ics_is_prime_spec (n : Z) :
  n <> 2 -> n < 65531 * 65531 ->
  exists b : bool, ics_is_prime n = Ret b /\ (b = true <-> Z.prime n).
Proof.
  intros Hne Hbound. unfold ics_is_prime.
  destruct (Z.leb_spec n 1) as [Hle|Hgt].
  { exists false. split; [reflexivity|]. split; [discriminate|].
    intros Hp. apply Z.prime_ge_2 in Hp. lia. }
  destruct (Z.eqb_spec n 3) as [->|Hne3].
  { exists true. split; [reflexivity|]. split; [intros _; apply Z.prime_3|reflexivity]. }
  destruct ((n mod 2 =? 0) || (n mod 3 =? 0)) eqn:E.
  { exists false. split; [reflexivity|]. split; [discriminate|].
    intros Hp. exfalso. apply orb_true_iff in E. destruct E as [E|E].
    - apply divide_mod_0 in E; [|lia].
      apply (not_prime_divisor n 2); [lia|exact E|exact Hp].
    - apply divide_mod_0 in E; [|lia].
      apply (not_prime_divisor n 3); [lia|exact E|exact Hp]. }
  apply orb_false_iff in E. destruct E as [E2 E3].
  assert (~ (2 | n)) as H2 by (intros H; apply divide_mod_0 in H; [congruence|lia]).
  assert (~ (3 | n)) as H3 by (intros H; apply divide_mod_0 in H; [congruence|lia]).
  rewrite loop_until_nat.
  assert (no_divisor_below n (6 * 0 + 5)) as Hno.
  { intros d Hd Hdiv.
    assert (d = 2 \/ d = 3 \/ d = 4) as [-> | [-> | ->]] by lia; auto.
    apply H2. apply Z.divide_trans with 4; [exists 2; lia|exact Hdiv]. }
  assert (65531 - (6 * 0 + 5) < 6 * Z.of_nat (Pos.to_nat (2 ^ 32))) as Hfuel
    by (rewrite fuel_2_32; lia).
  destruct (ics_is_prime_loop n Hgt Hbound H2 H3 (Pos.to_nat (2 ^ 32)) 0
              ltac:(lia) ltac:(lia) Hfuel Hno) as (b & Hb & Hiff).
  exists b. change (6 * 0 + 5) with 5 in Hb. rewrite Hb. auto.
Qed.

Lemma ics_next_prime_loop (p : Z) :
  Z.prime p -> p < 65531 * 65531 ->
  forall (k : nat) (s : Z),
    2 <= s -> s < p -> Z.of_nat k = p - s ->
    (forall q, s < q < p -> ~ Z.prime q) ->
    forall fuel : nat,
      (k <= fuel)%nat ->
      loop_nat fuel ics_next_prime_body s = inr (Ret p).
Proof.
  intros Hp Hbound.
  induction k as [|k IH]; intros s Hs Hlt Hk Hnone fuel Hfuel; [lia|].
  destruct fuel as [|fuel]; [lia|].
  cbn [loop_nat]. unfold ics_next_prime_body.
  assert (u32 (s + 1) = s + 1) as -> by (unfold u32; apply Z.mod_small; lia).
  destruct (ics_is_prime_spec (s + 1)) as (b & -> & Hiff); [lia|lia|].
  destruct (Z.eq_dec (s + 1) p) as [E|E].
  - rewrite E in *. destruct b; [reflexivity|].
    apply Hiff in Hp. discriminate.
  - destruct b.
    + exfalso. apply (Hnone (s + 1)); [lia|]. apply Hiff. reflexivity.
    + apply IH; try lia. intros q Hq. apply Hnone. lia.
Qed.

(** Below [65531 * 65531], [ics_next_prime] returns the least prime above
    its argument. *)
Lemma ics_next_prime_least (start p : Z) :
  Z.prime p -> start < p ->
  (forall q, Z.prime q -> start < q -> p <= q) ->
  p < 65531 * 65531 ->
  ics_next_prime start = Ret p.
Proof.
  intros Hp Hlt Hleast Hbound. unfold ics_next_prime.
  destruct (Z.leb_spec start 1) as [Hle|Hgt].
  - pose proof (Hleast 2 Z.prime_2 ltac:(lia)).
    apply Z.prime_ge_2 in Hp. f_equal. lia.
  - rewrite loop_until_nat.
    assert (Z.to_nat (p - start) <= Pos.to_nat (2 ^ 32))%nat as Hfuel
      by (pose proof fuel_2_32; lia).
    assert (forall q, start < q < p -> ~ Z.prime q) as Hnone.
    { intros q Hq Hpq. pose proof (Hleast q Hpq ltac:(lia)). lia. }
    rewrite (ics_next_prime_loop p Hp Hbound (Z.to_nat (p - start)) start
               ltac:(lia) Hlt ltac:(lia) Hnone _ Hfuel).
    reflexivity.
Qed.

Lemma Z_prime_dec (p : Z) : {Z.prime p} + {~ Z.prime p}.
Proof.
  destruct (prime_dec p) as [H|H].
  - left. apply prime_alt. exact H.
  - right. intros Hp. apply H. apply prime_alt. exact Hp.
Qed.

Lemma least_prime_above (top : Z) :
  Z.prime top ->
  forall (k : nat) (s : Z),
    s < top -> Z.of_nat k = top - s ->
    exists p, Z.prime p /\ s < p <= top /\
              (forall q, Z.prime q -> s < q -> p <= q).
Proof.
  intros Htop. induction k as [|k IH]; intros s Hs Hk; [lia|].
  destruct (Z_prime_dec (s + 1)) as [Hp|Hnp].
  - exists (s + 1). split; [exact Hp|]. split; [lia|]. intros q _ Hq. lia.
  - assert (s + 1 <> top) by (intros E; apply Hnp; rewrite E; exact Htop).
    destruct (IH (s + 1) ltac:(lia) ltac:(lia)) as (p & Hp & Hr & Hleast).
    exists p. split; [exact Hp|]. split; [lia|].
    intros q Hq Hsq. destruct (Z.eq_dec q (s + 1)) as [->|Hne]; [contradiction|].
    apply Hleast; [exact Hq|lia].
Qed.

(** The largest prime below [2^29], certified by the program's own test. *)
Lemma prime_536870909 : Z.prime 536870909.
Proof.
  destruct (ics_is_prime_spec 536870909) as (b & Hb & Hiff); [lia|lia|].
  apply Hiff.
  assert (ics_is_prime 536870909 = Ret true) as E by (vm_compute; reflexivity).
  congruence.
Qed.

Lemma prime_13 : Z.prime 13.
Proof.
  destruct (ics_is_prime_spec 13) as (b & Hb & Hiff); [lia|lia|].
  apply Hiff.
  assert (ics_is_prime 13 = Ret true) as E by (vm_compute; reflexivity).
  congruence.
Qed.

(** The call of [ics_next_prime] in [resize] when the capacity is below
    [2^27]: it returns the least prime above the doubled capacity, which
    is below [2^29]. *)
Lemma ics_next_prime_double (c : Z) :
  0 < c < 2 ^ 27 ->
  exists p, ics_next_prime (u32 (c * 2)) = Ret p /\
            Z.prime p /\ 2 * c < p /\ p < 2 ^ 29 /\
            (forall q, Z.prime q -> 2 * c < q -> p <= q).
Proof.
  intros Hc.
  assert (u32 (c * 2) = 2 * c) as -> by (unfold u32; rewrite Z.mod_small; lia).
  destruct (least_prime_above 536870909 prime_536870909
              (Z.to_nat (536870909 - 2 * c)) (2 * c) ltac:(lia) ltac:(lia))
    as (p & Hp & Hr & Hleast).
  exists p. split; [apply ics_next_prime_least; auto; lia|].
  split; [exact Hp|]. split; [lia|]. split; [lia|exact Hleast].
Qed.

(** ** Beyond [65531 * 65531]: the square that wraps *)

Lemma odd_square_mod_8 (i : Z) : i mod 2 = 1 -> (i * i) mod 8 = 1.
Proof.
  intros Hodd. rewrite Zmult_mod.
  pose proof (Z.mod_pos_bound i 8 ltac:(lia)) as Hr.
  assert ((i mod 8) mod 2 = 1) as Hr2.
  { rewrite <- Hodd. apply Z.mod_mod_divide. exists 4. reflexivity. }
  assert (i mod 8 = 1 \/ i mod 8 = 3 \/ i mod 8 = 5 \/ i mod 8 = 7)
    as [-> | [-> | [-> | ->]]]; try reflexivity.
  revert Hr Hr2. generalize (i mod 8). intros r Hr Hr2.
  assert (r = 0 \/ r = 1 \/ r = 2 \/ r = 3 \/ r = 4 \/ r = 5 \/ r = 6 \/ r = 7)
    as Hcase by lia.
  destruct Hcase as [-> | [-> | [-> | [-> | [-> | [-> | [-> | ->]]]]]]];
    simpl in Hr2; auto; discriminate.
Qed.

Lemma odd_square_u32 (i : Z) : i mod 2 = 1 -> u32 (i * i) <= 4294967289.
Proof.
  intros Hodd. pose proof (odd_square_mod_8 i Hodd) as H8.
  unfold u32.
  pose proof (Z.mod_pos_bound (i * i) (2 ^ 32) ltac:(lia)) as Hr.
  assert (((i * i) mod 2 ^ 32) mod 8 = 1) as H.
  { rewrite <- H8. apply Z.mod_mod_divide. exists (2 ^ 29). reflexivity. }
  revert H Hr. generalize ((i * i) mod 2 ^ 32). intros v H Hr.
  pose proof (Z.div_mod v 8 ltac:(lia)) as Hdm. rewrite H in Hdm.
  change (2 ^ 32) with 4294967296 in Hr. lia.
Qed.

(** At the prime 4294967291 the loop condition [i * i <= n] never fails:
    the loop can only end by finding a divisor. *)
Lemma ics_is_prime_loop_4294967291 (k : nat) :
  forall i : Z,
    i mod 2 = 1 ->
    loop_nat k (ics_is_prime_body 4294967291) i <> inr true.
Proof.
  induction k as [|k IH]; intros i Hodd; [discriminate|].
  cbn [loop_nat]. unfold ics_is_prime_body.
  pose proof (odd_square_u32 i Hodd) as Hsq.
  destruct (Z.leb_spec (u32 (i * i)) 4294967291) as [_|]; [|lia].
  destruct ((4294967291 mod i =? 0) || (4294967291 mod u32 (i + 2) =? 0));
    [discriminate|].
  apply IH. unfold u32.
  rewrite Z.mod_mod_divide by (exists (2 ^ 31); reflexivity).
  rewrite Zplus_mod, Hodd. reflexivity.
Qed.

Lemma ics_is_prime_4294967291 : ics_is_prime 4294967291 <> Ret true.
Proof.
  unfold ics_is_prime.
  replace (4294967291 <=? 1) with false by reflexivity.
  replace (4294967291 =? 3) with false by reflexivity.
  replace ((4294967291 mod 2 =? 0) || (4294967291 mod 3 =? 0)) with false
    by reflexivity.
  cbv beta iota. rewrite loop_until_nat.
  pose proof (ics_is_prime_loop_4294967291 (Pos.to_nat (2 ^ 32)) 5 eq_refl) as H.
  destruct (loop_nat (Pos.to_nat (2 ^ 32)) (ics_is_prime_body 4294967291) 5)
    as [|[|]]; try discriminate. congruence.
Qed.

Lemma no_divisor_from_below (k : nat) :
  forall n d : Z,
    2 <= d ->
    no_divisor_from k n d = true ->
    forall x : Z, d <= x < d + Z.of_nat k -> ~ (x | n).
Proof.
  induction k as [|k IH]; intros n d Hd H x Hx Hdiv; [lia|].
  cbn [no_divisor_from] in H. apply andb_prop in H. destruct H as [H1 H2].
  destruct (Z.eq_dec x d) as [->|Hne].
  - apply negb_true_iff in H1. apply divide_mod_0 in Hdiv; [congruence|lia].
  - apply (IH n (d + 1) ltac:(lia) H2 x); [lia|exact Hdiv].
Qed.

Lemma prime_4294967291 : Z.prime 4294967291.
Proof.
  apply (prime_of_no_small_divisor 4294967291 65536); try lia.
  intros d Hd.
  apply (no_divisor_from_below (Z.to_nat 65534) 4294967291 2); [lia| |lia].
  vm_compute. reflexivity.
Qed.

(** The least prime above 4294967290 fits 32 bits, and [ics_next_prime]
    does not return it. *)
Lemma ics_next_prime_4294967290 :
  Z.prime 4294967291 /\ ics_next_prime 4294967290 <> Ret 4294967291.
Proof.
  split; [exact prime_4294967291|].
  unfold ics_next_prime.
  replace (4294967290 <=? 1) with false by reflexivity. cbv beta iota.
  rewrite loop_until_nat.
  assert (exists k, Pos.to_nat (2 ^ 32) = S (8 + k)) as [k ->].
  { exists (Pos.to_nat (2 ^ 32) - 9)%nat. pose proof fuel_2_32. lia. }
  cbn [loop_nat]. unfold ics_next_prime_body at 1.
  replace (u32 (4294967290 + 1)) with 4294967291 by reflexivity.
  pose proof ics_is_prime_4294967291 as Hnot.
  destruct (ics_is_prime 4294967291) as [[|]|f]; [congruence| |discriminate].
  rewrite (loop_nat_more ics_next_prime_body 8 (8 + k) 4294967291 (Ret 3));
    [discriminate| |lia].
  vm_compute. reflexivity.
Qed.

(** From 4294967291 on there is no greater 32-bit prime: the candidate
    wraps around and [ics_next_prime] returns 3 (2 is not accepted by
    [ics_is_prime]). *)
Lemma ics_next_prime_wraps (s : Z) :
  4294967291 <= s < 2 ^ 32 -> ics_next_prime s = Ret 3.
Proof.
  intros Hs.
  assert (s = 4294967291 \/ s = 4294967292 \/ s = 4294967293 \/
          s = 4294967294 \/ s = 4294967295) as Hcases by lia.
  destruct Hcases as [-> | [-> | [-> | [-> | ->]]]]; vm_compute; reflexivity.
Qed.

(** ** What [resize] and [icsmap_put] keep *)

Lemma same_config_refl (m : icsmap) : same_config m m.
Proof. repeat split. Qed.

Lemma same_config_trans (m1 m2 m3 : icsmap) :
  same_config m1 m2 -> same_config m2 m3 -> same_config m1 m3.
Proof.
  intros (A1 & A2 & A3 & A4) (B1 & B2 & B3 & B4).
  repeat split; congruence.
Qed.

Lemma same_config_arr_set (m : icsmap) (i : Z) (e : map_entry) :
  same_config m (arr_set m i e).
Proof. repeat split. Qed.

Lemma resize_loop_config (n : nat) (old : list map_entry) :
  forall (i : Z) (map : icsmap) (st : ics_status) (map' : icsmap),
    resize_loop n old i map = Ret (st, map') ->
    same_config map map' /\ size map' = size map /\
    length (arr map') = length (arr map).
Proof.
  induction n as [|n IH]; intros i map st map' H; cbn [resize_loop] in H.
  - injection H as <- <-. split; [apply same_config_refl|auto].
  - destruct (old !! Z.to_nat i) as [e|]; [|discriminate].
    destruct (is_live e).
    + bind_inv H. destruct a as [status hash_index].
      destruct (negb (ics_status_eqb status ICS_OK)).
      * injection H as <- <-. split; [apply same_config_refl|auto].
      * apply IH in H. destruct H as (Hc & Hs & Hl).
        split; [|split].
        -- eapply same_config_trans; [apply same_config_arr_set|exact Hc].
        -- rewrite Hs. reflexivity.
        -- rewrite Hl. simpl. apply length_insert.
    + apply IH in H. exact H.
Qed.

(** The new array of [resize] has [capacity] slots when its byte size fits
    32 bits. *)
Lemma resize_slots (c : Z) :
  0 <= c -> sizeof_map_entry * c < 2 ^ 32 ->
  u32 (sizeof_map_entry * c) / sizeof_map_entry = c.
Proof.
  intros H0 Hc. unfold u32, sizeof_map_entry in *.
  rewrite Z.mod_small by lia. rewrite Z.mul_comm. apply Z.div_mul. lia.
Qed.

Lemma resize_inv (arr_ok : bool) (m : icsmap) (st : ics_status) (m' : icsmap) :
  resize arr_ok m = Ret (st, m') ->
  ics_next_prime (u32 (capacity m * 2)) = Ret (capacity m') /\
  keysize m' = keysize m /\ valsize m' = valsize m /\
  map_get_key m' = map_get_key m /\ size m' = size m.
Proof.
  unfold resize. intros H. bind_inv H. rename a into p.
  destruct arr_ok; cbn [negb] in H.
  - apply resize_loop_config in H. destruct H as ((Hc & Hk & Hv & Hg) & Hs & _).
    simpl in *. rewrite Hcall. repeat split; congruence.
  - injection H as <- <-. simpl. rewrite Hcall. repeat split.
Qed.

Lemma icsmap_put_config (arr_ok entry_ok : bool) (m : icsmap) (key val : map_entry)
    (st : ics_status) (m' : icsmap) :
  icsmap_put arr_ok entry_ok m key val = Ret (st, m') ->
  keysize m' = keysize m /\ valsize m' = valsize m /\
  map_get_key m' = map_get_key m /\
  ((is_overloaded m = Ret false /\ capacity m' = capacity m) \/
   (is_overloaded m = Ret true /\
    ics_next_prime (u32 (capacity m * 2)) = Ret (capacity m'))).
Proof.
  unfold icsmap_put. intros H. bind_inv H. rename a into ov.
  bind_inv H. destruct a as [s1 m1].
  assert (keysize m1 = keysize m /\ valsize m1 = valsize m /\
          map_get_key m1 = map_get_key m /\
          ((is_overloaded m = Ret false /\ capacity m1 = capacity m) \/
           (is_overloaded m = Ret true /\
            ics_next_prime (u32 (capacity m * 2)) = Ret (capacity m1)))) as Hm1.
  { destruct ov.
    - apply resize_inv in Hcall0. destruct Hcall0 as (Hp & Hk & Hv & Hg & _). auto 10.
    - injection Hcall0 as <- <-. auto 10. }
  assert (keysize m' = keysize m1 /\ valsize m' = valsize m1 /\
          map_get_key m' = map_get_key m1 /\ capacity m' = capacity m1) as Hm'.
  { destruct (negb (ics_status_eqb s1 ICS_OK)).
    - injection H as <- <-. auto.
    - bind_inv H. destruct a as [status index].
      destruct (ics_status_eqb status ICS_EXISTS).
      + bind_inv H. bind_inv H. injection H as <- <-. auto.
      + destruct (is_empty (malloc entry_ok (entry_size m1))).
        * injection H as <- <-. auto.
        * bind_inv H. injection H as <- <-. auto. }
  destruct Hm1 as (A1 & A2 & A3 & A4), Hm' as (B1 & B2 & B3 & B4).
  rewrite B1, B2, B3, B4. auto.
Qed.

Lemma icsmap_remove_config (m : icsmap) (key : map_entry) (st : ics_status)
    (m' : icsmap) :
  icsmap_remove m key = Ret (st, m') -> same_config m m'.
Proof.
  unfold icsmap_remove. intros H. bind_inv H. destruct a as [status index].
  destruct (negb (ics_status_eqb status ICS_OK)).
  - injection H as <- <-. apply same_config_refl.
  - bind_inv H. bind_inv H. injection H as <- <-. repeat split.
Qed.

Lemma is_overloaded_true_inv (m : icsmap) :
  is_overloaded m = Ret true ->
  0 < capacity m /\ 34 * capacity m <= u32 (size m * 100).
Proof.
  unfold is_overloaded, ics_percent, LOAD_FACTOR.
  destruct (Z.eqb_spec (capacity m) 0) as [E|E]; simpl; [discriminate|].
  intros H. injection H as H. apply Z.ltb_lt in H.
  assert (0 <= u32 (size m * 100) < 2 ^ 32) as Hu
    by (unfold u32; apply Z.mod_pos_bound; lia).
  pose proof (Z.div_mod (u32 (size m * 100)) (capacity m) E) as Hdm.
  destruct (Z_lt_le_dec (capacity m) 0) as [Hneg|Hpos].
  - pose proof (Z.mod_neg_bound (u32 (size m * 100)) (capacity m) Hneg). nia.
  - pose proof (Z.mod_pos_bound (u32 (size m * 100)) (capacity m) ltac:(lia)). nia.
Qed.

Lemma is_overloaded_true_capacity (m : icsmap) :
  is_overloaded m = Ret true -> 0 < capacity m <= 126322567.
Proof.
  intros H. apply is_overloaded_true_inv in H. destruct H as [Hc H].
  assert (0 <= u32 (size m * 100) < 2 ^ 32) as Hu
    by (unfold u32; apply Z.mod_pos_bound; lia).
  lia.
Qed.

Lemma prime_by_test (n : Z) :
  n <> 2 -> n < 65531 * 65531 -> ics_is_prime n = Ret true -> Z.prime n.
Proof.
  intros Hne Hb Ht. destruct (ics_is_prime_spec n Hne Hb) as (b & Hb' & Hiff).
  apply Hiff. congruence.
Qed.

Lemma reachable_capacity_prime (m : icsmap) : reachable m -> Z.prime (capacity m).
Proof.
  induction 1 as [map_ok arr_ok cfg m Hinit
                 |arr_ok entry_ok m key val st m' Hm IH Hput
                 |m key st m' Hm IH Hrem].
  - unfold icsmap_init in Hinit.
    destruct (negb map_ok); [discriminate|].
    destruct (negb arr_ok); [discriminate|].
    injection Hinit as <-. exact prime_13.
  - apply icsmap_put_config in Hput.
    destruct Hput as (_ & _ & _ & [[_ Hc]|[Hov Hp]]).
    + rewrite Hc. exact IH.
    + apply is_overloaded_true_capacity in Hov.
      destruct (ics_next_prime_double (capacity m)) as (p & Hp' & Hprime & _); [lia|].
      congruence.
  - apply icsmap_remove_config in Hrem. destruct Hrem as (Hc & _).
    rewrite Hc. exact IH.
Qed.

(** The allocation size of [resize] does not wrap on the path through
    [icsmap_put]. *)
Lemma resize_array_fits (arr_ok : bool) (m : icsmap) (st : ics_status) (m' : icsmap) :
  is_overloaded m = Ret true ->
  resize arr_ok m = Ret (st, m') ->
  sizeof_map_entry * capacity m' < 2 ^ 32.
Proof.
  intros Hov Hres. apply is_overloaded_true_capacity in Hov.
  apply resize_inv in Hres. destruct Hres as (Hp & _).
  destruct (ics_next_prime_double (capacity m)) as (p & Hp' & _ & _ & Hlt & _); [lia|].
  assert (capacity m' = p) as -> by congruence. unfold sizeof_map_entry. lia.
Qed.

(** C7 (counterexample). At the largest 32-bit prime the candidate wraps
    around: [ics_next_prime 4294967291] is 3, which is not greater. *)
Lemma C7_counterexample :
  ics_next_prime 4294967291 = Ret 3 /\ ~ (4294967291 < 3).
Proof. split; [vm_compute; reflexivity|lia]. Qed.

(** C7 (amended). Whenever the smallest prime above the starting value is
    below 65531 * 65531 = 4294311961, [ics_next_prime] yields that prime;
    every resize of an overloaded map, which is when put calls it, sets
    the capacity to the smallest prime strictly greater than twice the
    previous capacity, whether or not the allocation succeeds; and the
    capacity of every reachable map is prime. *)
Theorem C7_next_prime_and_capacity :
  (forall start p : Z,
     Z.prime p -> start < p ->
     (forall q, Z.prime q -> start < q -> p <= q) ->
     p < 65531 * 65531 ->
     ics_next_prime start = Ret p) /\
  (forall (arr_ok : bool) (m : icsmap) (st : ics_status) (m' : icsmap),
     is_overloaded m = Ret true ->
     resize arr_ok m = Ret (st, m') ->
     Z.prime (capacity m') /\ 2 * capacity m < capacity m' /\
     (forall q, Z.prime q -> 2 * capacity m < q -> capacity m' <= q)) /\
  (forall m : icsmap, reachable m -> Z.prime (capacity m)).
Proof.
  split; [exact ics_next_prime_least|]. split; [|exact reachable_capacity_prime].
  intros arr_ok m st m' Hov Hres.
  apply is_overloaded_true_capacity in Hov.
  apply resize_inv in Hres. destruct Hres as (Hp & _).
  destruct (ics_next_prime_double (capacity m)) as (p & Hp' & Hprime & Hlt & _ & Hleast);
    [lia|].
  assert (capacity m' = p) as -> by congruence.
  auto.
Qed.

Lemma C7_next_prime_and_capacity_witness : ics_next_prime 26 = Ret 29.
Proof.
  apply (proj1 C7_next_prime_and_capacity 26 29).
  - apply prime_by_test; [lia|lia|vm_compute; reflexivity].
  - lia.
  - intros q Hq Hlt. destruct (Z_lt_le_dec q 29) as [Hs|Hs]; [|exact Hs].
    exfalso. assert (q = 27 \/ q = 28) as [-> | ->] by lia.
    + revert Hq. apply (not_prime_divisor 27 3); [lia|]. exists 9. lia.
    + revert Hq. apply (not_prime_divisor 28 2); [lia|]. exists 14. lia.
  - lia.
Defined.

(** ** Equal views are the same key *)

Lemma same_view_take (w1 w2 : list byte) (n : Z) :
  take (Z.to_nat n) w1 = take (Z.to_nat n) w2 -> same_view (Ptr w1) (Ptr w2) n.
Proof.
  intros E j Hj. simpl.
  rewrite <- (lookup_take_lt w1 (Z.to_nat n) j Hj).
  rewrite <- (lookup_take_lt w2 (Z.to_nat n) j Hj).
  rewrite E. reflexivity.
Qed.

Lemma hash_fn_from_ext (k k' : map_key) (n : nat) :
  forall (i : nat) (h : Z),
    (forall j, (i <= j < i + n)%nat -> load k j = load k' j) ->
    hash_fn_from k i n h = hash_fn_from k' i n h.
Proof.
  induction n as [|n IH]; intros i h Hsame; simpl; [reflexivity|].
  rewrite <- (Hsame i) by lia.
  destruct (load k i); simpl; [|reflexivity].
  apply IH. intros j Hj. apply Hsame. lia.
Qed.

Lemma hash_ext (m : icsmap) (k k' : map_key) (n : Z) :
  same_view k k' n -> hash m k n = hash m k' n.
Proof.
  intros Hsame. unfold hash, hash_fn.
  rewrite (hash_fn_from_ext k k'); [reflexivity|].
  intros j Hj. apply Hsame. lia.
Qed.

Lemma ics_equal_from_ext (a b b' : map_entry) (n : nat) :
  forall i : nat,
    (forall j, (i <= j < i + n)%nat -> load b j = load b' j) ->
    ics_equal_from a b i n = ics_equal_from a b' i n.
Proof.
  induction n as [|n IH]; intros i Hsame; simpl; [reflexivity|].
  rewrite <- (Hsame i) by lia.
  destruct (load a i); simpl; [|reflexivity].
  destruct (load b i); simpl; [|reflexivity].
  destruct (Byte.eqb a0 a1); [|reflexivity].
  apply IH. intros j Hj. apply Hsame. lia.
Qed.

Lemma probe_test_ext (m : icsmap) (k k' : map_key) (n : Z) (e : map_entry) :
  same_view k k' n -> probe_test m k n e = probe_test m k' n e.
Proof.
  intros Hsame. unfold probe_test.
  destruct (get_key m (map_entry_key m e)) as [[c cs]|]; simpl; [|reflexivity].
  destruct (assert (cs =? n)); simpl; [|reflexivity].
  unfold ics_equal. apply ics_equal_from_ext.
  intros j Hj. apply Hsame. lia.
Qed.

Lemma probe_run_ext (m : icsmap) (k k' : map_key) (n i : Z) (t : nat) (j : Z) :
  same_view k k' n -> probe_run m k n i t j -> probe_run m k' n i t j.
Proof.
  intros Hsame Hrun. induction Hrun as [i|i t j e He Hl Ht Hrun IH].
  - constructor.
  - econstructor; eauto. rewrite <- (probe_test_ext m k k'); auto.
Qed.

Lemma hash_fn_from_Ret (w : list byte) (n : nat) :
  forall (i : nat) (h r : Z),
    hash_fn_from (Ptr w) i n h = Ret r -> n = 0%nat \/ (i + n <= length w)%nat.
Proof.
  induction n as [|n IH]; intros i h r H; [left; reflexivity|right].
  simpl in H. destruct (w !! i) as [b|] eqn:Eb; simpl in H; [|discriminate].
  apply lookup_lt_Some in Eb.
  apply IH in H. lia.
Qed.

Lemma hash_Ret_length (m : icsmap) (w : list byte) (n h : Z) :
  hash m (Ptr w) n = Ret h -> (Z.to_nat n <= length w)%nat.
Proof.
  unfold hash, hash_fn. intros H. bind_inv H.
  apply hash_fn_from_Ret in Hcall. lia.
Qed.

Lemma hash_Ret_range (m : icsmap) (k : map_key) (n h : Z) :
  hash m k n = Ret h -> h < capacity m -> 0 < capacity m /\ 0 <= h.
Proof.
  unfold hash. intros H Hlt. bind_inv H.
  destruct (Z.eqb_spec (capacity m) 0) as [E|E]; [discriminate|].
  injection H as <-.
  destruct (Z_lt_le_dec (capacity m) 0) as [Hneg|Hpos].
  - pose proof (Z.mod_neg_bound a (capacity m) Hneg). lia.
  - pose proof (Z.mod_pos_bound a (capacity m) ltac:(lia)). lia.
Qed.

(** A findable key is what both probes return. *)
Lemma findable_find_hole (m : icsmap) (key k : map_key) (ks j : Z) :
  get_key m key = Ret (k, ks) ->
  findable m k ks j ->
  find_hole m key = Ret (ICS_EXISTS, j).
Proof.
  intros Hkey (h & t & e & Hh & Hr & Hrun & Ht & He & Hl & Htest).
  unfold find_hole. rewrite Hkey. cbn [bind]. rewrite Hh. cbn [bind].
  destruct (Z.ltb_spec h (capacity m)) as [_|]; [|lia]. cbn [assert bind].
  apply (find_hole_loop_run _ _ _ _ _ _ Hrun _ e Ht He); assumption.
Qed.

Lemma findable_find_key (m : icsmap) (key k : map_key) (ks j : Z) :
  cap_ok m ->
  get_key m key = Ret (k, ks) ->
  findable m k ks j ->
  find_key m key = Ret (ICS_OK, j).
Proof.
  intros Hc Hkey (h & t & e & Hh & Hr & Hrun & Ht & He & Hl & Htest).
  unfold find_key. rewrite Hkey. cbn [bind]. rewrite Hh. cbn [bind].
  apply (find_key_loop_run m k ks h h t j Hc Hr Hrun 0%nat _ e); auto.
  - rewrite Z.add_0_r, Z.mod_small; auto.
  - apply is_live_Ptr in Hl as [d ->]. reflexivity.
Qed.

(** ** What a successful copy has done *)

Lemma ics_memcpy_from_bounds (s : list byte) (off n : nat) :
  forall (d d' : list byte) (i : nat),
    ics_memcpy_from d off (Ptr s) i n = Ret d' ->
    n = 0%nat \/ ((i + n <= length s)%nat /\ (off + i + n <= length d)%nat).
Proof.
  induction n as [|n IH]; intros d d' i H; [left; reflexivity|right].
  simpl in H. destruct (s !! i) as [b|] eqn:Eb; simpl in H; [|discriminate].
  apply lookup_lt_Some in Eb. unfold store in H.
  destruct (Nat.ltb_spec (off + i) (length d)) as [Hlt|Hge]; [|discriminate].
  simpl in H. apply IH in H. rewrite length_insert in H. lia.
Qed.

Lemma ics_memcpy_inv (d d' s : list byte) (off : nat) (len : Z) :
  ics_memcpy d off (Ptr s) len = Ret d' ->
  d' = take off d ++ take (Z.to_nat len) s ++ drop (off + Z.to_nat len) d /\
  (Z.to_nat len = 0%nat \/
   ((Z.to_nat len <= length s)%nat /\ (off + Z.to_nat len <= length d)%nat)).
Proof.
  intros H. pose proof H as Hb. unfold ics_memcpy in Hb.
  apply ics_memcpy_from_bounds in Hb.
  destruct Hb as [E|[Hs Hd]].
  - split; [|left; exact E]. unfold ics_memcpy in H. rewrite E in *.
    simpl in H. injection H as <-. simpl. rewrite Nat.add_0_r, take_drop.
    reflexivity.
  - split; [|right; lia]. rewrite ics_memcpy_Ptr in H by lia. congruence.
Qed.

Lemma ics_memcpy_src (d d' : list byte) (off : nat) (s : map_entry) (len : Z) :
  ics_memcpy d off s len = Ret d' ->
  (Z.to_nat len = 0%nat /\ d' = d) \/ exists bs, s = Ptr bs.
Proof.
  unfold ics_memcpy. destruct (Z.to_nat len) as [|n]; simpl; intros H.
  - left. split; congruence.
  - right. destruct s as [| |bs]; simpl in H; try discriminate. eauto.
Qed.

(** The record that [init_map_entry] leaves: the key bytes, then the value
    bytes. *)
Lemma init_map_entry_inv (m : icsmap) (entry : map_entry) (k v : list byte)
    (rec : map_entry) :
  init_map_entry m entry (Ptr k) (Ptr v) = Ret rec ->
  exists r : list byte,
    rec = Ptr r /\
    take (Z.to_nat (keysize m)) r = take (Z.to_nat (keysize m)) k /\
    take (Z.to_nat (valsize m)) (drop (Z.to_nat (keysize m)) r)
      = take (Z.to_nat (valsize m)) v /\
    (Z.to_nat (valsize m) <= length (drop (Z.to_nat (keysize m)) r))%nat.
Proof.
  unfold init_map_entry. destruct entry as [| |d]; try discriminate.
  intros H. bind_inv H. rename a into d1. bind_inv H. rename a into d2.
  injection H as <-. exists d2. split; [reflexivity|].
  apply ics_memcpy_inv in Hcall. destruct Hcall as [E1 B1].
  apply ics_memcpy_inv in Hcall0. destruct Hcall0 as [E2 B2].
  set (ks := Z.to_nat (keysize m)) in *. set (vs := Z.to_nat (valsize m)) in *.
  simpl in E1.
  assert (length (take ks d1) = ks) as Lk.
  { destruct B2 as [B2|[_ B2]].
    - rewrite length_take. destruct B1 as [B1|[B1 B1']]; [lia|].
      rewrite E1, length_app, length_take, length_drop. lia.
    - rewrite length_take. lia. }
  assert (take ks d1 = take ks k) as Tk.
  { destruct B1 as [B1|[B1 _]].
    - rewrite B1. reflexivity.
    - rewrite E1. apply take_app_length'. rewrite length_take. lia. }
  assert (length (take vs v) = vs) as Lv.
  { destruct B2 as [B2|[B2 _]]; rewrite length_take; lia. }
  assert (drop ks d2 = take vs v ++ drop (ks + vs) d1) as Dk.
  { rewrite E2. apply drop_app_length'. symmetry. exact Lk. }
  split; [|split].
  - rewrite E2, <- Tk. apply take_app_length'. symmetry. exact Lk.
  - rewrite Dk. apply take_app_length'. symmetry. exact Lv.
  - rewrite Dk, length_app, Lv. lia.
Qed.

Lemma ics_next_prime_range (s p : Z) :
  ics_next_prime s = Ret p -> 0 <= p < 2 ^ 32.
Proof.
  unfold ics_next_prime. destruct (s <=? 1).
  - intros H. injection H as <-. lia.
  - rewrite loop_until_nat. generalize (Pos.to_nat (2 ^ 32)) as n.
    intros n. revert s. induction n as [|n IH]; intros s H; simpl in H.
    + discriminate.
    + unfold ics_next_prime_body in H at 1.
      destruct (ics_is_prime (u32 (s + 1))) as [[|]|f] eqn:E.
      * injection H as <-. unfold u32. apply Z.mod_pos_bound. lia.
      * eapply IH. exact H.
      * discriminate.
Qed.

(** [resize] when the byte size of the new array fits 32 bits. *)
Lemma resize_fits (arr_ok : bool) (m : icsmap) (p : Z) :
  ics_next_prime (u32 (capacity m * 2)) = Ret p ->
  sizeof_map_entry * p < 2 ^ 32 ->
  resize arr_ok m
    = if negb arr_ok then Ret (ICS_NO_MEMORY, set_capacity m p)
      else resize_loop (Z.to_nat (capacity m)) (arr m) 0
             (set_arr (set_capacity m p) (replicate (Z.to_nat p) NULL)).
Proof.
  intros Hp Hfits. pose proof (ics_next_prime_range _ _ Hp) as Hr.
  unfold resize. rewrite Hp. cbn [bind capacity set_capacity arr set_arr].
  rewrite resize_slots by lia. reflexivity.
Qed.

(** ** The steps of a successful put *)

Lemma icsmap_put_OK_inv (arr_ok entry_ok : bool) (m : icsmap) (key val : map_entry)
    (m' : icsmap) :
  icsmap_put arr_ok entry_ok m key val = Ret (ICS_OK, m') ->
  exists (m1 : icsmap) (st : ics_status) (i : Z) (entry rec : map_entry),
    ((is_overloaded m = Ret false /\ m1 = m) \/
     (is_overloaded m = Ret true /\ resize arr_ok m = Ret (ICS_OK, m1))) /\
    find_hole m1 key = Ret (st, i) /\
    init_map_entry m1 entry key val = Ret rec /\
    ((st = ICS_EXISTS /\ arr m1 !! Z.to_nat i = Some entry /\
      m' = arr_set m1 i rec) \/
     (st <> ICS_EXISTS /\
      m' = set_size (arr_set m1 i rec) (u32 (size m1 + 1)))).
Proof.
  unfold icsmap_put. intros H. bind_inv H. rename a into ov.
  bind_inv H. destruct a as [s1 m1].
  destruct (ics_status_eqb s1 ICS_OK) eqn:Es1; cbn [negb] in H;
    [|injection H as -> _; discriminate].
  apply ics_status_eqb_eq in Es1. subst s1.
  bind_inv H. destruct a as [st i].
  exists m1, st, i.
  assert ((is_overloaded m = Ret false /\ m1 = m) \/
          (is_overloaded m = Ret true /\ resize arr_ok m = Ret (ICS_OK, m1))) as Hm1.
  { destruct ov; [right; auto|left]. injection Hcall0 as <-. auto. }
  destruct (ics_status_eqb st ICS_EXISTS) eqn:Est.
  - apply ics_status_eqb_eq in Est. subst st.
    bind_inv H. rename a into e. bind_inv H. rename a into rec.
    injection H as <-. exists e, rec.
    unfold arr_at in Hcall2. destruct (arr m1 !! Z.to_nat i) eqn:Ei; [|discriminate].
    injection Hcall2 as ->. auto 10.
  - destruct (is_empty (malloc entry_ok (entry_size m1))); [discriminate|].
    bind_inv H. rename a into rec. injection H as <-.
    exists (malloc entry_ok (entry_size m1)), rec.
    split; [exact Hm1|]. split; [exact Hcall1|]. split; [exact Hcall2|].
    right. split; [|reflexivity].
    intros ->. discriminate.
Qed.

(** ** Relocation by [resize] *)

Lemma filter_live_insert (l : list map_entry) (j : nat) (e0 e : map_entry) :
  l !! j = Some e0 -> is_live e0 = false -> is_live e = true ->
  Permutation (List.filter is_live (<[j := e]> l)) (e :: List.filter is_live l).
Proof.
  intros Hj H0 He.
  assert (List.filter is_live l
          = List.filter is_live (take j l) ++ List.filter is_live (drop (S j) l)) as ->.
  { rewrite <- (take_drop_middle l j e0 Hj) at 1.
    rewrite List.filter_app. cbn [List.filter]. rewrite H0. reflexivity. }
  rewrite insert_take_drop by (apply lookup_lt_Some in Hj; exact Hj).
  rewrite List.filter_app. cbn [List.filter]. rewrite He.
  symmetry. apply Permutation_middle.
Qed.

Lemma placed_frame (m m' : icsmap) (e : map_entry) :
  same_config m m' ->
  (forall x e, arr m !! x = Some e -> is_live e = true -> arr m' !! x = Some e) ->
  is_live e = true ->
  placed m e -> placed m' e.
Proof.
  intros Hcfg Hkeep Hl (k & ks & h & t & j & Hkey & Hh & Hr & Hrun & Ht & He).
  pose proof Hcfg as (Hc & Hk & _ & Hg).
  exists k, ks, h, t, j. repeat split.
  - unfold get_key in *. rewrite Hk, Hg. exact Hkey.
  - unfold hash in *. rewrite Hc. exact Hh.
  - lia.
  - lia.
  - eapply probe_run_frame; eauto.
  - lia.
  - apply Hkeep; assumption.
Qed.

Lemma resize_loop_OK_inv (n : nat) (old : list map_entry) :
  forall (i : Z) (map map' : icsmap),
    0 <= i ->
    resize_loop n old i map = Ret (ICS_OK, map') ->
    (forall x e, arr map !! x = Some e -> is_live e = true ->
                 arr map' !! x = Some e) /\
    (forall x e, (Z.to_nat i <= x < Z.to_nat i + n)%nat ->
                 old !! x = Some e -> is_live e = true -> placed map' e) /\
    Permutation (List.filter is_live (arr map'))
      (List.filter is_live (arr map)
         ++ List.filter is_live (take n (drop (Z.to_nat i) old))).
Proof.
  induction n as [|n IH]; intros i map map' Hi H; cbn [resize_loop] in H.
  - injection H as <-. split; [auto|]. split; [intros; lia|].
    simpl. rewrite app_nil_r. reflexivity.
  - destruct (old !! Z.to_nat i) as [e0|] eqn:E0; [|discriminate].
    rewrite (drop_S old e0 _ E0). cbn [take List.filter].
    replace (S (Z.to_nat i)) with (Z.to_nat (i + 1)) by lia.
    destruct (is_live e0) eqn:Hl0.
    + bind_inv H. destruct a as [status hi].
      destruct (ics_status_eqb status ICS_OK) eqn:Est; cbn [negb] in H;
        [|injection H as -> _; discriminate].
      apply ics_status_eqb_eq in Est. subst status.
      destruct (find_hole_inv _ _ _ _ Hcall) as (k & ks & h & Hkey & Hh & Hlt & Hloop).
      apply find_hole_loop_inv in Hloop.
      destruct Hloop as (t & eh & Ht & Hrun & Heh & [[_ Hdead]|[? _]]); [|discriminate].
      destruct (hash_Ret_range _ _ _ _ Hh Hlt) as [Hcpos Hh0].
      pose proof (resize_loop_config _ _ _ _ _ _ H) as (Hcfg & _ & _).
      apply IH in H; [|lia]. destruct H as (Hkeep & Hplaced & Hperm).
      assert (forall x e, arr map !! x = Some e -> is_live e = true ->
                          arr (arr_set map hi e0) !! x = Some e) as Hkeep1.
      { intros x e Hx Hle. simpl. rewrite list_lookup_insert_ne; [exact Hx|].
        intros <-. congruence. }
      split; [|split].
      * intros x e Hx Hle. apply Hkeep; auto.
      * intros x e Hx Hox Hle.
        destruct (Nat.eq_dec x (Z.to_nat i)) as [->|Hne].
        -- assert (e = e0) as -> by congruence.
           apply (placed_frame (arr_set map hi e0)); auto.
           exists k, ks, h, t, hi. repeat split; auto; try lia.
           ++ eapply probe_run_frame; eauto. apply same_config_arr_set.
           ++ simpl. apply list_lookup_insert_eq. apply lookup_lt_Some in Heh. exact Heh.
        -- apply (Hplaced x); auto. lia.
      * rewrite Hperm. simpl.
        rewrite (filter_live_insert _ _ _ _ Heh Hdead Hl0).
        simpl. apply Permutation_middle.
    + apply IH in H; [|lia]. destruct H as (Hkeep & Hplaced & Hperm).
      split; [exact Hkeep|]. split; [|exact Hperm].
      intros x e Hx Hox Hle.
      destruct (Nat.eq_dec x (Z.to_nat i)) as [->|Hne]; [congruence|].
      apply (Hplaced x); auto. lia.
Qed.

(** ** C8: keys that resolve to the same bytes *)

Lemma findable_ext (m : icsmap) (k k' : map_key) (n j : Z) :
  same_view k k' n -> findable m k n j -> findable m k' n j.
Proof.
  intros Hsame (h & t & e & Hh & Hr & Hrun & Ht & He & Hl & Htest).
  exists h, t, e. repeat split; auto; try lia.
  - rewrite <- (hash_ext m k k'); auto.
  - eapply probe_run_ext; eauto.
  - rewrite <- (probe_test_ext m k k'); auto.
Qed.

Lemma stored_findable (m : icsmap) (f : get_key_fn) (r w : list byte)
    (n h : Z) (t : nat) (j : Z) :
  map_get_key m = Some f ->
  f (Ptr r) = Ret (Ptr w, n) ->
  hash m (Ptr w) n = Ret h -> 0 <= h < capacity m ->
  probe_run m (Ptr w) n h t j -> (t < Z.to_nat (capacity m))%nat ->
  arr m !! Z.to_nat j = Some (Ptr r) ->
  findable m (Ptr w) n j.
Proof.
  intros Hg Hf Hh Hr Hrun Ht He.
  exists h, t, (Ptr r). repeat split; auto; try lia.
  unfold probe_test, get_key, map_entry_key. rewrite Hg, Hf. cbn [bind].
  rewrite Z.eqb_refl. cbn [assert bind].
  pose proof (hash_Ret_length _ _ _ _ Hh) as Hlen.
  destruct (ics_equal_Ptr w w n Hlen Hlen) as (b & -> & Hiff).
  f_equal. apply Hiff. reflexivity.
Qed.

Lemma placed_findable (m : icsmap) (f : get_key_fn) (r w : list byte) (n : Z) :
  map_get_key m = Some f ->
  f (Ptr r) = Ret (Ptr w, n) ->
  placed m (Ptr r) ->
  exists j, findable m (Ptr w) n j /\ arr m !! Z.to_nat j = Some (Ptr r).
Proof.
  intros Hg Hf (k & ks & h & t & j & Hkey & Hh & Hr & Hrun & Ht & He).
  unfold get_key, map_entry_key in Hkey. rewrite Hg, Hf in Hkey.
  injection Hkey as <- <-.
  exists j. split; [|exact He]. eapply stored_findable; eauto.
Qed.

Lemma icsmap_put_places (arr_ok entry_ok : bool) (m : icsmap) (f : get_key_fn)
    (p1 v w1 : list byte) (n : Z) (m' : icsmap) :
  map_get_key m = Some f ->
  reads_key_record f (keysize m) ->
  capacity m < 2 ^ 32 ->
  f (Ptr p1) = Ret (Ptr w1, n) ->
  icsmap_put arr_ok entry_ok m (Ptr p1) (Ptr v) = Ret (ICS_OK, m') ->
  exists (i : Z) (r : list byte),
    cap_ok m' /\ 0 <= i < capacity m' /\
    findable m' (Ptr w1) n i /\
    arr m' !! Z.to_nat i = Some (Ptr r) /\
    f (Ptr r) = Ret (Ptr w1, n) /\
    take (Z.to_nat (valsize m)) (drop (Z.to_nat (keysize m)) r)
      = take (Z.to_nat (valsize m)) v /\
    (Z.to_nat (valsize m) <= length (drop (Z.to_nat (keysize m)) r))%nat.
Proof.
  intros Hg Hreads Hcap Hf Hput.
  destruct (icsmap_put_config _ _ _ _ _ _ _ Hput) as (Hk' & Hv' & Hg' & _).
  apply icsmap_put_OK_inv in Hput.
  destruct Hput as (m1 & st & i & entry & rec & Hm1 & Hfind & Hinit & Hm').
  assert (keysize m1 = keysize m /\ valsize m1 = valsize m /\
          map_get_key m1 = map_get_key m /\ capacity m1 < 2 ^ 32)
    as (Hk1 & Hv1 & Hg1 & Hc1).
  { destruct Hm1 as [[_ ->]|[_ Hres]]; [auto|].
    apply resize_inv in Hres. destruct Hres as (Hp & ? & ? & ? & _).
    apply ics_next_prime_range in Hp. repeat split; auto; lia. }
  apply init_map_entry_inv in Hinit.
  destruct Hinit as (r & -> & Tk & Tv & Lv). rewrite Hk1 in *. rewrite Hv1 in *.
  destruct (find_hole_inv _ _ _ _ Hfind) as (k & ks & h & Hkey & Hh & Hlt & Hloop).
  unfold get_key in Hkey. rewrite Hg1, Hg, Hf in Hkey. injection Hkey as <- <-.
  destruct (hash_Ret_range _ _ _ _ Hh Hlt) as [Hcpos Hh0].
  assert (cap_ok m1) as Hok1 by (unfold cap_ok; lia).
  apply find_hole_loop_inv in Hloop.
  destruct Hloop as (t & e & Ht & Hrun & He & _).
  assert (0 <= h < capacity m1) as Hhr by lia.
  pose proof (probe_run_end_range _ _ _ _ _ _ Hok1 Hhr Hrun) as Hi.
  assert (f (Ptr r) = Ret (Ptr w1, n)) as Hfr.
  { rewrite <- Hf. apply Hreads. exact Tk. }
  assert (same_config m1 m' /\ arr m' = <[Z.to_nat i := Ptr r]> (arr m1))
    as (Hcfg & Harr).
  { destruct Hm' as [(_ & _ & ->)|(_ & ->)]; split; try reflexivity; repeat split. }
  pose proof Hcfg as (Hc & _).
  assert (arr m' !! Z.to_nat i = Some (Ptr r)) as Hslot.
  { rewrite Harr. apply list_lookup_insert_eq. apply lookup_lt_Some in He. exact He. }
  exists i, r. split; [unfold cap_ok; lia|]. split; [lia|].
  split; [|auto].
  apply (stored_findable m' f r w1 n h t i); auto; try lia.
  - congruence.
  - unfold hash in *. rewrite Hc. exact Hh.
  - apply (probe_run_frame_end m1 m'); auto.
    intros x Hx. rewrite Harr. apply list_lookup_insert_ne. congruence.
Qed.

Lemma resize_OK_placed (arr_ok : bool) (m m1 : icsmap) (i : Z) (e : map_entry) :
  resize arr_ok m = Ret (ICS_OK, m1) ->
  0 <= i < capacity m ->
  arr m !! Z.to_nat i = Some e -> is_live e = true ->
  placed m1 e.
Proof.
  unfold resize. intros H Hi He Hl. bind_inv H. rename a into p.
  destruct arr_ok; cbn [negb] in H; [|discriminate].
  apply resize_loop_OK_inv in H; [|lia]. destruct H as (_ & Hplaced & _).
  apply (Hplaced (Z.to_nat i)); auto. simpl. lia.
Qed.

(** C8. With a resolver configured that reads only the key record it is
    handed, let two key records resolve to views of the same length and
    bytes.  After a put through the first that returns success, get
    through the second copies out the value just stored, contains through
    the second answers that the key exists, and every put through the
    second that returns success leaves count as it is. *)
Theorem C8_equal_views_share_an_entry (arr_ok entry_ok : bool) (m : icsmap)
    (f : get_key_fn) (p1 p2 v w1 w2 : list byte) (n : Z) (m' : icsmap) :
  map_get_key m = Some f ->
  reads_key_record f (keysize m) ->
  capacity m < 2 ^ 32 ->
  f (Ptr p1) = Ret (Ptr w1, n) ->
  f (Ptr p2) = Ret (Ptr w2, n) ->
  take (Z.to_nat n) w1 = take (Z.to_nat n) w2 ->
  icsmap_put arr_ok entry_ok m (Ptr p1) (Ptr v) = Ret (ICS_OK, m') ->
  (forall out : list byte,
     (Z.to_nat (valsize m) <= length out)%nat ->
     icsmap_get m' (Ptr p2) out
       = Ret (ICS_OK, take (Z.to_nat (valsize m)) v ++ drop (Z.to_nat (valsize m)) out)) /\
  icsmap_contains m' (Ptr p2) = Ret ICS_EXISTS /\
  (forall (arr_ok' entry_ok' : bool) (v2 : list byte) (m'' : icsmap),
     icsmap_put arr_ok' entry_ok' m' (Ptr p2) (Ptr v2) = Ret (ICS_OK, m'') ->
     size m'' = size m').
Proof.
  intros Hg Hreads Hcap Hf1 Hf2 Hview Hput.
  destruct (icsmap_put_config _ _ _ _ _ _ _ Hput) as (Hk' & Hv' & Hg' & _).
  destruct (icsmap_put_places _ _ _ _ _ _ _ _ _ Hg Hreads Hcap Hf1 Hput)
    as (i & r & Hok & Hi & Hfindable & Hslot & Hfr & Tv & Lv).
  apply same_view_take in Hview.
  apply (findable_ext _ _ _ _ _ Hview) in Hfindable.
  assert (forall mx, map_get_key mx = Some f -> get_key mx (Ptr p2) = Ret (Ptr w2, n))
    as Hkey2 by (intros mx Hx; unfold get_key; rewrite Hx; exact Hf2).
  assert (find_key m' (Ptr p2) = Ret (ICS_OK, i)) as Hfk.
  { apply (findable_find_key m' _ (Ptr w2) n); auto. apply Hkey2. congruence. }
  split; [|split].
  - intros out Hout. unfold icsmap_get. rewrite Hfk. cbn [bind ics_status_eqb negb].
    unfold arr_at. rewrite Hslot. cbn [bind is_live is_empty is_deleted negb andb assert].
    unfold map_entry_val, ptr_add. rewrite Hk', Hv'.
    rewrite ics_memcpy_Ptr by (simpl; lia).
    cbn [bind]. rewrite Tv. reflexivity.
  - unfold icsmap_contains. rewrite Hfk. reflexivity.
  - intros arr_ok' entry_ok' v2 m'' Hput2.
    apply icsmap_put_OK_inv in Hput2.
    destruct Hput2 as (m1 & st & i' & entry & rec & Hm1 & Hfind & _ & Hm'').
    assert (size m1 = size m' /\ exists j, find_hole m1 (Ptr p2) = Ret (ICS_EXISTS, j))
      as (Hsize & j & Hex).
    { destruct Hm1 as [[_ ->]|[_ Hres]].
      - split; [reflexivity|]. exists i.
        apply (findable_find_hole m' _ (Ptr w2) n); auto. apply Hkey2. congruence.
      - pose proof (resize_inv _ _ _ _ Hres) as (_ & _ & _ & Hg1 & Hs1).
        split; [exact Hs1|].
        pose proof (resize_OK_placed _ _ _ _ _ Hres Hi Hslot eq_refl) as Hplaced.
        destruct (placed_findable m1 f r w1 n) as (j & Hfj & _); auto; [congruence|].
        exists j. apply (findable_ext _ _ _ _ _ Hview) in Hfj.
        apply (findable_find_hole m1 _ (Ptr w2) n); auto. apply Hkey2. congruence. }
    rewrite Hex in Hfind. injection Hfind as <- <-.
    destruct Hm'' as [(_ & _ & ->)|(Hne & _)]; [exact Hsize|congruence].
Qed.

Lemma name_get_key_reads_key_record : reads_key_record name_get_key 2.
Proof.
  intros bs bs' H.
  destruct bs as [|a [|b bs]], bs' as [|a' [|b' bs']]; simpl in *;
    try discriminate; try reflexivity.
  injection H as -> ->. reflexivity.
Qed.

Lemma C8_equal_views_share_an_entry_witness :
  (forall out : list byte,
     (Z.to_nat (valsize (fresh_map cfg_name_int)) <= length out)%nat ->
     icsmap_get map_name1 (Ptr name2) out
       = Ret (ICS_OK,
              take (Z.to_nat (valsize (fresh_map cfg_name_int))) (int_le 42)
                ++ drop (Z.to_nat (valsize (fresh_map cfg_name_int))) out)) /\
  icsmap_contains map_name1 (Ptr name2) = Ret ICS_EXISTS /\
  (forall (arr_ok' entry_ok' : bool) (v2 : list byte) (m'' : icsmap),
     icsmap_put arr_ok' entry_ok' map_name1 (Ptr name2) (Ptr v2) = Ret (ICS_OK, m'') ->
     size m'' = size map_name1).
Proof.
  apply (C8_equal_views_share_an_entry true true (fresh_map cfg_name_int)
           name_get_key name1 name2 (int_le 42) (names x10) (names x20) 6 map_name1).
  - reflexivity.
  - exact name_get_key_reads_key_record.
  - reflexivity.
  - reflexivity.
  - reflexivity.
  - reflexivity.
  - reflexivity.
Defined.

(** ** Integer keys *)

Lemma byte_of_N_small (x : N) :
  (x < 256)%N ->
  Byte.to_N (match Byte.of_N x with Some b => b | None => x00 end) = x.
Proof.
  intros Hx. destruct (Byte.of_N x) as [b|] eqn:E.
  - apply Byte.to_of_N. exact E.
  - apply Byte.of_N_None_iff in E. lia.
Qed.

Lemma le_int_int_le (n : Z) : 0 <= n < 2 ^ 32 -> le_int (int_le n) = n.
Proof.
  intros Hn. unfold int_le, le_int. cbn [List.map fold_right].
  rewrite !byte_of_N_small
    by (apply N2Z.inj_lt; rewrite Z2N.id;
        [apply Z.mod_pos_bound; lia | apply Z.mod_pos_bound; lia]).
  rewrite !Z2N.id by (apply Z.mod_pos_bound; lia).
  rewrite !Z.shiftr_div_pow2 by lia.
  change (2 ^ (8 * 0)) with 1. change (2 ^ (8 * 1)) with 256.
  change (2 ^ (8 * 2)) with (256 * 256). change (2 ^ (8 * 3)) with (256 * 256 * 256).
  rewrite Z.div_1_r. rewrite <- !Z.div_div by lia.
  set (q0 := n / 256). set (q1 := q0 / 256). set (q2 := q1 / 256).
  pose proof (Z.div_mod n 256 ltac:(lia)) as E0. fold q0 in E0.
  pose proof (Z.div_mod q0 256 ltac:(lia)) as E1. fold q1 in E1.
  pose proof (Z.div_mod q1 256 ltac:(lia)) as E2. fold q2 in E2.
  pose proof (Z.div_mod q2 256 ltac:(lia)) as E3.
  pose proof (Z.mod_pos_bound n 256 ltac:(lia)).
  pose proof (Z.mod_pos_bound q0 256 ltac:(lia)).
  pose proof (Z.mod_pos_bound q1 256 ltac:(lia)).
  pose proof (Z.mod_pos_bound q2 256 ltac:(lia)).
  change (2 ^ 32) with 4294967296 in Hn.
  lia.
Qed.

Lemma int_le_inj (a b : Z) :
  0 <= a < 2 ^ 32 -> 0 <= b < 2 ^ 32 -> int_le a = int_le b -> a = b.
Proof.
  intros Ha Hb E. rewrite <- (le_int_int_le a Ha), <- (le_int_int_le b Hb), E.
  reflexivity.
Qed.

Lemma record_of_inj (a b : Z) :
  0 <= a < 2 ^ 32 -> 0 <= b < 2 ^ 32 -> record_of a = record_of b -> a = b.
Proof.
  intros Ha Hb E. unfold record_of in E.
  assert (int_le a ++ int_le 0 = int_le b ++ int_le 0) as E' by congruence.
  apply app_inv_tail in E'. apply int_le_inj; assumption.
Qed.

Lemma int_le_length (n : Z) : length (int_le n) = 4%nat.
Proof. reflexivity. Qed.
Lemma hash_fn_from_total (w : list byte) (n : nat) :
  forall (i : nat) (h : Z),
    (i + n <= length w)%nat -> exists r, hash_fn_from (Ptr w) i n h = Ret r.
Proof.
  induction n as [|n IH]; intros i h Hlen; simpl; [eauto|].
  destruct (lookup_lt_is_Some_2 w i) as [b Hb]; [lia|].
  rewrite Hb. simpl. apply IH. lia.
Qed.

Lemma hash_total (m : icsmap) (w : list byte) (n : Z) :
  0 < capacity m ->
  (Z.to_nat n <= length w)%nat ->
  exists h, hash m (Ptr w) n = Ret h /\ 0 <= h < capacity m.
Proof.
  intros Hc Hlen. unfold hash, hash_fn.
  destruct (hash_fn_from_total w (Z.to_nat n) 0 0) as [r ->]; [simpl; lia|].
  cbn [bind]. destruct (Z.eqb_spec (capacity m) 0) as [E|_]; [lia|].
  eexists. split; [reflexivity|]. apply Z.mod_pos_bound. exact Hc.
Qed.

(** Two records of different integer keys compare as different. *)
Lemma probe_test_other_key (m : icsmap) (w : list byte) (a b : Z) :
  map_get_key m = None -> keysize m = 4 ->
  0 <= a < 2 ^ 32 -> 0 <= b < 2 ^ 32 -> a <> b ->
  take 4 w = int_le a -> (4 <= length w)%nat ->
  probe_test m (Ptr w) 4 (record_of b) = Ret false.
Proof.
  intros Hg Hk Ha Hb Hne Hw Hlen.
  unfold probe_test, get_key, map_entry_key, record_of. rewrite Hg, Hk. cbn [bind].
  change (4 =? 4) with true. cbn [assert bind].
  destruct (ics_equal_Ptr (int_le b ++ int_le 0) w 4) as (r & -> & Hiff).
  - rewrite length_app, !int_le_length. simpl. lia.
  - simpl. lia.
  - f_equal. destruct r; [|reflexivity]. exfalso. apply Hne.
    destruct Hiff as [Hiff _]. specialize (Hiff eq_refl).
    change (Z.to_nat 4) with 4%nat in Hiff.
    rewrite take_app_length' in Hiff by reflexivity.
    apply int_le_inj; auto. congruence.
Qed.

Lemma exists_dead_slot (l : list map_entry) :
  (length (List.filter is_live l) < length l)%nat ->
  exists x e, l !! x = Some e /\ is_live e = false.
Proof.
  induction l as [|e l IH]; simpl; intros H; [lia|].
  destruct (is_live e) eqn:E.
  - simpl in H. destruct IH as (x & e' & Hx & He'); [lia|].
    exists (S x), e'. auto.
  - exists 0%nat, e. auto.
Qed.

Lemma all_live_slots (l : list map_entry) :
  length (List.filter is_live l) = length l ->
  forall x e, l !! x = Some e -> is_live e = true.
Proof.
  induction l as [|e0 l IH]; simpl; intros H x e Hx; [discriminate|].
  pose proof (List.filter_length_le is_live l) as Hle.
  destruct (is_live e0) eqn:E; simpl in H; [|lia].
  destruct x as [|x]; simpl in Hx.
  - congruence.
  - apply (IH ltac:(lia) x e Hx).
Qed.

(** With an empty slot somewhere and no tombstone, a probe for a key that
    is not stored ends on an empty slot. *)
Lemma find_hole_loop_null (m : icsmap) (k : map_key) (ks : Z) :
  cap_ok m ->
  length (arr m) = Z.to_nat (capacity m) ->
  (forall x e, arr m !! x = Some e ->
     e = NULL \/ (is_live e = true /\ probe_test m k ks e = Ret false)) ->
  forall (fuel : nat) (i : Z),
    0 <= i < capacity m ->
    (exists t : nat, (t < fuel)%nat /\
       arr m !! Z.to_nat ((i + Z.of_nat t) mod capacity m) = Some NULL) ->
    exists j, find_hole_loop fuel m k ks i = Ret (ICS_OK, j) /\
              arr m !! Z.to_nat j = Some NULL.
Proof.
  intros Hc Hlen Hslots.
  induction fuel as [|fuel IH]; intros i Hi (t & Ht & Hnull); [lia|].
  destruct (lookup_lt_is_Some_2 (arr m) (Z.to_nat i)) as [e He]; [lia|].
  destruct (Hslots _ _ He) as [->|[Hl Htest]].
  - exists i. split; [|exact He]. simpl. unfold arr_at. rewrite He. reflexivity.
  - rewrite (find_hole_loop_S _ _ _ _ _ _ He Hl), Htest. cbn [bind].
    apply IH; [apply probe_next_range; exact Hc|].
    destruct t as [|t].
    + rewrite Z.add_0_r, Z.mod_small in Hnull by lia.
      rewrite He in Hnull. injection Hnull as ->. discriminate.
    + exists t. split; [lia|].
      rewrite probe_next_small by auto.
      rewrite Zplus_mod_idemp_l.
      replace (i + 1 + Z.of_nat t) with (i + Z.of_nat (S t)) by lia.
      exact Hnull.
Qed.

Lemma find_hole_loop_null_any (m : icsmap) (k : map_key) (ks h : Z) :
  cap_ok m ->
  length (arr m) = Z.to_nat (capacity m) ->
  (forall x e, arr m !! x = Some e ->
     e = NULL \/ (is_live e = true /\ probe_test m k ks e = Ret false)) ->
  (length (List.filter is_live (arr m)) < length (arr m))%nat ->
  0 <= h < capacity m ->
  exists j, find_hole_loop (Z.to_nat (capacity m)) m k ks h = Ret (ICS_OK, j) /\
            arr m !! Z.to_nat j = Some NULL.
Proof.
  intros Hc Hlen Hslots Hroom Hh.
  apply find_hole_loop_null; auto.
  destruct (exists_dead_slot _ Hroom) as (x & e & Hx & Hdead).
  destruct (Hslots _ _ Hx) as [->|[Hl _]]; [|congruence].
  pose proof (lookup_lt_Some _ _ _ Hx) as Hxl.
  unfold cap_ok in Hc.
  exists (Z.to_nat ((Z.of_nat x - h) mod capacity m)).
  pose proof (Z.mod_pos_bound (Z.of_nat x - h) (capacity m) ltac:(lia)).
  split; [lia|].
  rewrite Z2Nat.id by lia. rewrite Zplus_mod_idemp_r.
  replace (h + (Z.of_nat x - h)) with (Z.of_nat x) by lia.
  rewrite Z.mod_small by lia. rewrite Nat2Z.id. exact Hx.
Qed.
(** ** Resizing a map of integer keys *)

Lemma is_record_live (e : map_entry) : is_record e -> is_live e = true.
Proof. intros (j & _ & ->). reflexivity. Qed.

Lemma live_slot_In (l : list map_entry) (x : nat) (e : map_entry) :
  l !! x = Some e -> is_live e = true -> In e (List.filter is_live l).
Proof.
  intros Hx Hl. apply filter_In. split; [|exact Hl].
  apply list_elem_of_In, list_elem_of_lookup. eauto.
Qed.

(** The probe for an integer key that is not stored, in a map without
    tombstone that has room. *)
Lemma find_hole_fresh (m : icsmap) (w : list byte) (a : Z) :
  cap_ok m ->
  length (arr m) = Z.to_nat (capacity m) ->
  map_get_key m = None -> keysize m = 4 ->
  take 4 w = int_le a -> (4 <= length w)%nat -> 0 <= a < 2 ^ 32 ->
  (forall x e, arr m !! x = Some e ->
     e = NULL \/ exists b, 0 <= b < 2 ^ 32 /\ b <> a /\ e = record_of b) ->
  (length (List.filter is_live (arr m)) < length (arr m))%nat ->
  exists j, find_hole m (Ptr w) = Ret (ICS_OK, j) /\
            arr m !! Z.to_nat j = Some NULL.
Proof.
  intros Hc Hlen Hg Hk Hw Hwl Ha Hrecs Hroom.
  unfold find_hole, get_key. rewrite Hg, Hk. cbn [bind].
  destruct (hash_total m w 4) as (h & Hh & Hr); [apply Hc|simpl; lia|].
  rewrite Hh. cbn [bind].
  destruct (Z.ltb_spec h (capacity m)) as [_|]; [|lia]. cbn [assert bind].
  apply find_hole_loop_null_any; auto.
  intros x e Hx. destruct (Hrecs _ _ Hx) as [->|(b & Hb & Hne & ->)];
    [left; reflexivity|right].
  split; [reflexivity|].
  apply (probe_test_other_key m w a b); auto.
Qed.

Lemma resize_loop_dense (n : nat) (old : list map_entry) :
  forall (i : Z) (map : icsmap),
    cap_ok map ->
    length (arr map) = Z.to_nat (capacity map) ->
    map_get_key map = None -> keysize map = 4 ->
    (forall x e, arr map !! x = Some e -> e = NULL \/ is_record e) ->
    (forall e, In e (List.filter is_live (take n (drop (Z.to_nat i) old))) ->
               is_record e) ->
    List.NoDup (List.filter is_live (arr map)
                  ++ List.filter is_live (take n (drop (Z.to_nat i) old))) ->
    (length (List.filter is_live (arr map))
       + length (List.filter is_live (take n (drop (Z.to_nat i) old)))
     <= length (arr map))%nat ->
    0 <= i ->
    (Z.to_nat i + n <= length old)%nat ->
    exists map',
      resize_loop n old i map = Ret (ICS_OK, map') /\
      (forall x e, arr map' !! x = Some e -> e = NULL \/ is_record e).
Proof.
  induction n as [|n IH];
    intros i map Hc Hlen Hg Hk Hrecs Hold Hnd Hroom Hi Hn.
  - exists map. split; [reflexivity|exact Hrecs].
  - destruct (slot_split old (Z.to_nat i) n Hn) as (e0 & He0 & Esplit).
    rewrite Esplit in *. clear Esplit.
    cbn [resize_loop]. rewrite He0. cbn [List.filter] in *.
    replace (S (Z.to_nat i)) with (Z.to_nat (i + 1)) in * by lia.
    set (rest := List.filter is_live (take n (drop (Z.to_nat (i + 1)) old))) in *.
    destruct (is_live e0) eqn:Hl0.
    + assert (is_record e0) as Hrec0 by (apply Hold; left; reflexivity).
      assert (~ In e0 (List.filter is_live (arr map))) as Hnotin.
      { intros Hin. apply NoDup_remove_2 in Hnd. apply Hnd.
        apply in_or_app. left. exact Hin. }
      cbn [length] in Hroom.
      destruct Hrec0 as (a0 & Ha0 & Ea0).
      destruct (find_hole_fresh map (int_le a0 ++ int_le 0) a0)
        as (hi & Hfind & Hnull); auto.
      { rewrite length_app, !int_le_length. lia. }
      { intros x e Hx. destruct (Hrecs _ _ Hx) as [->|(b & Hb & ->)];
          [left; reflexivity|right].
        exists b. split; [exact Hb|]. split; [|reflexivity].
        intros ->. apply Hnotin. rewrite Ea0.
        eapply live_slot_In; eauto. }
      { lia. }
      assert (is_record e0) as Hrec0 by (exists a0; auto).
      replace (find_hole map (map_entry_key map e0))
        with (find_hole map (Ptr (int_le a0 ++ int_le 0)))
        by (rewrite Ea0; reflexivity).
      rewrite Hfind.
      cbn [bind ics_status_eqb negb].
      apply IH; auto.
      * simpl. rewrite length_insert. exact Hlen.
      * intros x e Hx. simpl in Hx.
        apply list_lookup_insert_Some in Hx.
        destruct Hx as [(_ & <- & _)|[_ Hx]]; [right; exact Hrec0|eauto].
      * intros e He. apply Hold. right. exact He.
      * unfold arr_set, set_arr. cbn [arr].
        eapply Permutation_NoDup; [|exact Hnd].
        rewrite (filter_live_insert _ _ NULL e0 Hnull eq_refl Hl0).
        symmetry. apply Permutation_middle.
      * unfold arr_set, set_arr. cbn [arr]. rewrite length_insert.
        rewrite (Permutation_length (filter_live_insert _ _ NULL e0 Hnull eq_refl Hl0)).
        cbn [length]. fold rest. lia.
      * lia.
      * lia.
    + apply IH; auto; lia.
Qed.
(** ** Dense maps *)

Lemma dense_count (m : icsmap) (c s : Z) :
  dense m c s -> length (List.filter is_live (arr m)) = Z.to_nat s /\ s <= c.
Proof.
  intros (Hc & Hs & Hs0 & _ & _ & _ & Hcr & Hlen & Hperm & _).
  pose proof (Permutation_length Hperm) as Hl.
  rewrite length_fmap, length_seqZ in Hl. split; [exact Hl|].
  pose proof (List.filter_length_le is_live (arr m)). lia.
Qed.

Lemma dense_entries (m : icsmap) (c s : Z) :
  dense m c s ->
  forall x e, arr m !! x = Some e ->
    e = NULL \/ exists j, 0 <= j < s /\ e = record_of j.
Proof.
  intros Hd x e Hx. pose proof Hd as (_ & _ & _ & _ & _ & _ & _ & _ & Hperm & Hnt).
  destruct e as [| |d]; [left; reflexivity|exfalso; exact (Hnt x Hx)|right].
  assert (Ptr d ∈ record_of <$> seqZ 0 s) as Hin.
  { rewrite <- Hperm. apply list_elem_of_In. eapply live_slot_In; eauto. }
  apply list_elem_of_fmap in Hin. destruct Hin as (j & -> & Hj).
  apply elem_of_seqZ in Hj. exists j. split; [lia|reflexivity].
Qed.

Lemma dense_NoDup (m : icsmap) (c s : Z) :
  dense m c s -> List.NoDup (List.filter is_live (arr m)).
Proof.
  intros Hd. pose proof (dense_count _ _ _ Hd) as [_ Hsc].
  destruct Hd as (_ & _ & Hs0 & _ & _ & _ & Hcr & _ & Hperm & _).
  eapply Permutation_NoDup; [symmetry; exact Hperm|].
  apply NoDup_ListNoDup.
  apply NoDup_fmap_2_strong; [|apply NoDup_seqZ].
  intros a b Ha Hb E. apply elem_of_seqZ in Ha, Hb.
  apply record_of_inj; auto; lia.
Qed.

Lemma filter_live_replicate_NULL (n : nat) :
  List.filter is_live (replicate n NULL) = [].
Proof. induction n as [|n IH]; simpl; auto. Qed.

Lemma resize_dense (m : icsmap) (c s c2 : Z) :
  dense m c s ->
  ics_next_prime (u32 (c * 2)) = Ret c2 -> c < c2 ->
  sizeof_map_entry * c2 < 2 ^ 32 ->
  exists m1, resize true m = Ret (ICS_OK, m1) /\ dense m1 c2 s.
Proof.
  intros Hd Hnp Hlt Hfits.
  pose proof (ics_next_prime_range _ _ Hnp) as Hc2.
  pose proof (dense_count _ _ _ Hd) as [Hcount Hsc].
  pose proof (dense_entries _ _ _ Hd) as Hent.
  pose proof (dense_NoDup _ _ _ Hd) as Hnd.
  destruct Hd as (Hc & Hs & Hs0 & Hk & Hv & Hg & Hcr & Hlen & Hperm & Hnt).
  rewrite (resize_fits true m c2) by (try rewrite Hc; assumption).
  cbn [negb]. rewrite Hc.
  set (map0 := set_arr (set_capacity m c2) (replicate (Z.to_nat c2) NULL)).
  assert (take (Z.to_nat c) (drop (Z.to_nat 0) (arr m)) = arr m) as Eold
    by (simpl; rewrite drop_0, <- Hlen; apply firstn_all).
  destruct (resize_loop_dense (Z.to_nat c) (arr m) 0 map0) as (m1 & Hloop & Hent1).
  - unfold cap_ok. simpl. lia.
  - simpl. apply length_replicate.
  - exact Hg.
  - exact Hk.
  - intros x e Hx. simpl in Hx. apply lookup_replicate in Hx. left. apply Hx.
  - rewrite Eold. intros e He. apply filter_In in He. destruct He as [He Hl].
    apply list_elem_of_In, list_elem_of_lookup in He. destruct He as [x Hx].
    destruct (Hent _ _ Hx) as [->|(j & Hj & ->)]; [discriminate|].
    exists j. split; [lia|reflexivity].
  - rewrite Eold. simpl. rewrite filter_live_replicate_NULL. exact Hnd.
  - rewrite Eold. simpl. rewrite filter_live_replicate_NULL, length_replicate.
    simpl. lia.
  - lia.
  - simpl. lia.
  - exists m1. split; [exact Hloop|].
    pose proof (resize_loop_config _ _ _ _ _ _ Hloop) as ((Hc1 & Hk1 & Hv1 & Hg1) & Hs1 & Hl1).
    apply resize_loop_OK_inv in Hloop; [|lia]. destruct Hloop as (_ & _ & Hperm1).
    rewrite Eold in Hperm1. simpl in Hperm1, Hc1, Hk1, Hv1, Hg1, Hs1, Hl1.
    rewrite filter_live_replicate_NULL in Hperm1. simpl in Hperm1.
    rewrite length_replicate in Hl1.
    repeat split; try congruence; try lia.
    + rewrite Hperm1. exact Hperm.
    + intros x Hx. destruct (Hent1 _ _ Hx) as [E|(j & _ & E)]; discriminate.
Qed.

Lemma seqZ_1 (a : Z) : seqZ a 1 = [a].
Proof. unfold seqZ. simpl. f_equal. Qed.

Lemma dense_insert (m : icsmap) (c s j : Z) :
  dense m c s -> s < c ->
  arr m !! Z.to_nat j = Some NULL ->
  dense (set_size (arr_set m j (record_of s)) (u32 (size m + 1))) c (s + 1).
Proof.
  intros Hd Hsc Hnull.
  destruct Hd as (Hc & Hs & Hs0 & Hk & Hv & Hg & Hcr & Hlen & Hperm & Hnt).
  unfold dense. simpl. rewrite length_insert.
  assert (u32 (size m + 1) = s + 1) as -> by (unfold u32; rewrite Z.mod_small; lia).
  repeat split; auto; try lia.
  - rewrite (filter_live_insert _ _ NULL (record_of s) Hnull eq_refl eq_refl).
    rewrite Hperm.
    rewrite (seqZ_app 0 s 1) by lia. rewrite fmap_app.
    rewrite Z.add_0_l, seqZ_1.
    apply Permutation_cons_append.
  - intros x Hx. apply list_lookup_insert_Some in Hx.
    destruct Hx as [(_ & E & _)|[_ Hx]]; [discriminate|exact (Hnt x Hx)].
Qed.
Lemma dense_find_hole (m : icsmap) (c s : Z) :
  dense m c s -> s < c ->
  exists j, find_hole m (Ptr (int_le s)) = Ret (ICS_OK, j) /\
            arr m !! Z.to_nat j = Some NULL.
Proof.
  intros Hd Hsc.
  pose proof (dense_count _ _ _ Hd) as [Hcount _].
  pose proof (dense_entries _ _ _ Hd) as Hent.
  destruct Hd as (Hc & Hs & Hs0 & Hk & Hv & Hg & Hcr & Hlen & Hperm & Hnt).
  apply (find_hole_fresh m (int_le s) s); auto.
  - unfold cap_ok. lia.
  - congruence.
  - lia.
  - intros x e Hx. destruct (Hent _ _ Hx) as [->|(j & Hj & ->)];
      [left; reflexivity|right].
    exists j. repeat split; lia.
  - lia.
Qed.

(** The tail of [icsmap_put] on a dense map with room: the fresh key [s]
    goes to an empty slot. *)
Lemma dense_put_tail (m : icsmap) (c s : Z) :
  dense m c s -> s < c ->
  exists m',
    (let* (status, index) := find_hole m (Ptr (int_le s)) in
     if ics_status_eqb status ICS_EXISTS then
       let* e := arr_at m index in
       let* e := init_map_entry m e (Ptr (int_le s)) (Ptr (int_le 0)) in
       Ret (ICS_OK, arr_set m index e)
     else
       let entry := malloc true (entry_size m) in
       if is_empty entry then Ret (ICS_NO_MEMORY, m)
       else
         let* entry := init_map_entry m entry (Ptr (int_le s)) (Ptr (int_le 0)) in
         Ret (ICS_OK, set_size (arr_set m index entry) (u32 (size m + 1))))
    = Ret (ICS_OK, m') /\
    dense m' c (s + 1).
Proof.
  intros Hd Hsc.
  destruct (dense_find_hole _ _ _ Hd Hsc) as (j & Hfind & Hnull).
  exists (set_size (arr_set m j (record_of s)) (u32 (size m + 1))).
  split; [|apply dense_insert; auto].
  rewrite Hfind. cbn [bind ics_status_eqb].
  destruct Hd as (Hc & Hs & Hs0 & Hk & Hv & Hg & Hcr & Hlen & Hperm & Hnt).
  unfold entry_size, malloc. rewrite Hk, Hv. cbn [is_empty].
  rewrite init_map_entry_Ptr by (rewrite ?Hk, ?Hv; reflexivity || (simpl; lia)).
  rewrite Hk, Hv. reflexivity.
Qed.

Lemma dense_is_overloaded (m : icsmap) (c s : Z) :
  dense m c s -> is_overloaded m = Ret (33 <? u32 (s * 100) / c).
Proof.
  intros (Hc & Hs & Hs0 & Hk & Hv & Hg & Hcr & Hlen & Hperm & Hnt).
  unfold is_overloaded, ics_percent, LOAD_FACTOR. rewrite Hc, Hs.
  destruct (Z.eqb_spec c 0) as [E|_]; [lia|]. reflexivity.
Qed.

Lemma step_flat (c s : Z) :
  reach_dense c s -> u32 (s * 100) / c <= 33 -> s < c -> reach_dense c (s + 1).
Proof.
  intros (m & Hreach & Hd) Hload Hsc.
  destruct (dense_put_tail _ _ _ Hd Hsc) as (m' & Hput & Hd').
  exists m'. split; [|exact Hd'].
  apply (reach_put true true m (Ptr (int_le s)) (Ptr (int_le 0)) ICS_OK m' Hreach).
  unfold icsmap_put. rewrite (dense_is_overloaded _ _ _ Hd).
  destruct (Z.ltb_spec 33 (u32 (s * 100) / c)) as [|_]; [lia|].
  cbn [bind ics_status_eqb negb]. exact Hput.
Qed.

Lemma step_resize (c s c' : Z) :
  reach_dense c s -> 33 < u32 (s * 100) / c ->
  ics_next_prime (u32 (c * 2)) = Ret c' -> c < c' ->
  reach_dense c' (s + 1).
Proof.
  intros (m & Hreach & Hd) Hload Hnp Hcc.
  pose proof (dense_count _ _ _ Hd) as [_ Hsc].
  assert (sizeof_map_entry * c' < 2 ^ 32) as Hfits.
  { assert (is_overloaded m = Ret true) as Hov.
    { rewrite (dense_is_overloaded _ _ _ Hd).
      destruct (Z.ltb_spec 33 (u32 (s * 100) / c)) as [_|]; [reflexivity|lia]. }
    apply is_overloaded_true_capacity in Hov.
    destruct Hd as (Hc & _). rewrite Hc in Hov.
    destruct (ics_next_prime_double c) as (p & Hp & _ & _ & Hlt & _); [lia|].
    assert (c' = p) as -> by congruence.
    unfold sizeof_map_entry. lia. }
  destruct (resize_dense _ _ _ _ Hd Hnp Hcc Hfits) as (m1 & Hres & Hd1).
  destruct (dense_put_tail _ _ _ Hd1 ltac:(lia)) as (m' & Hput & Hd').
  exists m'. split; [|exact Hd'].
  apply (reach_put true true m (Ptr (int_le s)) (Ptr (int_le 0)) ICS_OK m' Hreach).
  unfold icsmap_put. rewrite (dense_is_overloaded _ _ _ Hd).
  destruct (Z.ltb_spec 33 (u32 (s * 100) / c)) as [_|]; [|lia].
  cbn [bind]. rewrite Hres. cbn [bind ics_status_eqb negb]. exact Hput.
Qed.

Lemma run_flat (c : Z) (k : nat) :
  forall s t : Z,
    reach_dense c s -> t = s + Z.of_nat k -> t <= c ->
    (forall u, s <= u < t -> u32 (u * 100) / c <= 33) ->
    reach_dense c t.
Proof.
  induction k as [|k IH]; intros s t Hreach Ht Htc Hload.
  - replace t with s by lia. exact Hreach.
  - apply (IH (s + 1)); try lia.
    + apply step_flat; auto; [apply Hload|]; lia.
    + intros u Hu. apply Hload. lia.
Qed.

Lemma run_flat_to (c s t : Z) :
  reach_dense c s -> s <= t <= c ->
  (forall u, s <= u < t -> u32 (u * 100) / c <= 33) ->
  reach_dense c t.
Proof.
  intros Hreach Hst Hload.
  apply (run_flat c (Z.to_nat (t - s)) s t); auto; lia.
Qed.

Lemma reach_dense_init : reach_dense 13 0.
Proof.
  exists (fresh_map cfg_int_int). split.
  - apply (reach_init true true cfg_int_int). reflexivity.
  - unfold dense. simpl. repeat split; try lia; try reflexivity.
    intros x Hx. each_slot x Hx.
Qed.

Lemma grow_reach (fuel : nat) :
  forall c s : Z,
    reach_dense c s -> reach_dense (fst (grow fuel c s)) (snd (grow fuel c s)).
Proof.
  induction fuel as [|fuel IH]; intros c s Hreach; [exact Hreach|].
  cbn [grow].
  set (t := (34 * c + 99) / 100).
  destruct ((s <=? t) && (t <? c) && (100 * t <? 2 ^ 32)) eqn:Econd; [|exact Hreach].
  apply andb_prop in Econd. destruct Econd as [Econd E3].
  apply andb_prop in Econd. destruct Econd as [E1 E2].
  apply Z.leb_le in E1. apply Z.ltb_lt in E2, E3.
  destruct (ics_next_prime (u32 (c * 2))) as [c'|] eqn:Enp; [|exact Hreach].
  destruct (Z.ltb_spec c c') as [Hcc|]; [|exact Hreach].
  apply IH.
  assert (0 < c) as Hc.
  { destruct Hreach as (m & _ & Hd). destruct Hd as (_ & _ & _ & _ & _ & _ & Hcr & _).
    lia. }
  assert (0 <= s) as Hs.
  { destruct Hreach as (m & _ & Hd). destruct Hd as (_ & _ & Hs0 & _). exact Hs0. }
  pose proof (Z.div_mod (34 * c + 99) 100 ltac:(lia)) as Hdm. fold t in Hdm.
  pose proof (Z.mod_pos_bound (34 * c + 99) 100 ltac:(lia)) as Hmod.
  apply (step_resize c t c'); auto.
  - apply (run_flat_to c s t); auto; try lia.
    intros u Hu.
    assert (u32 (u * 100) = u * 100) as -> by (unfold u32; apply Z.mod_small; lia).
    assert (u * 100 / c < 34); [|lia].
    apply Z.div_lt_upper_bound; lia.
  - assert (u32 (t * 100) = t * 100) as -> by (unfold u32; apply Z.mod_small; lia).
    assert (34 <= t * 100 / c); [|lia].
    apply Z.div_le_lower_bound; lia.
Qed.
Lemma grow_23 : grow 23 13 0 = (138086407, 23474686).
Proof. vm_compute. reflexivity. Qed.

(** In a map whose slots are all live and hold other keys, the loop of
    [find_hole] never exits. *)
Lemma find_hole_loop_full (m : icsmap) (k : map_key) (ks : Z) :
  cap_ok m ->
  length (arr m) = Z.to_nat (capacity m) ->
  (forall x e, arr m !! x = Some e ->
     is_live e = true /\ probe_test m k ks e = Ret false) ->
  forall (fuel : nat) (i : Z),
    0 <= i < capacity m ->
    find_hole_loop fuel m k ks i = Stop NoExit.
Proof.
  intros Hc Hlen Hslots.
  induction fuel as [|fuel IH]; intros i Hi; [reflexivity|].
  destruct (lookup_lt_is_Some_2 (arr m) (Z.to_nat i)) as [e He]; [lia|].
  destruct (Hslots _ _ He) as [Hl Htest].
  rewrite (find_hole_loop_S _ _ _ _ _ _ He Hl), Htest. cbn [bind].
  apply IH. apply probe_next_range. exact Hc.
Qed.

Lemma reach_dense_full : reach_dense 138086407 138086407.
Proof.
  pose proof (grow_reach 23 13 0 reach_dense_init) as H.
  rewrite grow_23 in H. cbn [fst snd] in H.
  apply (run_flat_to 138086407 23474686 138086407 H); [lia|].
  intros u Hu.
  assert (0 <= u32 (u * 100) < 2 ^ 32) as Hr
    by (unfold u32; apply Z.mod_pos_bound; lia).
  assert (u32 (u * 100) / 138086407 < 34); [|lia].
  apply Z.div_lt_upper_bound; lia.
Qed.
(** ** The fuel of the probe loops *)

(** [find_key_loop] exits within [capacity] rounds: more fuel changes
    nothing. *)
Lemma find_key_loop_fuel (m : icsmap) (k : map_key) (ks h : Z) :
  cap_ok m -> 0 <= h < capacity m ->
  forall (n s f1 f2 : nat),
    (s + n = Z.to_nat (capacity m))%nat -> (0 < n)%nat ->
    (n <= f1)%nat -> (n <= f2)%nat ->
    find_key_loop f1 m k ks h ((h + Z.of_nat s) mod capacity m)
      = find_key_loop f2 m k ks h ((h + Z.of_nat s) mod capacity m).
Proof.
  intros Hc Hh. unfold cap_ok in Hc.
  induction n as [|n IH]; intros s f1 f2 Hs Hn Hf1 Hf2; [lia|].
  destruct f1 as [|f1]; [lia|]. destruct f2 as [|f2]; [lia|].
  set (i := (h + Z.of_nat s) mod capacity m).
  assert (0 <= i < capacity m) as Hi by (apply Z.mod_pos_bound; lia).
  cbn [find_key_loop].
  destruct (arr_at m i) as [e|]; cbn [bind]; [|reflexivity].
  destruct (is_empty e); [reflexivity|].
  destruct (get_key m (map_entry_key m e)) as [[c cs]|]; cbn [bind]; [|reflexivity].
  destruct (assert (cs =? ks)); cbn [bind]; [|reflexivity].
  destruct (ics_equal c k ks) as [[|]|]; cbn [bind]; try reflexivity.
  assert (u32 (i + 1) mod capacity m = (h + Z.of_nat (S s)) mod capacity m) as En.
  { unfold u32. rewrite (Z.mod_small (i + 1)) by lia.
    unfold i. rewrite Zplus_mod_idemp_l. f_equal. lia. }
  rewrite En.
  destruct (Z.eqb_spec ((h + Z.of_nat (S s)) mod capacity m) h) as [E|E];
    [reflexivity|].
  apply IH; try lia.
  destruct n as [|n]; [|lia]. exfalso. apply E.
  replace (h + Z.of_nat (S s)) with (h + 1 * capacity m) by lia.
  rewrite Z.mod_add by lia. apply Z.mod_small. lia.
Qed.

Lemma find_key_loop_enough (m : icsmap) (k : map_key) (ks h : Z) (fuel : nat) :
  cap_ok m -> 0 <= h < capacity m ->
  (Z.to_nat (capacity m) <= fuel)%nat ->
  find_key_loop fuel m k ks h h
    = find_key_loop (Z.to_nat (capacity m)) m k ks h h.
Proof.
  intros Hc Hh Hfuel. unfold cap_ok in Hc.
  pose proof (find_key_loop_fuel m k ks h Hc Hh (Z.to_nat (capacity m)) 0
                fuel (Z.to_nat (capacity m))) as H.
  rewrite Z.add_0_r, Z.mod_small in H by lia.
  apply H; lia.
Qed.

Lemma find_hole_loop_less (m : icsmap) (k : map_key) (ks : Z) (f : nat) :
  forall (f' : nat) (i : Z),
    find_hole_loop f m k ks i = Stop NoExit -> (f' <= f)%nat ->
    find_hole_loop f' m k ks i = Stop NoExit.
Proof.
  induction f as [|f IH]; intros f' i H Hle.
  - replace f' with 0%nat by lia. reflexivity.
  - destruct f' as [|f']; [reflexivity|].
    cbn [find_hole_loop] in *.
    destruct (arr_at m i) as [e|]; cbn [bind] in *; [|exact H].
    destruct (is_empty e); [exact H|].
    destruct (get_key m (map_entry_key m e)) as [[c cs]|]; cbn [bind] in *; [|exact H].
    destruct (assert (cs =? ks)); cbn [bind] in *; [|exact H].
    destruct (is_deleted e); [exact H|].
    destruct (ics_equal c k ks) as [[|]|]; cbn [bind] in *; try exact H.
    apply (IH f' _ H). lia.
Qed.

Lemma find_hole_loop_more (m : icsmap) (k : map_key) (ks : Z) (n : nat) :
  forall (f : nat) (i : Z),
    find_hole_loop n m k ks i = Stop NoExit ->
    find_hole_loop (n + f) m k ks i = Stop NoExit \/
    find_hole_loop (n + f) m k ks i
      = find_hole_loop f m k ks (Nat.iter n (probe_next m) i).
Proof.
  induction n as [|n IH]; intros f i H; [right; reflexivity|].
  rewrite Nat.iter_succ_r.
  change (S n + f)%nat with (S (n + f)).
  cbn [find_hole_loop] in *.
  destruct (arr_at m i) as [e|]; cbn [bind] in *; [|left; exact H].
  destruct (is_empty e); [left; exact H|].
  destruct (get_key m (map_entry_key m e)) as [[c cs]|]; cbn [bind] in *;
    [|left; exact H].
  destruct (assert (cs =? ks)); cbn [bind] in *; [|left; exact H].
  destruct (is_deleted e); [left; exact H|].
  destruct (ics_equal c k ks) as [[|]|]; cbn [bind] in *; try (left; exact H).
  apply IH. exact H.
Qed.

Lemma iter_probe_next (m : icsmap) (n : nat) (i : Z) :
  cap_ok m -> 0 <= i < capacity m ->
  Nat.iter n (probe_next m) i = (i + Z.of_nat n) mod capacity m.
Proof.
  intros Hc Hi. induction n as [|n IH].
  - simpl. rewrite Z.add_0_r, Z.mod_small; auto.
  - rewrite Nat.iter_succ, IH.
    rewrite probe_next_small by (auto; apply Z.mod_pos_bound; apply Hc).
    rewrite Zplus_mod_idemp_l. f_equal. lia.
Qed.

(** A [find_hole] loop that has not exited after [capacity] rounds never
    exits. *)
Lemma find_hole_loop_stuck (m : icsmap) (k : map_key) (ks h : Z) :
  cap_ok m -> 0 <= h < capacity m ->
  find_hole_loop (Z.to_nat (capacity m)) m k ks h = Stop NoExit ->
  forall fuel : nat, find_hole_loop fuel m k ks h = Stop NoExit.
Proof.
  intros Hc Hh Hstuck fuel.
  induction fuel as [fuel IH] using lt_wf_ind.
  destruct (Nat.le_gt_cases fuel (Z.to_nat (capacity m))) as [Hle|Hgt].
  - eapply find_hole_loop_less; eauto.
  - replace fuel with (Z.to_nat (capacity m) + (fuel - Z.to_nat (capacity m)))%nat
      by lia.
    destruct (find_hole_loop_more m k ks _ (fuel - Z.to_nat (capacity m)) h Hstuck)
      as [E|E]; [exact E|].
    rewrite E. rewrite iter_probe_next by auto.
    unfold cap_ok in Hc.
    rewrite Z2Nat.id by lia.
    replace (h + capacity m) with (h + 1 * capacity m) by lia.
    rewrite Z.mod_add, Z.mod_small by lia.
    apply IH. lia.
Qed.

(** ** C6: count against capacity *)

(** C6. The capacity stops growing at 138086407: there 34 * capacity
    exceeds 2^32, the 32-bit product size * 100 never reaches it, and
    [is_overloaded] is false at every count.  After 138086407 puts of the
    keys 0, 1, 2, ... into a fresh int-keyed map, every call returning
    success, count equals capacity and every slot is occupied; in that
    state the probe loop of [find_hole] for the next key runs out of any
    fuel, and so does put. *)
Theorem C6_full_map_is_reachable :
  exists m : icsmap,
    reachable m /\
    capacity m = 138086407 /\
    size m = capacity m /\
    live_count m = capacity m /\
    is_overloaded m = Ret false /\
    (forall (fuel : nat) (h : Z),
       0 <= h < capacity m ->
       find_hole_loop fuel m (Ptr (int_le (capacity m))) 4 h = Stop NoExit) /\
    find_hole m (Ptr (int_le (capacity m))) = Stop NoExit /\
    (forall arr_ok entry_ok : bool,
       icsmap_put arr_ok entry_ok m (Ptr (int_le (capacity m))) (Ptr (int_le 0))
         = Stop NoExit).
Proof.
  destruct reach_dense_full as (m & Hreach & Hd).
  pose proof (dense_count _ _ _ Hd) as [Hcount _].
  pose proof (dense_entries _ _ _ Hd) as Hent.
  pose proof (dense_is_overloaded _ _ _ Hd) as Hov.
  destruct Hd as (Hc & Hs & Hs0 & Hk & Hv & Hg & Hcr & Hlen & Hperm & Hnt).
  assert (cap_ok m) as Hok by (unfold cap_ok; lia).
  assert (forall (fuel : nat) (h : Z),
            0 <= h < capacity m ->
            find_hole_loop fuel m (Ptr (int_le (capacity m))) 4 h = Stop NoExit)
    as Hloop.
  { apply find_hole_loop_full; auto; [lia|].
    intros x e Hx.
    assert (is_live e = true) as Hl.
    { apply (all_live_slots (arr m)) with x; [lia|exact Hx]. }
    split; [exact Hl|].
    destruct (Hent _ _ Hx) as [->|(j & Hj & ->)]; [discriminate|].
    apply (probe_test_other_key m _ (capacity m) j); auto; try lia;
      try (rewrite int_le_length; lia). }
  assert (find_hole m (Ptr (int_le (capacity m))) = Stop NoExit) as Hfind.
  { unfold find_hole, get_key. rewrite Hg, Hk. cbn [bind].
    assert (Z.to_nat 4 <= length (int_le (capacity m)))%nat as Hlen4
      by (rewrite int_le_length; simpl; lia).
    destruct (hash_total m (int_le (capacity m)) 4 ltac:(lia) Hlen4)
      as (h & -> & Hr).
    cbn [bind].
    destruct (Z.ltb_spec h (capacity m)) as [_|]; [|lia]. cbn [assert bind].
    apply Hloop. exact Hr. }
  assert (is_overloaded m = Ret false) as Hov'.
  { rewrite Hov. vm_compute. reflexivity. }
  exists m. split; [exact Hreach|]. split; [exact Hc|]. split; [congruence|].
  split; [unfold live_count; lia|]. split; [exact Hov'|].
  split; [exact Hloop|]. split; [exact Hfind|].
  intros arr_ok entry_ok. unfold icsmap_put. rewrite Hov'.
  cbn [bind ics_status_eqb negb]. rewrite Hfind. reflexivity.
Qed.

(** ** The byte loops *)

Lemma ics_memset_from_spec (val : byte) (n : nat) :
  forall (target : list byte) (i : nat),
    ics_memset_from target val i n
      = if (n =? 0)%nat || (i + n <=? length target)%nat
        then Ret (take i target ++ replicate n val ++ drop (i + n) target)
        else Stop InvalidWrite.
Proof.
  induction n as [|n IH]; intros target i.
  - simpl. rewrite Nat.add_0_r, take_drop. reflexivity.
  - cbn [ics_memset_from Nat.eqb orb]. unfold store.
    destruct (Nat.ltb_spec i (length target)) as [Hlt|Hge]; cbn [bind].
    + rewrite IH, length_insert.
      replace (i + S n)%nat with (S i + n)%nat by lia.
      destruct (Nat.leb_spec (S i + n) (length target)) as [Hle|Hgt].
      * rewrite orb_true_r. f_equal.
        rewrite drop_insert_lt by lia.
        rewrite (take_S_r (<[i:=val]> target) i val)
          by (apply list_lookup_insert_eq; lia).
        rewrite take_insert_ge by lia.
        rewrite <- app_assoc. reflexivity.
      * rewrite orb_false_r. destruct n as [|n]; [lia|]. reflexivity.
    + destruct (Nat.leb_spec (i + S n) (length target)); [lia|]. reflexivity.
Qed.

(** X1.  [ics_memset] writes [val] over the first [len] bytes of the target
    and nothing else when the target holds [len] bytes; on a shorter target
    it writes past the end. *)
Theorem X1_ics_memset_fills (target : list byte) (val : byte) (len : Z) :
  ics_memset target val len
    = if (Z.to_nat len <=? length target)%nat
      then Ret (replicate (Z.to_nat len) val ++ drop (Z.to_nat len) target)
      else Stop InvalidWrite.
Proof.
  unfold ics_memset. rewrite ics_memset_from_spec. cbn [Nat.add take app].
  destruct (Nat.leb_spec (Z.to_nat len) (length target)) as [Hle|Hgt].
  - rewrite orb_true_r. reflexivity.
  - rewrite orb_false_r. destruct (Z.to_nat len); [lia|]. reflexivity.
Qed.

(** X2.  [ics_memcpy] returns exactly when it is asked for no byte or both
    buffers hold the bytes it touches; it then has replaced the [len] bytes
    of the destination from [off] on by the first [len] bytes of the source,
    and nothing else. *)
Theorem X2_ics_memcpy_copies (d s : list byte) (off : nat) (len : Z) (d' : list byte) :
  ics_memcpy d off (Ptr s) len = Ret d' <->
  (Z.to_nat len = 0%nat \/
   ((Z.to_nat len <= length s)%nat /\ (off + Z.to_nat len <= length d)%nat)) /\
  d' = take off d ++ take (Z.to_nat len) s ++ drop (off + Z.to_nat len) d /\
  length d' = length d.
Proof.
  split.
  - intros H. apply ics_memcpy_inv in H. destruct H as [-> Hb].
    split; [exact Hb|]. split; [reflexivity|].
    destruct Hb as [E|[Hs Hd]].
    + rewrite E, Nat.add_0_r. simpl. rewrite take_drop. reflexivity.
    + rewrite !length_app, !length_take, length_drop. lia.
  - intros ([E|[Hs Hd]] & -> & _).
    + unfold ics_memcpy. rewrite E. simpl.
      rewrite Nat.add_0_r, take_drop. reflexivity.
    + apply ics_memcpy_Ptr; assumption.
Qed.

Lemma ics_equal_from_false (a b : list byte) (n : nat) :
  forall i : nat,
    ics_equal_from (Ptr a) (Ptr b) i n = Ret false <->
    exists (j : nat) (x y : byte),
      (i <= j < i + n)%nat /\ a !! j = Some x /\ b !! j = Some y /\ x <> y /\
      take (j - i) (drop i a) = take (j - i) (drop i b).
Proof.
  induction n as [|n IH]; intros i.
  - simpl. split; [discriminate|]. intros (j & _ & _ & Hj & _). lia.
  - cbn [ics_equal_from load].
    destruct (a !! i) as [x|] eqn:Ea; cbn [bind].
    2:{ split; [discriminate|]. intros (j & x & y & Hj & Hx & Hy & Hne & Hpre).
        destruct (Nat.eq_dec j i) as [->|Hji]; [congruence|].
        assert (length (take (j - i) (drop i a)) = length (take (j - i) (drop i b)))
          as Hl by (rewrite Hpre; reflexivity).
        rewrite !length_take, !length_drop in Hl.
        apply lookup_ge_None in Ea. apply lookup_lt_Some in Hy. lia. }
    destruct (b !! i) as [y|] eqn:Eb; cbn [bind].
    2:{ split; [discriminate|]. intros (j & x' & y & Hj & Hx & Hy & Hne & Hpre).
        destruct (Nat.eq_dec j i) as [->|Hji]; [congruence|].
        assert (length (take (j - i) (drop i a)) = length (take (j - i) (drop i b)))
          as Hl by (rewrite Hpre; reflexivity).
        rewrite !length_take, !length_drop in Hl.
        apply lookup_ge_None in Eb. apply lookup_lt_Some in Hx. lia. }
    destruct (Byte.eqb x y) eqn:Exy.
    + apply Byte.byte_dec_bl in Exy. subst y. rewrite IH. split.
      * intros (j & x' & y' & Hj & Hx & Hy & Hne & Hpre).
        exists j, x', y'. repeat split; auto; try lia.
        replace (j - i)%nat with (S (j - S i)) by lia.
        rewrite (drop_S a x i Ea), (drop_S b x i Eb). simpl. f_equal. exact Hpre.
      * intros (j & x' & y' & Hj & Hx & Hy & Hne & Hpre).
        destruct (Nat.eq_dec j i) as [->|Hji]; [congruence|].
        exists j, x', y'. repeat split; auto; try lia.
        replace (j - i)%nat with (S (j - S i)) in Hpre by lia.
        rewrite (drop_S a x i Ea), (drop_S b x i Eb) in Hpre. simpl in Hpre.
        congruence.
    + split; [intros _|reflexivity].
      exists i, x, y. repeat split; auto; try lia.
      * intros ->. rewrite (Byte.byte_dec_lb eq_refl) in Exy. discriminate.
      * rewrite Nat.sub_diag. reflexivity.
Qed.

Lemma ics_equal_from_true_iff (a b : list byte) (n : nat) :
  forall i : nat,
    ics_equal_from (Ptr a) (Ptr b) i n = Ret true <->
    (n = 0%nat \/ ((i + n <= length a)%nat /\ (i + n <= length b)%nat)) /\
    take n (drop i a) = take n (drop i b).
Proof.
  induction n as [|n IH]; intros i.
  - simpl. split; auto.
  - cbn [ics_equal_from load].
    destruct (a !! i) as [x|] eqn:Ea; cbn [bind].
    2:{ split; [discriminate|]. intros ([?|[Ha _]] & _); [lia|].
        apply lookup_ge_None in Ea. lia. }
    destruct (b !! i) as [y|] eqn:Eb; cbn [bind].
    2:{ split; [discriminate|]. intros ([?|[_ Hb]] & _); [lia|].
        apply lookup_ge_None in Eb. lia. }
    rewrite (drop_S a x i Ea), (drop_S b y i Eb). cbn [take].
    pose proof (lookup_lt_Some _ _ _ Ea). pose proof (lookup_lt_Some _ _ _ Eb).
    destruct (Byte.eqb x y) eqn:Exy.
    + apply Byte.byte_dec_bl in Exy. subst y. rewrite IH. split.
      * intros (Hb & Hpre). split; [right; lia|]. f_equal. exact Hpre.
      * intros (Hb & Hpre). injection Hpre as Hpre.
        split; [|exact Hpre]. destruct n; [left; reflexivity|right; lia].
    + split; [discriminate|]. intros (_ & Hpre). injection Hpre as -> _.
      rewrite (Byte.byte_dec_lb eq_refl) in Exy. discriminate.
Qed.

(** X3.  [ics_equal] answers true exactly when both buffers hold [len]
    bytes and these are the same, and false exactly when a byte differs
    after an equal prefix; nothing behind the first difference is read. *)
Theorem X3_ics_equal_compares (a b : list byte) (len : Z) :
  (ics_equal (Ptr a) (Ptr b) len = Ret true <->
   (Z.to_nat len <= length a)%nat /\ (Z.to_nat len <= length b)%nat /\
   take (Z.to_nat len) a = take (Z.to_nat len) b) /\
  (ics_equal (Ptr a) (Ptr b) len = Ret false <->
   exists (j : nat) (x y : byte),
     (j < Z.to_nat len)%nat /\ a !! j = Some x /\ b !! j = Some y /\ x <> y /\
     take j a = take j b).
Proof.
  unfold ics_equal. split.
  - rewrite ics_equal_from_true_iff. rewrite !drop_0. cbn [Nat.add]. split.
    + intros ([E|[Ha Hb]] & Hpre); [|auto].
      rewrite E. repeat split; lia.
    + intros (Ha & Hb & Hpre). split; [right; lia|exact Hpre].
  - rewrite ics_equal_from_false. split.
    + intros (j & x & y & Hj & Hx & Hy & Hne & Hpre).
      exists j, x, y. rewrite Nat.sub_0_r, !drop_0 in Hpre.
      repeat split; auto; lia.
    + intros (j & x & y & Hj & Hx & Hy & Hne & Hpre).
      exists j, x, y. rewrite Nat.sub_0_r, !drop_0.
      repeat split; auto; lia.
Qed.

(** X4.  Below [65531 * 65531] the trial division of [ics_is_prime] decides
    primality for every number but 2, which it rejects with the even
    numbers. *)
Theorem X4_ics_is_prime_decides :
  (forall n : Z,
     n <> 2 -> n < 65531 * 65531 ->
     exists b : bool, ics_is_prime n = Ret b /\ (b = true <-> Z.prime n)) /\
  ics_is_prime 2 = Ret false /\ Z.prime 2.
Proof.
  split; [|split].
  - intros n Hn Hlt. apply ics_is_prime_spec; assumption.
  - reflexivity.
  - exact Z.prime_2.
Qed.

Lemma X4_ics_is_prime_decides_witness :
  exists b : bool, ics_is_prime 91 = Ret b /\ (b = true <-> Z.prime 91).
Proof.
  destruct X4_ics_is_prime_decides as (H & _).
  apply (H 91); lia.
Defined.

(** ** The hash of a key *)

Lemma bits_above_lt (r n : Z) :
  0 <= r -> 0 <= n ->
  (forall i, n <= i -> Z.testbit r i = false) -> r < 2 ^ n.
Proof.
  intros Hr Hn Hbits.
  assert (r mod 2 ^ n = r) as <-.
  { apply Z.bits_inj'. intros i Hi.
    destruct (Z_lt_le_dec i n) as [Hlt|Hge].
    - apply Z.mod_pow2_bits_low. lia.
    - rewrite Z.mod_pow2_bits_high by lia. symmetry. apply Hbits. exact Hge. }
  apply Z.mod_pos_bound. lia.
Qed.

Lemma top_nibble_bit (i : Z) :
  Z.testbit 4026531840 i = (28 <=? i) && (i <? 32).
Proof.
  change 4026531840 with (Z.shiftl 15 28).
  destruct (Z.leb_spec 28 i) as [Hge|Hlt]; cbn [andb].
  - rewrite Z.shiftl_spec by lia.
    destruct (Z.ltb_spec i 32) as [Hlt|Hge'].
    + assert (i - 28 = 0 \/ i - 28 = 1 \/ i - 28 = 2 \/ i - 28 = 3)
        as [-> | [-> | [-> | ->]]] by lia; reflexivity.
    + change 15 with (Z.ones 4). apply Z.ones_spec_high. lia.
  - destruct (Z_lt_le_dec i 0) as [Hneg|Hpos].
    + apply Z.testbit_neg_r. exact Hneg.
    + rewrite Z.shiftl_spec by lia. apply Z.testbit_neg_r. lia.
Qed.

Lemma hash_fn_step_range (hash : Z) (b : byte) :
  0 <= hash_fn_step hash b < 2 ^ 28.
Proof.
  unfold hash_fn_step.
  set (h0 := u32 (u32 (Z.shiftl hash 4) + Z.of_N (Byte.to_N b))).
  assert (0 <= h0 < 2 ^ 32) as Hh0 by (apply Z.mod_pos_bound; lia).
  set (x := Z.land h0 4026531840).
  assert (0 <= x) as Hx by (apply Z.land_nonneg; lia).
  assert (forall i, 28 <= i -> Z.testbit (Z.shiftr x 24) i = false) as Hsh.
  { intros i Hi. rewrite Z.shiftr_spec by lia. unfold x.
    rewrite Z.land_spec, top_nibble_bit.
    destruct (Z.ltb_spec (i + 24) 32); [lia|]. rewrite andb_false_r.
    apply andb_false_r. }
  set (h1 := if x =? 0 then h0 else Z.lxor h0 (Z.shiftr x 24)).
  assert (0 <= h1) as Hh1.
  { unfold h1. destruct (x =? 0); [lia|].
    apply Z.lxor_nonneg. split; intros _; [apply Z.shiftr_nonneg|]; lia. }
  assert (forall i, 28 <= i -> Z.testbit h1 i = Z.testbit h0 i) as Hbit1.
  { intros i Hi. unfold h1. destruct (x =? 0); [reflexivity|].
    rewrite Z.lxor_spec, Hsh by lia. apply xorb_false_r. }
  split; [apply Z.land_nonneg; left; exact Hh1|].
  apply bits_above_lt; [apply Z.land_nonneg; left; exact Hh1|lia|].
  intros i Hi. rewrite Z.land_spec, Z.lxor_spec, Hbit1 by lia.
  unfold x. rewrite Z.land_spec, top_nibble_bit.
  destruct (Z.leb_spec 28 i) as [_|]; [|lia]. cbn [andb].
  destruct (Z.ltb_spec i 32) as [Hlt|Hge].
  - change 4294967295 with (Z.ones 32). rewrite Z.ones_spec_low by lia.
    destruct (Z.testbit h0 i); reflexivity.
  - unfold h0, u32. rewrite Z.mod_pow2_bits_high by lia. reflexivity.
Qed.

Lemma hash_fn_from_range (key : map_key) (n : nat) :
  forall (i : nat) (h r : Z),
    0 <= h < 2 ^ 28 ->
    hash_fn_from key i n h = Ret r -> 0 <= r < 2 ^ 28.
Proof.
  induction n as [|n IH]; intros i h r Hh H; simpl in H.
  - injection H as <-. exact Hh.
  - bind_inv H. apply IH in H; [exact H|]. apply hash_fn_step_range.
Qed.

(** X5.  [hash_fn] returns a 28-bit value that depends on the first [len]
    bytes of the key only, and [hash] turns it into a slot index below the
    capacity for every key that holds [len] bytes. *)
Theorem X5_hash_in_range (m : icsmap) (w w' : list byte) (len : Z) :
  (forall r : Z, hash_fn (Ptr w) len = Ret r -> 0 <= r < 2 ^ 28) /\
  (take (Z.to_nat len) w = take (Z.to_nat len) w' ->
   hash_fn (Ptr w) len = hash_fn (Ptr w') len /\
   hash m (Ptr w) len = hash m (Ptr w') len) /\
  (0 < capacity m -> (Z.to_nat len <= length w)%nat ->
   exists h : Z, hash m (Ptr w) len = Ret h /\ 0 <= h < capacity m).
Proof.
  split; [|split].
  - intros r H. unfold hash_fn in H.
    apply hash_fn_from_range in H; [exact H|lia].
  - intros Hpre. apply same_view_take in Hpre. split.
    + unfold hash_fn. apply hash_fn_from_ext. intros j Hj. apply Hpre. lia.
    + apply hash_ext. exact Hpre.
  - intros Hc Hlen. apply hash_total; assumption.
Qed.

Lemma X5_hash_in_range_witness :
  hash_fn (Ptr key_a) 1 = Ret 97 /\ 0 <= 97 < 2 ^ 28 /\
  hash (fresh_map cfg_char_int) (Ptr key_a) 1
    = hash (fresh_map cfg_char_int) (Ptr (key_a ++ int_le 1)) 1 /\
  exists h : Z, hash (fresh_map cfg_char_int) (Ptr key_a) 1 = Ret h /\
                0 <= h < capacity (fresh_map cfg_char_int).
Proof.
  destruct (X5_hash_in_range (fresh_map cfg_char_int) key_a (key_a ++ int_le 1) 1)
    as (H1 & H2 & H3).
  split; [reflexivity|]. split; [apply H1; reflexivity|].
  split; [apply H2; reflexivity|].
  apply H3; [reflexivity|simpl; lia].
Defined.

(** ** The load test *)

(** X6.  With a capacity above zero [is_overloaded] answers whether the
    32-bit product [size * 100] reaches [34 * capacity]; while the product
    fits 32 bits this is the load of more than 33 percent, and above the
    capacity 126322567 the answer is always no. *)
Theorem X6_is_overloaded_threshold (m : icsmap) :
  0 < capacity m ->
  is_overloaded m = Ret (34 * capacity m <=? u32 (size m * 100)) /\
  (0 <= size m * 100 < 2 ^ 32 ->
   is_overloaded m = Ret (34 * capacity m <=? 100 * size m)) /\
  (126322567 < capacity m -> is_overloaded m = Ret false).
Proof.
  intros Hc.
  assert (is_overloaded m = Ret (34 * capacity m <=? u32 (size m * 100))) as E.
  { unfold is_overloaded, ics_percent.
    destruct (Z.eqb_spec (capacity m) 0); [lia|]. cbn [bind]. f_equal.
    unfold LOAD_FACTOR.
    destruct (Z.ltb_spec 33 (u32 (size m * 100) / capacity m)) as [H|H];
      destruct (Z.leb_spec (34 * capacity m) (u32 (size m * 100))) as [H'|H'];
      try reflexivity; exfalso.
    - assert (u32 (size m * 100) / capacity m <= 33); [|lia].
      apply Z.lt_succ_r. apply Z.div_lt_upper_bound; lia.
    - assert (34 <= u32 (size m * 100) / capacity m); [|lia].
      apply Z.div_le_lower_bound; lia. }
  split; [exact E|]. split.
  - intros Hs. rewrite E. unfold u32. rewrite Z.mod_small by lia.
    f_equal. f_equal. lia.
  - intros Hbig. rewrite E. f_equal.
    pose proof (Z.mod_pos_bound (size m * 100) (2 ^ 32) ltac:(lia)).
    unfold u32. apply Z.leb_gt. lia.
Qed.

Lemma X6_is_overloaded_threshold_witness :
  is_overloaded map_5_of_13 = Ret (34 * 13 <=? 100 * 5) /\
  is_overloaded (set_capacity map_5_of_13 138086407) = Ret false.
Proof.
  split.
  - apply (X6_is_overloaded_threshold map_5_of_13); [reflexivity|simpl; lia].
  - apply (X6_is_overloaded_threshold (set_capacity map_5_of_13 138086407));
      [reflexivity|simpl; lia].
Defined.

(** ** Walks over the slot array *)

Lemma icsmap_foreach_loop_short {D : Type} (m : icsmap)
    (fn : map_key -> map_val -> D -> D) (n : nat) :
  forall (i : Z) (data : D),
    0 <= i ->
    (Z.to_nat i <= length (arr m) < Z.to_nat i + n)%nat ->
    icsmap_foreach_loop n m fn i data = Stop InvalidRead.
Proof.
  induction n as [|n IH]; intros i data Hi Hlen; [lia|].
  cbn [icsmap_foreach_loop]. unfold arr_at.
  destruct (arr m !! Z.to_nat i) as [e|] eqn:E; cbn [bind]; [|reflexivity].
  apply lookup_lt_Some in E.
  destruct (is_live e); apply IH; lia.
Qed.

(** X7.  On a map whose array has [capacity] slots, [icsmap_foreach] calls
    the visitor once for every Occupied slot, in slot order, with the record
    as the key pointer and the record advanced by [keysize] as the value
    pointer; empty and deleted slots are passed over.  On an array with
    fewer slots than [capacity] it reads past the end. *)
Theorem X7_foreach_visits_live_slots {D : Type} (m : icsmap)
    (fn : map_key -> map_val -> D -> D) (data : D) :
  0 <= capacity m ->
  (length (arr m) = Z.to_nat (capacity m) ->
   icsmap_foreach m fn data
     = Ret (fold_left (fun acc e => fn e (ptr_add e (keysize m)) acc)
              (List.filter is_live (arr m)) data)) /\
  ((length (arr m) < Z.to_nat (capacity m))%nat ->
   icsmap_foreach m fn data = Stop InvalidRead).
Proof.
  intros Hc. split.
  - intros Hlen. unfold icsmap_foreach.
    rewrite icsmap_foreach_loop_spec by (simpl; lia).
    simpl. rewrite drop_0, <- Hlen, firstn_all. reflexivity.
  - intros Hlen. unfold icsmap_foreach.
    apply icsmap_foreach_loop_short; simpl; lia.
Qed.

Lemma X7_foreach_visits_live_slots_witness :
  icsmap_foreach map_2_of_13 collect []
    = Ret (fold_left (fun acc e => collect e (ptr_add e (keysize map_2_of_13)) acc)
             (List.filter is_live (arr map_2_of_13)) []) /\
  icsmap_foreach (set_capacity map_5_of_13 29) collect [] = Stop InvalidRead.
Proof.
  split.
  - apply (X7_foreach_visits_live_slots map_2_of_13 collect []);
      [simpl; lia|reflexivity].
  - apply (X7_foreach_visits_live_slots (set_capacity map_5_of_13 29) collect []);
      simpl; lia.
Defined.

Lemma icsmap_deinit_loop_spec (m : icsmap) (n : nat) :
  forall (i : Z) (done : list freed),
    0 <= i ->
    (Z.to_nat i + n <= length (arr m))%nat ->
    icsmap_deinit_loop n m i done
      = Ret (done ++ List.map free_entry
                       (List.filter is_live (take n (drop (Z.to_nat i) (arr m))))).
Proof.
  induction n as [|n IH]; intros i done Hi Hlen.
  - simpl. rewrite app_nil_r. reflexivity.
  - cbn [icsmap_deinit_loop]. unfold arr_at.
    destruct (slot_split (arr m) (Z.to_nat i) n ltac:(lia)) as (e & He & ->).
    rewrite He. cbn [bind List.filter].
    replace (S (Z.to_nat i)) with (Z.to_nat (i + 1)) by lia.
    destruct (is_live e).
    + rewrite IH by lia. cbn [List.map]. rewrite <- app_assoc. reflexivity.
    + rewrite IH by lia. reflexivity.
Qed.

Lemma filter_live_not_sentinel (l : list map_entry) (e : map_entry) :
  In e (List.filter is_live l) -> e <> NULL /\ e <> tombstone.
Proof.
  intros H. apply List.filter_In in H. destruct H as [_ H].
  split; intros ->; discriminate.
Qed.

(** X8.  [icsmap_deinit] stops at its assertion on a null handle.  On a
    well-formed map it frees the record of every Occupied slot, in slot
    order, then the slot array and the map; it frees [count] records and
    never passes a null pointer or the tombstone to [free]. *)
Theorem X8_deinit_frees_live_records (m : icsmap) :
  icsmap_deinit None = Stop AssertionFailed /\
  (well_formed m ->
   icsmap_deinit (Some m)
     = Ret (List.map free_entry (List.filter is_live (arr m))
              ++ [free_arr (arr m); free_map]) /\
   Z.of_nat (length (List.filter is_live (arr m))) = icsmap_count m /\
   forall e, In e (List.filter is_live (arr m)) -> e <> NULL /\ e <> tombstone).
Proof.
  split; [reflexivity|]. intros Hwf.
  pose proof (wf_cap _ Hwf) as Hc. pose proof (wf_arr _ Hwf) as Hlen.
  split; [|split].
  - unfold icsmap_deinit.
    rewrite icsmap_deinit_loop_spec by (simpl; lia).
    cbn [bind Z.to_nat app]. rewrite drop_0, <- Hlen, firstn_all. reflexivity.
  - unfold icsmap_count. rewrite (wf_size _ Hwf). reflexivity.
  - apply filter_live_not_sentinel.
Qed.

Lemma map_2_of_13_well_formed : well_formed map_2_of_13.
Proof.
  split.
  - unfold cap_ok. simpl. lia.
  - reflexivity.
  - reflexivity.
  - simpl. lia.
  - simpl. lia.
  - intros x d H. each_slot x H.
Qed.

Lemma X8_deinit_frees_live_records_witness :
  icsmap_deinit (Some map_2_of_13)
    = Ret (List.map free_entry (List.filter is_live (arr map_2_of_13))
             ++ [free_arr (arr map_2_of_13); free_map]) /\
  Z.of_nat (length (List.filter is_live (arr map_2_of_13))) = icsmap_count map_2_of_13 /\
  forall e, In e (List.filter is_live (arr map_2_of_13)) -> e <> NULL /\ e <> tombstone.
Proof.
  apply (X8_deinit_frees_live_records map_2_of_13).
  exact map_2_of_13_well_formed.
Defined.

(** ** What the probes report *)

Lemma ics_equal_from_Stop (a b : map_entry) (n : nat) :
  forall (i : nat) (f : failure),
    ics_equal_from a b i n = Stop f -> f = InvalidRead.
Proof.
  induction n as [|n IH]; intros i f H; simpl in H; [discriminate|].
  destruct (load a i) as [x|fa] eqn:Ea; cbn [bind] in H.
  2:{ destruct a as [| |bs]; simpl in Ea; try congruence.
      destruct (bs !! i); congruence. }
  destruct (load b i) as [y|fb] eqn:Eb; cbn [bind] in H.
  2:{ destruct b as [| |bs]; simpl in Eb; try congruence.
      destruct (bs !! i); congruence. }
  destruct (Byte.eqb x y); [eauto|discriminate].
Qed.

Lemma probe_test_Stop (m : icsmap) (k : map_key) (ks : Z) (e : map_entry) (f : failure) :
  probe_test m k ks e = Stop f ->
  get_key m (map_entry_key m e) = Stop f \/ f = AssertionFailed \/ f = InvalidRead.
Proof.
  unfold probe_test.
  destruct (get_key m (map_entry_key m e)) as [[c cs]|f'];
    cbn [bind]; [|intros [= ->]; auto].
  destruct (cs =? ks); cbn [assert bind]; [|intros [= <-]; auto].
  intros H. apply ics_equal_from_Stop in H. auto.
Qed.

Lemma hash_fn_from_Stop (key : map_key) (n : nat) :
  forall (i : nat) (h : Z) (f : failure),
    hash_fn_from key i n h = Stop f -> f = InvalidRead.
Proof.
  induction n as [|n IH]; intros i h f H; simpl in H; [discriminate|].
  destruct (load key i) as [x|fa] eqn:Ea; cbn [bind] in H; [eauto|].
  destruct key as [| |bs]; simpl in Ea; try congruence.
  destruct (bs !! i); congruence.
Qed.

Lemma hash_Stop (m : icsmap) (key : map_key) (n : Z) (f : failure) :
  hash m key n = Stop f -> f = InvalidRead \/ f = DivideByZero.
Proof.
  unfold hash, hash_fn.
  destruct (hash_fn_from key 0 (Z.to_nat n) 0) as [r|f'] eqn:E; cbn [bind].
  - destruct (capacity m =? 0); [intros [= <-]; auto|discriminate].
  - intros [= <-]. apply hash_fn_from_Stop in E. auto.
Qed.

(** The loop of [find_key] is back at [hash_index] after [capacity] rounds:
    with that much fuel it runs out only inside the resolver. *)
Lemma find_key_loop_exits (m : icsmap) (k : map_key) (ks h : Z) :
  cap_ok m -> 0 <= h < capacity m ->
  (forall p, get_key m p <> Stop NoExit) ->
  forall (n s : nat),
    (s + n = Z.to_nat (capacity m))%nat -> (0 < n)%nat ->
    find_key_loop n m k ks h ((h + Z.of_nat s) mod capacity m) <> Stop NoExit.
Proof.
  intros Hc Hh Hres n. induction n as [|n IH]; intros s Hs Hn; [lia|].
  cbn [find_key_loop]. unfold arr_at.
  destruct (arr m !! Z.to_nat ((h + Z.of_nat s) mod capacity m)) as [e|];
    cbn [bind]; [|discriminate].
  destruct (is_empty e); [discriminate|].
  destruct (get_key m (map_entry_key m e)) as [[c cs]|f] eqn:Eg; cbn [bind].
  2:{ intros [= ->]. apply (Hres (map_entry_key m e)). exact Eg. }
  destruct (cs =? ks); cbn [assert bind]; [|discriminate].
  destruct (ics_equal c k ks) as [[|]|f] eqn:Ee; cbn [bind].
  - discriminate.
  - fold (probe_next m ((h + Z.of_nat s) mod capacity m)).
    rewrite probe_next_small by (auto; apply Z.mod_pos_bound; apply Hc).
    rewrite Zplus_mod_idemp_l.
    replace (h + Z.of_nat s + 1) with (h + Z.of_nat (S s)) by lia.
    destruct (Z.eqb_spec ((h + Z.of_nat (S s)) mod capacity m) h) as [E|E];
      [discriminate|].
    apply IH; [lia|].
    destruct n; [|lia]. exfalso. apply E.
    replace (Z.of_nat (S s)) with (capacity m) by (unfold cap_ok in Hc; lia).
    rewrite Z.add_mod, Z_mod_same_full, Z.add_0_r, Z.mod_mod by lia.
    apply Z.mod_small. lia.
  - intros [= ->]. apply ics_equal_from_Stop in Ee. discriminate.
Qed.

(** X9.  [find_key] always leaves its loop: on a map with a capacity that
    fits 32 bits and a resolver that returns, it returns or stops on an
    invalid read, a failed assertion or a division by zero, and the loop
    needs no more than [capacity] rounds. *)
Theorem X9_find_key_terminates (m : icsmap) (key : map_key) :
  0 <= capacity m < 2 ^ 32 ->
  (forall p, get_key m p <> Stop NoExit) ->
  find_key m key <> Stop NoExit /\
  (forall (k : map_key) (ks h : Z) (fuel : nat),
     0 <= h < capacity m -> (Z.to_nat (capacity m) <= fuel)%nat ->
     find_key_loop fuel m k ks h h
       = find_key_loop (Z.to_nat (capacity m)) m k ks h h).
Proof.
  intros Hc Hres. split.
  - unfold find_key.
    destruct (get_key m key) as [[k ks]|f] eqn:Eg; cbn [bind].
    2:{ intros [= ->]. apply (Hres key). exact Eg. }
    destruct (hash m k ks) as [h|f] eqn:Eh; cbn [bind].
    2:{ intros [= ->]. apply hash_Stop in Eh. destruct Eh; discriminate. }
    assert (0 < capacity m /\ 0 <= h < capacity m) as [Hpos Hh].
    { unfold hash in Eh. bind_inv Eh.
      destruct (Z.eqb_spec (capacity m) 0); [discriminate|].
      injection Eh as <-. split; [lia|]. apply Z.mod_pos_bound. lia. }
    pose proof (find_key_loop_exits m k ks h ltac:(unfold cap_ok; lia) Hh Hres
                  (Z.to_nat (capacity m)) 0 ltac:(lia) ltac:(lia)) as H.
    rewrite Z.add_0_r, Z.mod_small in H by lia. exact H.
  - intros k ks h fuel Hh Hfuel.
    apply find_key_loop_enough; [unfold cap_ok; lia|exact Hh|exact Hfuel].
Qed.

Lemma X9_find_key_terminates_witness :
  find_key map_2_of_13 (Ptr key_c) <> Stop NoExit /\
  (forall (k : map_key) (ks h : Z) (fuel : nat),
     0 <= h < capacity map_2_of_13 ->
     (Z.to_nat (capacity map_2_of_13) <= fuel)%nat ->
     find_key_loop fuel map_2_of_13 k ks h h
       = find_key_loop (Z.to_nat (capacity map_2_of_13)) map_2_of_13 k ks h h).
Proof.
  apply (X9_find_key_terminates map_2_of_13 (Ptr key_c)).
  - simpl. lia.
  - intros p. discriminate.
Defined.

(** What [find_key_loop] has seen when it returns: a walk over slots that
    are not empty and hold other keys, which are Occupied slots unless a
    comparison through the tombstone can answer no. *)
Lemma find_key_loop_inv (m : icsmap) (k : map_key) (ks h : Z) (fuel : nat) :
  forall (i : Z) (st : ics_status) (j : Z),
    find_key_loop fuel m k ks h i = Ret (st, j) ->
    st = ICS_NOT_FOUND \/
    (st = ICS_OK /\
     exists (t : nat) (e : map_entry),
       (t < fuel)%nat /\
       (probe_test m k ks tombstone <> Ret false -> probe_run m k ks i t j) /\
       arr m !! Z.to_nat j = Some e /\ is_empty e = false /\
       probe_test m k ks e = Ret true).
Proof.
  induction fuel as [|fuel IH]; intros i st j H; [discriminate|].
  destruct (arr m !! Z.to_nat i) as [e|] eqn:He.
  2:{ cbn [find_key_loop] in H. unfold arr_at in H. rewrite He in H. discriminate. }
  destruct (is_empty e) eqn:Hemp.
  { cbn [find_key_loop] in H. unfold arr_at in H. rewrite He in H.
    cbn [bind] in H. rewrite Hemp in H. injection H as <- _. auto. }
  rewrite (find_key_loop_S _ _ _ _ _ _ e He Hemp) in H.
  destruct (probe_test m k ks e) as [[|]|f] eqn:Ht; cbn [bind] in H;
    [| |discriminate].
  - injection H as <- <-. right. split; [reflexivity|].
    exists 0%nat, e. split; [lia|]. split; [intros _; constructor|]. auto.
  - destruct (probe_next m i =? h); [injection H as <- _; auto|].
    apply IH in H. destruct H as [H|(-> & t & e' & Hlt & Hrun & Hrest)]; [auto|].
    right. split; [reflexivity|]. exists (S t), e'.
    split; [lia|]. split; [|exact Hrest].
    intros Hts. apply (probe_step m k ks i t j e); auto.
    destruct e as [| |d]; try reflexivity; [discriminate|congruence].
Qed.

Lemma find_key_loop_range (m : icsmap) (k : map_key) (ks h : Z) (fuel : nat) :
  cap_ok m ->
  forall (i j : Z),
    0 <= i < capacity m ->
    find_key_loop fuel m k ks h i = Ret (ICS_OK, j) -> 0 <= j < capacity m.
Proof.
  intros Hc. induction fuel as [|fuel IH]; intros i j Hi H; [discriminate|].
  destruct (arr m !! Z.to_nat i) as [e|] eqn:He.
  2:{ cbn [find_key_loop] in H. unfold arr_at in H. rewrite He in H. discriminate. }
  destruct (is_empty e) eqn:Hemp.
  { cbn [find_key_loop] in H. unfold arr_at in H. rewrite He in H.
    cbn [bind] in H. rewrite Hemp in H. discriminate. }
  rewrite (find_key_loop_S _ _ _ _ _ _ e He Hemp) in H.
  destruct (probe_test m k ks e) as [[|]|f]; cbn [bind] in H; [| |discriminate].
  - injection H as <-. exact Hi.
  - destruct (probe_next m i =? h); [discriminate|].
    apply IH in H; [exact H|]. apply probe_next_range. exact Hc.
Qed.

Lemma find_key_inv (m : icsmap) (key : map_key) (st : ics_status) (j : Z) :
  find_key m key = Ret (st, j) ->
  exists (k : map_key) (ks h : Z),
    get_key m key = Ret (k, ks) /\
    hash m k ks = Ret h /\
    find_key_loop (Z.to_nat (capacity m)) m k ks h h = Ret (st, j).
Proof.
  unfold find_key. intros H. bind_inv H. destruct a as [k ks].
  bind_inv H. rename a into h. exists k, ks, h. auto.
Qed.

Lemma hash_Ret_pos (m : icsmap) (k : map_key) (n h : Z) :
  0 <= capacity m -> hash m k n = Ret h -> 0 <= h < capacity m.
Proof.
  unfold hash. intros Hc H. bind_inv H.
  destruct (Z.eqb_spec (capacity m) 0); [discriminate|].
  injection H as <-. apply Z.mod_pos_bound. lia.
Qed.

(** Without a resolver the comparison at a slot reads the record itself. *)
Lemma probe_test_default (m : icsmap) (k : map_key) (e : map_entry) :
  map_get_key m = None ->
  probe_test m k (keysize m) e = ics_equal e k (keysize m).
Proof.
  intros Hg. unfold probe_test, get_key, map_entry_key. rewrite Hg.
  cbn [bind]. rewrite Z.eqb_refl. reflexivity.
Qed.

Lemma ics_equal_sentinel (e b : map_entry) (len : Z) :
  is_live e = false ->
  ics_equal e b len = if (Z.to_nat len =? 0)%nat then Ret true else Stop InvalidRead.
Proof.
  intros He. unfold ics_equal. destruct (Z.to_nat len); [reflexivity|].
  destruct e; simpl in *; try reflexivity. discriminate.
Qed.

Lemma probe_test_default_tombstone (m : icsmap) (k : map_key) :
  map_get_key m = None -> probe_test m k (keysize m) tombstone <> Ret false.
Proof.
  intros Hg. rewrite probe_test_default by exact Hg.
  rewrite ics_equal_sentinel by reflexivity.
  destruct (Z.to_nat (keysize m) =? 0)%nat; discriminate.
Qed.

(** X10.  When [find_key] reports a slot, the slot lies inside the array,
    is not empty, and its key compares equal to the search key; without a
    resolver and with keys of one byte or more it is an Occupied slot whose
    record starts with the bytes of the search key.  The only other answer
    is [ICS_NOT_FOUND]. *)
Theorem X10_find_key_reports_equal_key (m : icsmap) (key : map_key)
    (st : ics_status) (j : Z) :
  cap_ok m ->
  find_key m key = Ret (st, j) ->
  st = ICS_NOT_FOUND \/
  (st = ICS_OK /\ 0 <= j < capacity m /\
   exists (k : map_key) (ks : Z) (e : map_entry),
     get_key m key = Ret (k, ks) /\
     arr m !! Z.to_nat j = Some e /\ is_empty e = false /\
     probe_test m k ks e = Ret true /\
     (map_get_key m = None -> 0 < keysize m ->
      exists d kb : list byte,
        e = Ptr d /\ key = Ptr kb /\
        take (Z.to_nat (keysize m)) d = take (Z.to_nat (keysize m)) kb)).
Proof.
  intros Hc H.
  destruct (find_key_inv _ _ _ _ H) as (k & ks & h & Hkey & Hh & Hloop).
  assert (0 <= capacity m) as Hc0 by (unfold cap_ok in Hc; lia).
  pose proof (hash_Ret_pos m k ks h Hc0 Hh) as Hhr.
  pose proof Hloop as Hinv. apply find_key_loop_inv in Hinv.
  destruct Hinv as [->|(-> & t & e & _ & _ & He & Hemp & Ht)]; [auto|].
  right. split; [reflexivity|].
  split; [eapply find_key_loop_range; eauto|].
  exists k, ks, e. repeat split; auto.
  intros Hg Hks. unfold get_key in Hkey. rewrite Hg in Hkey.
  injection Hkey as <- <-.
  rewrite probe_test_default in Ht by exact Hg.
  destruct e as [| |d]; [discriminate| |].
  { rewrite ics_equal_sentinel in Ht by reflexivity.
    destruct (Nat.eqb_spec (Z.to_nat (keysize m)) 0); [lia|discriminate]. }
  destruct key as [| |kb].
  1,2: unfold ics_equal in Ht;
       destruct (Z.to_nat (keysize m)) as [|n] eqn:En; [lia|];
       simpl in Ht; destruct (d !! 0%nat); discriminate.
  exists d, kb. repeat split. apply ics_equal_true. exact Ht.
Qed.

Lemma X10_find_key_reports_equal_key_witness :
  ICS_OK = ICS_NOT_FOUND \/
  (ICS_OK = ICS_OK /\ 0 <= 7 < capacity map_2_of_13 /\
   exists (k : map_key) (ks : Z) (e : map_entry),
     get_key map_2_of_13 (Ptr key_b) = Ret (k, ks) /\
     arr map_2_of_13 !! Z.to_nat 7 = Some e /\ is_empty e = false /\
     probe_test map_2_of_13 k ks e = Ret true /\
     (map_get_key map_2_of_13 = None -> 0 < keysize map_2_of_13 ->
      exists d kb : list byte,
        e = Ptr d /\ Ptr key_b = Ptr kb /\
        take (Z.to_nat (keysize map_2_of_13)) d
          = take (Z.to_nat (keysize map_2_of_13)) kb)).
Proof.
  apply (X10_find_key_reports_equal_key map_2_of_13 (Ptr key_b) ICS_OK 7).
  - unfold cap_ok. simpl. lia.
  - reflexivity.
Defined.

Lemma find_hole_result (m : icsmap) (key : map_key) (st : ics_status) (j : Z) :
  capacity m < 2 ^ 32 ->
  find_hole m key = Ret (st, j) ->
  0 <= j < capacity m /\
  exists (k : map_key) (ks : Z) (e : map_entry),
    get_key m key = Ret (k, ks) /\
    arr m !! Z.to_nat j = Some e /\
    ((st = ICS_OK /\ is_live e = false) \/
     (st = ICS_EXISTS /\ is_live e = true /\ probe_test m k ks e = Ret true)).
Proof.
  intros Hc H.
  destruct (find_hole_inv _ _ _ _ H) as (k & ks & h & Hkey & Hh & Hlt & Hloop).
  destruct (hash_Ret_range _ _ _ _ Hh Hlt) as [Hpos Hh0].
  apply find_hole_loop_inv in Hloop.
  destruct Hloop as (t & e & _ & Hrun & He & Hcase).
  split.
  - apply (probe_run_end_range m k ks h t j); [unfold cap_ok|..]; auto; lia.
  - exists k, ks, e. auto.
Qed.

(** X11.  The slot that [find_hole] reports lies inside the array; with
    [ICS_OK] it is empty or deleted, with [ICS_EXISTS] it is Occupied by a
    record whose key compares equal to the search key.  There is no third
    answer. *)
Theorem X11_find_hole_reports_hole_or_key (m : icsmap) (key : map_key)
    (st : ics_status) (j : Z) :
  capacity m < 2 ^ 32 ->
  find_hole m key = Ret (st, j) ->
  0 <= j < capacity m /\
  exists (k : map_key) (ks : Z) (e : map_entry),
    get_key m key = Ret (k, ks) /\
    arr m !! Z.to_nat j = Some e /\
    ((st = ICS_OK /\ is_live e = false) \/
     (st = ICS_EXISTS /\ is_live e = true /\ probe_test m k ks e = Ret true)).
Proof. apply find_hole_result. Qed.

Lemma X11_find_hole_reports_hole_or_key_witness :
  0 <= 7 < capacity map_2_of_13 /\
  exists (k : map_key) (ks : Z) (e : map_entry),
    get_key map_2_of_13 (Ptr key_b) = Ret (k, ks) /\
    arr map_2_of_13 !! Z.to_nat 7 = Some e /\
    ((ICS_EXISTS = ICS_OK /\ is_live e = false) \/
     (ICS_EXISTS = ICS_EXISTS /\ is_live e = true /\
      probe_test map_2_of_13 k ks e = Ret true)).
Proof.
  apply (X11_find_hole_reports_hole_or_key map_2_of_13 (Ptr key_b) ICS_EXISTS 7).
  - reflexivity.
  - reflexivity.
Defined.

(** ** The statuses and the footprint of the operations *)

Lemma find_hole_status (m : icsmap) (key : map_key) (st : ics_status) (j : Z) :
  find_hole m key = Ret (st, j) -> st = ICS_OK \/ st = ICS_EXISTS.
Proof.
  intros H.
  destruct (find_hole_inv _ _ _ _ H) as (k & ks & h & _ & _ & _ & Hloop).
  apply find_hole_loop_inv in Hloop.
  destruct Hloop as (t & e & _ & _ & _ & [[-> _]|[-> _]]); auto.
Qed.

Lemma resize_loop_status (n : nat) (old : list map_entry) :
  forall (i : Z) (map : icsmap) (st : ics_status) (map' : icsmap),
    resize_loop n old i map = Ret (st, map') -> st = ICS_OK \/ st = ICS_EXISTS.
Proof.
  induction n as [|n IH]; intros i map st map' H; cbn [resize_loop] in H.
  - injection H as <- _. auto.
  - destruct (old !! Z.to_nat i) as [e|]; [|discriminate].
    destruct (is_live e); [|eauto].
    bind_inv H. destruct a as [status hi].
    destruct (ics_status_eqb status ICS_OK) eqn:Est; cbn [negb] in H; [eauto|].
    injection H as <- _.
    apply find_hole_status in Hcall. destruct Hcall as [-> | ->]; auto.
Qed.

Lemma resize_status (arr_ok : bool) (m : icsmap) (st : ics_status) (m' : icsmap) :
  resize arr_ok m = Ret (st, m') ->
  st = ICS_OK \/ (st = ICS_NO_MEMORY /\ arr_ok = false) \/ st = ICS_EXISTS.
Proof.
  unfold resize. intros H. bind_inv H.
  destruct arr_ok; cbn [negb] in H.
  - apply resize_loop_status in H. destruct H; auto.
  - injection H as <- _. auto.
Qed.

(** X12.  [icsmap_put] returns [ICS_OK], or [ICS_NO_MEMORY] and then an
    allocation has failed, or [ICS_EXISTS] and then it comes out of the
    resize of an overloaded map; it never returns [ICS_FAILURE] or
    [ICS_NOT_FOUND]. *)
Theorem X12_put_statuses (arr_ok entry_ok : bool) (m : icsmap) (key val : map_entry)
    (st : ics_status) (m' : icsmap) :
  icsmap_put arr_ok entry_ok m key val = Ret (st, m') ->
  st = ICS_OK \/
  (st = ICS_NO_MEMORY /\ (arr_ok = false \/ entry_ok = false)) \/
  (st = ICS_EXISTS /\ is_overloaded m = Ret true /\
   exists m1, resize arr_ok m = Ret (ICS_EXISTS, m1) /\ m' = m1).
Proof.
  unfold icsmap_put. intros H. bind_inv H. rename a into ov.
  bind_inv H. destruct a as [s1 m1].
  destruct (ics_status_eqb s1 ICS_OK) eqn:Es1; cbn [negb] in H.
  - bind_inv H. destruct a as [s2 i].
    destruct (ics_status_eqb s2 ICS_EXISTS).
    + bind_inv H. bind_inv H. injection H as <- _. auto.
    + destruct entry_ok; cbn [malloc is_empty] in H.
      * bind_inv H. injection H as <- _. auto.
      * injection H as <- _. auto.
  - injection H as <- <-. destruct ov.
    + apply resize_status in Hcall0 as Hst.
      destruct Hst as [-> | [[-> ->] | ->]]; [discriminate|auto|].
      right. right. split; [reflexivity|]. split; [exact Hcall|]. eauto.
    + injection Hcall0 as <- _. discriminate.
Qed.

Lemma X12_put_statuses_witness :
  ICS_NO_MEMORY = ICS_OK \/
  (ICS_NO_MEMORY = ICS_NO_MEMORY /\ (false = false \/ true = false)) \/
  (ICS_NO_MEMORY = ICS_EXISTS /\ is_overloaded map_5_of_13 = Ret true /\
   exists m1, resize false map_5_of_13 = Ret (ICS_EXISTS, m1) /\
              set_capacity map_5_of_13 29 = m1).
Proof.
  apply (X12_put_statuses false true map_5_of_13 (Ptr [x66]) (Ptr (int_le 6))
           ICS_NO_MEMORY (set_capacity map_5_of_13 29)).
  reflexivity.
Defined.

(** X13.  A put that returns [ICS_OK] without resizing writes one slot of
    the array and leaves every other slot, the capacity and the
    configuration as they are.  The slot it writes either held a record
    whose key compares equal to the key of the call, and count is
    unchanged, or was empty or deleted, and count grows by one; the record
    it leaves there starts with the [keysize] bytes of the key, followed by
    the [valsize] bytes of the value. *)
Theorem X13_put_writes_one_slot (arr_ok entry_ok : bool) (m : icsmap)
    (k v : list byte) (m' : icsmap) :
  capacity m < 2 ^ 32 ->
  is_overloaded m = Ret false ->
  icsmap_put arr_ok entry_ok m (Ptr k) (Ptr v) = Ret (ICS_OK, m') ->
  exists (i : Z) (e : map_entry) (r : list byte),
    0 <= i < capacity m /\
    arr m !! Z.to_nat i = Some e /\
    arr m' = <[Z.to_nat i := Ptr r]> (arr m) /\
    same_config m m' /\
    take (Z.to_nat (keysize m)) r = take (Z.to_nat (keysize m)) k /\
    take (Z.to_nat (valsize m)) (drop (Z.to_nat (keysize m)) r)
      = take (Z.to_nat (valsize m)) v /\
    ((is_live e = true /\ size m' = size m /\
      exists (kv : map_key) (ks : Z),
        get_key m (Ptr k) = Ret (kv, ks) /\ probe_test m kv ks e = Ret true) \/
     (is_live e = false /\ size m' = u32 (size m + 1))).
Proof.
  intros Hc Hov Hput. apply icsmap_put_OK_inv in Hput.
  destruct Hput as (m1 & st & i & entry & rec & Hm1 & Hfind & Hinit & Hm').
  destruct Hm1 as [[_ ->]|[Hov' _]]; [|congruence].
  destruct (find_hole_result m (Ptr k) st i Hc Hfind)
    as (Hi & kv & ks & e & Hkey & He & Hcase).
  apply init_map_entry_inv in Hinit. destruct Hinit as (r & -> & Tk & Tv & _).
  exists i, e, r. split; [exact Hi|]. split; [exact He|].
  destruct Hm' as [(-> & Hent & ->)|(Hne & ->)].
  - split; [reflexivity|]. split; [apply same_config_arr_set|].
    split; [exact Tk|]. split; [exact Tv|]. left.
    destruct Hcase as [[? _]|(_ & Hl & Ht)]; [discriminate|].
    split; [exact Hl|]. split; [reflexivity|]. eauto.
  - split; [reflexivity|]. split; [repeat split|].
    split; [exact Tk|]. split; [exact Tv|]. right.
    destruct Hcase as [[_ Hl]|(-> & _)]; [|congruence]. auto.
Qed.

Lemma X13_put_writes_one_slot_witness :
  exists (i : Z) (e : map_entry) (r : list byte),
    0 <= i < capacity (fresh_map cfg_char_int) /\
    arr (fresh_map cfg_char_int) !! Z.to_nat i = Some e /\
    arr map_1_of_13 = <[Z.to_nat i := Ptr r]> (arr (fresh_map cfg_char_int)) /\
    same_config (fresh_map cfg_char_int) map_1_of_13 /\
    take (Z.to_nat (keysize (fresh_map cfg_char_int))) r
      = take (Z.to_nat (keysize (fresh_map cfg_char_int))) key_a /\
    take (Z.to_nat (valsize (fresh_map cfg_char_int)))
         (drop (Z.to_nat (keysize (fresh_map cfg_char_int))) r)
      = take (Z.to_nat (valsize (fresh_map cfg_char_int))) (int_le 1) /\
    ((is_live e = true /\ size map_1_of_13 = size (fresh_map cfg_char_int) /\
      exists (kv : map_key) (ks : Z),
        get_key (fresh_map cfg_char_int) (Ptr key_a) = Ret (kv, ks) /\
        probe_test (fresh_map cfg_char_int) kv ks e = Ret true) \/
     (is_live e = false /\
      size map_1_of_13 = u32 (size (fresh_map cfg_char_int) + 1))).
Proof.
  apply (X13_put_writes_one_slot true true (fresh_map cfg_char_int)
           key_a (int_le 1) map_1_of_13).
  - reflexivity.
  - reflexivity.
  - reflexivity.
Defined.

Lemma filter_live_delete (l : list map_entry) (j : nat) (e e' : map_entry) :
  l !! j = Some e -> is_live e = true -> is_live e' = false ->
  Permutation (e :: List.filter is_live (<[j := e']> l)) (List.filter is_live l).
Proof.
  intros Hj He He'.
  rewrite <- (take_drop_middle l j e Hj) at 2.
  rewrite insert_take_drop by (apply lookup_lt_Some in Hj; exact Hj).
  rewrite !List.filter_app. cbn [List.filter]. rewrite He, He'.
  apply Permutation_middle.
Qed.

(** X14.  [icsmap_remove] answers [ICS_NOT_FOUND] and leaves the map as it
    is, or answers [ICS_OK] after it has turned one Occupied slot, whose
    key compares equal to the key of the call, into a tombstone: count and
    the number of Occupied slots drop by one, and the capacity, the
    configuration and the other slots stay. *)
Theorem X14_remove_leaves_tombstone (m : icsmap) (key : map_key)
    (st : ics_status) (m' : icsmap) :
  cap_ok m ->
  icsmap_remove m key = Ret (st, m') ->
  (st = ICS_NOT_FOUND /\ m' = m) \/
  (st = ICS_OK /\
   exists (j : Z) (e : map_entry) (k : map_key) (ks : Z),
     0 <= j < capacity m /\
     arr m !! Z.to_nat j = Some e /\ is_live e = true /\
     get_key m key = Ret (k, ks) /\ probe_test m k ks e = Ret true /\
     arr m' = <[Z.to_nat j := tombstone]> (arr m) /\
     same_config m m' /\
     size m' = u32 (size m - 1) /\
     live_count m' = live_count m - 1).
Proof.
  intros Hc H. unfold icsmap_remove in H. bind_inv H. destruct a as [s j].
  destruct (find_key_inv _ _ _ _ Hcall) as (k & ks & h & Hkey & Hh & Hloop).
  assert (0 <= capacity m) as Hc0 by (unfold cap_ok in Hc; lia).
  pose proof (hash_Ret_pos m k ks h Hc0 Hh) as Hhr.
  pose proof Hloop as Hinv. apply find_key_loop_inv in Hinv.
  destruct Hinv as [->|(-> & t & e & _ & _ & He & Hemp & Ht)].
  - cbn [ics_status_eqb negb] in H. injection H as <- <-. auto.
  - cbn [ics_status_eqb negb] in H. unfold arr_at in H. rewrite He in H.
    cbn [bind] in H. destruct (is_live e) eqn:Hl; [|discriminate].
    cbn [assert bind] in H. injection H as <- <-.
    right. split; [reflexivity|]. exists j, e, k, ks.
    split; [eapply find_key_loop_range; eauto|].
    repeat split; auto.
    unfold live_count. cbn [arr set_size arr_set set_arr].
    rewrite <- (filter_live_delete (arr m) (Z.to_nat j) e tombstone He Hl eq_refl).
    cbn [length]. lia.
Qed.

Lemma X14_remove_leaves_tombstone_witness :
  (ICS_OK = ICS_NOT_FOUND /\
   set_size (arr_set map_1_of_13 6 tombstone) 0 = map_1_of_13) \/
  (ICS_OK = ICS_OK /\
   exists (j : Z) (e : map_entry) (k : map_key) (ks : Z),
     0 <= j < capacity map_1_of_13 /\
     arr map_1_of_13 !! Z.to_nat j = Some e /\ is_live e = true /\
     get_key map_1_of_13 (Ptr key_a) = Ret (k, ks) /\
     probe_test map_1_of_13 k ks e = Ret true /\
     arr (set_size (arr_set map_1_of_13 6 tombstone) 0)
       = <[Z.to_nat j := tombstone]> (arr map_1_of_13) /\
     same_config map_1_of_13 (set_size (arr_set map_1_of_13 6 tombstone) 0) /\
     size (set_size (arr_set map_1_of_13 6 tombstone) 0)
       = u32 (size map_1_of_13 - 1) /\
     live_count (set_size (arr_set map_1_of_13 6 tombstone) 0)
       = live_count map_1_of_13 - 1).
Proof.
  apply (X14_remove_leaves_tombstone map_1_of_13 (Ptr key_a) ICS_OK
           (set_size (arr_set map_1_of_13 6 tombstone) 0)).
  - unfold cap_ok. simpl. lia.
  - reflexivity.
Defined.

(** X15.  [icsmap_contains] and [icsmap_get] agree: contains answers
    [ICS_NOT_FOUND] exactly when get does, which then leaves the output
    buffer untouched, and answers [ICS_EXISTS] whenever get returns
    [ICS_OK]; neither has another answer. *)
Theorem X15_contains_agrees_with_get (m : icsmap) (key : map_key) (out : list byte) :
  (icsmap_contains m key = Ret ICS_NOT_FOUND <->
   icsmap_get m key out = Ret (ICS_NOT_FOUND, out)) /\
  (forall (st : ics_status) (out' : list byte),
     icsmap_get m key out = Ret (st, out') ->
     (st = ICS_NOT_FOUND /\ out' = out) \/
     (st = ICS_OK /\ icsmap_contains m key = Ret ICS_EXISTS)) /\
  (forall st : ics_status,
     icsmap_contains m key = Ret st -> st = ICS_NOT_FOUND \/ st = ICS_EXISTS).
Proof.
  unfold icsmap_contains, icsmap_get.
  destruct (find_key m key) as [[s j]|f] eqn:Hfk; cbn [bind].
  2:{ split; [split; discriminate|]. split; discriminate. }
  assert (s = ICS_NOT_FOUND \/ s = ICS_OK) as Hs.
  { destruct (find_key_inv _ _ _ _ Hfk) as (k & ks & h & _ & _ & Hloop).
    apply find_key_loop_inv in Hloop. destruct Hloop as [->|[-> _]]; auto. }
  destruct Hs as [-> | ->]; cbn [ics_status_eqb negb].
  - split; [split; reflexivity|]. split.
    + intros st out' [= <- <-]. auto.
    + intros st [= <-]. auto.
  - split; [split; [discriminate|]|split].
    + intros H. bind_inv H. bind_inv H. bind_inv H. discriminate.
    + intros st out' H. bind_inv H. bind_inv H. bind_inv H.
      injection H as <- _. auto.
    + intros st [= <-]. auto.
Qed.

Lemma X15_contains_agrees_with_get_witness :
  icsmap_get map_2_of_13 (Ptr key_c) (int_le 0) = Ret (ICS_NOT_FOUND, int_le 0) /\
  ((ICS_OK = ICS_NOT_FOUND /\ int_le 2 = int_le 0) \/
   (ICS_OK = ICS_OK /\ icsmap_contains map_2_of_13 (Ptr key_b) = Ret ICS_EXISTS)).
Proof.
  split.
  - apply (X15_contains_agrees_with_get map_2_of_13 (Ptr key_c) (int_le 0)).
    reflexivity.
  - apply (X15_contains_agrees_with_get map_2_of_13 (Ptr key_b) (int_le 0)).
    reflexivity.
Defined.

(** ** Keys as bytes: maps without a resolver *)

Lemma probe_test_cfg (m m' : icsmap) (k : map_key) (ks : Z) (e : map_entry) :
  keysize m' = keysize m -> map_get_key m' = map_get_key m ->
  probe_test m' k ks e = probe_test m k ks e.
Proof.
  intros Hk Hg. unfold probe_test, get_key, map_entry_key.
  rewrite Hk, Hg. reflexivity.
Qed.

Lemma ics_equal_from_ext_l (a a' b : map_entry) (n : nat) :
  forall i : nat,
    (forall j, (i <= j < i + n)%nat -> load a j = load a' j) ->
    ics_equal_from a b i n = ics_equal_from a' b i n.
Proof.
  induction n as [|n IH]; intros i Hsame; simpl; [reflexivity|].
  rewrite <- (Hsame i) by lia.
  destruct (load a i); simpl; [|reflexivity].
  destruct (load b i); simpl; [|reflexivity].
  destruct (Byte.eqb a0 a1); [|reflexivity].
  apply IH. intros j Hj. apply Hsame. lia.
Qed.

(** The comparison at a slot reads the first [keysize] bytes of the record. *)
Lemma probe_test_default_prefix (m : icsmap) (k : map_key) (d d' : list byte) :
  map_get_key m = None ->
  take (Z.to_nat (keysize m)) d = take (Z.to_nat (keysize m)) d' ->
  probe_test m k (keysize m) (Ptr d) = probe_test m k (keysize m) (Ptr d').
Proof.
  intros Hg Hpre. rewrite !probe_test_default by exact Hg.
  unfold ics_equal. apply ics_equal_from_ext_l.
  intros j Hj. apply (same_view_take d d' (keysize m) Hpre). lia.
Qed.

Lemma probe_test_default_true (m : icsmap) (kb d : list byte) :
  map_get_key m = None ->
  probe_test m (Ptr kb) (keysize m) (Ptr d) = Ret true ->
  take (Z.to_nat (keysize m)) d = take (Z.to_nat (keysize m)) kb.
Proof.
  intros Hg H. rewrite probe_test_default in H by exact Hg.
  apply ics_equal_true. exact H.
Qed.

Lemma probe_test_default_same (m : icsmap) (kb d : list byte) :
  map_get_key m = None ->
  (Z.to_nat (keysize m) <= length kb)%nat ->
  take (Z.to_nat (keysize m)) d = take (Z.to_nat (keysize m)) kb ->
  probe_test m (Ptr kb) (keysize m) (Ptr d) = Ret true.
Proof.
  intros Hg Hlen Hpre. rewrite probe_test_default by exact Hg.
  assert (Z.to_nat (keysize m) <= length d)%nat as Hd.
  { assert (length (take (Z.to_nat (keysize m)) d)
            = length (take (Z.to_nat (keysize m)) kb)) as Hl by (rewrite Hpre; reflexivity).
    rewrite !length_take in Hl. lia. }
  destruct (ics_equal_Ptr d kb (keysize m) Hd Hlen) as (b & -> & Hiff).
  f_equal. apply Hiff. exact Hpre.
Qed.

(** A walk survives every change of the array that keeps its slots
    Occupied by records that still compare unequal. *)
Lemma probe_run_frame_test (m m' : icsmap) (k : map_key) (ks i : Z) (t : nat) (j : Z) :
  capacity m' = capacity m ->
  (forall x e, arr m !! x = Some e -> is_live e = true ->
     probe_test m k ks e = Ret false ->
     exists e', arr m' !! x = Some e' /\ is_live e' = true /\
                probe_test m' k ks e' = Ret false) ->
  probe_run m k ks i t j ->
  probe_run m' k ks i t j.
Proof.
  intros Hc Hkeep Hrun. induction Hrun as [i|i t j e He Hl Ht Hrun IH].
  - constructor.
  - destruct (Hkeep _ _ He Hl Ht) as (e' & He' & Hl' & Ht').
    apply (probe_step m' k ks i t j e'); auto.
    unfold probe_next in *. rewrite Hc. exact IH.
Qed.

(** Skipping the slots of a walk. *)
Lemma find_key_loop_walk (m : icsmap) (k : map_key) (ks h i : Z) (t : nat) (j : Z) :
  cap_ok m -> 0 <= h < capacity m ->
  probe_run m k ks i t j ->
  forall (s fuel : nat),
    i = (h + Z.of_nat s) mod capacity m ->
    (s + t < Z.to_nat (capacity m))%nat ->
    (t <= fuel)%nat ->
    find_key_loop fuel m k ks h i = find_key_loop (fuel - t) m k ks h j.
Proof.
  intros Hc Hh Hrun.
  induction Hrun as [i|i t j e0 He0 Hl0 Ht0 Hrun IH]; intros s fuel Hi Hs Hfuel.
  - rewrite Nat.sub_0_r. reflexivity.
  - destruct fuel as [|fuel]; [lia|].
    assert (is_empty e0 = false) as Hne0.
    { apply is_live_Ptr in Hl0 as [d ->]. reflexivity. }
    rewrite (find_key_loop_S _ _ _ _ _ _ _ He0 Hne0), Ht0. cbn [bind].
    assert (0 <= i < capacity m) as Hir.
    { rewrite Hi. apply Z.mod_pos_bound. apply Hc. }
    assert (probe_next m i = (h + Z.of_nat (S s)) mod capacity m) as Hn.
    { rewrite probe_next_small by auto. rewrite Hi, Zplus_mod_idemp_l.
      f_equal. lia. }
    destruct (Z.eqb_spec (probe_next m i) h) as [E|E].
    + exfalso. rewrite Hn in E. revert E. apply mod_add_ne; [exact Hh|].
      unfold cap_ok in Hc. lia.
    + replace (S fuel - S t)%nat with (fuel - t)%nat by lia.
      apply (IH (S s) fuel); auto; lia.
Qed.

(** What a successful [icsmap_get] has found. *)
Lemma icsmap_get_OK_inv (m : icsmap) (key : map_key) (out out' : list byte) :
  icsmap_get m key out = Ret (ICS_OK, out') ->
  exists (j : Z) (e : map_entry),
    find_key m key = Ret (ICS_OK, j) /\
    arr m !! Z.to_nat j = Some e /\ is_live e = true /\
    ics_memcpy out 0 (map_entry_val m e) (valsize m) = Ret out'.
Proof.
  unfold icsmap_get. intros H. bind_inv H. destruct a as [st j].
  destruct (ics_status_eqb st ICS_OK) eqn:Est; cbn [negb] in H.
  2:{ injection H as -> _. discriminate. }
  apply ics_status_eqb_eq in Est. subst st.
  bind_inv H. rename a into e. bind_inv H. bind_inv H. injection H as <-.
  unfold arr_at in Hcall0. destruct (arr m !! Z.to_nat j) eqn:Ej; [|discriminate].
  injection Hcall0 as ->. apply assert_Ret_inv in Hcall1.
  exists j, e. auto.
Qed.

(** On a map without a resolver a key that [find_key] reports in an
    Occupied slot is findable. *)
Lemma find_key_findable (m : icsmap) (kb : list byte) (j : Z) (e : map_entry) :
  map_get_key m = None -> cap_ok m ->
  find_key m (Ptr kb) = Ret (ICS_OK, j) ->
  arr m !! Z.to_nat j = Some e -> is_live e = true ->
  findable m (Ptr kb) (keysize m) j.
Proof.
  intros Hg Hc Hfk He Hl.
  destruct (find_key_inv _ _ _ _ Hfk) as (k & ks & h & Hkey & Hh & Hloop).
  unfold get_key in Hkey. rewrite Hg in Hkey. injection Hkey as <- <-.
  assert (0 <= capacity m) as Hc0 by (unfold cap_ok in Hc; lia).
  pose proof (hash_Ret_pos m _ _ h Hc0 Hh) as Hhr.
  apply find_key_loop_inv in Hloop.
  destruct Hloop as [?|(_ & t & e' & Ht & Hrun & He' & _ & Htest)]; [discriminate|].
  assert (e' = e) as -> by congruence.
  exists h, t, e. repeat split; auto; try lia.
  apply Hrun. apply probe_test_default_tombstone. exact Hg.
Qed.

Lemma findable_slot (m : icsmap) (k : map_key) (ks j : Z) :
  findable m k ks j ->
  exists e, arr m !! Z.to_nat j = Some e /\ is_live e = true /\
            probe_test m k ks e = Ret true.
Proof. intros (h & t & e & _ & _ & _ & _ & He & Hl & Ht). eauto. Qed.

(** What [icsmap_get] does with a findable key. *)
Lemma findable_get (m : icsmap) (key k : map_key) (ks j : Z) (e : map_entry)
    (out : list byte) :
  cap_ok m ->
  get_key m key = Ret (k, ks) ->
  findable m k ks j ->
  arr m !! Z.to_nat j = Some e ->
  icsmap_get m key out
    = let* out' := ics_memcpy out 0 (map_entry_val m e) (valsize m) in
      Ret (ICS_OK, out').
Proof.
  intros Hc Hkey Hf He.
  destruct (findable_slot _ _ _ _ Hf) as (e' & He' & Hl & _).
  assert (e' = e) as -> by congruence.
  unfold icsmap_get. rewrite (findable_find_key m key k ks j Hc Hkey Hf).
  cbn [bind ics_status_eqb negb]. unfold arr_at. rewrite He. cbn [bind].
  rewrite Hl. reflexivity.
Qed.

(** A write to another slot, over a hole or over a record with the same
    key bytes, keeps a findable key findable. *)
Lemma findable_write (m m' : icsmap) (kb r : list byte) (e : map_entry) (i j : Z) :
  map_get_key m = None ->
  same_config m m' ->
  arr m' = <[Z.to_nat i := Ptr r]> (arr m) ->
  arr m !! Z.to_nat i = Some e ->
  (is_live e = false \/
   exists d, e = Ptr d /\
     take (Z.to_nat (keysize m)) d = take (Z.to_nat (keysize m)) r) ->
  Z.to_nat j <> Z.to_nat i ->
  findable m (Ptr kb) (keysize m) j ->
  findable m' (Ptr kb) (keysize m) j /\
  arr m' !! Z.to_nat j = arr m !! Z.to_nat j.
Proof.
  intros Hg Hcfg Harr He Hcase Hne (h & t & e2 & Hh & Hhr & Hrun & Ht & He2 & Hl2 & Ht2).
  pose proof Hcfg as (Hc & Hk & Hv & Hg').
  assert (arr m' !! Z.to_nat j = arr m !! Z.to_nat j) as Hj.
  { rewrite Harr. apply list_lookup_insert_ne. congruence. }
  split; [|exact Hj].
  exists h, t, e2. repeat split; auto; try lia.
  - unfold hash in *. rewrite Hc. exact Hh.
  - apply (probe_run_frame_test m m'); auto.
    intros x ex Hx Hlx Htx.
    destruct (Nat.eq_dec x (Z.to_nat i)) as [->|Hxi].
    + assert (ex = e) as -> by congruence.
      destruct Hcase as [Hdead|(d & -> & Hpre)]; [congruence|].
      exists (Ptr r). split; [|split; [reflexivity|]].
      * rewrite Harr. apply list_lookup_insert_eq.
        apply lookup_lt_Some in He. exact He.
      * rewrite (probe_test_cfg m m') by assumption.
        rewrite <- (probe_test_default_prefix m (Ptr kb) d r Hg Hpre). exact Htx.
    + exists ex. split; [|split; [exact Hlx|]].
      * rewrite Harr. rewrite list_lookup_insert_ne by congruence. exact Hx.
      * rewrite (probe_test_cfg m m') by assumption. exact Htx.
  - congruence.
  - rewrite (probe_test_cfg m m') by assumption. exact Ht2.
Qed.

(** After a successful [resize], a findable key is findable in the new
    array, at the slot that now holds its record. *)
Lemma resize_keeps_findable (arr_ok : bool) (m m1 : icsmap) (kb : list byte) (j : Z) :
  map_get_key m = None -> cap_ok m ->
  resize arr_ok m = Ret (ICS_OK, m1) ->
  findable m (Ptr kb) (keysize m) j ->
  exists j', findable m1 (Ptr kb) (keysize m) j' /\
             arr m1 !! Z.to_nat j' = arr m !! Z.to_nat j.
Proof.
  intros Hg Hc Hres Hf.
  pose proof Hf as (h & t & e & Hh & Hhr & Hrun & Ht & He & Hl & Htest).
  assert (0 <= j < capacity m) as Hj by (eapply probe_run_end_range; eauto).
  pose proof (resize_inv _ _ _ _ Hres) as (_ & Hk1 & _ & Hg1 & _).
  destruct (resize_OK_placed _ _ _ _ _ Hres Hj He Hl)
    as (k' & ks' & h' & t' & j' & Hkey' & Hh' & Hhr' & Hrun' & Ht' & He').
  unfold get_key, map_entry_key in Hkey'. rewrite Hg1, Hg in Hkey'.
  injection Hkey' as <- <-. rewrite Hk1 in *.
  apply is_live_Ptr in Hl as Hd. destruct Hd as [d ->].
  pose proof (probe_test_default_true m kb d Hg Htest) as Hpre.
  pose proof (same_view_take d kb (keysize m) Hpre) as Hview.
  exists j'. split; [|congruence].
  exists h', t', (Ptr d). repeat split; auto; try lia.
  - rewrite <- (hash_ext m1 (Ptr d) (Ptr kb)); auto.
  - eapply probe_run_ext; eauto.
  - rewrite (probe_test_cfg m m1) by congruence. exact Htest.
Qed.

(** Where a successful put leaves its record, on a map without a
    resolver. *)
Lemma icsmap_put_places_default (arr_ok entry_ok : bool) (m : icsmap)
    (k v : list byte) (m' : icsmap) :
  map_get_key m = None ->
  capacity m < 2 ^ 32 ->
  icsmap_put arr_ok entry_ok m (Ptr k) (Ptr v) = Ret (ICS_OK, m') ->
  exists (i : Z) (r : list byte),
    cap_ok m' /\
    findable m' (Ptr k) (keysize m) i /\
    arr m' !! Z.to_nat i = Some (Ptr r) /\
    take (Z.to_nat (keysize m)) r = take (Z.to_nat (keysize m)) k /\
    take (Z.to_nat (valsize m)) (drop (Z.to_nat (keysize m)) r)
      = take (Z.to_nat (valsize m)) v /\
    (Z.to_nat (valsize m) <= length (drop (Z.to_nat (keysize m)) r))%nat.
Proof.
  intros Hg Hcap Hput.
  destruct (icsmap_put_config _ _ _ _ _ _ _ Hput) as (Hk' & Hv' & Hg' & _).
  apply icsmap_put_OK_inv in Hput.
  destruct Hput as (m1 & st & i & entry & rec & Hm1 & Hfind & Hinit & Hm').
  assert (keysize m1 = keysize m /\ valsize m1 = valsize m /\
          map_get_key m1 = map_get_key m /\ capacity m1 < 2 ^ 32)
    as (Hk1 & Hv1 & Hg1 & Hc1).
  { destruct Hm1 as [[_ ->]|[_ Hres]]; [auto|].
    apply resize_inv in Hres. destruct Hres as (Hp & ? & ? & ? & _).
    apply ics_next_prime_range in Hp. repeat split; auto; lia. }
  apply init_map_entry_inv in Hinit.
  destruct Hinit as (r & -> & Tk & Tv & Lv). rewrite Hk1 in *. rewrite Hv1 in *.
  destruct (find_hole_inv _ _ _ _ Hfind) as (kk & ks & h & Hkey & Hh & Hlt & Hloop).
  unfold get_key in Hkey. rewrite Hg1, Hg in Hkey. injection Hkey as <- <-.
  rewrite Hk1 in *.
  destruct (hash_Ret_range _ _ _ _ Hh Hlt) as [Hcpos Hh0].
  assert (cap_ok m1) as Hok1 by (unfold cap_ok; lia).
  apply find_hole_loop_inv in Hloop.
  destruct Hloop as (t & e & Ht & Hrun & He & _).
  assert (0 <= h < capacity m1) as Hhr by lia.
  assert (same_config m1 m' /\ arr m' = <[Z.to_nat i := Ptr r]> (arr m1))
    as (Hcfg & Harr).
  { destruct Hm' as [(_ & _ & ->)|(_ & ->)]; split; try reflexivity; repeat split. }
  pose proof Hcfg as (Hc & _).
  assert (arr m' !! Z.to_nat i = Some (Ptr r)) as Hslot.
  { rewrite Harr. apply list_lookup_insert_eq. apply lookup_lt_Some in He. exact He. }
  exists i, r. split; [unfold cap_ok; lia|]. split; [|auto].
  exists h, t, (Ptr r). repeat split; auto; try lia.
  - unfold hash in *. rewrite Hc. exact Hh.
  - apply (probe_run_frame_end m1 m'); auto.
    intros x Hx. rewrite Harr. apply list_lookup_insert_ne. congruence.
  - rewrite <- Hk'. apply probe_test_default_same; [congruence| |congruence].
    rewrite Hk'. apply (hash_Ret_length _ _ _ _ Hh).
Qed.

Lemma take_same_length {A : Type} (a b : list A) (n : nat) :
  take n a = take n b -> (n <= length a)%nat -> (n <= length b)%nat.
Proof.
  intros H Ha.
  assert (length (take n a) = length (take n b)) as Hl by (rewrite H; reflexivity).
  rewrite !length_take in Hl. lia.
Qed.

(** X16.  Keys are compared by their bytes.  On a map without a resolver,
    after a put that returns [ICS_OK], a get through any key buffer with the
    same first [keysize] bytes copies out the [valsize] bytes just stored
    and leaves the rest of the output buffer alone, contains answers
    [ICS_EXISTS], a further put of that key that returns [ICS_OK] leaves
    count as it is, and remove returns [ICS_OK] and takes one off count. *)
Theorem X16_put_then_get (arr_ok entry_ok : bool) (m : icsmap)
    (k k' v : list byte) (m' : icsmap) :
  map_get_key m = None ->
  capacity m < 2 ^ 32 ->
  take (Z.to_nat (keysize m)) k = take (Z.to_nat (keysize m)) k' ->
  icsmap_put arr_ok entry_ok m (Ptr k) (Ptr v) = Ret (ICS_OK, m') ->
  (forall out : list byte,
     (Z.to_nat (valsize m) <= length out)%nat ->
     icsmap_get m' (Ptr k') out
       = Ret (ICS_OK, take (Z.to_nat (valsize m)) v ++ drop (Z.to_nat (valsize m)) out)) /\
  icsmap_contains m' (Ptr k') = Ret ICS_EXISTS /\
  (forall (arr_ok' entry_ok' : bool) (v2 : list byte) (m'' : icsmap),
     icsmap_put arr_ok' entry_ok' m' (Ptr k') (Ptr v2) = Ret (ICS_OK, m'') ->
     size m'' = size m') /\
  (exists m'' : icsmap,
     icsmap_remove m' (Ptr k') = Ret (ICS_OK, m'') /\
     size m'' = u32 (size m' - 1)).
Proof.
  intros Hg Hcap Hview Hput.
  destruct (icsmap_put_config _ _ _ _ _ _ _ Hput) as (Hk' & Hv' & Hg' & _).
  destruct (icsmap_put_places_default _ _ _ _ _ _ Hg Hcap Hput)
    as (i & r & Hok & Hfindable & Hslot & Tk & Tv & Lv).
  pose proof (same_view_take _ _ _ Hview) as Hsv.
  apply (findable_ext _ _ _ _ _ Hsv) in Hfindable.
  assert (forall mx, map_get_key mx = None -> keysize mx = keysize m ->
                     get_key mx (Ptr k') = Ret (Ptr k', keysize m))
    as Hkey2 by (intros mx Hx Hkx; unfold get_key; rewrite Hx, Hkx; reflexivity).
  assert (find_key m' (Ptr k') = Ret (ICS_OK, i)) as Hfk.
  { apply (findable_find_key m' _ (Ptr k') (keysize m)); auto.
    apply Hkey2; congruence. }
  split; [|split; [|split]].
  - intros out Hout.
    rewrite (findable_get m' (Ptr k') (Ptr k') (keysize m) i (Ptr r) out); auto.
    + unfold map_entry_val, ptr_add. rewrite Hk', Hv'.
      rewrite ics_memcpy_Ptr by (simpl; lia).
      cbn [bind]. rewrite Tv. reflexivity.
    + apply Hkey2; congruence.
  - unfold icsmap_contains. rewrite Hfk. reflexivity.
  - intros arr_ok' entry_ok' v2 m'' Hput2.
    apply icsmap_put_OK_inv in Hput2.
    destruct Hput2 as (m1 & st & i' & entry & rec & Hm1 & Hfind & _ & Hm'').
    assert (size m1 = size m' /\ exists j, find_hole m1 (Ptr k') = Ret (ICS_EXISTS, j))
      as (Hsize & j & Hex).
    { destruct Hm1 as [[_ ->]|[_ Hres]].
      - split; [reflexivity|]. exists i.
        apply (findable_find_hole m' _ (Ptr k') (keysize m)); auto.
        apply Hkey2; congruence.
      - pose proof (resize_inv _ _ _ _ Hres) as (_ & Hk1 & _ & Hg1 & Hs1).
        split; [exact Hs1|].
        rewrite <- Hk' in Hfindable.
        assert (map_get_key m' = None) as Hgn by congruence.
        destruct (resize_keeps_findable arr_ok' m' m1 k' i Hgn Hok Hres Hfindable)
          as (j & Hfj & _).
        exists j. rewrite Hk' in Hfj.
        apply (findable_find_hole m1 _ (Ptr k') (keysize m)); auto.
        apply Hkey2; congruence. }
    rewrite Hex in Hfind. injection Hfind as <- <-.
    destruct Hm'' as [(_ & _ & ->)|(Hne & _)]; [exact Hsize|congruence].
  - unfold icsmap_remove. rewrite Hfk. cbn [bind ics_status_eqb negb].
    unfold arr_at. rewrite Hslot. cbn [bind is_live is_empty is_deleted negb andb assert].
    eexists. split; reflexivity.
Qed.

Lemma X16_put_then_get_witness :
  (forall out : list byte,
     (Z.to_nat (valsize (fresh_map cfg_char_int)) <= length out)%nat ->
     icsmap_get map_1_of_13 (Ptr (key_a ++ key_b)) out
       = Ret (ICS_OK,
              take (Z.to_nat (valsize (fresh_map cfg_char_int))) (int_le 1)
                ++ drop (Z.to_nat (valsize (fresh_map cfg_char_int))) out)) /\
  icsmap_contains map_1_of_13 (Ptr (key_a ++ key_b)) = Ret ICS_EXISTS /\
  (forall (arr_ok' entry_ok' : bool) (v2 : list byte) (m'' : icsmap),
     icsmap_put arr_ok' entry_ok' map_1_of_13 (Ptr (key_a ++ key_b)) (Ptr v2)
       = Ret (ICS_OK, m'') ->
     size m'' = size map_1_of_13) /\
  (exists m'' : icsmap,
     icsmap_remove map_1_of_13 (Ptr (key_a ++ key_b)) = Ret (ICS_OK, m'') /\
     size m'' = u32 (size map_1_of_13 - 1)).
Proof.
  apply (X16_put_then_get true true (fresh_map cfg_char_int)
           key_a (key_a ++ key_b) (int_le 1) map_1_of_13).
  - reflexivity.
  - reflexivity.
  - reflexivity.
  - reflexivity.
Defined.

(** X17.  A put does not disturb the other keys.  On a map without a
    resolver, when a get of a key returns [ICS_OK] and a put of a key with
    other bytes returns [ICS_OK], whether it resizes or not, the same get
    after the put returns [ICS_OK] with the same bytes. *)
Theorem X17_put_keeps_other_keys (arr_ok entry_ok : bool) (m : icsmap)
    (k1 v k2 out out' : list byte) (m' : icsmap) :
  map_get_key m = None ->
  cap_ok m ->
  take (Z.to_nat (keysize m)) k1 <> take (Z.to_nat (keysize m)) k2 ->
  icsmap_put arr_ok entry_ok m (Ptr k1) (Ptr v) = Ret (ICS_OK, m') ->
  icsmap_get m (Ptr k2) out = Ret (ICS_OK, out') ->
  icsmap_get m' (Ptr k2) out = Ret (ICS_OK, out').
Proof.
  intros Hg Hc Hdiff Hput Hget.
  destruct (icsmap_put_config _ _ _ _ _ _ _ Hput) as (Hk' & Hv' & Hg' & _).
  apply icsmap_get_OK_inv in Hget.
  destruct Hget as (j & e2 & Hfk & He2 & Hl2 & Hcopy).
  pose proof (find_key_findable m k2 j e2 Hg Hc Hfk He2 Hl2) as Hf.
  apply icsmap_put_OK_inv in Hput.
  destruct Hput as (m1 & st & i & entry & rec & Hm1 & Hfind & Hinit & Hm').
  assert (keysize m1 = keysize m /\ valsize m1 = valsize m /\
          map_get_key m1 = None /\ cap_ok m1 /\
          exists j1, findable m1 (Ptr k2) (keysize m) j1 /\
                     arr m1 !! Z.to_nat j1 = Some e2)
    as (Hk1 & Hv1 & Hg1 & Hc1 & j1 & Hf1 & Hj1).
  { destruct Hm1 as [[_ ->]|[_ Hres]]; [eauto 10|].
    pose proof (resize_inv _ _ _ _ Hres) as (Hp & Hka & Hva & Hga & _).
    destruct (resize_keeps_findable _ _ _ _ _ Hg Hc Hres Hf) as (j1 & Hf1 & Hj1).
    pose proof Hf1 as (h & t & e & Hh & Hhr & _).
    apply ics_next_prime_range in Hp.
    split; [exact Hka|]. split; [exact Hva|]. split; [congruence|].
    split; [unfold cap_ok; lia|].
    exists j1. split; [exact Hf1|congruence]. }
  apply init_map_entry_inv in Hinit.
  destruct Hinit as (r & -> & Tk & _). rewrite Hk1 in Tk.
  destruct (find_hole_result m1 (Ptr k1) st i ltac:(apply Hc1) Hfind)
    as (Hi & kk & ks & e & Hkey & He & Hcase).
  unfold get_key in Hkey. rewrite Hg1 in Hkey. injection Hkey as <- <-.
  assert (same_config m1 m' /\ arr m' = <[Z.to_nat i := Ptr r]> (arr m1))
    as (Hcfg & Harr).
  { destruct Hm' as [(_ & _ & ->)|(_ & ->)]; split; try reflexivity; repeat split. }
  apply is_live_Ptr in Hl2 as Hd2. destruct Hd2 as [d2 ->].
  destruct (findable_slot _ _ _ _ Hf1) as (e2' & He2' & _ & Ht2).
  assert (e2' = Ptr d2) as -> by congruence.
  rewrite <- Hk1 in Ht2, Hf1.
  pose proof (probe_test_default_true m1 k2 d2 Hg1 Ht2) as Hpre2.
  assert (is_live e = false \/
          exists d, e = Ptr d /\
            take (Z.to_nat (keysize m1)) d = take (Z.to_nat (keysize m1)) r) as Hw.
  { destruct Hcase as [[_ Hdead]|(_ & Hl & Ht)]; [left; exact Hdead|right].
    apply is_live_Ptr in Hl as [d ->]. exists d. split; [reflexivity|].
    rewrite (probe_test_default_true m1 k1 d Hg1 Ht). rewrite Hk1. congruence. }
  assert (Z.to_nat j1 <> Z.to_nat i) as Hne.
  { intros E. rewrite E in Hj1. rewrite He in Hj1. injection Hj1 as ->.
    destruct Hcase as [[_ Hdead]|(_ & _ & Ht)]; [discriminate|].
    pose proof (probe_test_default_true m1 k1 d2 Hg1 Ht) as Hpre1.
    apply Hdiff. rewrite <- Hk1. congruence. }
  destruct (findable_write m1 m' k2 r e i j1 Hg1 Hcfg Harr He Hw Hne Hf1)
    as (Hf' & Hj').
  pose proof Hcfg as (Hcc & Hkk & Hvv & _).
  rewrite (findable_get m' (Ptr k2) (Ptr k2) (keysize m1) j1 (Ptr d2) out).
  - unfold map_entry_val in *. rewrite Hkk, Hvv, Hk1, Hv1, Hcopy. reflexivity.
  - unfold cap_ok in *. lia.
  - unfold get_key. rewrite Hg', Hg, Hk', Hk1. reflexivity.
  - exact Hf'.
  - congruence.
Qed.

Lemma X17_put_keeps_other_keys_witness :
  icsmap_get map_6_of_29 (Ptr key_a) (int_le 0) = Ret (ICS_OK, int_le 1).
Proof.
  apply (X17_put_keeps_other_keys true true map_5_of_13
           [x66] (int_le 6) key_a (int_le 0) (int_le 1) map_6_of_29).
  - reflexivity.
  - unfold cap_ok. simpl. lia.
  - discriminate.
  - reflexivity.
  - reflexivity.
Defined.

(** X18.  Without a resolver and with keys of one byte or more, every
    lookup of a key that has just been removed walks to the tombstone left
    in its slot and compares the key with the bytes at the sentinel
    address: contains, get and remove of that key stop on an invalid read
    instead of answering [ICS_NOT_FOUND]. *)
Theorem X18_lookup_after_remove (m : icsmap) (k : list byte) (m' : icsmap) :
  map_get_key m = None ->
  0 < keysize m ->
  cap_ok m ->
  icsmap_remove m (Ptr k) = Ret (ICS_OK, m') ->
  find_key m' (Ptr k) = Stop InvalidRead /\
  icsmap_contains m' (Ptr k) = Stop InvalidRead /\
  (forall out, icsmap_get m' (Ptr k) out = Stop InvalidRead) /\
  icsmap_remove m' (Ptr k) = Stop InvalidRead.
Proof.
  intros Hg Hks Hc Hrem.
  assert (find_key m' (Ptr k) = Stop InvalidRead) as Hfk.
  { unfold icsmap_remove in Hrem. bind_inv Hrem. destruct a as [st j].
    destruct (ics_status_eqb st ICS_OK) eqn:Est; cbn [negb] in Hrem.
    2:{ injection Hrem as -> _. discriminate. }
    apply ics_status_eqb_eq in Est. subst st.
    bind_inv Hrem. rename a into e. bind_inv Hrem. injection Hrem as <-.
    unfold arr_at in Hcall0.
    destruct (arr m !! Z.to_nat j) eqn:Ej; [|discriminate].
    injection Hcall0 as ->. apply assert_Ret_inv in Hcall1.
    pose proof (find_key_findable m k j e Hg Hc Hcall Ej Hcall1)
      as (h & t & e' & Hh & Hhr & Hrun & Ht & _).
    remember (set_size (arr_set m j tombstone) (u32 (size m - 1))) as m' eqn:Em'.
    assert (same_config m m') as Hcfg by (subst m'; repeat split).
    assert (arr m' = <[Z.to_nat j := tombstone]> (arr m)) as Harr
      by (subst m'; reflexivity).
    clear Em'. pose proof Hcfg as (Hcc & Hkk & _ & Hgg).
    assert (probe_run m' (Ptr k) (keysize m) h t j) as Hrun'.
    { apply (probe_run_frame_end m m'); auto.
      intros x Hx. rewrite Harr. apply list_lookup_insert_ne. congruence. }
    assert (cap_ok m') as Hc' by (unfold cap_ok in *; lia).
    unfold find_key, get_key. rewrite Hgg, Hg, Hkk. cbn [bind].
    replace (hash m' (Ptr k) (keysize m)) with (Ret (A:=Z) h)
      by (rewrite <- Hh; unfold hash; rewrite Hcc; reflexivity).
    cbn [bind].
    rewrite (find_key_loop_walk m' (Ptr k) (keysize m) h h t j Hc'
               ltac:(lia) Hrun' 0%nat);
      [| rewrite Z.add_0_r, Z.mod_small; [reflexivity|lia] | simpl; lia | lia ].
    replace (Z.to_nat (capacity m') - t)%nat
      with (S (Z.to_nat (capacity m') - t - 1)) by lia.
    rewrite <- Hkk.
    apply (find_key_loop_at_tombstone _ m'); [congruence|lia|].
    rewrite Harr. apply list_lookup_insert_eq. apply lookup_lt_Some in Ej. exact Ej. }
  split; [exact Hfk|]. split; [|split].
  - unfold icsmap_contains. rewrite Hfk. reflexivity.
  - intros out. unfold icsmap_get. rewrite Hfk. reflexivity.
  - unfold icsmap_remove. rewrite Hfk. reflexivity.
Qed.

Lemma X18_lookup_after_remove_witness :
  find_key (set_size (arr_set map_1_of_13 6 tombstone) 0) (Ptr key_a)
    = Stop InvalidRead /\
  icsmap_contains (set_size (arr_set map_1_of_13 6 tombstone) 0) (Ptr key_a)
    = Stop InvalidRead /\
  (forall out,
     icsmap_get (set_size (arr_set map_1_of_13 6 tombstone) 0) (Ptr key_a) out
       = Stop InvalidRead) /\
  icsmap_remove (set_size (arr_set map_1_of_13 6 tombstone) 0) (Ptr key_a)
    = Stop InvalidRead.
Proof.
  apply (X18_lookup_after_remove map_1_of_13 key_a
           (set_size (arr_set map_1_of_13 6 tombstone) 0)).
  - reflexivity.
  - reflexivity.
  - unfold cap_ok. simpl. lia.
  - reflexivity.
Defined.

(** ** What a resize keeps *)

Lemma resize_loop_clean (n : nat) (old : list map_entry) :
  forall (i : Z) (map : icsmap) (st : ics_status) (map' : icsmap),
    (forall x, arr map !! x <> Some tombstone) ->
    resize_loop n old i map = Ret (st, map') ->
    forall x, arr map' !! x <> Some tombstone.
Proof.
  induction n as [|n IH]; intros i map st map' Hclean H; cbn [resize_loop] in H.
  - injection H as _ <-. exact Hclean.
  - destruct (old !! Z.to_nat i) as [e|]; [|discriminate].
    destruct (is_live e) eqn:Hl; [|exact (IH _ _ _ _ Hclean H)].
    bind_inv H. destruct a as [status hi].
    destruct (ics_status_eqb status ICS_OK); cbn [negb] in H.
    + refine (IH _ _ _ _ _ H). intros x. simpl.
      destruct (Nat.eq_dec x (Z.to_nat hi)) as [->|Hne].
      * intros E. apply list_lookup_insert_Some in E.
        destruct E as [(_ & Hee & _)|(? & _)]; [subst e; discriminate|congruence].
      * rewrite list_lookup_insert_ne by congruence. apply Hclean.
    + injection H as _ <-. exact Hclean.
Qed.

(** X19.  A resize that returns [ICS_OK] moves every record and loses
    none, on a map of a capacity below [2^27]: the byte size of the new
    array then fits 32 bits, and every overloaded map, which is what put
    resizes, has such a capacity.  The new array has the new capacity and
    no tombstone, its Occupied slots hold the records of the old Occupied
    slots, count and the configuration are unchanged, and on a map without
    a resolver every get that returned [ICS_OK] before returns the same
    bytes after. *)
Theorem X19_resize_keeps_records (arr_ok : bool) (m m1 : icsmap) :
  cap_ok m ->
  capacity m < 2 ^ 27 ->
  length (arr m) = Z.to_nat (capacity m) ->
  resize arr_ok m = Ret (ICS_OK, m1) ->
  ics_next_prime (u32 (capacity m * 2)) = Ret (capacity m1) /\
  length (arr m1) = Z.to_nat (capacity m1) /\
  size m1 = size m /\ keysize m1 = keysize m /\ valsize m1 = valsize m /\
  map_get_key m1 = map_get_key m /\
  Permutation (List.filter is_live (arr m1)) (List.filter is_live (arr m)) /\
  (forall x, arr m1 !! x <> Some tombstone) /\
  (map_get_key m = None ->
   forall k out out' : list byte,
     icsmap_get m (Ptr k) out = Ret (ICS_OK, out') ->
     icsmap_get m1 (Ptr k) out = Ret (ICS_OK, out')).
Proof.
  intros Hc Hsmall Hlen Hres.
  pose proof (resize_inv _ _ _ _ Hres) as (Hp & Hk & Hv & Hg & Hs).
  assert (sizeof_map_entry * capacity m1 < 2 ^ 32) as Hfits.
  { destruct (ics_next_prime_double (capacity m)) as (p & Hp' & _ & _ & Hlt & _);
      [unfold cap_ok in Hc; lia|].
    assert (capacity m1 = p) as -> by congruence.
    unfold sizeof_map_entry. lia. }
  pose proof Hres as Hloop. rewrite (resize_fits _ _ _ Hp Hfits) in Hloop.
  destruct arr_ok; cbn [negb] in Hloop; [|discriminate].
  pose proof (resize_loop_config _ _ _ _ _ _ Hloop) as (_ & _ & Hlen1).
  assert (forall x, replicate (Z.to_nat (capacity m1)) NULL !! x <> Some tombstone)
    as Hclean0.
  { intros x E. apply lookup_replicate in E. destruct E; discriminate. }
  pose proof (resize_loop_clean _ _ _
                (set_arr (set_capacity m (capacity m1))
                   (replicate (Z.to_nat (capacity m1)) NULL)) _ _ Hclean0 Hloop)
    as Hclean.
  apply resize_loop_OK_inv in Hloop; [|lia]. destruct Hloop as (_ & _ & Hperm).
  cbn [arr set_arr set_capacity capacity] in Hlen1, Hperm.
  rewrite length_replicate in Hlen1.
  rewrite filter_live_replicate_NULL in Hperm. cbn [app Z.to_nat] in Hperm.
  rewrite drop_0, <- Hlen, firstn_all in Hperm.
  repeat split; auto.
  intros Hn k out out' Hget.
  apply icsmap_get_OK_inv in Hget.
  destruct Hget as (j & e & Hfk & He & Hl & Hcopy).
  pose proof (find_key_findable m k j e Hn Hc Hfk He Hl) as Hf.
  destruct (resize_keeps_findable _ _ _ _ _ Hn Hc Hres Hf) as (j1 & Hf1 & Hj1).
  apply ics_next_prime_range in Hp.
  pose proof Hf1 as (h & t & e' & _ & Hhr & _).
  rewrite (findable_get m1 (Ptr k) (Ptr k) (keysize m) j1 e out).
  - unfold map_entry_val in *. rewrite Hk, Hv, Hcopy. reflexivity.
  - unfold cap_ok. lia.
  - unfold get_key. rewrite Hg, Hn, Hk. reflexivity.
  - exact Hf1.
  - congruence.
Qed.

Lemma X19_resize_keeps_records_witness :
  exists m1 : icsmap,
    ics_next_prime (u32 (capacity map_5_of_13 * 2)) = Ret (capacity m1) /\
    length (arr m1) = Z.to_nat (capacity m1) /\
    size m1 = size map_5_of_13 /\ keysize m1 = keysize map_5_of_13 /\
    valsize m1 = valsize map_5_of_13 /\
    map_get_key m1 = map_get_key map_5_of_13 /\
    Permutation (List.filter is_live (arr m1)) (List.filter is_live (arr map_5_of_13)) /\
    (forall x, arr m1 !! x <> Some tombstone) /\
    (map_get_key map_5_of_13 = None ->
     forall k out out' : list byte,
       icsmap_get map_5_of_13 (Ptr k) out = Ret (ICS_OK, out') ->
       icsmap_get m1 (Ptr k) out = Ret (ICS_OK, out')).
Proof.
  eexists.
  apply (X19_resize_keeps_records true map_5_of_13).
  - unfold cap_ok. simpl. lia.
  - simpl. lia.
  - reflexivity.
  - reflexivity.
Defined.

(** ** The representation invariant *)

Lemma ics_memcpy_length (d d' : list byte) (off : nat) (s : map_entry) (len : Z) :
  ics_memcpy d off s len = Ret d' ->
  length d' = length d /\
  (Z.to_nat len = 0%nat \/ (off + Z.to_nat len <= length d)%nat).
Proof.
  intros H. destruct (ics_memcpy_src _ _ _ _ _ H) as [[E ->]|[bs ->]]; [auto|].
  apply ics_memcpy_inv in H. destruct H as [-> Hb].
  destruct Hb as [E|[Hs Hd]].
  - split; [|auto]. rewrite E, Nat.add_0_r. simpl. rewrite take_drop. reflexivity.
  - split; [|auto]. rewrite !length_app, !length_take, length_drop. lia.
Qed.

Lemma init_map_entry_length (m : icsmap) (d : list byte) (key val rec : map_entry) :
  init_map_entry m (Ptr d) key val = Ret rec ->
  exists r : list byte,
    rec = Ptr r /\ length r = length d /\
    (Z.to_nat (keysize m) = 0%nat \/ (Z.to_nat (keysize m) <= length d)%nat) /\
    (Z.to_nat (valsize m) = 0%nat \/
     (Z.to_nat (keysize m) + Z.to_nat (valsize m) <= length d)%nat).
Proof.
  unfold init_map_entry. intros H. bind_inv H. rename a into d1.
  bind_inv H. rename a into d2. injection H as <-.
  apply ics_memcpy_length in Hcall. destruct Hcall as [L1 B1].
  apply ics_memcpy_length in Hcall0. destruct Hcall0 as [L2 B2].
  exists d2. split; [reflexivity|]. split; [congruence|].
  split; [simpl in B1; exact B1|]. rewrite L1 in B2. exact B2.
Qed.

Lemma filter_live_replace (l : list map_entry) (j : nat) (e e' : map_entry) :
  l !! j = Some e -> is_live e = true -> is_live e' = true ->
  length (List.filter is_live (<[j := e']> l)) = length (List.filter is_live l).
Proof.
  intros Hj He He'.
  rewrite <- (take_drop_middle l j e Hj) at 2.
  rewrite insert_take_drop by (apply lookup_lt_Some in Hj; exact Hj).
  rewrite !List.filter_app. cbn [List.filter]. rewrite He, He'.
  rewrite !length_app. reflexivity.
Qed.

Lemma ics_next_prime_ge_2 (s p : Z) : ics_next_prime s = Ret p -> 2 <= p.
Proof.
  unfold ics_next_prime. destruct (s <=? 1).
  - intros H. injection H as <-. lia.
  - rewrite loop_until_nat. generalize (Pos.to_nat (2 ^ 32)) as n.
    intros n. revert s. induction n as [|n IH]; intros s H; simpl in H.
    + discriminate.
    + unfold ics_next_prime_body in H at 1.
      destruct (ics_is_prime (u32 (s + 1))) as [[|]|f] eqn:E.
      * injection H as <-. unfold ics_is_prime in E.
        destruct (Z.leb_spec (u32 (s + 1)) 1); [discriminate|lia].
      * eapply IH. exact H.
      * discriminate.
Qed.

Lemma live_slot_in_filter (l : list map_entry) (x : nat) (e : map_entry) :
  l !! x = Some e -> is_live e = true -> In e (List.filter is_live l).
Proof.
  intros Hx Hl. apply List.filter_In. split; [|exact Hl].
  apply list_elem_of_In. eapply list_elem_of_lookup_2. exact Hx.
Qed.

(** ** C4: what an update keeps *)

(** Writing a record over a record changes one element of the Occupied
    records. *)
Lemma filter_live_swap (l : list map_entry) (j : nat) (e e' : map_entry) :
  l !! j = Some e -> is_live e = true -> is_live e' = true ->
  exists rest : list map_entry,
    Permutation (List.filter is_live l) (e :: rest) /\
    Permutation (List.filter is_live (<[j := e']> l)) (e' :: rest).
Proof.
  intros Hj He He'.
  exists (List.filter is_live (take j l) ++ List.filter is_live (drop (S j) l)).
  split.
  - rewrite <- (take_drop_middle l j e Hj) at 1.
    rewrite List.filter_app. cbn [List.filter]. rewrite He.
    symmetry. apply Permutation_middle.
  - rewrite insert_take_drop by (apply lookup_lt_Some in Hj; exact Hj).
    rewrite List.filter_app. cbn [List.filter]. rewrite He'.
    symmetry. apply Permutation_middle.
Qed.

(** The map in which put looks the key up is the map itself, or the map
    that [resize] has rebuilt, which holds the same records. *)
Lemma put_lookup_map (arr_ok : bool) (m m1 : icsmap) :
  (is_overloaded m = Ret false /\ m1 = m) \/
  (is_overloaded m = Ret true /\ resize arr_ok m = Ret (ICS_OK, m1)) ->
  keysize m1 = keysize m /\ valsize m1 = valsize m /\
  map_get_key m1 = map_get_key m /\ size m1 = size m /\
  (forall x e, arr m1 !! x = Some e -> is_live e = true ->
     exists y, arr m !! y = Some e) /\
  (length (arr m) = Z.to_nat (capacity m) ->
   Permutation (List.filter is_live (arr m1)) (List.filter is_live (arr m))).
Proof.
  intros [[Hov ->]|[Hov Hres]].
  - repeat split; eauto.
  - pose proof (resize_inv _ _ _ _ Hres) as (Hp & Hk & Hv & Hg & Hs).
    pose proof (resize_array_fits _ _ _ _ Hov Hres) as Hfits.
    pose proof Hres as Hloop. rewrite (resize_fits _ _ _ Hp Hfits) in Hloop.
    destruct arr_ok; cbn [negb] in Hloop; [|discriminate].
    apply resize_loop_OK_inv in Hloop; [|lia]. destruct Hloop as (_ & _ & Hperm).
    cbn [arr set_arr set_capacity] in Hperm.
    rewrite filter_live_replicate_NULL in Hperm. cbn [app Z.to_nat] in Hperm.
    rewrite drop_0 in Hperm.
    split; [exact Hk|]. split; [exact Hv|]. split; [exact Hg|].
    split; [exact Hs|]. split.
    + intros x e Hx Hl.
      assert (In e (List.filter is_live (take (Z.to_nat (capacity m)) (arr m))))
        as Hin.
      { eapply Permutation_in; [exact Hperm|].
        apply (live_slot_in_filter _ x); auto. }
      apply List.filter_In in Hin. destruct Hin as [Hin _].
      apply list_elem_of_In, list_elem_of_lookup_1 in Hin.
      destruct Hin as [y Hy]. apply lookup_take_Some in Hy.
      exists y. apply Hy.
    + intros Hlen. rewrite <- Hlen, firstn_all in Hperm. exact Hperm.
Qed.

(** C4 (amended).  A put whose key is found to exist, in the map itself or
    in the map its resize has just rebuilt, returns success and overwrites
    the record of the found slot with the supplied key bytes followed by
    the supplied value bytes.  Count is unchanged, and so are the capacity,
    the length of the array and every other slot of the map the key was
    found in; over a map whose array has its [capacity] slots, the records
    of the Occupied slots after the put are those before it with the one
    record replaced.  Without a resolver the supplied key bytes are the
    stored ones. *)
Theorem C4_update_in_place (arr_ok entry_ok : bool) (m m1 : icsmap)
    (k v : list byte) (i : Z) :
  (is_overloaded m = Ret false /\ m1 = m) \/
  (is_overloaded m = Ret true /\ resize arr_ok m = Ret (ICS_OK, m1)) ->
  find_hole m1 (Ptr k) = Ret (ICS_EXISTS, i) ->
  (Z.to_nat (keysize m) <= length k)%nat ->
  (Z.to_nat (valsize m) <= length v)%nat ->
  (forall x d, arr m !! x = Some (Ptr d) ->
     length d = (Z.to_nat (keysize m) + Z.to_nat (valsize m))%nat) ->
  exists (d : list byte) (m' : icsmap),
    arr m1 !! Z.to_nat i = Some (Ptr d) /\
    icsmap_put arr_ok entry_ok m (Ptr k) (Ptr v) = Ret (ICS_OK, m') /\
    size m' = size m /\
    capacity m' = capacity m1 /\
    length (arr m') = length (arr m1) /\
    (forall x, x <> Z.to_nat i -> arr m' !! x = arr m1 !! x) /\
    arr m' !! Z.to_nat i
      = Some (Ptr (take (Z.to_nat (keysize m)) k ++ take (Z.to_nat (valsize m)) v)) /\
    (map_get_key m = None ->
     take (Z.to_nat (keysize m)) k = take (Z.to_nat (keysize m)) d) /\
    (length (arr m) = Z.to_nat (capacity m) ->
     exists rest : list map_entry,
       Permutation (List.filter is_live (arr m)) (Ptr d :: rest) /\
       Permutation (List.filter is_live (arr m'))
         (Ptr (take (Z.to_nat (keysize m)) k ++ take (Z.to_nat (valsize m)) v)
            :: rest)).
Proof.
  intros Hm1 Hfind Hk Hv Hrec.
  destruct (put_lookup_map _ _ _ Hm1) as (Hks & Hvs & Hg & Hsz & Hfrom & Hperm).
  destruct (find_hole_inv _ _ _ _ Hfind) as (k' & ks' & h & Hkey & Hh & Hlt & Hloop).
  apply find_hole_loop_inv in Hloop.
  destruct Hloop as (t & e & _ & _ & He & [[? _]|(_ & Hl & Htest)]); [discriminate|].
  apply is_live_Ptr in Hl as Hd. destruct Hd as [d ->].
  assert (length d = (Z.to_nat (keysize m) + Z.to_nat (valsize m))%nat) as Hd.
  { destruct (Hfrom _ _ He Hl) as [y Hy]. apply (Hrec _ _ Hy). }
  set (r := take (Z.to_nat (keysize m)) k ++ take (Z.to_nat (valsize m)) v).
  assert (init_map_entry m1 (Ptr d) (Ptr k) (Ptr v) = Ret (Ptr r)) as Hinit.
  { rewrite init_map_entry_Ptr by lia. rewrite Hks, Hvs.
    rewrite drop_ge, app_nil_r by lia. reflexivity. }
  exists d, (arr_set m1 i (Ptr r)). split; [exact He|].
  split.
  { unfold icsmap_put.
    destruct Hm1 as [[Hov ->]|[Hov Hres]]; rewrite Hov; cbn [bind];
      try rewrite Hres; cbn [bind ics_status_eqb negb];
      rewrite Hfind; cbn [bind ics_status_eqb negb];
      unfold arr_at; rewrite He; cbn [bind]; rewrite Hinit; reflexivity. }
  cbn [arr_set set_arr size capacity arr]. rewrite length_insert.
  split; [exact Hsz|]. split; [reflexivity|]. split; [reflexivity|].
  split; [intros x Hx; apply list_lookup_insert_ne; congruence|].
  split; [apply list_lookup_insert_eq; apply lookup_lt_Some in He; exact He|].
  split.
  - intros Hres. unfold get_key in Hkey. rewrite Hg, Hres in Hkey.
    injection Hkey as <- <-.
    unfold probe_test, get_key in Htest. rewrite Hg, Hres in Htest.
    simpl in Htest. rewrite Z.eqb_refl in Htest. simpl in Htest.
    apply ics_equal_true in Htest. rewrite Hks in Htest. symmetry. exact Htest.
  - intros Hlen.
    destruct (filter_live_swap (arr m1) (Z.to_nat i) (Ptr d) (Ptr r) He Hl eq_refl)
      as (rest & H1 & H2).
    exists rest. split; [|exact H2].
    rewrite <- (Hperm Hlen). exact H1.
Qed.

Lemma C4_update_in_place_witness :
  (exists (d : list byte) (m' : icsmap),
     arr map_1_of_13 !! Z.to_nat 6 = Some (Ptr d) /\
     icsmap_put true true map_1_of_13 (Ptr key_a) (Ptr (int_le 3)) = Ret (ICS_OK, m') /\
     size m' = size map_1_of_13 /\
     capacity m' = capacity map_1_of_13 /\
     length (arr m') = length (arr map_1_of_13) /\
     (forall x, x <> Z.to_nat 6 -> arr m' !! x = arr map_1_of_13 !! x) /\
     arr m' !! Z.to_nat 6
       = Some (Ptr (take (Z.to_nat (keysize map_1_of_13)) key_a
                    ++ take (Z.to_nat (valsize map_1_of_13)) (int_le 3))) /\
     (map_get_key map_1_of_13 = None ->
      take (Z.to_nat (keysize map_1_of_13)) key_a
        = take (Z.to_nat (keysize map_1_of_13)) d) /\
     (length (arr map_1_of_13) = Z.to_nat (capacity map_1_of_13) ->
      exists rest : list map_entry,
        Permutation (List.filter is_live (arr map_1_of_13)) (Ptr d :: rest) /\
        Permutation (List.filter is_live (arr m'))
          (Ptr (take (Z.to_nat (keysize map_1_of_13)) key_a
                ++ take (Z.to_nat (valsize map_1_of_13)) (int_le 3)) :: rest))) /\
  (exists mr : icsmap,
     resize true map_5_of_13 = Ret (ICS_OK, mr) /\
     exists (d : list byte) (m' : icsmap),
       arr mr !! Z.to_nat 10 = Some (Ptr d) /\
       icsmap_put true true map_5_of_13 (Ptr key_a) (Ptr (int_le 9))
         = Ret (ICS_OK, m') /\
       size m' = size map_5_of_13 /\
       capacity m' = capacity mr /\
       length (arr m') = length (arr mr) /\
       (forall x, x <> Z.to_nat 10 -> arr m' !! x = arr mr !! x) /\
       arr m' !! Z.to_nat 10
         = Some (Ptr (take (Z.to_nat (keysize map_5_of_13)) key_a
                      ++ take (Z.to_nat (valsize map_5_of_13)) (int_le 9))) /\
       (map_get_key map_5_of_13 = None ->
        take (Z.to_nat (keysize map_5_of_13)) key_a
          = take (Z.to_nat (keysize map_5_of_13)) d) /\
       (length (arr map_5_of_13) = Z.to_nat (capacity map_5_of_13) ->
        exists rest : list map_entry,
          Permutation (List.filter is_live (arr map_5_of_13)) (Ptr d :: rest) /\
          Permutation (List.filter is_live (arr m'))
            (Ptr (take (Z.to_nat (keysize map_5_of_13)) key_a
                  ++ take (Z.to_nat (valsize map_5_of_13)) (int_le 9)) :: rest))).
Proof.
  split.
  - apply (C4_update_in_place true true map_1_of_13 map_1_of_13 key_a (int_le 3) 6).
    + left. split; reflexivity.
    + reflexivity.
    + simpl. lia.
    + simpl. lia.
    + intros x d H. each_slot x H.
  - eexists. split; [vm_compute; reflexivity|].
    apply (C4_update_in_place true true map_5_of_13 _ key_a (int_le 9) 10).
    + right. split; vm_compute; reflexivity.
    + vm_compute. reflexivity.
    + simpl. lia.
    + simpl. lia.
    + intros x d H. each_slot x H.
Defined.

(** ** C5: the put that resizes *)

(** C5 (amended). After a put that returns success, either a resize was
    performed as part of that put: the load measured before the insertion
    was above 33, [resize] rebuilt the map at the smallest prime capacity
    above twice the old one with count as it was, and the put wrote one
    slot of the rebuilt map; or the load measured before the insertion,
    count * 100 / capacity in 32-bit arithmetic, was at most 33 and the
    capacity is unchanged.  Either way count is unchanged or one more. *)
Theorem C5_load_checked_before_insert (arr_ok entry_ok : bool) (m m' : icsmap)
    (key val : map_entry) :
  icsmap_put arr_ok entry_ok m key val = Ret (ICS_OK, m') ->
  (exists (m1 : icsmap) (i : Z) (rec : map_entry),
     33 < u32 (size m * 100) / capacity m /\
     resize arr_ok m = Ret (ICS_OK, m1) /\
     Z.prime (capacity m1) /\ 2 * capacity m < capacity m1 /\
     (forall q, Z.prime q -> 2 * capacity m < q -> capacity m1 <= q) /\
     length (arr m1) = Z.to_nat (capacity m1) /\
     size m1 = size m /\
     capacity m' = capacity m1 /\
     arr m' = <[Z.to_nat i := rec]> (arr m1) /\
     (size m' = size m \/ size m' = u32 (size m + 1))) \/
  (u32 (size m * 100) / capacity m <= 33 /\
   capacity m' = capacity m /\
   (size m' = size m \/ size m' = u32 (size m + 1))).
Proof.
  intros H. apply icsmap_put_OK_inv in H.
  destruct H as (m1 & st & i & entry & rec & Hm1 & _ & _ & Hm').
  assert (capacity m' = capacity m1 /\
          arr m' = <[Z.to_nat i := rec]> (arr m1) /\
          (size m' = size m1 \/ size m' = u32 (size m1 + 1))) as (Hc & Harr & Hsz).
  { destruct Hm' as [(_ & _ & ->)|(_ & ->)]; simpl; auto. }
  destruct Hm1 as [[Hov ->]|[Hov Hres]].
  - right. apply is_overloaded_false_inv in Hov. destruct Hov as [_ Hload]. auto.
  - left. exists m1, i, rec.
    pose proof (resize_inv _ _ _ _ Hres) as (Hp & _ & _ & _ & Hs).
    pose proof (resize_array_fits _ _ _ _ Hov Hres) as Hfits.
    pose proof (is_overloaded_true_capacity _ Hov) as Hcap.
    destruct (ics_next_prime_double (capacity m)) as (p & Hp' & Hprime & Hgt & _ & Hleast);
      [lia|].
    assert (p = capacity m1) as -> by congruence.
    assert (length (arr m1) = Z.to_nat (capacity m1)) as Hlen.
    { pose proof Hres as Hloop. rewrite (resize_fits _ _ _ Hp Hfits) in Hloop.
      destruct arr_ok; cbn [negb] in Hloop; [|discriminate].
      apply resize_loop_config in Hloop. destruct Hloop as (_ & _ & Hl).
      rewrite Hl. simpl. apply length_replicate. }
    apply is_overloaded_true_inv in Hov. destruct Hov as [Hc0 Hload].
    split.
    { assert (34 <= u32 (size m * 100) / capacity m)
        by (apply Z.div_le_lower_bound; lia).
      lia. }
    rewrite <- Hs. auto 12.
Qed.

Lemma C5_load_checked_before_insert_witness :
  (exists m' : icsmap,
     icsmap_put true true map_5_of_13 (Ptr key_n) (Ptr (int_le 6)) = Ret (ICS_OK, m') /\
     ((exists (m1 : icsmap) (i : Z) (rec : map_entry),
         33 < u32 (size map_5_of_13 * 100) / capacity map_5_of_13 /\
         resize true map_5_of_13 = Ret (ICS_OK, m1) /\
         Z.prime (capacity m1) /\ 2 * capacity map_5_of_13 < capacity m1 /\
         (forall q, Z.prime q -> 2 * capacity map_5_of_13 < q -> capacity m1 <= q) /\
         length (arr m1) = Z.to_nat (capacity m1) /\
         size m1 = size map_5_of_13 /\
         capacity m' = capacity m1 /\
         arr m' = <[Z.to_nat i := rec]> (arr m1) /\
         (size m' = size map_5_of_13 \/ size m' = u32 (size map_5_of_13 + 1))) \/
      (u32 (size map_5_of_13 * 100) / capacity map_5_of_13 <= 33 /\
       capacity m' = capacity map_5_of_13 /\
       (size m' = size map_5_of_13 \/ size m' = u32 (size map_5_of_13 + 1))))) /\
  (exists m' : icsmap,
     icsmap_put true true map_2_of_13 (Ptr key_c) (Ptr (int_le 1)) = Ret (ICS_OK, m') /\
     ((exists (m1 : icsmap) (i : Z) (rec : map_entry),
         33 < u32 (size map_2_of_13 * 100) / capacity map_2_of_13 /\
         resize true map_2_of_13 = Ret (ICS_OK, m1) /\
         Z.prime (capacity m1) /\ 2 * capacity map_2_of_13 < capacity m1 /\
         (forall q, Z.prime q -> 2 * capacity map_2_of_13 < q -> capacity m1 <= q) /\
         length (arr m1) = Z.to_nat (capacity m1) /\
         size m1 = size map_2_of_13 /\
         capacity m' = capacity m1 /\
         arr m' = <[Z.to_nat i := rec]> (arr m1) /\
         (size m' = size map_2_of_13 \/ size m' = u32 (size map_2_of_13 + 1))) \/
      (u32 (size map_2_of_13 * 100) / capacity map_2_of_13 <= 33 /\
       capacity m' = capacity map_2_of_13 /\
       (size m' = size map_2_of_13 \/ size m' = u32 (size map_2_of_13 + 1))))).
Proof.
  split.
  - eexists. split; [vm_compute; reflexivity|].
    apply (C5_load_checked_before_insert true true map_5_of_13 _
             (Ptr key_n) (Ptr (int_le 6))).
    vm_compute. reflexivity.
  - eexists. split; [vm_compute; reflexivity|].
    apply (C5_load_checked_before_insert true true map_2_of_13 _
             (Ptr key_c) (Ptr (int_le 1))).
    vm_compute. reflexivity.
Defined.

(** A successful resize of a well-formed map gives a well-formed map. *)
Lemma resize_well_formed (arr_ok : bool) (m m1 : icsmap) :
  well_formed m ->
  sizeof_map_entry * capacity m1 < 2 ^ 32 ->
  resize arr_ok m = Ret (ICS_OK, m1) ->
  well_formed m1.
Proof.
  intros Hwf Hfits Hres.
  pose proof (resize_inv _ _ _ _ Hres) as (Hp & Hk & Hv & Hg & Hs).
  pose proof Hres as Hloop. rewrite (resize_fits _ _ _ Hp Hfits) in Hloop.
  destruct arr_ok; cbn [negb] in Hloop; [|discriminate].
  pose proof (resize_loop_config _ _ _ _ _ _ Hloop) as (_ & _ & Hlen1).
  apply resize_loop_OK_inv in Hloop; [|lia]. destruct Hloop as (_ & _ & Hperm).
  cbn [arr set_arr set_capacity capacity] in Hlen1, Hperm.
  rewrite length_replicate in Hlen1.
  rewrite filter_live_replicate_NULL in Hperm. cbn [app Z.to_nat] in Hperm.
  rewrite drop_0, <- (wf_arr _ Hwf), firstn_all in Hperm.
  pose proof (ics_next_prime_range _ _ Hp). pose proof (ics_next_prime_ge_2 _ _ Hp).
  split.
  - unfold cap_ok. lia.
  - exact Hlen1.
  - rewrite Hs, (wf_size _ Hwf). unfold live_count.
    rewrite (Permutation_length Hperm). reflexivity.
  - rewrite Hk. apply (wf_keysize _ Hwf).
  - rewrite Hv. apply (wf_valsize _ Hwf).
  - intros x d Hx. rewrite Hk, Hv.
    assert (In (Ptr d) (List.filter is_live (arr m))) as Hin.
    { eapply Permutation_in; [exact Hperm|].
      apply (live_slot_in_filter _ x); auto. }
    apply List.filter_In in Hin. destruct Hin as [Hin _].
    apply list_elem_of_In, list_elem_of_lookup_1 in Hin. destruct Hin as [y Hy].
    apply (wf_rec _ Hwf y d Hy).
Qed.

(** A write of a record of the right length over a hole or over a record
    keeps a map well-formed, with count following the Occupied slots. *)
Lemma write_well_formed (m : icsmap) (i : Z) (e : map_entry) (r : list byte) :
  well_formed m ->
  arr m !! Z.to_nat i = Some e ->
  length r = (Z.to_nat (keysize m) + Z.to_nat (valsize m))%nat ->
  well_formed
    (if is_live e then arr_set m i (Ptr r)
     else set_size (arr_set m i (Ptr r)) (u32 (size m + 1))).
Proof.
  intros Hwf He Hr.
  assert (forall x d, <[Z.to_nat i := Ptr r]> (arr m) !! x = Some (Ptr d) ->
            length d = (Z.to_nat (keysize m) + Z.to_nat (valsize m))%nat) as Hrec.
  { intros x d Hx. apply list_lookup_insert_Some in Hx.
    destruct Hx as [(_ & Hd & _)|(_ & Hx)]; [congruence|].
    apply (wf_rec _ Hwf x d Hx). }
  destruct (is_live e) eqn:Hl; split; simpl;
    try apply (wf_cap _ Hwf); try apply (wf_keysize _ Hwf);
    try apply (wf_valsize _ Hwf); try exact Hrec;
    try (rewrite length_insert; apply (wf_arr _ Hwf)).
  - rewrite (wf_size _ Hwf). unfold live_count. simpl.
    rewrite (filter_live_replace _ _ e) by auto. reflexivity.
  - unfold live_count. simpl.
    pose proof (filter_live_insert (arr m) (Z.to_nat i) e (Ptr r) He Hl eq_refl)
      as Hperm.
    rewrite (Permutation_length Hperm). cbn [length].
    pose proof (filter_length_le is_live (<[Z.to_nat i := Ptr r]> (arr m))) as Hle.
    rewrite (Permutation_length Hperm), length_insert, (wf_arr _ Hwf) in Hle.
    cbn [length] in Hle.
    pose proof (wf_cap _ Hwf) as Hc. unfold cap_ok in Hc.
    rewrite (wf_size _ Hwf). unfold live_count, u32.
    rewrite Z.mod_small by lia. lia.
Qed.

Lemma fresh_map_well_formed (cfg : icsmap_cfg) :
  0 <= cfg_keysize cfg -> 0 <= cfg_valsize cfg ->
  well_formed (fresh_map cfg).
Proof.
  intros Hk Hv. split.
  - unfold cap_ok. cbn [capacity fresh_map]. unfold INITIAL_SIZE. lia.
  - cbn [arr capacity fresh_map]. apply length_replicate.
  - unfold live_count. cbn [arr size fresh_map].
    rewrite filter_live_replicate_NULL. reflexivity.
  - exact Hk.
  - exact Hv.
  - intros x d H. cbn [arr fresh_map] in H.
    apply lookup_replicate in H. destruct H; discriminate.
Qed.

Lemma find_key_loop_at_null (fuel : nat) (m : icsmap) (k : map_key) (ks h i : Z) :
  arr m !! Z.to_nat i = Some NULL ->
  find_key_loop (S fuel) m k ks h i = Ret (ICS_NOT_FOUND, 0).
Proof.
  intros Hi. cbn [find_key_loop]. unfold arr_at. rewrite Hi. reflexivity.
Qed.

(** X20.  [icsmap_init] returns [ICS_NO_MEMORY] and no handle when one of
    its two allocations fails.  Otherwise it returns [ICS_OK] and a
    well-formed map of capacity 13 with the given configuration, count 0 and
    every slot empty: every lookup that returns on it answers
    [ICS_NOT_FOUND], which is what contains answers for every key that
    holds [keysize] bytes when there is no resolver, and foreach visits
    nothing. *)
Theorem X20_init_gives_empty_map (map_ok arr_ok : bool) (cfg : icsmap_cfg) :
  0 <= cfg_keysize cfg -> 0 <= cfg_valsize cfg ->
  (map_ok && arr_ok = false ->
   icsmap_init map_ok arr_ok cfg = (ICS_NO_MEMORY, None)) /\
  (map_ok && arr_ok = true ->
   exists m : icsmap,
     icsmap_init map_ok arr_ok cfg = (ICS_OK, Some m) /\
     well_formed m /\
     icsmap_count m = 0 /\ capacity m = 13 /\
     keysize m = cfg_keysize cfg /\ valsize m = cfg_valsize cfg /\
     map_get_key m = cfg_get_key cfg /\
     (forall x : nat, (x < 13)%nat -> arr m !! x = Some NULL) /\
     (forall (key : map_key) (st : ics_status) (j : Z),
        find_key m key = Ret (st, j) -> st = ICS_NOT_FOUND) /\
     (forall k : list byte,
        cfg_get_key cfg = None -> (Z.to_nat (cfg_keysize cfg) <= length k)%nat ->
        icsmap_contains m (Ptr k) = Ret ICS_NOT_FOUND) /\
     (forall (D : Type) (fn : map_key -> map_val -> D -> D) (data : D),
        icsmap_foreach m fn data = Ret data)).
Proof.
  intros Hk Hv. split.
  - unfold icsmap_init. destruct map_ok, arr_ok; try discriminate; reflexivity.
  - intros Hok. apply andb_prop in Hok. destruct Hok as [-> ->].
    exists (fresh_map cfg).
    assert (forall x, (x < 13)%nat -> arr (fresh_map cfg) !! x = Some NULL) as Hnull.
    { intros x Hx. cbn [arr fresh_map]. apply lookup_replicate.
      split; [reflexivity|]. unfold INITIAL_SIZE. simpl. lia. }
    assert (forall key st j,
              find_key (fresh_map cfg) key = Ret (st, j) -> st = ICS_NOT_FOUND) as Hnf.
    { intros key st j H.
      destruct (find_key_inv _ _ _ _ H) as (k & ks & h & _ & Hh & Hloop).
      pose proof (hash_Ret_pos (fresh_map cfg) k ks h ltac:(simpl; unfold INITIAL_SIZE; lia) Hh)
        as Hhr.
      change (capacity (fresh_map cfg)) with 13 in Hhr.
      change (Z.to_nat (capacity (fresh_map cfg))) with (S 12) in Hloop.
      rewrite find_key_loop_at_null in Hloop by (apply Hnull; lia).
      injection Hloop as <- _. reflexivity. }
    split; [reflexivity|]. split; [apply fresh_map_well_formed; assumption|].
    repeat split; auto.
    intros k Hg Hlen. unfold icsmap_contains.
    destruct (hash_total (fresh_map cfg) k (cfg_keysize cfg)
                ltac:(simpl; unfold INITIAL_SIZE; lia) Hlen) as (h & Hh & Hhr).
    unfold find_key, get_key. cbn [map_get_key keysize fresh_map].
    rewrite Hg. cbn [bind]. rewrite Hh. cbn [bind].
    change (capacity (fresh_map cfg)) with 13 in Hhr.
    change (Z.to_nat (capacity (fresh_map cfg))) with (S 12).
    rewrite find_key_loop_at_null by (apply Hnull; lia). reflexivity.
Qed.

Lemma X20_init_gives_empty_map_witness :
  icsmap_init true false cfg_char_int = (ICS_NO_MEMORY, None) /\
  exists m : icsmap,
    icsmap_init true true cfg_char_int = (ICS_OK, Some m) /\
    well_formed m /\
    icsmap_count m = 0 /\ capacity m = 13 /\
    keysize m = cfg_keysize cfg_char_int /\ valsize m = cfg_valsize cfg_char_int /\
    map_get_key m = cfg_get_key cfg_char_int /\
    (forall x : nat, (x < 13)%nat -> arr m !! x = Some NULL) /\
    (forall (key : map_key) (st : ics_status) (j : Z),
       find_key m key = Ret (st, j) -> st = ICS_NOT_FOUND) /\
    (forall k : list byte,
       cfg_get_key cfg_char_int = None ->
       (Z.to_nat (cfg_keysize cfg_char_int) <= length k)%nat ->
       icsmap_contains m (Ptr k) = Ret ICS_NOT_FOUND) /\
    (forall (D : Type) (fn : map_key -> map_val -> D -> D) (data : D),
       icsmap_foreach m fn data = Ret data).
Proof.
  split.
  - apply (X20_init_gives_empty_map true false cfg_char_int);
      [simpl; lia|simpl; lia|reflexivity].
  - apply (X20_init_gives_empty_map true true cfg_char_int);
      [simpl; lia|simpl; lia|reflexivity].
Defined.

(** What a put that has passed its resize step leaves, on a well-formed
    map. *)
Lemma put_tail_well_formed (entry_ok : bool) (m1 : icsmap) (key val : map_entry)
    (st : ics_status) (m' : icsmap) :
  well_formed m1 ->
  (let* (status, index) := find_hole m1 key in
   if ics_status_eqb status ICS_EXISTS then
     let* e := arr_at m1 index in
     let* e := init_map_entry m1 e key val in
     Ret (ICS_OK, arr_set m1 index e)
   else
     let entry := malloc entry_ok (entry_size m1) in
     if is_empty entry then Ret (ICS_NO_MEMORY, m1)
     else
       let* entry := init_map_entry m1 entry key val in
       Ret (ICS_OK, set_size (arr_set m1 index entry) (u32 (size m1 + 1))))
    = Ret (st, m') ->
  well_formed m'.
Proof.
  intros Hwf H. bind_inv H. destruct a as [s2 i].
  pose proof (wf_cap _ Hwf) as Hc.
  destruct (find_hole_result m1 key s2 i ltac:(apply Hc) Hcall)
    as (Hi & kk & ks & e & _ & He & Hcase).
  destruct Hcase as [[-> Hdead]|(-> & Hl & _)]; cbn [ics_status_eqb] in H.
  - destruct entry_ok; cbn [malloc is_empty] in H.
    2:{ injection H as _ <-. exact Hwf. }
    bind_inv H. injection H as _ <-.
    apply init_map_entry_length in Hcall0.
    destruct Hcall0 as (r & -> & Lr & Bk & Bv).
    rewrite length_replicate in Lr, Bk, Bv.
    pose proof (wf_keysize _ Hwf) as Hk. pose proof (wf_valsize _ Hwf) as Hv.
    assert (length r = (Z.to_nat (keysize m1) + Z.to_nat (valsize m1))%nat) as Hr.
    { rewrite Lr. unfold entry_size, u32 in *.
      pose proof (Z.mod_le (keysize m1 + valsize m1) (2 ^ 32) ltac:(lia) ltac:(lia)).
      pose proof (Z.mod_pos_bound (keysize m1 + valsize m1) (2 ^ 32) ltac:(lia)).
      lia. }
    pose proof (write_well_formed m1 i e r Hwf He Hr) as Hw.
    rewrite Hdead in Hw. exact Hw.
  - unfold arr_at in H. rewrite He in H. cbn [bind] in H.
    bind_inv H. injection H as _ <-.
    apply is_live_Ptr in Hl as Hd. destruct Hd as [d ->].
    apply init_map_entry_length in Hcall0.
    destruct Hcall0 as (r & -> & Lr & _).
    assert (length r = (Z.to_nat (keysize m1) + Z.to_nat (valsize m1))%nat) as Hr.
    { rewrite Lr. apply (wf_rec _ Hwf _ _ He). }
    pose proof (write_well_formed m1 i (Ptr d) r Hwf He Hr) as Hw.
    exact Hw.
Qed.

Lemma icsmap_put_well_formed (arr_ok entry_ok : bool) (m : icsmap)
    (key val : map_entry) (st : ics_status) (m' : icsmap) :
  well_formed m ->
  icsmap_put arr_ok entry_ok m key val = Ret (st, m') ->
  st = ICS_OK \/ (st = ICS_NO_MEMORY /\ arr_ok = true) ->
  well_formed m'.
Proof.
  intros Hwf H Hst. unfold icsmap_put in H. bind_inv H. rename a into ov.
  bind_inv H. destruct a as [s1 m1].
  destruct (ics_status_eqb s1 ICS_OK) eqn:Es1; cbn [negb] in H.
  - apply ics_status_eqb_eq in Es1. subst s1.
    assert (well_formed m1) as Hwf1.
    { destruct ov; [|injection Hcall0 as <-; exact Hwf].
      apply (resize_well_formed arr_ok m m1 Hwf); [|exact Hcall0].
      apply (resize_array_fits arr_ok m ICS_OK m1 Hcall Hcall0). }
    eapply put_tail_well_formed; eauto.
  - injection H as <- <-. destruct ov.
    + apply resize_status in Hcall0 as Hs.
      destruct Hs as [-> | [[-> ->] | ->]]; [discriminate| |].
      * destruct Hst as [?|[_ ?]]; discriminate.
      * destruct Hst as [?|[? _]]; discriminate.
    + injection Hcall0 as <- _. discriminate.
Qed.

(** X21.  [icsmap_put] keeps the map well-formed whenever it returns
    [ICS_OK], and also when it returns [ICS_NO_MEMORY] after the array
    allocation of its resize has succeeded: the array has [capacity]
    slots, count is the number of Occupied slots, and every record has
    [keysize + valsize] bytes. *)
Theorem X21_put_keeps_well_formed (arr_ok entry_ok : bool) (m : icsmap)
    (key val : map_entry) (st : ics_status) (m' : icsmap) :
  well_formed m ->
  icsmap_put arr_ok entry_ok m key val = Ret (st, m') ->
  st = ICS_OK \/ (st = ICS_NO_MEMORY /\ arr_ok = true) ->
  well_formed m' /\ icsmap_count m' = live_count m'.
Proof.
  intros Hwf H Hst.
  pose proof (icsmap_put_well_formed _ _ _ _ _ _ _ Hwf H Hst) as Hwf'.
  split; [exact Hwf'|]. apply (wf_size _ Hwf').
Qed.

Lemma X21_put_keeps_well_formed_witness :
  well_formed map_6_of_29 /\ icsmap_count map_6_of_29 = live_count map_6_of_29.
Proof.
  apply (X21_put_keeps_well_formed true true map_5_of_13
           (Ptr [x66]) (Ptr (int_le 6)) ICS_OK map_6_of_29).
  - split.
    + unfold cap_ok. simpl. lia.
    + reflexivity.
    + reflexivity.
    + simpl. lia.
    + simpl. lia.
    + intros x d H. each_slot x H.
  - reflexivity.
  - left. reflexivity.
Defined.

Lemma icsmap_remove_well_formed (m : icsmap) (key : map_key)
    (st : ics_status) (m' : icsmap) :
  well_formed m ->
  icsmap_remove m key = Ret (st, m') ->
  well_formed m'.
Proof.
  intros Hwf H. unfold icsmap_remove in H. bind_inv H. destruct a as [s j].
  destruct (ics_status_eqb s ICS_OK); cbn [negb] in H.
  2:{ injection H as _ <-. exact Hwf. }
  bind_inv H. rename a into e. bind_inv H. injection H as _ <-.
  unfold arr_at in Hcall0. destruct (arr m !! Z.to_nat j) eqn:Ej; [|discriminate].
  injection Hcall0 as ->. apply assert_Ret_inv in Hcall1.
  pose proof (filter_live_delete (arr m) (Z.to_nat j) e tombstone Ej Hcall1 eq_refl)
    as Hperm.
  apply Permutation_length in Hperm. cbn [length] in Hperm.
  split; simpl.
  - apply (wf_cap _ Hwf).
  - rewrite length_insert. apply (wf_arr _ Hwf).
  - rewrite (wf_size _ Hwf). unfold live_count, u32. simpl.
    pose proof (filter_length_le is_live (arr m)) as Hle.
    rewrite (wf_arr _ Hwf) in Hle.
    pose proof (wf_cap _ Hwf) as Hc. unfold cap_ok in Hc.
    rewrite Z.mod_small by lia. lia.
  - apply (wf_keysize _ Hwf).
  - apply (wf_valsize _ Hwf).
  - intros x d Hx. apply list_lookup_insert_Some in Hx.
    destruct Hx as [(_ & Hd & _)|(_ & Hx)]; [discriminate|].
    apply (wf_rec _ Hwf x d Hx).
Qed.

(** X22.  [icsmap_remove] keeps the map well-formed, whatever it
    answers. *)
Theorem X22_remove_keeps_well_formed (m : icsmap) (key : map_key)
    (st : ics_status) (m' : icsmap) :
  well_formed m ->
  icsmap_remove m key = Ret (st, m') ->
  well_formed m' /\ icsmap_count m' = live_count m'.
Proof.
  intros Hwf H.
  pose proof (icsmap_remove_well_formed _ _ _ _ Hwf H) as Hwf'.
  split; [exact Hwf'|]. apply (wf_size _ Hwf').
Qed.

Lemma X22_remove_keeps_well_formed_witness :
  well_formed (set_size (arr_set map_2_of_13 7 tombstone) 1) /\
  icsmap_count (set_size (arr_set map_2_of_13 7 tombstone) 1)
    = live_count (set_size (arr_set map_2_of_13 7 tombstone) 1).
Proof.
  apply (X22_remove_keeps_well_formed map_2_of_13 (Ptr key_b) ICS_OK).
  - exact map_2_of_13_well_formed.
  - reflexivity.
Defined.

Lemma reachable_OK_well_formed (m : icsmap) : reachable_OK m -> well_formed m.
Proof.
  intros H. induction H as [cfg m Hk Hv Hinit|arr_ok entry_ok m key val m' _ IH Hput
                            |m key st m' _ IH Hrem].
  - unfold icsmap_init in Hinit. cbn [negb] in Hinit. injection Hinit as <-.
    apply (fresh_map_well_formed cfg); lia.
  - apply (icsmap_put_well_formed _ _ _ _ _ _ _ IH Hput). auto.
  - apply (icsmap_remove_well_formed _ _ _ _ IH Hrem).
Qed.

(** On a well-formed map [icsmap_all] passes its assertion. *)
Lemma icsmap_all_returns (m : icsmap) (keys vals : list byte) :
  well_formed m ->
  size m * keysize m < 2 ^ 32 ->
  size m * valsize m < 2 ^ 32 ->
  Z.of_nat (length keys) = size m * keysize m ->
  Z.of_nat (length vals) = size m * valsize m ->
  icsmap_all m keys vals
    = Ret (concat (List.map (fun e => bytes_at (map_entry_key m e) (keysize m))
                     (List.filter is_live (arr m))),
           concat (List.map (fun e => bytes_at (map_entry_val m e) (valsize m))
                     (List.filter is_live (arr m)))).
Proof.
  intros [Hcap Harr Hsize Hks Hvs Hrec] Hk32 Hv32 Hkeys Hvals.
  unfold cap_ok in Hcap. unfold live_count in Hsize.
  set (live := List.filter is_live (arr m)) in *.
  unfold icsmap_all. rewrite <- Harr.
  change (icsmap_all_loop (length (arr m)) m 0 0 keys vals)
    with (icsmap_all_loop (length (arr m)) m 0 (Z.of_nat 0) keys vals).
  assert (take (length (arr m)) (drop (Z.to_nat 0) (arr m)) = arr m) as Eall
    by (simpl; rewrite drop_0; apply firstn_all).
  rewrite icsmap_all_loop_spec; rewrite ?Eall; fold live;
    try (simpl; lia); try (simpl; nia); auto.
  cbn [bind]. simpl (0 + length live)%nat.
  rewrite <- Hsize, Z.eqb_refl. cbn [assert bind].
  simpl.
  rewrite !drop_ge, !app_nil_r by nia.
  reflexivity.
Qed.

(** X23.  In every state reached from initialisation through puts that
    return [ICS_OK] and removes, count is the number of Occupied slots and
    is at most the capacity, the array has [capacity] slots, and the
    assertion at the end of [icsmap_all] holds: with output buffers of
    [count * keysize] and [count * valsize] bytes, sizes that fit 32 bits,
    [icsmap_all] returns. *)
Theorem X23_count_is_occupied_slots (m : icsmap) (keys vals : list byte) :
  reachable_OK m ->
  well_formed m /\
  icsmap_count m = live_count m /\
  0 <= icsmap_count m <= capacity m /\
  (size m * keysize m < 2 ^ 32 ->
   size m * valsize m < 2 ^ 32 ->
   Z.of_nat (length keys) = size m * keysize m ->
   Z.of_nat (length vals) = size m * valsize m ->
   exists keys' vals' : list byte,
     icsmap_all m keys vals = Ret (keys', vals')).
Proof.
  intros Hr. pose proof (reachable_OK_well_formed m Hr) as Hwf.
  split; [exact Hwf|]. split; [apply (wf_size _ Hwf)|]. split.
  - unfold icsmap_count. rewrite (wf_size _ Hwf). unfold live_count.
    pose proof (filter_length_le is_live (arr m)) as Hle.
    rewrite (wf_arr _ Hwf) in Hle.
    pose proof (wf_cap _ Hwf) as Hc. unfold cap_ok in Hc. lia.
  - intros Hks Hvs Lk Lv.
    rewrite (icsmap_all_returns m keys vals Hwf Hks Hvs Lk Lv). eauto.
Qed.

Lemma map_1_of_13_reachable_OK : reachable_OK map_1_of_13.
Proof.
  apply (reach_OK_put true true (fresh_map cfg_char_int)
           (Ptr key_a) (Ptr (int_le 1)) map_1_of_13); [|reflexivity].
  apply (reach_OK_init cfg_char_int); [simpl; lia|simpl; lia|reflexivity].
Qed.

Lemma X23_count_is_occupied_slots_witness :
  well_formed map_1_of_13 /\
  icsmap_count map_1_of_13 = live_count map_1_of_13 /\
  0 <= icsmap_count map_1_of_13 <= capacity map_1_of_13 /\
  exists keys' vals' : list byte,
    icsmap_all map_1_of_13 (replicate 1 x00) (replicate 4 x00) = Ret (keys', vals').
Proof.
  destruct (X23_count_is_occupied_slots map_1_of_13 (replicate 1 x00) (replicate 4 x00)
              map_1_of_13_reachable_OK) as (Hwf & Hcount & Hrange & Hall).
  split; [exact Hwf|]. split; [exact Hcount|]. split; [exact Hrange|].
  apply Hall; reflexivity.
Defined.

(** ** Maps that have seen no removal *)

Lemma bytes_eqb_eq (a b : list byte) : bytes_eqb a b = true <-> a = b.
Proof.
  revert b. induction a as [|x a IH]; intros [|y b]; simpl;
    try (split; [discriminate|discriminate]); [split; reflexivity|].
  rewrite andb_true_iff, IH. split.
  - intros [Hxy ->]. apply Byte.byte_dec_bl in Hxy. congruence.
  - intros [= -> ->]. split; [apply Byte.byte_dec_lb|]; reflexivity.
Qed.

Lemma bytes_eqb_neq (a b : list byte) : bytes_eqb a b = false <-> a <> b.
Proof.
  rewrite <- bytes_eqb_eq. destruct (bytes_eqb a b); split; congruence.
Qed.

Lemma key_of_Ptr (m : icsmap) (d : list byte) :
  key_of m (Ptr d) = take (Z.to_nat (keysize m)) d.
Proof. reflexivity. Qed.

Lemma val_of_Ptr (m : icsmap) (d : list byte) :
  val_of m (Ptr d)
    = take (Z.to_nat (valsize m)) (drop (Z.to_nat (keysize m)) d).
Proof. reflexivity. Qed.

(** The slots of a tidy map: empty, or a record of [keysize + valsize]
    bytes. *)
Lemma tidy_slot (m : icsmap) (x : nat) (e : map_entry) :
  tidy m -> arr m !! x = Some e ->
  e = NULL \/
  exists d, e = Ptr d /\
    length d = (Z.to_nat (keysize m) + Z.to_nat (valsize m))%nat.
Proof.
  intros Ht Hx. destruct e as [| |d]; [auto| |].
  - exfalso. exact (tidy_clean _ Ht x Hx).
  - right. exists d. split; [reflexivity|].
    apply (wf_rec _ (tidy_wf _ Ht) x d Hx).
Qed.

(** Without a resolver the comparison at a record answers whether the key
    bytes are the same. *)
Lemma probe_test_default_bytes (m : icsmap) (kb d : list byte) :
  map_get_key m = None ->
  (Z.to_nat (keysize m) <= length d)%nat ->
  (Z.to_nat (keysize m) <= length kb)%nat ->
  probe_test m (Ptr kb) (keysize m) (Ptr d)
    = Ret (bytes_eqb (take (Z.to_nat (keysize m)) d) (take (Z.to_nat (keysize m)) kb)).
Proof.
  intros Hg Hd Hk. rewrite probe_test_default by exact Hg.
  destruct (ics_equal_Ptr d kb (keysize m) Hd Hk) as (b & -> & Hiff).
  f_equal. destruct b.
  - symmetry. apply bytes_eqb_eq. apply Hiff. reflexivity.
  - symmetry. apply bytes_eqb_neq. intros E. apply Hiff in E. discriminate.
Qed.

(** Two walks from the same slot for the same key: the shorter one ends
    on a slot that the longer one has passed. *)
Lemma probe_run_prefix (m : icsmap) (k : map_key) (ks i : Z) (t : nat) (j : Z) :
  probe_run m k ks i t j ->
  forall (t' : nat) (j' : Z),
    probe_run m k ks i t' j' ->
    (t = t' -> j = j') /\
    ((t < t')%nat ->
     exists e, arr m !! Z.to_nat j = Some e /\ is_live e = true /\
               probe_test m k ks e = Ret false).
Proof.
  intros Hrun. induction Hrun as [i|i t j e He Hl Ht Hrun IH]; intros t' j' Hrun'.
  - split.
    + intros <-. inversion Hrun'. reflexivity.
    + intros Hlt. inversion Hrun' as [|? ? ? e' He' Hl' Ht' _]; subst; [lia|].
      exists e'. auto.
  - inversion Hrun' as [|? t0 ? e' He' Hl' Ht' Hrun0]; subst.
    + split; [discriminate|lia].
    + destruct (IH t0 j' Hrun0) as [Heq Hlt]. split.
      * intros [= ->]. apply Heq. reflexivity.
      * intros Hlt'. apply Hlt. lia.
Qed.

(** In a tidy map a key occupies one slot. *)
Lemma tidy_key_unique (m : icsmap) (x y : nat) (d d' : list byte) :
  tidy m ->
  arr m !! x = Some (Ptr d) -> arr m !! y = Some (Ptr d') ->
  take (Z.to_nat (keysize m)) d = take (Z.to_nat (keysize m)) d' ->
  x = y.
Proof.
  intros Ht Hx Hy Hkey.
  pose proof (tidy_default _ Ht) as Hg.
  destruct (tidy_homed _ Ht x _ Hx eq_refl) as (h & t & Hh & Hhr & Hrun & Hlt).
  destruct (tidy_homed _ Ht y _ Hy eq_refl) as (h' & t' & Hh' & Hhr' & Hrun' & Hlt').
  unfold map_entry_key in *.
  pose proof (same_view_take _ _ _ Hkey) as Hview.
  rewrite <- (hash_ext m (Ptr d) (Ptr d') _ Hview) in Hh'.
  assert (h' = h) as -> by congruence.
  apply (probe_run_ext m (Ptr d') (Ptr d)) in Hrun'.
  2:{ intros j Hj. symmetry. apply Hview. exact Hj. }
  pose proof (hash_Ret_length _ _ _ _ Hh) as Ld.
  assert (Z.to_nat (keysize m) <= length d')%nat as Ld'
    by (eapply take_same_length; eauto).
  assert (forall z dz, arr m !! z = Some (Ptr dz) ->
            take (Z.to_nat (keysize m)) dz = take (Z.to_nat (keysize m)) d ->
            forall e, arr m !! Z.to_nat (Z.of_nat z) = Some e ->
                      probe_test m (Ptr d) (keysize m) e = Ret false -> False) as Hno.
  { intros z dz Hz Hkz e He Htest. rewrite Nat2Z.id in He.
    assert (e = Ptr dz) as -> by congruence.
    rewrite probe_test_default_same in Htest; auto; discriminate. }
  destruct (Nat.lt_trichotomy t t') as [Hlt0|[->|Hgt0]].
  - destruct (probe_run_prefix _ _ _ _ _ _ Hrun _ _ Hrun') as [_ H].
    destruct (H Hlt0) as (e & He & _ & Htest).
    exfalso. exact (Hno x d Hx eq_refl e He Htest).
  - destruct (probe_run_prefix _ _ _ _ _ _ Hrun _ _ Hrun') as [H _].
    specialize (H eq_refl). lia.
  - destruct (probe_run_prefix _ _ _ _ _ _ Hrun' _ _ Hrun) as [_ H].
    destruct (H Hgt0) as (e & He & _ & Htest).
    exfalso. exact (Hno y d' Hy (eq_sym Hkey) e He Htest).
Qed.

(** What [stored] finds. *)
Lemma stored_Some (m : icsmap) (kb v : list byte) :
  stored m kb = Some v ->
  exists (x : nat) (d : list byte),
    arr m !! x = Some (Ptr d) /\
    take (Z.to_nat (keysize m)) d = kb /\
    v = take (Z.to_nat (valsize m)) (drop (Z.to_nat (keysize m)) d).
Proof.
  unfold stored. intros H.
  destruct (List.find _ (arr m)) as [e|] eqn:Ef; [|discriminate].
  injection H as <-. apply find_some in Ef. destruct Ef as [Hin Hf].
  apply andb_prop in Hf. destruct Hf as [Hl Hk].
  apply is_live_Ptr in Hl as [d ->]. apply bytes_eqb_eq in Hk.
  apply list_elem_of_In, list_elem_of_lookup_1 in Hin. destruct Hin as [x Hx].
  exists x, d. auto.
Qed.

Lemma stored_None (m : icsmap) (kb : list byte) :
  stored m kb = None <->
  forall (x : nat) (d : list byte),
    arr m !! x = Some (Ptr d) -> take (Z.to_nat (keysize m)) d <> kb.
Proof.
  unfold stored. split.
  - intros H x d Hx Hk.
    destruct (List.find _ (arr m)) as [e|] eqn:Ef; [discriminate|].
    pose proof (find_none _ _ Ef (Ptr d)) as Hn. cbv beta in Hn.
    rewrite key_of_Ptr, Hk in Hn.
    assert (bytes_eqb kb kb = true) as Hb by (apply bytes_eqb_eq; reflexivity).
    rewrite Hb in Hn. simpl in Hn.
    assert (In (Ptr d) (arr m)) as Hin
      by (apply list_elem_of_In; eapply list_elem_of_lookup_2; eauto).
    specialize (Hn Hin). discriminate.
  - intros H. destruct (List.find _ (arr m)) as [e|] eqn:Ef; [|reflexivity].
    exfalso. apply find_some in Ef. destruct Ef as [Hin Hf].
    apply andb_prop in Hf. destruct Hf as [Hl Hk].
    apply is_live_Ptr in Hl as [d ->]. apply bytes_eqb_eq in Hk.
    apply list_elem_of_In, list_elem_of_lookup_1 in Hin. destruct Hin as [x Hx].
    exact (H x d Hx Hk).
Qed.

(** In a tidy map [stored] gives the value of the one record with the
    key. *)
Lemma tidy_stored (m : icsmap) (x : nat) (d : list byte) :
  tidy m -> arr m !! x = Some (Ptr d) ->
  stored m (take (Z.to_nat (keysize m)) d)
    = Some (take (Z.to_nat (valsize m)) (drop (Z.to_nat (keysize m)) d)).
Proof.
  intros Ht Hx.
  destruct (stored m (take (Z.to_nat (keysize m)) d)) as [v|] eqn:Es.
  - apply stored_Some in Es. destruct Es as (y & d' & Hy & Hk & ->).
    assert (y = x) as -> by (eapply tidy_key_unique; eauto).
    assert (d' = d) as -> by congruence. reflexivity.
  - exfalso. rewrite stored_None in Es. exact (Es x d Hx eq_refl).
Qed.

(** A stored key is findable through every buffer that starts with its
    bytes. *)
Lemma tidy_findable (m : icsmap) (x : nat) (d kb : list byte) :
  tidy m -> arr m !! x = Some (Ptr d) ->
  take (Z.to_nat (keysize m)) d = take (Z.to_nat (keysize m)) kb ->
  (Z.to_nat (keysize m) <= length kb)%nat ->
  findable m (Ptr kb) (keysize m) (Z.of_nat x).
Proof.
  intros Ht Hx Hkey Hlen.
  destruct (tidy_homed _ Ht x _ Hx eq_refl) as (h & t & Hh & Hhr & Hrun & Hlt).
  unfold map_entry_key in *.
  pose proof (same_view_take _ _ _ Hkey) as Hview.
  exists h, t, (Ptr d). repeat split; try lia.
  - rewrite <- (hash_ext m (Ptr d) (Ptr kb) _ Hview). exact Hh.
  - apply (probe_run_ext m (Ptr d) (Ptr kb)); assumption.
  - rewrite Nat2Z.id. exact Hx.
  - apply probe_test_default_same; auto. apply (tidy_default _ Ht).
Qed.

(** The comparisons of a key that is not stored all answer no. *)
Lemma tidy_absent (m : icsmap) (kb : list byte) :
  tidy m ->
  (Z.to_nat (keysize m) <= length kb)%nat ->
  stored m (take (Z.to_nat (keysize m)) kb) = None ->
  forall x e, arr m !! x = Some e ->
    e = NULL \/
    (is_live e = true /\ probe_test m (Ptr kb) (keysize m) e = Ret false).
Proof.
  intros Ht Hlen Hs x e Hx. rewrite stored_None in Hs.
  destruct (tidy_slot _ _ _ Ht Hx) as [->|(d & -> & Ld)]; [auto|right].
  split; [reflexivity|].
  rewrite probe_test_default_bytes; [|apply (tidy_default _ Ht)|lia|exact Hlen].
  f_equal. apply bytes_eqb_neq. intros E.
  exact (Hs x d Hx E).
Qed.

(** A key probe that meets only empty slots and other keys answers
    [ICS_NOT_FOUND]. *)
Lemma find_key_loop_absent (m : icsmap) (k : map_key) (ks h : Z) :
  cap_ok m -> 0 <= h < capacity m ->
  length (arr m) = Z.to_nat (capacity m) ->
  (forall x e, arr m !! x = Some e ->
     e = NULL \/ (is_live e = true /\ probe_test m k ks e = Ret false)) ->
  forall (n s : nat),
    (s + n = Z.to_nat (capacity m))%nat -> (0 < n)%nat ->
    find_key_loop n m k ks h ((h + Z.of_nat s) mod capacity m)
      = Ret (ICS_NOT_FOUND, 0).
Proof.
  intros Hc Hh Hlen Hall n. induction n as [|n IH]; intros s Hs Hn; [lia|].
  assert (0 <= (h + Z.of_nat s) mod capacity m < capacity m) as Hi
    by (apply Z.mod_pos_bound; apply Hc).
  destruct (lookup_lt_is_Some_2 (arr m) (Z.to_nat ((h + Z.of_nat s) mod capacity m)))
    as [e He]; [lia|].
  destruct (Hall _ _ He) as [->|[Hl Ht]].
  - apply find_key_loop_at_null. exact He.
  - assert (is_empty e = false) as Hne
      by (apply is_live_Ptr in Hl as [d ->]; reflexivity).
    rewrite (find_key_loop_S _ _ _ _ _ _ e He Hne), Ht. cbn [bind].
    rewrite probe_next_small by auto. rewrite Zplus_mod_idemp_l.
    replace (h + Z.of_nat s + 1) with (h + Z.of_nat (S s)) by lia.
    destruct (Z.eqb_spec ((h + Z.of_nat (S s)) mod capacity m) h) as [E|E];
      [reflexivity|].
    apply IH; [lia|].
    destruct n; [|lia]. exfalso. apply E.
    replace (Z.of_nat (S s)) with (capacity m) by (unfold cap_ok in Hc; lia).
    rewrite Z.add_mod, Z_mod_same_full, Z.add_0_r, Z.mod_mod by lia.
    apply Z.mod_small. lia.
Qed.

Lemma tidy_find_key_absent (m : icsmap) (kb : list byte) :
  tidy m ->
  (Z.to_nat (keysize m) <= length kb)%nat ->
  stored m (take (Z.to_nat (keysize m)) kb) = None ->
  find_key m (Ptr kb) = Ret (ICS_NOT_FOUND, 0).
Proof.
  intros Ht Hlen Hs.
  pose proof (tidy_wf _ Ht) as Hwf. pose proof (wf_cap _ Hwf) as Hc.
  destruct (hash_total m kb (keysize m) ltac:(apply Hc) Hlen) as (h & Hh & Hhr).
  unfold find_key, get_key. rewrite (tidy_default _ Ht). cbn [bind].
  rewrite Hh. cbn [bind].
  pose proof (find_key_loop_absent m (Ptr kb) (keysize m) h Hc Hhr (wf_arr _ Hwf)
                (tidy_absent m kb Ht Hlen Hs) (Z.to_nat (capacity m)) 0) as H.
  rewrite Z.add_0_r, Z.mod_small in H by lia.
  apply H; unfold cap_ok in Hc; lia.
Qed.

Lemma tidy_get (m : icsmap) (k out : list byte) :
  tidy m ->
  (Z.to_nat (keysize m) <= length k)%nat ->
  (Z.to_nat (valsize m) <= length out)%nat ->
  icsmap_get m (Ptr k) out
    = match stored m (take (Z.to_nat (keysize m)) k) with
      | Some v => Ret (ICS_OK, v ++ drop (Z.to_nat (valsize m)) out)
      | None => Ret (ICS_NOT_FOUND, out)
      end.
Proof.
  intros Ht Hk Hout.
  destruct (stored m (take (Z.to_nat (keysize m)) k)) as [v|] eqn:Es.
  - apply stored_Some in Es. destruct Es as (x & d & Hx & Hkey & ->).
    pose proof (tidy_findable m x d k Ht Hx Hkey Hk) as Hf.
    rewrite (findable_get m (Ptr k) (Ptr k) (keysize m) (Z.of_nat x) (Ptr d) out).
    + unfold map_entry_val, ptr_add.
      pose proof (wf_rec _ (tidy_wf _ Ht) x d Hx) as Ld.
      rewrite ics_memcpy_Ptr by (rewrite ?length_drop; simpl; lia).
      reflexivity.
    + apply (wf_cap _ (tidy_wf _ Ht)).
    + unfold get_key. rewrite (tidy_default _ Ht). reflexivity.
    + exact Hf.
    + rewrite Nat2Z.id. exact Hx.
  - unfold icsmap_get. rewrite (tidy_find_key_absent m k Ht Hk Es). reflexivity.
Qed.

(** X24.  On a tidy map, one that is well-formed, has no resolver and no
    tombstone and holds every record where its own probe arrives, lookups
    always return: get copies out the value of the one record that starts
    with the key bytes, or answers [ICS_NOT_FOUND] when there is none and
    leaves the output buffer alone, and contains answers accordingly. *)
Theorem X24_get_on_tidy_map (m : icsmap) (k out : list byte) :
  tidy m ->
  (Z.to_nat (keysize m) <= length k)%nat ->
  (Z.to_nat (valsize m) <= length out)%nat ->
  icsmap_get m (Ptr k) out
    = match stored m (take (Z.to_nat (keysize m)) k) with
      | Some v => Ret (ICS_OK, v ++ drop (Z.to_nat (valsize m)) out)
      | None => Ret (ICS_NOT_FOUND, out)
      end /\
  icsmap_contains m (Ptr k)
    = Ret (match stored m (take (Z.to_nat (keysize m)) k) with
           | Some _ => ICS_EXISTS
           | None => ICS_NOT_FOUND
           end) /\
  (forall v, stored m (take (Z.to_nat (keysize m)) k) = Some v <->
     exists (x : nat) (d : list byte),
       arr m !! x = Some (Ptr d) /\
       take (Z.to_nat (keysize m)) d = take (Z.to_nat (keysize m)) k /\
       v = take (Z.to_nat (valsize m)) (drop (Z.to_nat (keysize m)) d)).
Proof.
  intros Ht Hk Hout. split; [apply tidy_get; assumption|]. split.
  - destruct (stored m (take (Z.to_nat (keysize m)) k)) as [v|] eqn:Es.
    + apply stored_Some in Es. destruct Es as (x & d & Hx & Hkey & ->).
      pose proof (tidy_findable m x d k Ht Hx Hkey Hk) as Hf.
      unfold icsmap_contains.
      rewrite (findable_find_key m (Ptr k) (Ptr k) (keysize m) (Z.of_nat x));
        [reflexivity|apply (wf_cap _ (tidy_wf _ Ht))| |exact Hf].
      unfold get_key. rewrite (tidy_default _ Ht). reflexivity.
    + unfold icsmap_contains.
      rewrite (tidy_find_key_absent m k Ht Hk Es). reflexivity.
  - intros v. split.
    + intros Es. apply stored_Some in Es. destruct Es as (x & d & Hx & Hkey & ->).
      exists x, d. auto.
    + intros (x & d & Hx & Hkey & ->). rewrite <- Hkey.
      apply (tidy_stored m x d Ht Hx).
Qed.

Lemma tidy_settled (m : icsmap) : tidy m -> settled m.
Proof.
  intros Ht. pose proof (tidy_wf _ Ht) as Hwf.
  repeat split; try apply (wf_cap _ Hwf).
  - apply (wf_arr _ Hwf).
  - apply (tidy_default _ Ht).
  - apply (tidy_clean _ Ht).
  - apply (tidy_homed _ Ht).
Qed.

Lemma settled_record_length (m : icsmap) (x : nat) (d : list byte) :
  settled m -> arr m !! x = Some (Ptr d) ->
  (Z.to_nat (keysize m) <= length d)%nat.
Proof.
  intros (_ & _ & _ & _ & Hhomed) Hx.
  destruct (Hhomed x _ Hx eq_refl) as (h & t & Hh & _).
  apply (hash_Ret_length _ _ _ _ Hh).
Qed.

(** On a settled map with room, the hole for a key that no record has is
    an empty slot at the end of a walk. *)
Lemma settled_find_hole_absent (m : icsmap) (kb : list byte) :
  settled m ->
  (Z.to_nat (keysize m) <= length kb)%nat ->
  (forall x d, arr m !! x = Some (Ptr d) ->
     take (Z.to_nat (keysize m)) d <> take (Z.to_nat (keysize m)) kb) ->
  (length (List.filter is_live (arr m)) < length (arr m))%nat ->
  exists (j : Z) (h : Z) (t : nat),
    find_hole m (Ptr kb) = Ret (ICS_OK, j) /\
    arr m !! Z.to_nat j = Some NULL /\ 0 <= j < capacity m /\
    hash m (Ptr kb) (keysize m) = Ret h /\ 0 <= h < capacity m /\
    probe_run m (Ptr kb) (keysize m) h t j /\ (t < Z.to_nat (capacity m))%nat.
Proof.
  intros Hs Hlen Habs Hroom.
  pose proof Hs as (Hc & Hl & Hg & Hclean & Hhomed).
  destruct (hash_total m kb (keysize m) ltac:(apply Hc) Hlen) as (h & Hh & Hhr).
  assert (forall x e, arr m !! x = Some e ->
            e = NULL \/
            (is_live e = true /\ probe_test m (Ptr kb) (keysize m) e = Ret false))
    as Hall.
  { intros x e Hx. destruct e as [| |d]; [auto| |right].
    - exfalso. exact (Hclean x Hx).
    - split; [reflexivity|].
      rewrite probe_test_default_bytes; auto.
      + f_equal. apply bytes_eqb_neq. exact (Habs x d Hx).
      + eapply settled_record_length; eauto. }
  destruct (find_hole_loop_null_any m (Ptr kb) (keysize m) h Hc Hl Hall Hroom Hhr)
    as (j & Hloop & Hnull).
  pose proof Hloop as Hinv. apply find_hole_loop_inv in Hinv.
  destruct Hinv as (t & e & Ht & Hrun & _).
  exists j, h, t.
  split.
  { unfold find_hole, get_key. rewrite Hg. cbn [bind]. rewrite Hh. cbn [bind].
    destruct (Z.ltb_spec h (capacity m)) as [_|]; [|lia]. exact Hloop. }
  split; [exact Hnull|].
  split; [eapply probe_run_end_range; eauto|]. auto.
Qed.

Lemma homed_frame (m m' : icsmap) (x : nat) (e : map_entry) :
  same_config m m' ->
  (forall y e', arr m !! y = Some e' -> is_live e' = true -> arr m' !! y = Some e') ->
  homed m x e -> homed m' x e.
Proof.
  intros Hcfg Hkeep (h & t & Hh & Hhr & Hrun & Hlt).
  pose proof Hcfg as (Hc & Hk & _).
  exists h, t. unfold map_entry_key in *. rewrite Hk, Hc.
  split; [unfold hash in *; rewrite Hc; exact Hh|].
  split; [exact Hhr|]. split; [|exact Hlt].
  eapply probe_run_frame; eauto.
Qed.

(** Writing a record into the hole found for its key keeps a map
    settled. *)
Lemma settled_write_hole (m : icsmap) (kb r : list byte) (j h : Z) (t : nat)
    (e : map_entry) :
  settled m ->
  arr m !! Z.to_nat j = Some e -> is_live e = false -> 0 <= j ->
  hash m (Ptr kb) (keysize m) = Ret h -> 0 <= h < capacity m ->
  probe_run m (Ptr kb) (keysize m) h t j -> (t < Z.to_nat (capacity m))%nat ->
  take (Z.to_nat (keysize m)) r = take (Z.to_nat (keysize m)) kb ->
  settled (arr_set m j (Ptr r)).
Proof.
  intros (Hc & Hl & Hg & Hclean & Hhomed) He Hdead Hj Hh Hhr Hrun Ht Hkey.
  assert (same_config m (arr_set m j (Ptr r))) as Hcfg by apply same_config_arr_set.
  assert (forall y e', arr m !! y = Some e' -> is_live e' = true ->
                       arr (arr_set m j (Ptr r)) !! y = Some e') as Hkeep.
  { intros y e' Hy Hl'. simpl. rewrite list_lookup_insert_ne; [exact Hy|].
    intros <-. congruence. }
  split; [exact Hc|]. split; [simpl; rewrite length_insert; exact Hl|].
  split; [exact Hg|]. split.
  - intros x Hx. simpl in Hx. apply list_lookup_insert_Some in Hx.
    destruct Hx as [(_ & ? & _)|(_ & Hx)]; [discriminate|exact (Hclean x Hx)].
  - intros x e' Hx Hl'. simpl in Hx. apply list_lookup_insert_Some in Hx.
    destruct Hx as [(<- & <- & _)|(_ & Hx)].
    + pose proof (same_view_take _ _ _ Hkey) as Hview.
      exists h, t. unfold map_entry_key. cbn [keysize capacity arr_set set_arr].
      rewrite Z2Nat.id by exact Hj.
      split; [|split; [exact Hhr|split; [|exact Ht]]].
      * rewrite (hash_ext _ (Ptr r) (Ptr kb) _ Hview). exact Hh.
      * apply (probe_run_ext _ (Ptr kb) (Ptr r)).
        { intros i Hi. symmetry. apply Hview. exact Hi. }
        eapply probe_run_frame; eauto.
    + apply (homed_frame m); auto.
Qed.

(** Replacing a record by one with the same key bytes keeps a map
    settled. *)
Lemma settled_update (m : icsmap) (x : nat) (d r : list byte) :
  settled m ->
  arr m !! x = Some (Ptr d) ->
  take (Z.to_nat (keysize m)) r = take (Z.to_nat (keysize m)) d ->
  settled (arr_set m (Z.of_nat x) (Ptr r)).
Proof.
  intros (Hc & Hl & Hg & Hclean & Hhomed) Hx Hkey.
  set (m' := arr_set m (Z.of_nat x) (Ptr r)).
  assert (arr m' = <[x := Ptr r]> (arr m)) as Harr
    by (unfold m'; simpl; rewrite Nat2Z.id; reflexivity).
  assert (forall (k : map_key) (i : Z) (t : nat) (j : Z),
            probe_run m k (keysize m) i t j -> probe_run m' k (keysize m) i t j)
    as Hruns.
  { intros k i t j. apply probe_run_frame_test; [reflexivity|].
    intros y e Hy Hle Hte.
    destruct (Nat.eq_dec y x) as [->|Hne].
    - assert (e = Ptr d) as -> by congruence.
      exists (Ptr r). split; [|split; [reflexivity|]].
      + rewrite Harr. apply list_lookup_insert_eq.
        apply lookup_lt_Some in Hx. exact Hx.
      + rewrite (probe_test_cfg m m') by reflexivity.
        rewrite (probe_test_default_prefix m k r d Hg Hkey). exact Hte.
    - exists e. split; [|split; [exact Hle|]].
      + rewrite Harr, list_lookup_insert_ne by congruence. exact Hy.
      + rewrite (probe_test_cfg m m') by reflexivity. exact Hte. }
  split; [exact Hc|]. split; [rewrite Harr, length_insert; exact Hl|].
  split; [exact Hg|]. split.
  - intros y Hy. rewrite Harr in Hy. apply list_lookup_insert_Some in Hy.
    destruct Hy as [(_ & ? & _)|(_ & Hy)]; [discriminate|exact (Hclean y Hy)].
  - intros y e Hy Hle. rewrite Harr in Hy. apply list_lookup_insert_Some in Hy.
    destruct Hy as [(<- & <- & _)|(_ & Hy)].
    + destruct (Hhomed x _ Hx eq_refl) as (h & t & Hh & Hhr & Hrun & Hlt).
      unfold map_entry_key in *.
      pose proof (same_view_take _ _ _ Hkey) as Hview.
      exists h, t. unfold map_entry_key.
      change (keysize m') with (keysize m). change (capacity m') with (capacity m).
      split; [|split; [exact Hhr|split; [|exact Hlt]]].
      * change (hash m' (Ptr r) (keysize m)) with (hash m (Ptr r) (keysize m)).
        rewrite (hash_ext _ (Ptr r) (Ptr d) _ Hview). exact Hh.
      * apply (probe_run_ext _ (Ptr d) (Ptr r)).
        { intros i Hi. symmetry. apply Hview. exact Hi. }
        apply Hruns. exact Hrun.
    + destruct (Hhomed y _ Hy Hle) as (h & t & Hh & Hhr & Hrun & Hlt).
      exists h, t. unfold map_entry_key in *.
      change (keysize m') with (keysize m). change (capacity m') with (capacity m).
      split; [exact Hh|]. split; [exact Hhr|]. split; [|exact Hlt].
      apply Hruns. exact Hrun.
Qed.

Lemma settled_set_size (m : icsmap) (n : Z) : settled m -> settled (set_size m n).
Proof.
  intros (Hc & Hl & Hg & Hclean & Hhomed).
  split; [exact Hc|]. split; [exact Hl|]. split; [exact Hg|].
  split; [exact Hclean|].
  intros x e Hx Hle. apply (homed_frame m); [repeat split|auto|auto].
Qed.

Lemma NoDup_map_app_head {A B : Type} (f : A -> B) (l1 l2 : list A) (a : A) :
  List.NoDup (List.map f (l1 ++ a :: l2)) ->
  forall b, In b l1 -> f b <> f a.
Proof.
  intros Hnd b Hb E. rewrite List.map_app in Hnd. cbn [List.map] in Hnd.
  apply NoDup_remove_2 in Hnd. apply Hnd. apply in_or_app. left.
  rewrite <- E. apply in_map. exact Hb.
Qed.

(** The relocation loop on a settled map: with distinct keys and room it
    places every record. *)
Lemma resize_loop_settled (n : nat) (old : list map_entry) :
  forall (i : Z) (map : icsmap),
    settled map ->
    (forall e, In e (List.filter is_live (take n (drop (Z.to_nat i) old))) ->
       exists d, e = Ptr d /\ (Z.to_nat (keysize map) <= length d)%nat) ->
    List.NoDup (List.map (key_of map)
                  (List.filter is_live (arr map)
                     ++ List.filter is_live (take n (drop (Z.to_nat i) old)))) ->
    (length (List.filter is_live (arr map))
       + length (List.filter is_live (take n (drop (Z.to_nat i) old)))
     < length (arr map))%nat ->
    0 <= i ->
    (Z.to_nat i + n <= length old)%nat ->
    exists map',
      resize_loop n old i map = Ret (ICS_OK, map') /\ settled map'.
Proof.
  induction n as [|n IH]; intros i map Hs Hold Hnd Hroom Hi Hn.
  - exists map. split; [reflexivity|exact Hs].
  - destruct (slot_split old (Z.to_nat i) n Hn) as (e0 & He0 & Esplit).
    rewrite Esplit in *. clear Esplit.
    cbn [resize_loop]. rewrite He0. cbn [List.filter] in *.
    replace (S (Z.to_nat i)) with (Z.to_nat (i + 1)) in * by lia.
    set (rest := List.filter is_live (take n (drop (Z.to_nat (i + 1)) old))) in *.
    destruct (is_live e0) eqn:Hl0.
    + destruct (Hold e0 ltac:(left; reflexivity)) as (d0 & -> & Ld0).
      cbn [length] in Hroom.
      destruct (settled_find_hole_absent map d0 Hs Ld0) as
        (j & h & t & Hfind & Hnull & Hj & Hh & Hhr & Hrun & Ht).
      { intros x d Hx E.
        apply (NoDup_map_app_head (key_of map) _ _ _ Hnd (Ptr d)).
        - eapply live_slot_in_filter; eauto.
        - exact E. }
      { lia. }
      unfold map_entry_key. rewrite Hfind. cbn [bind ics_status_eqb negb].
      pose proof (filter_live_insert (arr map) (Z.to_nat j) NULL (Ptr d0)
                    Hnull eq_refl eq_refl) as Hperm.
      apply IH.
      * apply (settled_write_hole map d0 d0 j h t NULL); auto. lia.
      * intros e He. apply Hold. right. exact He.
      * change (key_of (arr_set map j (Ptr d0))) with (key_of map).
        cbn [arr arr_set set_arr].
        eapply Permutation_NoDup; [|exact Hnd].
        apply Permutation_map. rewrite Hperm.
        symmetry. apply Permutation_middle.
      * cbn [arr arr_set set_arr]. rewrite length_insert.
        rewrite (Permutation_length Hperm). cbn [length]. fold rest. lia.
      * lia.
      * lia.
    + apply IH; auto; lia.
Qed.

(** The keys of a tidy map are pairwise distinct. *)
Lemma distinct_keys (m : icsmap) (l : list map_entry) :
  (forall x y d d', l !! x = Some (Ptr d) -> l !! y = Some (Ptr d') ->
     take (Z.to_nat (keysize m)) d = take (Z.to_nat (keysize m)) d' -> x = y) ->
  List.NoDup (List.map (key_of m) (List.filter is_live l)).
Proof.
  induction l as [|e l IH]; intros Huniq; [constructor|].
  assert (List.NoDup (List.map (key_of m) (List.filter is_live l))) as Hrest.
  { apply IH. intros x y d d' Hx Hy E.
    assert (S x = S y) by (apply (Huniq (S x) (S y) d d'); auto). lia. }
  cbn [List.filter]. destruct (is_live e) eqn:Hl; [|exact Hrest].
  cbn [List.map]. constructor; [|exact Hrest].
  intros Hin. apply in_map_iff in Hin. destruct Hin as (e' & E & Hin).
  apply List.filter_In in Hin. destruct Hin as [Hin Hl'].
  apply is_live_Ptr in Hl as [d ->]. apply is_live_Ptr in Hl' as [d' ->].
  apply list_elem_of_In, list_elem_of_lookup_1 in Hin. destruct Hin as [y Hy].
  assert (0%nat = S y); [|lia].
  apply (Huniq 0%nat (S y) d d'); auto.
Qed.

Lemma tidy_distinct_keys (m : icsmap) :
  tidy m -> List.NoDup (List.map (key_of m) (List.filter is_live (arr m))).
Proof.
  intros Ht. apply distinct_keys.
  intros x y d d' Hx Hy E. eapply tidy_key_unique; eauto.
Qed.

(** The resize of a tidy map of moderate capacity succeeds and leaves a
    tidy map with the same records. *)
Lemma resize_tidy (m : icsmap) :
  tidy m -> capacity m < 2 ^ 27 -> 0 < size m ->
  exists m1,
    resize true m = Ret (ICS_OK, m1) /\ tidy m1 /\
    size m1 = size m /\ keysize m1 = keysize m /\ valsize m1 = valsize m /\
    size m < capacity m1 < 2 ^ 29 /\
    Permutation (List.filter is_live (arr m1)) (List.filter is_live (arr m)).
Proof.
  intros Ht Hcap Hsz.
  pose proof (tidy_wf _ Ht) as Hwf. pose proof (wf_cap _ Hwf) as Hc.
  pose proof (tidy_settled _ Ht) as Hs.
  destruct (ics_next_prime_double (capacity m) ltac:(unfold cap_ok in Hc; lia))
    as (p & Hp & Hprime & Hgt & Hlt & _).
  assert (size m <= capacity m) as Hsc.
  { rewrite (wf_size _ Hwf). unfold live_count.
    pose proof (filter_length_le is_live (arr m)) as Hle.
    rewrite (wf_arr _ Hwf) in Hle. unfold cap_ok in Hc. lia. }
  set (m0 := set_arr (set_capacity m p) (replicate (Z.to_nat p) NULL)).
  assert (settled m0) as Hs0.
  { split; [unfold cap_ok; simpl; lia|].
    split; [simpl; apply length_replicate|].
    split; [apply (tidy_default _ Ht)|]. split.
    - intros x E. simpl in E. apply lookup_replicate in E. destruct E; discriminate.
    - intros x e E Hl. simpl in E. apply lookup_replicate in E.
      destruct E as [-> _]. discriminate. }
  destruct (resize_loop_settled (Z.to_nat (capacity m)) (arr m) 0 m0 Hs0)
    as (m1 & Hloop & Hs1).
  { intros e He. cbn [Z.to_nat] in He.
    rewrite drop_0, <- (wf_arr _ Hwf), firstn_all in He.
    apply List.filter_In in He. destruct He as [Hin Hl].
    apply is_live_Ptr in Hl as [d ->]. exists d. split; [reflexivity|].
    apply list_elem_of_In, list_elem_of_lookup_1 in Hin. destruct Hin as [x Hx].
    apply (settled_record_length m x d Hs Hx). }
  { cbn [arr m0 set_arr Z.to_nat]. rewrite filter_live_replicate_NULL. cbn [app].
    rewrite drop_0, <- (wf_arr _ Hwf), firstn_all.
    apply (tidy_distinct_keys m Ht). }
  { cbn [arr m0 set_arr Z.to_nat]. rewrite filter_live_replicate_NULL.
    rewrite drop_0, <- (wf_arr _ Hwf), firstn_all, length_replicate.
    cbn [length Nat.add].
    pose proof (wf_size _ Hwf) as Hsize. unfold live_count in Hsize. lia. }
  { lia. }
  { cbn [Z.to_nat Nat.add]. rewrite (wf_arr _ Hwf). lia. }
  assert (resize true m = Ret (ICS_OK, m1)) as Hres.
  { rewrite (resize_fits true m p Hp) by (unfold sizeof_map_entry; lia).
    exact Hloop. }
  pose proof (resize_inv _ _ _ _ Hres) as (Hp1 & Hk1 & Hv1 & Hg1 & Hsz1).
  assert (p = capacity m1) as Hpc by congruence.
  assert (sizeof_map_entry * capacity m1 < 2 ^ 32) as Hfits1
    by (unfold sizeof_map_entry; lia).
  pose proof (resize_well_formed _ _ _ Hwf Hfits1 Hres) as Hwf1.
  destruct Hs1 as (_ & _ & _ & Hclean1 & Hhomed1).
  exists m1. split; [exact Hres|]. split.
  { split; auto.
    - rewrite Hg1. apply (tidy_default _ Ht).
    - rewrite Hk1, Hv1. apply (tidy_sizes _ Ht). }
  split; [exact Hsz1|]. split; [exact Hk1|]. split; [exact Hv1|].
  split; [lia|].
  apply resize_loop_OK_inv in Hloop; [|lia]. destruct Hloop as (_ & _ & Hperm).
  cbn [arr m0 set_arr Z.to_nat] in Hperm.
  rewrite filter_live_replicate_NULL in Hperm. cbn [app] in Hperm.
  rewrite drop_0, <- (wf_arr _ Hwf), firstn_all in Hperm. exact Hperm.
Qed.

Lemma tidy_record_slot (m m' : icsmap) (x : nat) (d : list byte) :
  Permutation (List.filter is_live (arr m')) (List.filter is_live (arr m)) ->
  arr m !! x = Some (Ptr d) ->
  exists x', arr m' !! x' = Some (Ptr d).
Proof.
  intros Hperm Hx.
  assert (In (Ptr d) (List.filter is_live (arr m'))) as Hin.
  { eapply Permutation_in; [symmetry; exact Hperm|].
    apply (live_slot_in_filter _ x); auto. }
  apply List.filter_In in Hin. destruct Hin as [Hin _].
  apply list_elem_of_In, list_elem_of_lookup_1 in Hin. exact Hin.
Qed.

(** Tidy maps with the same records store the same values. *)
Lemma stored_perm (m m' : icsmap) (kb : list byte) :
  tidy m -> tidy m' ->
  keysize m' = keysize m -> valsize m' = valsize m ->
  Permutation (List.filter is_live (arr m')) (List.filter is_live (arr m)) ->
  stored m' kb = stored m kb.
Proof.
  intros Ht Ht' Hk Hv Hperm.
  destruct (stored m kb) as [v|] eqn:Es.
  - apply stored_Some in Es. destruct Es as (x & d & Hx & <- & ->).
    destruct (tidy_record_slot m m' x d Hperm Hx) as (x' & Hx').
    rewrite <- Hk, <- Hv. apply (tidy_stored m' x' d Ht' Hx').
  - destruct (stored m' kb) as [v'|] eqn:Es'; [|reflexivity].
    exfalso. apply stored_Some in Es'. destruct Es' as (x' & d & Hx' & Hkb & _).
    symmetry in Hperm.
    destruct (tidy_record_slot m' m x' d Hperm Hx') as (x & Hx).
    rewrite stored_None in Es. apply (Es x d Hx). congruence.
Qed.

(** The values stored after one slot has received a record. *)
Lemma stored_write (m m' : icsmap) (x : nat) (r : list byte) :
  tidy m -> tidy m' ->
  keysize m' = keysize m -> valsize m' = valsize m ->
  arr m' = <[x := Ptr r]> (arr m) ->
  (x < length (arr m))%nat ->
  (forall d, arr m !! x = Some (Ptr d) ->
     take (Z.to_nat (keysize m)) d = take (Z.to_nat (keysize m)) r) ->
  stored m' (take (Z.to_nat (keysize m)) r)
    = Some (take (Z.to_nat (valsize m)) (drop (Z.to_nat (keysize m)) r)) /\
  (forall kb, kb <> take (Z.to_nat (keysize m)) r -> stored m' kb = stored m kb).
Proof.
  intros Ht Ht' Hk Hv Harr Hx Hold.
  assert (arr m' !! x = Some (Ptr r)) as Hxr
    by (rewrite Harr; apply list_lookup_insert_eq; exact Hx).
  split.
  - rewrite <- Hk, <- Hv. apply (tidy_stored m' x r Ht' Hxr).
  - intros kb Hne.
    destruct (stored m kb) as [v|] eqn:Es.
    + apply stored_Some in Es. destruct Es as (y & d & Hy & <- & ->).
      assert (y <> x) as Hyx.
      { intros ->. apply Hne. apply Hold. exact Hy. }
      rewrite <- Hk, <- Hv. apply (tidy_stored m' y d Ht').
      rewrite Harr, list_lookup_insert_ne by congruence. exact Hy.
    + destruct (stored m' kb) as [v'|] eqn:Es'; [|reflexivity].
      exfalso. apply stored_Some in Es'. destruct Es' as (y & d & Hy & Hkb & _).
      rewrite Harr in Hy. apply list_lookup_insert_Some in Hy.
      destruct Hy as [(_ & [= <-] & _)|(_ & Hy)]; [congruence|].
      rewrite stored_None in Es. apply (Es y d Hy). congruence.
Qed.

(** The steps of a put behind the resize, on a tidy map with room. *)
Lemma put_tail_tidy (m1 : icsmap) (k v : list byte) :
  tidy m1 -> size m1 < capacity m1 ->
  (Z.to_nat (keysize m1) <= length k)%nat ->
  (Z.to_nat (valsize m1) <= length v)%nat ->
  exists m',
    (let* (status, index) := find_hole m1 (Ptr k) in
     if ics_status_eqb status ICS_EXISTS then
       let* e := arr_at m1 index in
       let* e := init_map_entry m1 e (Ptr k) (Ptr v) in
       Ret (ICS_OK, arr_set m1 index e)
     else
       let entry := malloc true (entry_size m1) in
       if is_empty entry then Ret (ICS_NO_MEMORY, m1)
       else
         let* entry := init_map_entry m1 entry (Ptr k) (Ptr v) in
         Ret (ICS_OK, set_size (arr_set m1 index entry) (u32 (size m1 + 1))))
      = Ret (ICS_OK, m') /\
    tidy m' /\ same_config m1 m' /\
    size m' = match stored m1 (take (Z.to_nat (keysize m1)) k) with
              | Some _ => size m1
              | None => size m1 + 1
              end /\
    stored m' (take (Z.to_nat (keysize m1)) k)
      = Some (take (Z.to_nat (valsize m1)) v) /\
    (forall kb, kb <> take (Z.to_nat (keysize m1)) k -> stored m' kb = stored m1 kb).
Proof.
  intros Ht Hroom Hk Hv.
  pose proof (tidy_wf _ Ht) as Hwf. pose proof (wf_cap _ Hwf) as Hc.
  pose proof (tidy_settled _ Ht) as Hs. pose proof (tidy_default _ Ht) as Hg.
  pose proof (wf_keysize _ Hwf) as Hk0. pose proof (wf_valsize _ Hwf) as Hv0.
  set (ks := Z.to_nat (keysize m1)) in *. set (vs := Z.to_nat (valsize m1)) in *.
  set (r := take ks k ++ take vs v).
  assert (length r = (ks + vs)%nat) as Lr
    by (unfold r; rewrite length_app, !length_take; lia).
  assert (take ks r = take ks k) as Tk.
  { unfold r. apply take_app_length'. rewrite length_take. lia. }
  assert (take vs (drop ks r) = take vs v) as Tv.
  { unfold r. rewrite drop_app_length' by (rewrite length_take; lia).
    apply take_ge. rewrite length_take. lia. }
  assert (forall m', tidy m' -> same_config m1 m' ->
            forall x, arr m' = <[x := Ptr r]> (arr m1) -> (x < length (arr m1))%nat ->
            (forall d, arr m1 !! x = Some (Ptr d) -> take ks d = take ks r) ->
            stored m' (take ks k) = Some (take vs v) /\
            (forall kb, kb <> take ks k -> stored m' kb = stored m1 kb)) as Hstored.
  { intros m' Ht' (_ & Hk' & Hv' & _) x Harr Hx Hold.
    destruct (stored_write m1 m' x r Ht Ht' Hk' Hv' Harr Hx Hold) as [H1 H2].
    fold ks vs in H1, H2. rewrite Tk in H1, H2. rewrite Tv in H1. auto. }
  destruct (stored m1 (take ks k)) as [v0|] eqn:Es.
  - apply stored_Some in Es. destruct Es as (x & d & Hx & Hkey & _).
    fold ks in Hkey.
    pose proof (tidy_findable m1 x d k Ht Hx Hkey Hk) as Hf.
    pose proof (wf_rec _ Hwf x d Hx) as Ld. fold ks vs in Ld.
    set (m' := arr_set m1 (Z.of_nat x) (Ptr r)).
    assert (arr m' = <[x := Ptr r]> (arr m1)) as Harr
      by (unfold m'; simpl; rewrite Nat2Z.id; reflexivity).
    assert (tidy m') as Ht'.
    { pose proof (write_well_formed m1 (Z.of_nat x) (Ptr d) r Hwf
                    ltac:(rewrite Nat2Z.id; exact Hx) Lr) as Hw.
      cbn [is_live is_empty is_deleted negb andb] in Hw.
      pose proof (settled_update m1 x d r Hs Hx ltac:(fold ks; congruence))
        as (_ & _ & _ & Hclean' & Hhomed').
      split; auto. apply (tidy_sizes _ Ht). }
    exists m'. split.
    { rewrite (findable_find_hole m1 (Ptr k) (Ptr k) (keysize m1) (Z.of_nat x));
        [|unfold get_key; rewrite Hg; reflexivity|exact Hf].
      cbn [bind ics_status_eqb]. unfold arr_at. rewrite Nat2Z.id, Hx. cbn [bind].
      rewrite init_map_entry_Ptr by (fold ks vs; lia). fold ks vs.
      rewrite drop_ge by lia. rewrite app_nil_r. reflexivity. }
    split; [exact Ht'|]. split; [apply same_config_arr_set|].
    split; [reflexivity|].
    apply (Hstored m' Ht' (same_config_arr_set _ _ _) x Harr).
    + apply lookup_lt_Some in Hx. exact Hx.
    + intros d' Hd'. assert (d' = d) as -> by congruence. congruence.
  - assert (length (List.filter is_live (arr m1)) < length (arr m1))%nat as Hfree.
    { pose proof (wf_size _ Hwf) as Hsz. unfold live_count in Hsz.
      rewrite (wf_arr _ Hwf). unfold cap_ok in Hc. lia. }
    destruct (settled_find_hole_absent m1 k Hs Hk) as
      (j & h & t & Hfind & Hnull & Hj & Hh & Hhr & Hrun & Hlt); [|exact Hfree|].
    { rewrite stored_None in Es. exact Es. }
    set (m' := set_size (arr_set m1 j (Ptr r)) (u32 (size m1 + 1))).
    assert (arr m' = <[Z.to_nat j := Ptr r]> (arr m1)) as Harr by reflexivity.
    assert (tidy m') as Ht'.
    { pose proof (write_well_formed m1 j NULL r Hwf Hnull Lr) as Hw.
      cbn [is_live is_empty is_deleted negb andb] in Hw.
      pose proof (settled_set_size _ (u32 (size m1 + 1))
                    (settled_write_hole m1 k r j h t NULL Hs Hnull eq_refl
                       ltac:(lia) Hh Hhr Hrun Hlt Tk))
        as (_ & _ & _ & Hclean' & Hhomed').
      split; auto. apply (tidy_sizes _ Ht). }
    exists m'. split.
    { rewrite Hfind. cbn [bind ics_status_eqb malloc is_empty].
      unfold entry_size, u32.
      pose proof (tidy_sizes _ Ht) as Hsum.
      rewrite Z.mod_small by lia.
      rewrite init_map_entry_Ptr
        by (rewrite ?length_replicate; fold ks vs; lia).
      fold ks vs. rewrite drop_ge by (rewrite length_replicate; lia).
      rewrite app_nil_r. reflexivity. }
    split; [exact Ht'|]. split; [repeat split|].
    split.
    { unfold m'. cbn [size set_size]. unfold u32.
      apply Z.mod_small. pose proof (wf_size _ Hwf) as Hsz.
      unfold live_count in Hsz. unfold cap_ok in Hc. lia. }
    apply (Hstored m' Ht' ltac:(repeat split) (Z.to_nat j) Harr).
    + apply lookup_lt_Some in Hnull. exact Hnull.
    + intros d Hd. congruence.
Qed.

Lemma tidy_size_le (m : icsmap) : tidy m -> 0 <= size m <= capacity m.
Proof.
  intros Ht. pose proof (tidy_wf _ Ht) as Hwf.
  rewrite (wf_size _ Hwf). unfold live_count.
  pose proof (filter_length_le is_live (arr m)) as Hle.
  rewrite (wf_arr _ Hwf) in Hle.
  pose proof (wf_cap _ Hwf) as Hc. unfold cap_ok in Hc. lia.
Qed.

Lemma icsmap_put_tidy (m : icsmap) (k v : list byte) :
  tidy m ->
  capacity m <= 42949672 ->
  (Z.to_nat (keysize m) <= length k)%nat ->
  (Z.to_nat (valsize m) <= length v)%nat ->
  exists m',
    icsmap_put true true m (Ptr k) (Ptr v) = Ret (ICS_OK, m') /\
    tidy m' /\
    keysize m' = keysize m /\ valsize m' = valsize m /\
    size m' = match stored m (take (Z.to_nat (keysize m)) k) with
              | Some _ => size m
              | None => size m + 1
              end /\
    stored m' (take (Z.to_nat (keysize m)) k)
      = Some (take (Z.to_nat (valsize m)) v) /\
    (forall kb, kb <> take (Z.to_nat (keysize m)) k -> stored m' kb = stored m kb) /\
    ((is_overloaded m = Ret false /\ capacity m' = capacity m) \/
     (is_overloaded m = Ret true /\ 34 * capacity m <= 100 * size m /\
      ics_next_prime (u32 (capacity m * 2)) = Ret (capacity m'))).
Proof.
  intros Ht Hcap Hk Hv.
  pose proof (tidy_wf _ Ht) as Hwf. pose proof (wf_cap _ Hwf) as Hc.
  unfold cap_ok in Hc. pose proof (tidy_size_le _ Ht) as Hsz.
  assert (u32 (size m * 100) = size m * 100) as Hu
    by (unfold u32; apply Z.mod_small; lia).
  assert (exists m1,
            (let* (status, map) :=
               (if 34 * capacity m <=? 100 * size m
                then resize true m else Ret (ICS_OK, m)) in
             Ret (status, map)) = Ret (ICS_OK, m1) /\
            tidy m1 /\ size m1 = size m /\ size m1 < capacity m1 /\
            keysize m1 = keysize m /\ valsize m1 = valsize m /\
            (forall kb, stored m1 kb = stored m kb) /\
            ((34 * capacity m <=? 100 * size m) = false /\ m1 = m \/
             (34 * capacity m <=? 100 * size m) = true /\
             resize true m = Ret (ICS_OK, m1)))
    as (m1 & Hstep & Ht1 & Hs1 & Hroom & Hk1 & Hv1 & Hst1 & Hcase).
  { destruct (Z.leb_spec (34 * capacity m) (100 * size m)) as [Hov|Hno].
    - destruct (resize_tidy m Ht ltac:(lia) ltac:(lia))
        as (m1 & Hres & Ht1 & Hs1 & Hk1 & Hv1 & Hc1 & Hperm).
      exists m1. rewrite Hres. cbn [bind].
      split; [reflexivity|]. split; [exact Ht1|]. split; [exact Hs1|].
      split; [lia|]. split; [exact Hk1|]. split; [exact Hv1|].
      split; [|auto].
      intros kb. apply stored_perm; auto.
    - exists m. cbn [bind]. split; [reflexivity|]. split; [exact Ht|].
      split; [reflexivity|]. split; [lia|]. auto 10. }
  assert (is_overloaded m = Ret (34 * capacity m <=? 100 * size m)) as Hov.
  { unfold is_overloaded, ics_percent.
    destruct (Z.eqb_spec (capacity m) 0); [lia|]. cbn [bind]. f_equal.
    rewrite Hu. unfold LOAD_FACTOR.
    destruct (Z.ltb_spec 33 (size m * 100 / capacity m)) as [H|H];
      destruct (Z.leb_spec (34 * capacity m) (100 * size m)) as [H'|H'];
      try reflexivity; exfalso.
    - assert (size m * 100 / capacity m <= 33); [|lia].
      apply Z.lt_succ_r. apply Z.div_lt_upper_bound; lia.
    - assert (34 <= size m * 100 / capacity m); [|lia].
      apply Z.div_le_lower_bound; lia. }
  destruct (put_tail_tidy m1 k v Ht1 Hroom ltac:(rewrite Hk1; exact Hk)
              ltac:(rewrite Hv1; exact Hv))
    as (m' & Htail & Ht' & Hcfg & Hsize & Hsame & Hother).
  rewrite Hk1, Hv1 in *. rewrite Hst1, Hs1 in Hsize.
  assert (forall kb, kb <> take (Z.to_nat (keysize m)) k -> stored m' kb = stored m kb)
    as Hother'.
  { intros kb Hne. rewrite Hother by exact Hne. apply Hst1. }
  pose proof Hcfg as (Hcc & Hkk & Hvv & _).
  exists m'. split.
  { unfold icsmap_put. rewrite Hov. cbn [bind].
    destruct Hcase as [[Hb ->]|[Hb Hres]]; rewrite Hb.
    - cbn [bind ics_status_eqb negb]. exact Htail.
    - rewrite Hres. cbn [bind ics_status_eqb negb]. exact Htail. }
  split; [exact Ht'|]. split; [congruence|]. split; [congruence|].
  split; [exact Hsize|]. split; [exact Hsame|]. split; [exact Hother'|].
  destruct Hcase as [[Hb ->]|[Hb Hres]]; rewrite Hov, Hb.
  - left. auto.
  - right. split; [reflexivity|]. split; [apply Z.leb_le; exact Hb|].
    rewrite Hcc. apply (resize_inv _ _ _ _ Hres).
Qed.

(** X25.  On a tidy map of a capacity up to 42949672, a put whose
    allocations succeed, with a key buffer of [keysize] bytes or more and a
    value buffer of [valsize] bytes or more, always returns [ICS_OK] and
    leaves a tidy map.  The key is then stored with the new value, every
    other key is stored with the value it had or not stored as before, and
    count has grown by one exactly when the key was not stored. *)
Theorem X25_put_on_tidy_map (m : icsmap) (k v : list byte) :
  tidy m ->
  capacity m <= 42949672 ->
  (Z.to_nat (keysize m) <= length k)%nat ->
  (Z.to_nat (valsize m) <= length v)%nat ->
  exists m',
    icsmap_put true true m (Ptr k) (Ptr v) = Ret (ICS_OK, m') /\
    tidy m' /\
    icsmap_count m' = match stored m (take (Z.to_nat (keysize m)) k) with
                      | Some _ => icsmap_count m
                      | None => icsmap_count m + 1
                      end /\
    stored m' (take (Z.to_nat (keysize m)) k)
      = Some (take (Z.to_nat (valsize m)) v) /\
    (forall kb, kb <> take (Z.to_nat (keysize m)) k -> stored m' kb = stored m kb).
Proof.
  intros Ht Hcap Hk Hv.
  destruct (icsmap_put_tidy m k v Ht Hcap Hk Hv)
    as (m' & Hput & Ht' & _ & _ & Hsize & Hsame & Hother & _).
  exists m'. auto.
Qed.

Lemma fresh_map_tidy (cfg : icsmap_cfg) :
  0 <= cfg_keysize cfg -> 0 <= cfg_valsize cfg ->
  cfg_keysize cfg + cfg_valsize cfg < 2 ^ 32 ->
  cfg_get_key cfg = None ->
  tidy (fresh_map cfg).
Proof.
  intros Hk Hv Hsum Hg. split.
  - apply fresh_map_well_formed; assumption.
  - exact Hg.
  - exact Hsum.
  - intros x E. cbn [arr fresh_map] in E.
    apply lookup_replicate in E. destruct E; discriminate.
  - intros x e E Hl. cbn [arr fresh_map] in E.
    apply lookup_replicate in E. destruct E as [-> _]. discriminate.
Qed.

Lemma stored_fresh_map (cfg : icsmap_cfg) (kb : list byte) :
  stored (fresh_map cfg) kb = None.
Proof.
  apply stored_None. intros x d E. cbn [arr fresh_map] in E.
  apply lookup_replicate in E. destruct E; discriminate.
Qed.

Lemma map_1_of_13_tidy : tidy map_1_of_13.
Proof.
  destruct (icsmap_put_tidy (fresh_map cfg_char_int) key_a (int_le 1))
    as (m' & Hput & Ht' & _).
  - apply fresh_map_tidy; simpl; try lia. reflexivity.
  - simpl. unfold INITIAL_SIZE. lia.
  - simpl. lia.
  - simpl. lia.
  - assert (icsmap_put true true (fresh_map cfg_char_int) (Ptr key_a) (Ptr (int_le 1))
            = Ret (ICS_OK, map_1_of_13)) as E by reflexivity.
    rewrite E in Hput. injection Hput as <-. exact Ht'.
Qed.

Lemma X24_get_on_tidy_map_witness :
  icsmap_get map_1_of_13 (Ptr key_a) (int_le 0)
    = match stored map_1_of_13 (take (Z.to_nat (keysize map_1_of_13)) key_a) with
      | Some v => Ret (ICS_OK, v ++ drop (Z.to_nat (valsize map_1_of_13)) (int_le 0))
      | None => Ret (ICS_NOT_FOUND, int_le 0)
      end /\
  icsmap_contains map_1_of_13 (Ptr key_a)
    = Ret (match stored map_1_of_13 (take (Z.to_nat (keysize map_1_of_13)) key_a) with
           | Some _ => ICS_EXISTS
           | None => ICS_NOT_FOUND
           end) /\
  (forall v,
     stored map_1_of_13 (take (Z.to_nat (keysize map_1_of_13)) key_a) = Some v <->
     exists (x : nat) (d : list byte),
       arr map_1_of_13 !! x = Some (Ptr d) /\
       take (Z.to_nat (keysize map_1_of_13)) d
         = take (Z.to_nat (keysize map_1_of_13)) key_a /\
       v = take (Z.to_nat (valsize map_1_of_13))
             (drop (Z.to_nat (keysize map_1_of_13)) d)).
Proof.
  apply (X24_get_on_tidy_map map_1_of_13 key_a (int_le 0)).
  - exact map_1_of_13_tidy.
  - simpl. lia.
  - simpl. lia.
Defined.

Lemma X25_put_on_tidy_map_witness :
  exists m',
    icsmap_put true true map_1_of_13 (Ptr key_b) (Ptr (int_le 2)) = Ret (ICS_OK, m') /\
    tidy m' /\
    icsmap_count m'
      = match stored map_1_of_13 (take (Z.to_nat (keysize map_1_of_13)) key_b) with
        | Some _ => icsmap_count map_1_of_13
        | None => icsmap_count map_1_of_13 + 1
        end /\
    stored m' (take (Z.to_nat (keysize map_1_of_13)) key_b)
      = Some (take (Z.to_nat (valsize map_1_of_13)) (int_le 2)) /\
    (forall kb, kb <> take (Z.to_nat (keysize map_1_of_13)) key_b ->
       stored m' kb = stored map_1_of_13 kb).
Proof.
  apply (X25_put_on_tidy_map map_1_of_13 key_b (int_le 2)).
  - exact map_1_of_13_tidy.
  - simpl. lia.
  - simpl. lia.
  - simpl. lia.
Defined.

(** ** Runs of puts *)

Lemma prime_42949657 : Z.prime 42949657.
Proof.
  apply (prime_of_no_small_divisor 42949657 6554); try lia.
  intros d Hd.
  apply (no_divisor_from_below (Z.to_nat 6552) 42949657 2); [lia| |lia].
  vm_compute. reflexivity.
Qed.

(** A tidy map that has just been resized was overloaded: its capacity
    stays below the prime 42949657 while count stays below 7158277. *)
Lemma icsmap_put_tidy_capacity (m : icsmap) (k v : list byte) (m' : icsmap) :
  tidy m ->
  capacity m <= 42949657 -> size m <= 7158276 ->
  icsmap_put true true m (Ptr k) (Ptr v) = Ret (ICS_OK, m') ->
  (Z.to_nat (keysize m) <= length k)%nat ->
  (Z.to_nat (valsize m) <= length v)%nat ->
  capacity m' <= 42949657.
Proof.
  intros Ht Hcap Hsz Hput Hk Hv.
  destruct (icsmap_put_tidy m k v Ht ltac:(lia) Hk Hv)
    as (m2 & Hput2 & _ & _ & _ & _ & _ & _ & Hcase).
  assert (m2 = m') as -> by congruence.
  destruct Hcase as [[_ ->]|(_ & Hload & Hp)]; [exact Hcap|].
  pose proof (wf_cap _ (tidy_wf _ Ht)) as Hc. unfold cap_ok in Hc.
  destruct (ics_next_prime_double (capacity m) ltac:(lia))
    as (p & Hp' & _ & _ & _ & Hleast).
  assert (p = capacity m') as -> by congruence.
  apply Hleast; [exact prime_42949657|lia].
Qed.

Lemma put_all_tidy (ks vs : Z) (kvs : list (list byte * list byte)) :
  forall m : icsmap,
    tidy m -> keysize m = ks -> valsize m = vs ->
    capacity m <= 42949657 ->
    size m + Z.of_nat (length kvs) <= 7158276 ->
    Forall (fun kv => (Z.to_nat ks <= length (fst kv))%nat /\
                      (Z.to_nat vs <= length (snd kv))%nat) kvs ->
    exists m',
      put_all m kvs = Ret (ICS_OK, m') /\ tidy m' /\
      keysize m' = ks /\ valsize m' = vs /\
      size m <= size m' <= size m + Z.of_nat (length kvs) /\
      (forall kb, stored m' kb = bindings ks vs kvs (stored m) kb).
Proof.
  induction kvs as [|[k v] kvs IH]; intros m Ht Hks Hvs Hcap Hsz Hlen.
  - exists m. split; [reflexivity|]. split; [exact Ht|]. split; [exact Hks|].
    split; [exact Hvs|]. split; [simpl; lia|]. intros kb. reflexivity.
  - apply Forall_cons in Hlen. destruct Hlen as [[Hk Hv] Hlen]. simpl in Hk, Hv.
    pose proof (tidy_size_le _ Ht) as Hs0.
    destruct (icsmap_put_tidy m k v Ht ltac:(lia) ltac:(rewrite Hks; exact Hk)
                ltac:(rewrite Hvs; exact Hv))
      as (m1 & Hput & Ht1 & Hk1 & Hv1 & Hsize & Hsame & Hother & _).
    assert (size m <= size m1 <= size m + 1) as Hs1
      by (destruct (stored m _); lia).
    pose proof (icsmap_put_tidy_capacity m k v m1 Ht Hcap
                  ltac:(cbn [length] in Hsz; lia) Hput
                  ltac:(rewrite Hks; exact Hk) ltac:(rewrite Hvs; exact Hv)) as Hcap1.
    destruct (IH m1 Ht1 ltac:(congruence) ltac:(congruence) Hcap1
                ltac:(cbn [length] in Hsz; lia) Hlen)
      as (m' & Hrun & Ht' & Hk' & Hv' & Hs' & Hst').
    exists m'. cbn [put_all]. rewrite Hput. cbn [bind ics_status_eqb].
    split; [exact Hrun|]. split; [exact Ht'|]. split; [exact Hk'|].
    split; [exact Hv'|]. split; [cbn [length]; lia|].
    intros kb. rewrite Hst'. cbn [bindings].
    assert (forall f g : list byte -> option (list byte),
              (forall x, f x = g x) ->
              bindings ks vs kvs f kb = bindings ks vs kvs g kb) as Hext.
    { clear. induction kvs as [|[k v] kvs IH]; intros f g Hfg; cbn [bindings].
      - apply Hfg.
      - apply IH. intros x. rewrite Hfg. reflexivity. }
    apply Hext. intros x. rewrite Hks, Hvs in *.
    destruct (bytes_eqb x (take (Z.to_nat ks) k)) eqn:E.
    + apply bytes_eqb_eq in E. subst x. exact Hsame.
    + apply bytes_eqb_neq in E. apply Hother. exact E.
Qed.

(** X26.  Puts alone build a correct table.  From a fresh map without a
    resolver, a run of up to 7158276 puts whose allocations succeed, with
    key buffers of [keysize] bytes or more and value buffers of [valsize]
    bytes or more, returns [ICS_OK] at every put and leaves a tidy map:
    every key is stored with the value of its last put, no other key is
    stored, and get and contains answer accordingly. *)
Theorem X26_puts_build_the_table (cfg : icsmap_cfg)
    (kvs : list (list byte * list byte)) :
  cfg_get_key cfg = None ->
  0 <= cfg_keysize cfg -> 0 <= cfg_valsize cfg ->
  cfg_keysize cfg + cfg_valsize cfg < 2 ^ 32 ->
  Z.of_nat (length kvs) <= 7158276 ->
  Forall (fun kv => (Z.to_nat (cfg_keysize cfg) <= length (fst kv))%nat /\
                    (Z.to_nat (cfg_valsize cfg) <= length (snd kv))%nat) kvs ->
  exists m,
    put_all (fresh_map cfg) kvs = Ret (ICS_OK, m) /\
    tidy m /\
    0 <= icsmap_count m <= Z.of_nat (length kvs) /\
    (forall kb,
       stored m kb
         = bindings (cfg_keysize cfg) (cfg_valsize cfg) kvs (fun _ => None) kb) /\
    (forall k out : list byte,
       (Z.to_nat (cfg_keysize cfg) <= length k)%nat ->
       (Z.to_nat (cfg_valsize cfg) <= length out)%nat ->
       icsmap_get m (Ptr k) out
         = match bindings (cfg_keysize cfg) (cfg_valsize cfg) kvs (fun _ => None)
                   (take (Z.to_nat (cfg_keysize cfg)) k) with
           | Some v => Ret (ICS_OK, v ++ drop (Z.to_nat (cfg_valsize cfg)) out)
           | None => Ret (ICS_NOT_FOUND, out)
           end).
Proof.
  intros Hg Hk Hv Hsum Hn Hlen.
  pose proof (fresh_map_tidy cfg Hk Hv Hsum Hg) as Ht0.
  destruct (put_all_tidy (cfg_keysize cfg) (cfg_valsize cfg) kvs (fresh_map cfg)
              Ht0 eq_refl eq_refl)
    as (m & Hrun & Ht & Hkm & Hvm & Hsz & Hst); auto.
  { simpl. unfold INITIAL_SIZE. lia. }
  exists m. split; [exact Hrun|]. split; [exact Ht|].
  assert (forall kb, stored m kb
            = bindings (cfg_keysize cfg) (cfg_valsize cfg) kvs (fun _ => None) kb)
    as Hst'.
  { intros kb. rewrite Hst.
    assert (forall f g : list byte -> option (list byte),
              (forall x, f x = g x) ->
              bindings (cfg_keysize cfg) (cfg_valsize cfg) kvs f kb
                = bindings (cfg_keysize cfg) (cfg_valsize cfg) kvs g kb) as Hext.
    { clear. induction kvs as [|[k v] kvs IH]; intros f g Hfg; cbn [bindings].
      - apply Hfg.
      - apply IH. intros x. rewrite Hfg. reflexivity. }
    apply Hext. intros x. apply stored_fresh_map. }
  split; [unfold icsmap_count; simpl in Hsz; lia|].
  split; [exact Hst'|].
  intros k out Hkl Hol.
  rewrite (tidy_get m k out Ht) by (rewrite ?Hkm, ?Hvm; assumption).
  rewrite Hkm, Hvm, Hst'. reflexivity.
Qed.

Lemma X26_puts_build_the_table_witness :
  exists m,
    put_all (fresh_map cfg_char_int) abc_puts = Ret (ICS_OK, m) /\
    tidy m /\
    0 <= icsmap_count m <= Z.of_nat (length abc_puts) /\
    (forall kb,
       stored m kb
         = bindings (cfg_keysize cfg_char_int) (cfg_valsize cfg_char_int) abc_puts
             (fun _ => None) kb) /\
    (forall k out : list byte,
       (Z.to_nat (cfg_keysize cfg_char_int) <= length k)%nat ->
       (Z.to_nat (cfg_valsize cfg_char_int) <= length out)%nat ->
       icsmap_get m (Ptr k) out
         = match bindings (cfg_keysize cfg_char_int) (cfg_valsize cfg_char_int)
                   abc_puts (fun _ => None)
                   (take (Z.to_nat (cfg_keysize cfg_char_int)) k) with
           | Some v => Ret (ICS_OK, v ++ drop (Z.to_nat (cfg_valsize cfg_char_int)) out)
           | None => Ret (ICS_NOT_FOUND, out)
           end).
Proof.
  apply (X26_puts_build_the_table cfg_char_int abc_puts).
  - reflexivity.
  - simpl. lia.
  - simpl. lia.
  - simpl. lia.
  - simpl. lia.
  - repeat constructor; simpl; lia.
Defined.

(** ** Export and the stored bindings *)

(** X27.  On a tidy map [icsmap_all] exports the stored bindings: the key
    buffer and the value buffer it returns are the keys and the values of a
    list of [count] pairs with pairwise distinct keys, and a pair is in the
    list exactly when the map stores that value under that key. *)
Theorem X27_export_lists_stored_bindings (m : icsmap) (keys vals : list byte) :
  tidy m ->
  size m * keysize m < 2 ^ 32 ->
  size m * valsize m < 2 ^ 32 ->
  Z.of_nat (length keys) = size m * keysize m ->
  Z.of_nat (length vals) = size m * valsize m ->
  exists pairs : list (list byte * list byte),
    icsmap_all m keys vals
      = Ret (concat (List.map fst pairs), concat (List.map snd pairs)) /\
    Z.of_nat (length pairs) = icsmap_count m /\
    List.NoDup (List.map fst pairs) /\
    (forall kb v, In (kb, v) pairs <-> stored m kb = Some v).
Proof.
  intros Ht Hks Hvs Lk Lv. pose proof (tidy_wf _ Ht) as Hwf.
  exists (List.map (fun e => (key_of m e, val_of m e)) (List.filter is_live (arr m))).
  rewrite !List.map_map. cbn [fst snd].
  split; [apply icsmap_all_returns; assumption|].
  split.
  { rewrite length_map. unfold icsmap_count. rewrite (wf_size _ Hwf). reflexivity. }
  split; [apply tidy_distinct_keys; exact Ht|].
  intros kb v. split.
  - intros Hin. apply in_map_iff in Hin. destruct Hin as (e & [= <- <-] & Hin).
    apply List.filter_In in Hin. destruct Hin as [Hin Hl].
    apply is_live_Ptr in Hl as [d ->].
    apply list_elem_of_In, list_elem_of_lookup_1 in Hin. destruct Hin as [x Hx].
    rewrite key_of_Ptr, val_of_Ptr. apply (tidy_stored m x d Ht Hx).
  - intros Hs. apply stored_Some in Hs. destruct Hs as (x & d & Hx & <- & ->).
    apply in_map_iff. exists (Ptr d). split; [reflexivity|].
    apply (live_slot_in_filter _ x); auto.
Qed.

Lemma X27_export_lists_stored_bindings_witness :
  exists pairs : list (list byte * list byte),
    icsmap_all map_1_of_13 (replicate 1 x00) (replicate 4 x00)
      = Ret (concat (List.map fst pairs), concat (List.map snd pairs)) /\
    Z.of_nat (length pairs) = icsmap_count map_1_of_13 /\
    List.NoDup (List.map fst pairs) /\
    (forall kb v, In (kb, v) pairs <-> stored map_1_of_13 kb = Some v).
Proof.
  apply (X27_export_lists_stored_bindings map_1_of_13
           (replicate 1 x00) (replicate 4 x00)).
  - exact map_1_of_13_tidy.
  - simpl. lia.
  - simpl. lia.
  - reflexivity.
  - reflexivity.
Defined.

(** ** Allocation failures outside [resize] *)

(** X28.  When a put does not resize and runs out of memory, the map is
    left exactly as it was: [ICS_NO_MEMORY] then means that the record
    allocation failed on the way to a new slot.  A put of a key that
    [find_hole] reports as existing allocates nothing and returns
    [ICS_OK] whether memory is left or not. *)
Theorem X28_put_without_memory (arr_ok entry_ok : bool) (m : icsmap)
    (key val : map_entry) (st : ics_status) (m' : icsmap) :
  is_overloaded m = Ret false ->
  icsmap_put arr_ok entry_ok m key val = Ret (st, m') ->
  (st = ICS_NO_MEMORY ->
   m' = m /\ entry_ok = false /\ exists j, find_hole m key = Ret (ICS_OK, j)) /\
  (forall j, find_hole m key = Ret (ICS_EXISTS, j) -> st = ICS_OK) /\
  (entry_ok = true -> st = ICS_OK).
Proof.
  intros Hov H. unfold icsmap_put in H. rewrite Hov in H.
  cbn [bind ics_status_eqb negb] in H.
  destruct (find_hole m key) as [[s j]|f] eqn:Hfind; cbn [bind] in H; [|discriminate].
  pose proof (find_hole_status _ _ _ _ Hfind) as Hs.
  destruct Hs as [-> | ->]; cbn [ics_status_eqb] in H.
  - destruct entry_ok; cbn [malloc is_empty] in H.
    + bind_inv H. injection H as <- _.
      split; [discriminate|]. split; [discriminate|reflexivity].
    + injection H as <- <-.
      split; [eauto|]. split; [discriminate|discriminate].
  - bind_inv H. bind_inv H. injection H as <- _.
    split; [discriminate|]. split; reflexivity.
Qed.

Lemma X28_put_without_memory_witness :
  (ICS_NO_MEMORY = ICS_NO_MEMORY ->
   map_1_of_13 = map_1_of_13 /\ false = false /\
   exists j, find_hole map_1_of_13 (Ptr key_b) = Ret (ICS_OK, j)) /\
  (forall j, find_hole map_1_of_13 (Ptr key_b) = Ret (ICS_EXISTS, j) ->
             ICS_NO_MEMORY = ICS_OK) /\
  (false = true -> ICS_NO_MEMORY = ICS_OK).
Proof.
  apply (X28_put_without_memory true false map_1_of_13 (Ptr key_b) (Ptr (int_le 2))
           ICS_NO_MEMORY map_1_of_13).
  - reflexivity.
  - reflexivity.
Defined.

(** ** examples/ex_basic_ops.c: the letter count *)

Lemma int_incr_int_le (n : Z) :
  0 <= n < 2 ^ 32 -> int_incr (int_le n) = int_le (n + 1).
Proof. intros Hn. unfold int_incr. rewrite le_int_int_le by exact Hn. reflexivity. Qed.

Lemma count_occ_snoc (s : list byte) (c c' : byte) :
  count_occ Byte.byte_eq_dec (s ++ [c]) c'
    = (count_occ Byte.byte_eq_dec s c' + (if Byte.byte_eq_dec c c' then 1 else 0))%nat.
Proof.
  rewrite count_occ_app. cbn [count_occ].
  destruct (Byte.byte_eq_dec c c'); reflexivity.
Qed.

Lemma count_letters_spec (tail : list byte) (s : list byte) :
  forall (s0 : list byte) (m0 : icsmap) (val0 : list byte),
    tidy m0 -> keysize m0 = 1 -> valsize m0 = 4 ->
    capacity m0 <= 42949657 ->
    size m0 <= Z.of_nat (length s0) ->
    Z.of_nat (length s0 + length s) <= 7158276 ->
    (forall c, stored m0 [c] = letter_count (count_occ Byte.byte_eq_dec s0 c)) ->
    length val0 = 4%nat ->
    Forall (fun c => c <> x00) s ->
    exists (m : icsmap) (val : list byte),
      count_letters (s ++ x00 :: tail) m0 val0 = Ret (0, (m, val)) /\
      tidy m /\ keysize m = 1 /\ valsize m = 4 /\
      size m <= Z.of_nat (length s0 + length s) /\
      (forall c, stored m [c]
                 = letter_count (count_occ Byte.byte_eq_dec (s0 ++ s) c)).
Proof.
  induction s as [|c s IH]; intros s0 m0 val0 Ht Hks Hvs Hcap Hsz Hn Hst Hval Hnz.
  - exists m0, val0. cbn [app count_letters]. 
    split; [reflexivity|]. split; [exact Ht|]. split; [exact Hks|].
    split; [exact Hvs|]. split; [lia|]. rewrite app_nil_r. exact Hst.
  - apply Forall_cons in Hnz. destruct Hnz as [Hc Hnz].
    cbn [app count_letters].
    destruct (Byte.eqb c x00) eqn:Ec; [apply Byte.byte_dec_bl in Ec; congruence|].
    set (n := count_occ Byte.byte_eq_dec s0 c).
    assert (Z.of_nat n < 7158276) as Hn1.
    { pose proof (count_occ_bound Byte.byte_eq_dec c s0). cbn [length] in Hn.
      fold n in H. lia. }
    assert ((let* (status, val) := icsmap_get m0 (Ptr [c]) val0 in
             Ret (count_letters_val status val))
              = Ret (Some (int_le (Z.of_nat n + 1)))) as Hget.
    { rewrite (tidy_get m0 [c] val0 Ht) by (rewrite ?Hks, ?Hvs, ?Hval; simpl; lia).
      rewrite Hks. change (take (Z.to_nat 1) [c]) with [c]. rewrite Hst. fold n.
      unfold letter_count. destruct (Nat.eqb_spec n 0) as [->|Hpos].
      - reflexivity.
      - cbn [bind count_letters_val]. rewrite Hvs.
        rewrite drop_ge by (rewrite Hval; simpl; lia). rewrite app_nil_r.
        rewrite int_incr_int_le by lia. reflexivity. }
    destruct (icsmap_get m0 (Ptr [c]) val0) as [[st val]|f]; cbn [bind] in Hget |- *;
      [|discriminate].
    injection Hget as Hget. rewrite Hget.
    set (val1 := int_le (Z.of_nat n + 1)).
    assert (length val1 = 4%nat) as Lval1 by apply int_le_length.
    destruct (icsmap_put_tidy m0 [c] val1 Ht ltac:(lia)
                ltac:(rewrite Hks; simpl; lia) ltac:(rewrite Hvs, Lval1; simpl; lia))
      as (m1 & Hput & Ht1 & Hk1 & Hv1 & Hsize & Hsame & Hother & _).
    pose proof (icsmap_put_tidy_capacity m0 [c] val1 m1 Ht Hcap
                  ltac:(cbn [length] in Hn; lia) Hput
                  ltac:(rewrite Hks; simpl; lia)
                  ltac:(rewrite Hvs, Lval1; simpl; lia)) as Hcap1.
    rewrite Hput. cbn [bind ics_status_eqb negb].
    rewrite Hks, Hvs in *. change (take (Z.to_nat 1) [c]) with [c] in *.
    rewrite take_ge in Hsame by (rewrite Lval1; simpl; lia).
    destruct (IH (s0 ++ [c]) m1 val1 Ht1 ltac:(congruence) ltac:(congruence) Hcap1)
      as (m & valm & Hrun & Htm & Hkm & Hvm & Hszm & Hstm); auto.
    + rewrite length_app. cbn [length].
      destruct (stored m0 [c]); lia.
    + rewrite length_app. cbn [length] in *. lia.
    + intros c'. rewrite count_occ_snoc.
      destruct (Byte.byte_eq_dec c c') as [<-|Hne].
      * rewrite Hsame. fold n. unfold letter_count, val1.
        destruct (Nat.eqb_spec (n + 1) 0); [lia|]. do 2 f_equal. lia.
      * rewrite Nat.add_0_r. rewrite Hother by congruence. apply Hst.
    + exists m, valm. split; [exact Hrun|]. split; [exact Htm|].
      split; [exact Hkm|]. split; [exact Hvm|]. split.
      * rewrite length_app in Hszm. cbn [length] in *. lia.
      * intros c'. rewrite Hstm, <- app_assoc. reflexivity.
Qed.

(** X29.  The letter count of examples/ex_basic_ops.c is right.  For every
    string of up to 7158276 bytes before its terminating zero, the loop of
    [main] runs to the end of the string on a fresh [char -> int] map and
    leaves a tidy map in which a byte is stored exactly when it occurs in
    the string, with the number of its occurrences as value: get copies
    out that number, and answers [ICS_NOT_FOUND] for a byte that does not
    occur. *)
Theorem X29_letter_count (s tail val0 : list byte) :
  Forall (fun c => c <> x00) s ->
  Z.of_nat (length s) <= 7158276 ->
  length val0 = 4%nat ->
  exists (m : icsmap) (val : list byte),
    count_letters (s ++ x00 :: tail) (fresh_map cfg_char_int) val0
      = Ret (0, (m, val)) /\
    tidy m /\
    icsmap_count m <= Z.of_nat (length s) /\
    (forall c, stored m [c] = letter_count (count_occ Byte.byte_eq_dec s c)) /\
    (forall (c : byte) (out : list byte),
       length out = 4%nat ->
       icsmap_get m (Ptr [c]) out
         = if (count_occ Byte.byte_eq_dec s c =? 0)%nat
           then Ret (ICS_NOT_FOUND, out)
           else Ret (ICS_OK, int_le (Z.of_nat (count_occ Byte.byte_eq_dec s c)))).
Proof.
  intros Hnz Hlen Hval.
  assert (tidy (fresh_map cfg_char_int)) as Ht0.
  { apply fresh_map_tidy; simpl; try lia. reflexivity. }
  assert (capacity (fresh_map cfg_char_int) <= 42949657) as Hc0
    by (simpl; unfold INITIAL_SIZE; lia).
  assert (size (fresh_map cfg_char_int) <= Z.of_nat (length (@nil byte))) as Hs0
    by (simpl; lia).
  assert (Z.of_nat (length (@nil byte) + length s) <= 7158276) as Hn0
    by (simpl; lia).
  destruct (count_letters_spec tail s [] (fresh_map cfg_char_int) val0
              Ht0 eq_refl eq_refl Hc0 Hs0 Hn0
              (fun c => stored_fresh_map cfg_char_int [c]) Hval Hnz)
    as (m & val & Hrun & Ht & Hk & Hv & Hsz & Hst).
  cbn [app length Nat.add] in Hsz, Hst.
  exists m, val. split; [exact Hrun|]. split; [exact Ht|].
  split; [exact Hsz|]. split; [exact Hst|].
  intros c out Hout.
  rewrite (tidy_get m [c] out Ht) by (rewrite ?Hk, ?Hv, ?Hout; simpl; lia).
  rewrite Hk, Hv. change (take (Z.to_nat 1) [c]) with [c]. rewrite Hst.
  unfold letter_count.
  destruct (count_occ Byte.byte_eq_dec s c =? 0)%nat; [reflexivity|].
  rewrite drop_ge by (rewrite Hout; simpl; lia). rewrite app_nil_r. reflexivity.
Qed.

Lemma X29_letter_count_witness :
  exists (m : icsmap) (val : list byte),
    count_letters (countme ++ x00 :: []) (fresh_map cfg_char_int) (int_le 0)
      = Ret (0, (m, val)) /\
    tidy m /\
    icsmap_count m <= Z.of_nat (length countme) /\
    (forall c, stored m [c] = letter_count (count_occ Byte.byte_eq_dec countme c)) /\
    (forall (c : byte) (out : list byte),
       length out = 4%nat ->
       icsmap_get m (Ptr [c]) out
         = if (count_occ Byte.byte_eq_dec countme c =? 0)%nat
           then Ret (ICS_NOT_FOUND, out)
           else Ret (ICS_OK,
                     int_le (Z.of_nat (count_occ Byte.byte_eq_dec countme c)))).
Proof.
  apply (X29_letter_count countme [] (int_le 0)).
  - unfold countme. repeat (constructor; [discriminate|]). constructor.
  - simpl. lia.
  - reflexivity.
Defined.

Lemma ics_memcpy_from_Stop (d : list byte) (off : nat) (s : map_entry) (n : nat) :
  forall (d0 : list byte) (i : nat) (f : failure),
    ics_memcpy_from d0 off s i n = Stop f -> f = InvalidRead \/ f = InvalidWrite.
Proof.
  induction n as [|n IH]; intros d0 i f H; simpl in H; [discriminate|].
  destruct (load s i) as [b|fl] eqn:El; cbn [bind] in H.
  2:{ injection H as <-. left.
      destruct s as [| |bs]; simpl in El; try congruence.
      destruct (bs !! i); congruence. }
  unfold store in H. destruct (off + i <? length d0)%nat; cbn [bind] in H.
  - eapply IH. exact H.
  - injection H as <-. auto.
Qed.

Lemma init_map_entry_not_NoExit (m : icsmap) (e key val : map_entry) :
  init_map_entry m e key val <> Stop NoExit.
Proof.
  unfold init_map_entry. destruct e as [| |d]; try discriminate.
  unfold ics_memcpy.
  destruct (ics_memcpy_from d 0 key 0 (Z.to_nat (keysize m))) as [d1|f] eqn:E1;
    cbn [bind].
  2:{ intros [= ->]. apply (ics_memcpy_from_Stop d) in E1. destruct E1; discriminate. }
  destruct (ics_memcpy_from d1 (Z.to_nat (keysize m)) val 0 (Z.to_nat (valsize m)))
    as [d2|f] eqn:E2; cbn [bind]; [discriminate|].
  intros [= ->]. apply (ics_memcpy_from_Stop d) in E2. destruct E2; discriminate.
Qed.

(** ** When the hole probe ends *)

(** The loop of [find_hole] leaves at the first slot that is not Occupied:
    with one less than [n] slots away, [n] rounds are enough. *)
Lemma find_hole_loop_exits (m : icsmap) (k : map_key) (ks h : Z) :
  cap_ok m -> 0 <= h < capacity m ->
  (forall p, get_key m p <> Stop NoExit) ->
  forall (n s t : nat) (e : map_entry),
    (t < n)%nat ->
    arr m !! Z.to_nat ((h + Z.of_nat (s + t)) mod capacity m) = Some e ->
    is_live e = false ->
    find_hole_loop n m k ks ((h + Z.of_nat s) mod capacity m) <> Stop NoExit.
Proof.
  intros Hc Hh Hres n. induction n as [|n IH]; intros s t e Ht He Hdead; [lia|].
  cbn [find_hole_loop]. unfold arr_at.
  destruct (arr m !! Z.to_nat ((h + Z.of_nat s) mod capacity m)) as [e0|] eqn:E0;
    cbn [bind]; [|discriminate].
  destruct (is_empty e0) eqn:Hemp; [discriminate|].
  destruct (get_key m (map_entry_key m e0)) as [[c cs]|f] eqn:Eg; cbn [bind].
  2:{ intros [= ->]. apply (Hres (map_entry_key m e0)). exact Eg. }
  destruct (cs =? ks); cbn [assert bind]; [|discriminate].
  destruct (is_deleted e0) eqn:Hdel; [discriminate|].
  destruct (ics_equal c k ks) as [[|]|f] eqn:Ee; cbn [bind].
  - discriminate.
  - fold (probe_next m ((h + Z.of_nat s) mod capacity m)).
    rewrite probe_next_small by (auto; apply Z.mod_pos_bound; apply Hc).
    rewrite Zplus_mod_idemp_l.
    replace (h + Z.of_nat s + 1) with (h + Z.of_nat (S s)) by lia.
    destruct t as [|t].
    + exfalso. rewrite Nat.add_0_r in He.
      assert (e0 = e) as -> by congruence.
      destruct e; simpl in *; discriminate.
    + apply (IH (S s) t e); [lia| |exact Hdead].
      replace (S s + t)%nat with (s + S t)%nat by lia. exact He.
  - intros [= ->]. apply ics_equal_from_Stop in Ee. discriminate.
Qed.

(** X30.  The hole probe ends while a slot is free.  On a map whose
    array has [capacity] slots, one of them not Occupied, and whose
    resolver returns, [find_hole] does not loop forever, and neither does a
    put that finds the map not overloaded. *)
Theorem X30_find_hole_ends_with_a_free_slot (m : icsmap) (key : map_key) :
  cap_ok m ->
  length (arr m) = Z.to_nat (capacity m) ->
  (forall p, get_key m p <> Stop NoExit) ->
  (length (List.filter is_live (arr m)) < length (arr m))%nat ->
  find_hole m key <> Stop NoExit /\
  (forall (arr_ok entry_ok : bool) (val : map_entry),
     is_overloaded m = Ret false ->
     icsmap_put arr_ok entry_ok m key val <> Stop NoExit).
Proof.
  intros Hc Hlen Hres Hroom.
  assert (find_hole m key <> Stop NoExit) as Hfind.
  { unfold find_hole.
    destruct (get_key m key) as [[k ks]|f] eqn:Eg; cbn [bind].
    2:{ intros [= ->]. apply (Hres key). exact Eg. }
    destruct (hash m k ks) as [h|f] eqn:Eh; cbn [bind].
    2:{ intros [= ->]. apply hash_Stop in Eh. destruct Eh; discriminate. }
    assert (0 <= capacity m) as Hc0 by (unfold cap_ok in Hc; lia).
    pose proof (hash_Ret_pos m k ks h Hc0 Eh) as Hh.
    destruct (Z.ltb_spec h (capacity m)) as [_|]; [|lia]. cbn [assert bind].
    destruct (exists_dead_slot _ Hroom) as (x & e & Hx & Hdead).
    pose proof (lookup_lt_Some _ _ _ Hx) as Hxl. rewrite Hlen in Hxl.
    set (t := Z.to_nat ((Z.of_nat x - h) mod capacity m)).
    pose proof (Z.mod_pos_bound (Z.of_nat x - h) (capacity m) ltac:(lia)) as Ht.
    pose proof (find_hole_loop_exits m k ks h Hc Hh Hres
                  (Z.to_nat (capacity m)) 0 t e ltac:(unfold t; lia)) as H.
    change (Z.of_nat 0) with 0 in H. rewrite Z.add_0_r in H.
    rewrite (Z.mod_small h) in H by lia.
    apply H; [|exact Hdead].
    replace ((h + Z.of_nat (0 + t)) mod capacity m) with (Z.of_nat x);
      [rewrite Nat2Z.id; exact Hx|].
    unfold t. cbn [Nat.add]. rewrite Z2Nat.id by lia.
    rewrite Zplus_mod_idemp_r.
    replace (h + (Z.of_nat x - h)) with (Z.of_nat x) by lia.
    symmetry. apply Z.mod_small. lia. }
  split; [exact Hfind|].
  - intros arr_ok entry_ok val Hov. unfold icsmap_put. rewrite Hov.
    cbn [bind ics_status_eqb negb].
    destruct (find_hole m key) as [[st j]|f] eqn:Ef; cbn [bind];
      [|intros [= ->]; apply Hfind; reflexivity].
    destruct (ics_status_eqb st ICS_EXISTS).
    + destruct (arr_at m j) as [e|f] eqn:Ea; cbn [bind].
      2:{ unfold arr_at in Ea.
          destruct (arr m !! Z.to_nat j); [discriminate|injection Ea as <-; discriminate]. }
      destruct (init_map_entry m e key val) as [r|f] eqn:Ei; cbn [bind];
        [discriminate|].
      intros [= ->]. revert Ei. apply init_map_entry_not_NoExit.
    + destruct (is_empty (malloc entry_ok (entry_size m))); [discriminate|].
      destruct (init_map_entry m (malloc entry_ok (entry_size m)) key val)
        as [r|f] eqn:Ei; cbn [bind]; [discriminate|].
      intros [= ->]. revert Ei. apply init_map_entry_not_NoExit.
Qed.

Lemma X30_find_hole_ends_with_a_free_slot_witness :
  find_hole map_2_of_13 (Ptr key_b) <> Stop NoExit /\
  (forall (arr_ok entry_ok : bool) (val : map_entry),
     is_overloaded map_2_of_13 = Ret false ->
     icsmap_put arr_ok entry_ok map_2_of_13 (Ptr key_b) val <> Stop NoExit).
Proof.
  apply (X30_find_hole_ends_with_a_free_slot map_2_of_13 (Ptr key_b)).
  - unfold cap_ok. simpl. lia.
  - reflexivity.
  - intros p. discriminate.
  - simpl. lia.
Defined.
